(** * ELL: graph ports, transformation policy and the parallel lowering
      of the binary-convolution nodes

    A shallow embedding of the parts of the Embedded Learning Library that
    the specification talks about:

    - [InputPort.cpp]: the input-port side of the port graph;
    - [IRHeaderWriter.cpp]: the filter that selects the exported functions;
    - [BinaryConvolutionalLayerNode.cpp]: [CeilDiv], the task-splitting of
      [BinaryReceptiveFieldMatrixNode::Compile] and [BinaryXnorNode::Compile],
      and the code they emit;
    - [ModelTransformer.h]: the node-action policy and the copy elision of
      in-place grafts (declarations and documentation only);
    - [HuberLoss.h]: the loss, its derivative and its conjugate on binary64
      numbers.
*)

From Stdlib Require Import ZArith Lia List Bool String Ascii DecimalString.
From Stdlib Require Floats.
From stdpp Require Import gmap strings list fin_maps.

Local Open Scope Z_scope.

(** ** C++ [int] arithmetic

    An [int] is a 32-bit two's-complement integer, held as a [Z] in
    [[INT_MIN, INT_MAX]].  Addition, subtraction and multiplication wrap;
    division truncates toward zero and has no result for a zero divisor (or
    for [INT_MIN / -1]). *)
Module MachineInt.

Definition INT_MIN : Z := -2147483648.
Definition INT_MAX : Z := 2147483647.

Definition wrap (z : Z) : Z := (z + 2147483648) mod 4294967296 - 2147483648.

Definition int_add (a b : Z) : Z := wrap (a + b).
Definition int_sub (a b : Z) : Z := wrap (a - b).
Definition int_mul (a b : Z) : Z := wrap (a * b).

Definition int_div (a b : Z) : option Z :=
  if (b =? 0) || ((a =? INT_MIN) && (b =? -1)) then None
  else Some (Z.quot a b).

Definition int_min (a b : Z) : Z := if b <? a then b else a.

Definition is_int (z : Z) : Prop := INT_MIN <= z <= INT_MAX.

End MachineInt.

(** ** Task splitting ([BinaryConvolutionalLayerNode.cpp]) *)
Module TaskSplit.
Import MachineInt.

(** [int CeilDiv(int a, int b) { return (a - 1) / b + 1; }] *)
Definition CeilDiv (a b : Z) : option Z :=
  q ← int_div (int_sub a 1) b; Some (int_add q 1).

(** The counter values of [for (int i = 0; i < n; ++i)]. *)
Definition loop_indices (n : Z) : list Z :=
  map Z.of_nat (seq 0 (Z.to_nat n)).

(** The [start] and [end] literals pushed for one [taskIndex]:
    [start = taskIndex * taskSize],
    [end = std::min((taskIndex + 1) * taskSize, numOutputRows)]. *)
Definition taskRange (taskSize total taskIndex : Z) : Z * Z :=
  (int_mul taskIndex taskSize,
   int_min (int_mul (int_add taskIndex 1) taskSize) total).

(** The loop that fills [taskArgs]. *)
Definition taskRanges (taskSize numTasks total : Z) : list (Z * Z) :=
  map (taskRange taskSize total) (loop_indices numTasks).

(** [taskSize] and [numTasks] as both [Compile] functions compute them. *)
Definition splitTasks (total numDesiredTasks : Z) : option (Z * Z) :=
  taskSize ← CeilDiv total numDesiredTasks;
  numTasks ← CeilDiv total taskSize;
  Some (taskSize, numTasks).

(** The mathematical ceiling of [a / b] for [b > 0]. *)
Definition ceil_div (a b : Z) : Z := - ((- a) / b).

(** [tiles lo hi rs]: the half-open ranges [rs] are non-empty, each starts
    where the previous one ended, the first starts at [lo] and the last
    ends at [hi]. *)
Inductive tiles : Z -> Z -> list (Z * Z) -> Prop :=
| tiles_nil lo : tiles lo lo []
| tiles_cons lo mid hi rs :
    lo < mid -> tiles mid hi rs -> tiles lo hi ((lo, mid) :: rs).

Definition in_range (x : Z) (r : Z * Z) : Prop := r.1 <= x < r.2.

Definition disjoint_ranges (r1 r2 : Z * Z) : Prop :=
  forall x, ~ (in_range x r1 /\ in_range x r2).

End TaskSplit.

(** ** Exceptions ([utilities::LogicException]) *)
Module Exceptions.

Inductive LogicExceptionErrors := illegalState | notImplemented.

Inductive Exception :=
| LogicException (error : LogicExceptionErrors) (message : string).

(** The outcome of a call that may throw. *)
Inductive Result (A : Type) :=
| Returns (a : A)
| Throws (e : Exception).
Arguments Returns {A} a.
Arguments Throws {A} e.

Definition raises {A} (r : Result A) (error : LogicExceptionErrors) : Prop :=
  exists message, r = Throws (LogicException error message).

End Exceptions.

(** ** Ports ([InputPort.cpp])

    Port objects live in a store and are named by their address.  The
    [_referencedPort] pointer of an input port is [None] for [nullptr]. *)
Module Ports.
Import Exceptions.

Record OutputPortBase := mkOutputPort {
  _size : Z;
  _references : gset positive
}.

Record InputPortBase := mkInputPort {
  _referencedPort : option positive
}.

Record PortStore := mkPortStore {
  inputs : gmap positive InputPortBase;
  outputs : gmap positive OutputPortBase
}.

(** The field [this->_referencedPort]. *)
Definition referencedPort (s : PortStore) (this : positive) : option positive :=
  p ← inputs s !! this; _referencedPort p.

Definition set_referencedPort (s : PortStore) (this : positive)
    (input : option positive) : PortStore :=
  mkPortStore (<[this := mkInputPort input]> (inputs s)) (outputs s).

(** Modelled from the spec: [OutputPortBase::AddReference], whose file
    (OutputPort.cpp, with [RemoveReference], [HasReference] and [Size]) is
    not among the sources.  An output port "maintains the set of
    [InputPort]s that reference it"; by binding "the output's reference set
    gains the input". *)
Definition AddReference (s : PortStore) (port reference : positive) : PortStore :=
  mkPortStore (inputs s)
    (alter (fun o => mkOutputPort (_size o) ({[reference]} ∪ _references o))
           port (outputs s)).

(** Modelled from the spec: [OutputPortBase::RemoveReference]; "unbinding
    removes" the input from the output's reference set. *)
Definition RemoveReference (s : PortStore) (port reference : positive) : PortStore :=
  mkPortStore (inputs s)
    (alter (fun o => mkOutputPort (_size o) (_references o ∖ {[reference]}))
           port (outputs s)).

(** Modelled from the spec: [OutputPortBase::HasReference], membership in
    "the set of [InputPort]s that reference" the output port. *)
Definition HasReference (s : PortStore) (port reference : positive) : bool :=
  match outputs s !! port with
  | Some o => bool_decide (reference ∈ _references o)
  | None => false
  end.

(** Modelled from the spec: [OutputPortBase::Size]; an output port "owns
    the logical value it produces (type, size, memory layout)". *)
Definition OutputPort_Size (s : PortStore) (port : positive) : Z :=
  match outputs s !! port with
  | Some o => _size o
  | None => 0
  end.

(** [bool InputPortBase::IsValid() const] *)
Definition IsValid (s : PortStore) (this : positive) : bool :=
  match referencedPort s this with
  | Some _ => true
  | None => false
  end.

(** [const OutputPortBase& InputPortBase::GetReferencedPort() const] *)
Definition GetReferencedPort (s : PortStore) (this : positive) : Result positive :=
  if negb (IsValid s this) then
    Throws (LogicException illegalState "Error: empty input port.")
  else
    match referencedPort s this with
    | Some port => Returns port
    | None => Throws (LogicException illegalState "Error: empty input port.")
    end.

(** [size_t InputPortBase::Size() const] *)
Definition Size (s : PortStore) (this : positive) : Result Z :=
  if negb (IsValid s this) then Returns 0
  else
    match GetReferencedPort s this with
    | Returns port => Returns (OutputPort_Size s port)
    | Throws e => Throws e
    end.

(** [PortElementBase InputPortBase::GetInputElement(size_t index) const].
    [PortElementsBase::GetElement] is outside the sources and is taken as
    the parameter [GetElement]. *)
Definition GetInputElement {PortElementBase : Type}
    (GetElement : positive -> Z -> Result PortElementBase)
    (s : PortStore) (this : positive) (index : Z) : Result PortElementBase :=
  if negb (IsValid s this) then
    Throws (LogicException illegalState "Error: empty input port.")
  else
    match GetReferencedPort s this with
    | Returns port => GetElement port index
    | Throws e => Throws e
    end.

(** [std::vector<const Node*> InputPortBase::GetParentNodes() const], with
    the owning node of an output port given by [GetNode]. *)
Definition GetParentNodes {Node : Type} (GetNode : positive -> Node)
    (s : PortStore) (this : positive) : list Node :=
  match referencedPort s this with
  | None => []
  | Some port => [GetNode port]
  end.

(** [void InputPortBase::SetReferencedPort(const OutputPortBase* input)] *)
Definition SetReferencedPort (s : PortStore) (this : positive)
    (input : option positive) : PortStore :=
  let s1 := match referencedPort s this with
            | Some old => RemoveReference s old this
            | None => s
            end in
  let s2 := match input with
            | Some port => AddReference s1 port this
            | None => s1
            end in
  set_referencedPort s2 this input.

(** [void InputPortBase::ClearReferencedPort()] *)
Definition ClearReferencedPort (s : PortStore) (this : positive) : PortStore :=
  set_referencedPort s this None.

(** [void InputPortBase::UpdateReferencedPort()]; the pointer is
    dereferenced unchecked, so there is no result for an unbound port. *)
Definition UpdateReferencedPort (s : PortStore) (this : positive) : option PortStore :=
  match referencedPort s this with
  | None => None
  | Some port =>
      if negb (HasReference s port this) then Some (AddReference s port this)
      else Some s
  end.

(** [InputPortBase::~InputPortBase()]: the body of the destructor, after
    which the object is gone from the store. *)
Definition destroy_InputPort (s : PortStore) (this : positive) : PortStore :=
  let s1 := match referencedPort s this with
            | Some port => RemoveReference s port this
            | None => s
            end in
  mkPortStore (delete this (inputs s1)) (outputs s1).

(** [InputPortBase(const Node*, const OutputPortBase& input, name)]: a new
    object whose [_referencedPort] starts as [nullptr], then bound. *)
Definition new_InputPort (s : PortStore) (this input : positive) : PortStore :=
  SetReferencedPort (set_referencedPort s this None) this (Some input).

(** Dropping the old reference of [this], as [SetReferencedPort] and the
    destructor start by doing. *)
Definition unlinked (s : PortStore) (this : positive) : PortStore :=
  match referencedPort s this with
  | Some old => RemoveReference s old this
  | None => s
  end.

(** A store with one output port and one input port bound to it. *)
Definition one_link : PortStore :=
  new_InputPort (mkPortStore ∅ {[ 1%positive := mkOutputPort 3 ∅ ]}) 1 1.

(** A store whose only port is an unbound input port. *)
Definition lone_input : PortStore :=
  set_referencedPort (mkPortStore ∅ ∅) 1 None.

(** Input [i] references output [o]. *)
Definition references (s : PortStore) (i o : positive) : Prop :=
  referencedPort s i = Some o.

(** Input [i] is in the reference set of output [o]. *)
Definition referenced_by (s : PortStore) (o i : positive) : Prop :=
  exists port, outputs s !! o = Some port /\ i ∈ _references port.

(** The two directions of the consistency invariant. *)
Definition forward_consistent (s : PortStore) : Prop :=
  forall i o, references s i o -> referenced_by s o i.

Definition backward_consistent (s : PortStore) : Prop :=
  forall i o, referenced_by s o i -> references s i o.

Definition consistent (s : PortStore) : Prop :=
  forall i o, references s i o <-> referenced_by s o i.

End Ports.

(** ** The exported header ([IRHeaderWriter.cpp]) *)
Module IRHeaderWriter.

(** What the writer looks at in an [llvm::Type]. *)
#[warnings="-register-all"]
Inductive LLVMType :=
| StructTy (name : option string)
| ArrayTy (numElements : N) (elem : LLVMType)
| PointerTy (elem : LLVMType)
| IntegerTy (bitWidth : N)
| FloatTy
| DoubleTy
| VoidTy
| FunctionTy (returnType : LLVMType) (params : list LLVMType)
| OtherTy.

(** What the writer looks at in an [llvm::Function]: [name] is [None] when
    [hasName()] is false. *)
Record Function := mkFunction {
  name : option string;
  returnType : LLVMType;
  args : list LLVMType
}.

Record StructType := mkStructType {
  structName : option string;
  elements : list LLVMType
}.

Record IRModuleEmitter := mkModule {
  moduleName : string;
  preprocessorDefinitions : list (string * string);
  identifiedStructTypes : list StructType;
  functions : list Function;
  functionComments : string -> option (list string)
}.

(** [s.find(pattern)]: the position of the first occurrence, [None] for
    [npos]. *)
Definition find (s pattern : string) : option nat := String.index 0 pattern s.

Definition found_at_0 (s pattern : string) : bool :=
  match find s pattern with
  | Some O => true
  | _ => false
  end.

(** The line feed that the writer puts at the end of a line. *)
Definition nl : string := String (ascii_of_nat 10) "".

(** The double quote. *)
Definition quote : string := String (ascii_of_nat 34) "".

Definition to_string (n : N) : string :=
  NilEmpty.string_of_uint (N.to_uint n).

(** [bool ShouldWriteType(const llvm::StructType* t)] *)
Definition ShouldWriteType (t : StructType) : bool :=
  match structName t with
  | Some typeName =>
      if String.eqb typeName "timespec" then false
      else if found_at_0 typeName "struct." || found_at_0 typeName "class." then false
      else true
  | None => true
  end.

(** [bool ShouldWriteFunction(const llvm::Function& f)] *)
Definition ShouldWriteFunction (f : Function) : bool :=
  match name f with
  | None => false
  | Some functionName =>
      if found_at_0 functionName "_Node__" then false
      else if found_at_0 functionName "llvm." then false
      else if found_at_0 functionName "clock_gettime" then false
      else if found_at_0 functionName "cblas" then false
      else if found_at_0 functionName "printf" then false
      else if found_at_0 functionName "_" then false
      else true
  end.

(** [WriteLLVMType] with [WriteStructType], [WriteArrayType],
    [WritePointerType], [WriteIntegerType] and [WriteFunctionType]; the
    text is appended to the stream [os]. *)
Fixpoint WriteLLVMType (os : string) (t : LLVMType) : string :=
  match t with
  | StructTy (Some typeName) => os +:+ "struct " +:+ typeName
  | StructTy None => os
  | ArrayTy size elemType => WriteLLVMType os elemType +:+ "[" +:+ to_string size +:+ "]"
  | PointerTy elemType => WriteLLVMType os elemType +:+ "*"
  | IntegerTy size => os +:+ "int" +:+ to_string size +:+ "_t"
  | FloatTy => os +:+ "float"
  | DoubleTy => os +:+ "double"
  | VoidTy => os +:+ "void"
  | FunctionTy returnType params =>
      let os := WriteLLVMType os returnType +:+ " (" in
      let fix writeParams (os : string) (first : bool) (pts : list LLVMType) : string :=
        match pts with
        | [] => os
        | pt :: rest =>
            let os := if first then os else os +:+ ", " in
            writeParams (WriteLLVMType os pt) false rest
        end in
      writeParams os true params +:+ ");"
  | OtherTy => os +:+ "[[UNKNOWN]]"
  end.

(** [void WriteLLVMVarDecl(std::ostream& os, llvm::Type* t, std::string name)] *)
Definition WriteLLVMVarDecl (os : string) (t : LLVMType) (name : string) : string :=
  match t with
  | ArrayTy size elemType =>
      WriteLLVMType os elemType +:+ " " +:+ name +:+ "[" +:+ to_string size +:+ "]"
  | _ => WriteLLVMType os t +:+ " " +:+ name
  end.

(** [void WriteStructDefinition(std::ostream& os, llvm::StructType* t)] *)
Definition WriteStructDefinition (os : string) (t : StructType) : string :=
  match structName t with
  | Some typeName =>
      let os := os +:+ "struct " +:+ typeName +:+ nl +:+ "{" +:+ nl in
      let os := fst (fold_left
                  (fun (st : string * N) fieldType =>
                     let '(os, index) := st in
                     let os := os +:+ "    " in
                     let fieldName := ("param" +:+ to_string index) in
                     let os := WriteLLVMVarDecl os fieldType fieldName in
                     (os +:+ ";" +:+ nl, (index + 1)%N))
                  (elements t) (os, 0%N)) in
      os +:+ "};"
  | None => os
  end.

(** [void WriteFunction(std::ostream& os, IRModuleEmitter&, llvm::Function& f)] *)
Definition WriteFunction (os : string) (moduleEmitter : IRModuleEmitter)
    (f : Function) : string :=
  match name f with
  | Some name =>
      let os := match functionComments moduleEmitter name with
                | Some comments =>
                    fold_left (fun os comment => os +:+ "// " +:+ comment +:+ nl) comments os
                | None => os
                end in
      let os := WriteLLVMType os (returnType f) in
      let os := os +:+ " " +:+ name +:+ "(" in
      let os := fst (fold_left
                  (fun (st : string * bool) argType =>
                     let '(os, first) := st in
                     let os := if first then os else os +:+ ", " in
                     (WriteLLVMType os argType, false))
                  (args f) (os, true)) in
      os +:+ ");"
  | None => os
  end.

(** The loop of [WriteModuleHeader] over [pModule->functions()]. *)
Definition WriteFunctions (os : string) (moduleEmitter : IRModuleEmitter) : string :=
  fold_left
    (fun os f =>
       if ShouldWriteFunction f then WriteFunction os moduleEmitter f +:+ nl +:+ nl
       else os)
    (functions moduleEmitter) os.

(** What [WriteModuleHeader] writes first: the header comment, the
    preprocessor definitions and the type definitions. *)
Definition WriteTypes (os : string) (moduleEmitter : IRModuleEmitter) : string :=
  let os := os +:+ "//" +:+ nl +:+ "// ELL header for module "
               +:+ moduleName moduleEmitter +:+ nl +:+ "//" +:+ nl +:+ nl in
  let os := os +:+ "#include <stdint.h>" +:+ nl +:+ nl in
  let os := os +:+ "#ifdef __cplusplus" +:+ nl in
  let os := os +:+ "extern " +:+ quote +:+ "C" +:+ quote +:+ "{" +:+ nl in
  let os := os +:+ "#endif" +:+ nl in
  let defines := preprocessorDefinitions moduleEmitter in
  let os := match defines with
            | [] => os
            | _ => fold_left (fun os (def : string * string) =>
                                os +:+ "#define " +:+ def.1 +:+ " " +:+ def.2 +:+ nl)
                             defines os +:+ nl
            end in
  let os := os +:+ "//" +:+ nl +:+ "// Types" +:+ nl +:+ "//" +:+ nl +:+ nl in
  fold_left
    (fun os t => if ShouldWriteType t then WriteStructDefinition os t +:+ nl +:+ nl else os)
    (identifiedStructTypes moduleEmitter) os.

(** What [WriteModuleHeader] writes between the types and the function
    signatures, and after them. *)
Definition WriteFunctionsHeading (os : string) : string :=
  let os := os +:+ nl in
  os +:+ "//" +:+ nl +:+ "// Functions" +:+ nl +:+ "//" +:+ nl +:+ nl.

Definition WriteFooter (os : string) : string :=
  let os := os +:+ "#ifdef __cplusplus" +:+ nl in
  let os := os +:+ "} // extern " +:+ quote +:+ "C" +:+ quote +:+ nl in
  os +:+ "#endif" +:+ nl.

(** [void WriteModuleHeader(std::ostream& os, IRModuleEmitter& moduleEmitter)] *)
Definition WriteModuleHeader (os : string) (moduleEmitter : IRModuleEmitter) : string :=
  let os := WriteTypes os moduleEmitter in
  let os := WriteFunctionsHeading os in
  let os := WriteFunctions os moduleEmitter in
  WriteFooter os.

(** The name prefixes of functions kept out of the header. *)
Definition excludedPrefixes : list string :=
  ["_Node__"; "llvm."; "clock_gettime"; "cblas"; "printf"; "_"]%string.

(** [f] has a name and the name begins with none of the excluded
    prefixes. *)
Definition exported (f : Function) : Prop :=
  exists functionName,
    name f = Some functionName /\
    forall p, In p excludedPrefixes -> String.prefix p functionName = false.

(** [exported] as a test. *)
Definition exportedb (f : Function) : bool :=
  match name f with
  | Some functionName =>
      forallb (fun p => negb (String.prefix p functionName)) excludedPrefixes
  | None => false
  end.

(** A module with an exported function, an internal one and an unnamed
    one. *)
Definition sampleModule : IRModuleEmitter :=
  mkModule "model" [] []
    [mkFunction (Some "predict") VoidTy [PointerTy DoubleTy; IntegerTy 32];
     mkFunction (Some "_Node__1017_task") VoidTy [PointerTy DoubleTy];
     mkFunction None VoidTy [];
     mkFunction (Some "llvm.ctpop.i64") (IntegerTy 64) [IntegerTy 64];
     mkFunction (Some "reset") VoidTy []]
    (fun _ => None).

End IRHeaderWriter.

(** ** The node-action policy ([ModelTransformer.h]) *)
Module NodeActions.

(** [enum class NodeAction { abstain, refine, compile }] *)
Inductive NodeAction := abstain | refine | compile.

#[global] Instance NodeAction_eq_dec : EqDecision NodeAction.
Proof. solve_decision. Defined.

Section TransformContext.
Context {Node MapCompiler : Type}.

(** [Node::IsCompilable], asked with the context's compiler; it is
    outside the sources. *)
Variable IsCompilable : Node -> option MapCompiler -> bool.

(** [using NodeActionFunction = std::function<NodeAction(const Node&)>] *)
Definition NodeActionFunction := Node -> NodeAction.

Record TransformContext := mkTransformContext {
  _nodeActionFunctions : list NodeActionFunction;
  _compiler : option MapCompiler
}.

(** Modelled from the spec: [TransformContext::IsNodeCompilable], declared
    in the header ("Returns true if the node is compilable"); its body
    (ModelTransformer.cpp) is missing.  The node is asked "under the current
    compiler context". *)
Definition IsNodeCompilable (context : TransformContext) (node : Node) : bool :=
  IsCompilable node (_compiler context).

(** Modelled from the spec: [TransformContext::AddNodeActionFunction],
    declared in the header only; it "adds a custom node action function to
    call during refinement", after the ones registered before. *)
Definition AddNodeActionFunction (context : TransformContext)
    (nodeActionFunction : NodeActionFunction) : TransformContext :=
  mkTransformContext (_nodeActionFunctions context ++ [nodeActionFunction])
                     (_compiler context).

(** The first function of [fs], in list order, that does not abstain. *)
Fixpoint firstDecision (fs : list NodeActionFunction) (node : Node)
    : option NodeAction :=
  match fs with
  | [] => None
  | actionFunction :: rest =>
      match actionFunction node with
      | abstain => firstDecision rest node
      | action => Some action
      end
  end.

(** Modelled from the spec: [TransformContext::GetNodeAction], of which the
    sources hold the declaration and its documentation only.  "If any custom
    node action have been registered with this context, return the result of
    the last one that returns something other than [NodeAction::abstain].  If
    all of the functions abstain, or there are no custom functions, return
    [NodeAction::compile] if the node is compilable, otherwise return
    [NodeAction::refine]."  The registered functions are consulted from the
    last to the first. *)
Definition GetNodeAction (context : TransformContext) (node : Node) : NodeAction :=
  match firstDecision (rev (_nodeActionFunctions context)) node with
  | Some action => action
  | None => if IsNodeCompilable context node then compile else refine
  end.

End TransformContext.

Arguments TransformContext : clear implicits.

End NodeActions.

(** ** Copying and grafting submodels ([ModelTransformer.h])

    Modelled from the spec: [ModelTransformer::CopySubmodelOnto],
    [ShouldCopyNode], [CopyNode], [MapCorrespondingInputs] and the
    correspondence map, of which the sources hold the declarations and
    their documentation only (ModelTransformer.cpp, Model and Submodel are
    missing).  Following the design notes, a port is named by the
    identifier of its node and its index; a model owns its nodes in
    creation order; a submodel is a view of a dependency slice of a model,
    visited in dependency order. *)
Module Grafting.

(** Modelled from the spec: the error kinds of section 7 ("TypeMismatch",
    "IllegalState", "NotImplemented", "UnmappedPort"). *)
Inductive ErrorKind := TypeMismatch | IllegalState | NotImplemented | UnmappedPort.

Definition Outcome (A : Type) : Type := ErrorKind + A.

Definition bind {A B} (r : Outcome A) (k : A -> Outcome B) : Outcome B :=
  match r with
  | inl e => inl e
  | inr a => k a
  end.

Fixpoint mapM {A B} (f : A -> Outcome B) (l : list A) : Outcome (list B) :=
  match l with
  | [] => inr []
  | a :: rest => bind (f a) (fun b => bind (mapM f rest) (fun bs => inr (b :: bs)))
  end.

Fixpoint foldM {A S} (f : S -> A -> Outcome S) (s : S) (l : list A) : Outcome S :=
  match l with
  | [] => inr s
  | a :: rest => bind (f s a) (fun s' => foldM f s' rest)
  end.

(** An output port: node identifier and output index.  An input port: node
    identifier and input index. *)
Definition OutputPortRef : Type := nat * nat.
Definition InputPortRef : Type := nat * nat.

(** Modelled from the spec: a node, "identified by a stable identifier",
    which "owns a fixed set of typed input and output ports" ([Node] is
    missing from the sources).  Kept are its identifier, the output port
    that each of its input ports references, and the number of its output
    ports. *)
Record Node := mkNode {
  GetId : nat;
  inputs : list OutputPortRef;
  numOutputs : nat
}.

(** Modelled from the spec: a model, "exclusive owner of all nodes it
    contains, ordered by creation/append order".  [modelId] tells one model
    object from another. *)
Record Model := mkModel {
  modelId : positive;
  nodes : list Node
}.

(** Modelled from the spec: a submodel, "a logical view ... over a
    contiguous dependency slice of a model, defined by a set of output ports
    to compute and a set of input ports marking where the slice's external
    dependencies are cut".  [slice] holds the nodes of the view in
    dependency order. *)
Record Submodel := mkSubmodel {
  sourceModel : Model;
  slice : list Node;
  sliceInputs : list InputPortRef;
  sliceOutputs : list OutputPortRef
}.

(** Modelled from the spec: the state of a [ModelTransformer] (the fields
    [_model], [_elementsMap] and [_isInPlace] of the header): the
    destination model and the "correspondence map from original to new
    ports". *)
Record ModelTransformer := mkTransformer {
  _model : Model;
  _elementsMap : gmap (nat * nat) (nat * nat);
  _isInPlace : bool
}.

Definition findNode (model : Model) (id : nat) : option Node :=
  List.find (fun node => Nat.eqb (GetId node) id) (nodes model).

(** Modelled from the spec: the output port that an input port of [model]
    references; an unbound or unknown input port is an [IllegalState]. *)
Definition GetReferencedPort (model : Model) (port : InputPortRef)
    : Outcome OutputPortRef :=
  match findNode model port.1 with
  | Some node =>
      match inputs node !! port.2 with
      | Some referenced => inr referenced
      | None => inl IllegalState
      end
  | None => inl IllegalState
  end.

Definition outputPorts (node : Node) : list OutputPortRef :=
  map (fun k => (GetId node, k)) (seq 0 (numOutputs node)).

(** Modelled from the spec: [ModelTransformer::MapNodeOutput] (its body is
    missing), which "sets up an old-to-new model output mapping". *)
Definition MapNodeOutput (t : ModelTransformer) (oldPort newPort : OutputPortRef)
    : ModelTransformer :=
  mkTransformer (_model t) (<[oldPort := newPort]> (_elementsMap t)) (_isInPlace t).

(** Modelled from the spec: [ModelTransformer::GetCorrespondingOutputs]
    (its body is missing); "querying before the relevant node has been
    processed is an error (UnmappedPort)". *)
Definition GetCorrespondingOutputs (t : ModelTransformer) (port : OutputPortRef)
    : Outcome OutputPortRef :=
  match _elementsMap t !! port with
  | Some newPort => inr newPort
  | None => inl UnmappedPort
  end.

(** Modelled from the spec: [ModelTransformer::MapCorrespondingInputs]
    (declared only); the submodel's designated inputs are rewired "to the
    caller-supplied [ontoOutputs] (matched positionally with the submodel's
    designated inputs)". *)
Fixpoint MapCorrespondingInputs (t : ModelTransformer) (model : Model)
    (sources : list InputPortRef) (destinations : list OutputPortRef)
    : Outcome ModelTransformer :=
  match sources, destinations with
  | source :: sources', destination :: destinations' =>
      bind (GetReferencedPort model source) (fun referenced =>
        MapCorrespondingInputs (MapNodeOutput t referenced destination)
                               model sources' destinations')
  | _, _ => inr t
  end.

(** The copy of [node] would reference exactly the inputs of [node]. *)
Definition sameInputs (t : ModelTransformer) (node : Node) : bool :=
  forallb (fun referenced =>
             bool_decide (_elementsMap t !! referenced = Some referenced))
          (inputs node).

(** Modelled from the spec: [ModelTransformer::ShouldCopyNode] (declared
    only).  Copy elision: in place, a node whose copy would reference the
    same inputs is not copied. *)
Definition ShouldCopyNode (t : ModelTransformer) (node : Node) : bool :=
  if negb (_isInPlace t) then true else negb (sameInputs t node).

(** The identifier the model gives to its next node. *)
Definition nextId (model : Model) : nat :=
  S (fold_right Nat.max 0%nat (map GetId (nodes model))).

Definition AddNode (model : Model) (node : Node) : Model :=
  mkModel (modelId model) (nodes model ++ [node]).

(** Modelled from the spec: [ModelTransformer::CopyNode] (declared only).
    A copy references the corresponding ports of the inputs of the
    original, and the outputs of the original are mapped to its outputs. *)
Definition CopyNode (t : ModelTransformer) (node : Node) : Outcome ModelTransformer :=
  bind (mapM (GetCorrespondingOutputs t) (inputs node)) (fun newInputs =>
    let id := nextId (_model t) in
    let newNode := mkNode id newInputs (numOutputs node) in
    let t' := mkTransformer (AddNode (_model t) newNode) (_elementsMap t) (_isInPlace t) in
    inr (fold_left (fun t k => MapNodeOutput t (GetId node, k) (id, k))
                   (seq 0 (numOutputs node)) t')).

(** A node that is not copied is reused: its outputs correspond to
    themselves. *)
Definition ReuseNode (t : ModelTransformer) (node : Node) : ModelTransformer :=
  fold_left (fun t port => MapNodeOutput t port port) (outputPorts node) t.

(** Modelled from the spec: what [CopySubmodelOnto] does with one node:
    "the copy is skipped and the original node is reused", or the node is
    copied. *)
Definition VisitNode (t : ModelTransformer) (node : Node) : Outcome ModelTransformer :=
  if ShouldCopyNode t node then CopyNode t node else inr (ReuseNode t node).

(** Modelled from the spec: [ModelTransformer::CopySubmodelOnto] (declared
    and documented in the header, its body is missing).  It "copies every
    node in the submodel's dependency closure ... into [destModel], rewiring
    each copy's inputs"; "if the source and destination models are the same
    model, then the copy is done in-place". *)
Definition CopySubmodelOnto (submodel : Submodel) (destModel : Model)
    (onto : list OutputPortRef) : Outcome ModelTransformer :=
  let inPlace := bool_decide (modelId (sourceModel submodel) = modelId destModel) in
  let t := mkTransformer destModel ∅ inPlace in
  bind (MapCorrespondingInputs t (sourceModel submodel) (sliceInputs submodel) onto)
       (fun t => foldM VisitNode t (slice submodel)).

(** Every input of a node of the slice is cut at a designated input or
    comes from a node earlier in the slice: the submodel has no free
    inputs. *)
Definition closedSlice (boundary : list OutputPortRef) (slice : list Node) : Prop :=
  forall before node after,
    slice = before ++ node :: after ->
    forall referenced, In referenced (inputs node) ->
      In referenced boundary \/
      exists earlier, In earlier before /\ In referenced (outputPorts earlier).

(** The transformer still holds [model], works in place, and its
    correspondence map sends ports to themselves only. *)
Definition untouched (model : Model) (t : ModelTransformer) : Prop :=
  _model t = model /\ _isInPlace t = true /\
  forall p q, _elementsMap t !! p = Some q -> p = q.

Definition fixes (t : ModelTransformer) (p : OutputPortRef) : Prop :=
  _elementsMap t !! p = Some p.

(** A chain [A -> B -> C] and the submodel from [B]'s input to [C]'s
    output. *)
Definition chainModel : Model :=
  mkModel 1 [mkNode 0 [] 1; mkNode 1 [(0, 0)%nat] 1; mkNode 2 [(1, 0)%nat] 1].

Definition chainSubmodel : Submodel :=
  mkSubmodel chainModel [mkNode 1 [(0, 0)%nat] 1; mkNode 2 [(1, 0)%nat] 1]
             [(1, 0)%nat] [(2, 0)%nat].

End Grafting.

(** ** The binary-convolution nodes ([BinaryConvolutionalLayerNode.cpp])

    [Compile] writes code through an [IRFunctionEmitter].  What it emits
    is kept as data: a counted loop with its body, or a task function and
    the argument lists of the tasks started on it.  A loop body is the
    closure the C++ lambda captures; the code of the lambda is given by the
    interpreters further down. *)
Module BinaryConvolution.
Import MachineInt TaskSplit Exceptions.

(** [size_t] arithmetic is modulo [2^64]. *)
Definition size_t (z : Z) : Z := z mod 18446744073709551616.

(** The compiler options that the nodes read. *)
Record CompilerOptions := mkOptions {
  parallelize : bool;
  maxThreads : Z;
  allowVectorInstructions : bool;
  vectorWidth : Z
}.

(** [PortMemoryLayout]: [GetExtent()] and [GetActiveSize()], by dimension. *)
Record PortMemoryLayout := mkLayout {
  GetExtent : list Z;
  GetActiveSize : list Z
}.

Definition dimension (sizes : list Z) (i : nat) : Z := nth i sizes 0.

Inductive BinaryWeightsScale := scale_none | scale_mean.

#[global] Instance BinaryWeightsScale_eq_dec : EqDecision BinaryWeightsScale.
Proof. solve_decision. Defined.

Record BinaryConvolutionalParameters := mkConvParams {
  receptiveField : Z;
  stride : Z;
  weightsScale : BinaryWeightsScale
}.

(** The two instantiations of the template parameter [PackedBitsType]. *)
Inductive PackedBitsType := int32_t | int64_t.

Definition sizeof (t : PackedBitsType) : Z :=
  match t with
  | int32_t => 4
  | int64_t => 8
  end.

(** The ports of the two nodes. *)
Inductive PortName :=
| input | output
| inputPaddingMasks | inputPaddingMaskSums | filterWeights | filterMeans.

#[global] Instance PortName_eq_dec : EqDecision PortName.
Proof. solve_decision. Defined.

Definition PortName_to_nat (port : PortName) : nat :=
  match port with
  | input => 0 | output => 1
  | inputPaddingMasks => 2 | inputPaddingMaskSums => 3
  | filterWeights => 4 | filterMeans => 5
  end.

Definition PortName_of_nat (n : nat) : PortName :=
  match n with
  | 0%nat => input | 1%nat => output
  | 2%nat => inputPaddingMasks | 3%nat => inputPaddingMaskSums
  | 4%nat => filterWeights | _ => filterMeans
  end.

#[global] Instance PortName_countable : Countable PortName.
Proof.
  refine (inj_countable' PortName_to_nat PortName_of_nat _).
  intros []; reflexivity.
Defined.

(** The values that the emitter hands around: the variable of a port
    ([compiler.EnsurePortEmitted]), an argument of the function being
    defined, or a 32-bit literal. *)
Inductive LLVMValue :=
| PortVariable (port : PortName)
| Argument (k : nat)
| Literal (z : Z).

(** [For(begin, end, body)]; [For(count, body)] runs from the literal 0. *)
Record ForLoop (Body : Type) := mkFor {
  loopBegin : LLVMValue;
  loopEnd : LLVMValue;
  loopBody : Body
}.
Arguments mkFor {Body} _ _ _.
Arguments loopBegin {Body} _.
Arguments loopEnd {Body} _.
Arguments loopBody {Body} _.

(** A function begun with [BeginFunction(name, void, argTypes)] whose code
    is one loop followed by [Return()]. *)
Record TaskFunction (Body : Type) := mkTaskFunction {
  functionName : string;
  numArguments : nat;
  functionCode : ForLoop Body
}.
Arguments mkTaskFunction {Body} _ _ _.
Arguments functionName {Body} _.
Arguments numArguments {Body} _.
Arguments functionCode {Body} _.

(** What [Compile] emits into the caller's function. *)
Inductive Emitted (Body : Type) :=
| SequentialLoop (loop : ForLoop Body)
| StartTasksWaitAll (taskFunction : TaskFunction Body)
                    (taskArgs : list (list LLVMValue)).
Arguments SequentialLoop {Body} _.
Arguments StartTasksWaitAll {Body} _ _.

Definition dispatchesTasks {Body} (e : Emitted Body) : bool :=
  match e with
  | SequentialLoop _ => false
  | StartTasksWaitAll _ _ => true
  end.

(** *** BinaryReceptiveFieldMatrixNode *)

Record BinaryReceptiveFieldMatrixNode := mkReceptiveFieldNode {
  rf_GetId : string;
  rf_PackedBitsType : PackedBitsType;
  rf_convolutionalParameters : BinaryConvolutionalParameters;
  rf_inputMemoryLayout : PortMemoryLayout;
  rf_outputMemoryLayout : PortMemoryLayout
}.

(** [Compute], [WriteToArchive] and [ReadFromArchive] of the node. *)
Definition rf_Compute (node : BinaryReceptiveFieldMatrixNode) : Result unit :=
  Throws (LogicException notImplemented "").

Definition rf_WriteToArchive {Archiver : Type}
    (node : BinaryReceptiveFieldMatrixNode) (archiver : Archiver) : Result Archiver :=
  Throws (LogicException notImplemented "").

Definition rf_ReadFromArchive {Unarchiver : Type}
    (node : BinaryReceptiveFieldMatrixNode) (archiver : Unarchiver)
    : Result (BinaryReceptiveFieldMatrixNode * Unarchiver) :=
  Throws (LogicException notImplemented "").

(** The closure of the lambda that loads and compresses one output row. *)
Record RowBody := mkRowBody {
  row_this : BinaryReceptiveFieldMatrixNode;
  row_pInput : LLVMValue;
  row_pOutput : LLVMValue;
  (** [int]: the factor of [outputRowIndex * packedRowSize] *)
  row_packedRowSize : Z;
  (** [size_t] *)
  row_fieldVolumeSize : Z
}.

(** [BinaryReceptiveFieldMatrixNode::GetTaskFunction] *)
Definition rf_GetTaskFunction (node : BinaryReceptiveFieldMatrixNode)
    : TaskFunction RowBody :=
  let elementSize := sizeof (rf_PackedBitsType node) in
  let numBits := size_t (8 * elementSize) in
  let inputDepth := dimension (GetActiveSize (rf_inputMemoryLayout node)) 2 in
  let filterWidth := receptiveField (rf_convolutionalParameters node) in
  let fieldVolumeSize := size_t (size_t (filterWidth * filterWidth) * size_t inputDepth) in
  let packedRowSize := wrap (size_t (size_t (fieldVolumeSize - 1) / numBits + 1)) in
  mkTaskFunction (rf_GetId node +:+ "_task") 4
    (mkFor (Argument 2) (Argument 3)
           (mkRowBody node (Argument 0) (Argument 1) packedRowSize fieldVolumeSize)).

(** [BinaryReceptiveFieldMatrixNode::Compile]; there is no result when
    [CeilDiv] divides by zero. *)
Definition rf_Compile (compilerSettings : CompilerOptions)
    (node : BinaryReceptiveFieldMatrixNode) : option (Emitted RowBody) :=
  let pInput := PortVariable input in
  let pOutput := PortVariable output in
  let elementSize := sizeof (rf_PackedBitsType node) in
  let numBits := size_t (8 * elementSize) in
  let inputDepth := dimension (GetActiveSize (rf_inputMemoryLayout node)) 2 in
  let filterWidth := receptiveField (rf_convolutionalParameters node) in
  let fieldVolumeSize := size_t (size_t (filterWidth * filterWidth) * size_t inputDepth) in
  let packedRowSize := size_t (size_t (fieldVolumeSize - 1) / numBits + 1) in
  let outputImageHeight := dimension (GetActiveSize (rf_outputMemoryLayout node)) 0 in
  let outputImageWidth := dimension (GetActiveSize (rf_outputMemoryLayout node)) 1 in
  let numOutputRows := int_mul outputImageWidth outputImageHeight in
  let numDesiredTasks := maxThreads compilerSettings in
  taskSize ← CeilDiv numOutputRows numDesiredTasks;
  numTasks ← CeilDiv numOutputRows taskSize;
  if parallelize compilerSettings && (1 <? numTasks) then
    let taskFunction := rf_GetTaskFunction node in
    let taskArgs :=
      map (fun range : Z * Z => [pInput; pOutput; Literal range.1; Literal range.2])
          (taskRanges taskSize numTasks numOutputRows) in
    Some (StartTasksWaitAll taskFunction taskArgs)
  else
    Some (SequentialLoop
            (mkFor (Literal 0) (Literal numOutputRows)
                   (mkRowBody node pInput pOutput (wrap packedRowSize) fieldVolumeSize))).

(** *** BinaryXnorNode *)

(** [HasPadding(_inputPaddingParameters, PaddingScheme::zeros)] is outside
    the sources; its value is kept with the padding parameters. *)
Record PaddingParameters := mkPadding {
  hasZeroPadding : bool
}.

Record BinaryXnorNode := mkXnorNode {
  xn_GetId : string;
  xn_PackedBitsType : PackedBitsType;
  xn_convolutionalParameters : BinaryConvolutionalParameters;
  xn_inputPaddingParameters : PaddingParameters;
  xn_inputMemoryLayout : PortMemoryLayout;
  xn_outputMemoryLayout : PortMemoryLayout
}.

Definition xn_Compute (node : BinaryXnorNode) : Result unit :=
  Throws (LogicException notImplemented "").

Definition xn_WriteToArchive {Archiver : Type}
    (node : BinaryXnorNode) (archiver : Archiver) : Result Archiver :=
  Throws (LogicException notImplemented "").

Definition xn_ReadFromArchive {Unarchiver : Type}
    (node : BinaryXnorNode) (archiver : Unarchiver)
    : Result (BinaryXnorNode * Unarchiver) :=
  Throws (LogicException notImplemented "").

(** The arguments with which the loop body calls [ComputeFilterOutput]. *)
Record FilterBody := mkFilterBody {
  flt_this : BinaryXnorNode;
  flt_pInput : LLVMValue;
  flt_pFilterWeights : LLVMValue;
  flt_pFilterMeans : LLVMValue;
  flt_pInputPaddingMask : LLVMValue;
  flt_pInputPaddingMaskSums : LLVMValue;
  flt_pOutput : LLVMValue;
  flt_hasZeroPadding : bool;
  flt_outputColumns : Z;
  flt_packedRowSize : Z;
  flt_packedRowStride : Z;
  flt_useVectorInstructions : bool;
  flt_vectorSize : Z;
  flt_numVectorBlocks : Z
}.

(** Unsigned division of [size_t] values; none for a zero divisor.  The
    divisors derived from [sizeof(PackedBitsType)] are never zero, for them
    the division is written [/]. *)
Definition size_div (a b : Z) : option Z :=
  if b =? 0 then None else Some (a / b).

(** [BinaryXnorNode::GetTaskFunction] *)
Definition xn_GetTaskFunction (compilerSettings : CompilerOptions)
    (node : BinaryXnorNode) : option (TaskFunction FilterBody) :=
  let inputSize := GetActiveSize (xn_inputMemoryLayout node) in
  let outputSize := GetActiveSize (xn_outputMemoryLayout node) in
  let storedElementSize := sizeof (xn_PackedBitsType node) in
  let storedElementNumBits := size_t (8 * storedElementSize) in
  let numBits := storedElementNumBits in
  let elementSize := numBits / 8 in
  let filterWidth := receptiveField (xn_convolutionalParameters node) in
  let numInputChannels := dimension inputSize 2 in
  let fieldVolumeSize :=
    size_t (size_t (filterWidth * filterWidth) * size_t numInputChannels) in
  let outputColumns := int_mul (dimension outputSize 0) (dimension outputSize 1) in
  let numStoredBlocksPerFilter :=
    size_t (size_t (fieldVolumeSize - 1) / storedElementNumBits + 1) in
  let packedRowSize := numStoredBlocksPerFilter in
  let rowStrideBits := 64 in
  let rowStrideElementSize := 8 in
  let numStrideBlocks := size_t (size_t (fieldVolumeSize - 1) / size_t rowStrideBits + 1) in
  let packedRowStride :=
    wrap (size_t (numStrideBlocks * (size_t rowStrideElementSize / elementSize))) in
  let hasZeroPadding := hasZeroPadding (xn_inputPaddingParameters node) in
  let useVectorInstructions := allowVectorInstructions compilerSettings in
  let vectorSize := vectorWidth compilerSettings in
  numVectorBlocks ←
    (if useVectorInstructions
     then option_map wrap (size_div packedRowSize (size_t vectorSize))
     else Some 0);
  let useVectorInstructions :=
    if numVectorBlocks =? 0 then false else useVectorInstructions in
  Some (mkTaskFunction (xn_GetId node +:+ "_task") 8
          (mkFor (Argument 6) (Argument 7)
             (mkFilterBody node (Argument 0) (Argument 1) (Argument 2)
                (Argument 3) (Argument 4) (Argument 5)
                hasZeroPadding outputColumns (wrap packedRowSize) packedRowStride
                useVectorInstructions vectorSize numVectorBlocks))).

(** [BinaryXnorNode::Compile] *)
Definition xn_Compile (compilerSettings : CompilerOptions) (node : BinaryXnorNode)
    : option (Emitted FilterBody) :=
  let vectorSize := vectorWidth compilerSettings in
  let pInput := PortVariable input in
  let pFilterWeights := PortVariable filterWeights in
  let pFilterMeans := PortVariable filterMeans in
  let pInputPaddingMask := PortVariable inputPaddingMasks in
  let pInputPaddingMaskSums := PortVariable inputPaddingMaskSums in
  let pOutput := PortVariable output in
  let inputSize := GetActiveSize (xn_inputMemoryLayout node) in
  let outputSize := GetActiveSize (xn_outputMemoryLayout node) in
  let storedElementSize := sizeof (xn_PackedBitsType node) in
  let storedElementNumBits := size_t (8 * storedElementSize) in
  let numBits := storedElementNumBits in
  let elementSize := numBits / 8 in
  let filterWidth := receptiveField (xn_convolutionalParameters node) in
  let numInputChannels := dimension inputSize 2 in
  let fieldVolumeSize :=
    size_t (size_t (filterWidth * filterWidth) * size_t numInputChannels) in
  let numFilters := dimension outputSize 2 in
  let outputColumns := int_mul (dimension outputSize 0) (dimension outputSize 1) in
  let numStoredBlocksPerFilter :=
    size_t (size_t (fieldVolumeSize - 1) / storedElementNumBits + 1) in
  let packedRowSize := numStoredBlocksPerFilter in
  let rowStrideBits := 64 in
  let rowStrideElementSize := 8 in
  let numStrideBlocks := size_t (size_t (fieldVolumeSize - 1) / size_t rowStrideBits + 1) in
  let packedRowStride :=
    wrap (size_t (numStrideBlocks * (size_t rowStrideElementSize / elementSize))) in
  let hasZeroPadding := hasZeroPadding (xn_inputPaddingParameters node) in
  let useVectorInstructions := allowVectorInstructions compilerSettings in
  numVectorBlocks ←
    (if useVectorInstructions
     then option_map wrap (size_div packedRowSize (size_t vectorSize))
     else Some 0);
  let useVectorInstructions :=
    if numVectorBlocks =? 0 then false else useVectorInstructions in
  let numDesiredTasks := maxThreads compilerSettings in
  taskSize ← CeilDiv numFilters numDesiredTasks;
  numTasks ← CeilDiv numFilters taskSize;
  if parallelize compilerSettings && (1 <? numTasks) then
    taskFunction ← xn_GetTaskFunction compilerSettings node;
    let taskArgs :=
      map (fun range : Z * Z =>
             [pInput; pFilterWeights; pFilterMeans; pInputPaddingMask;
              pInputPaddingMaskSums; pOutput; Literal range.1; Literal range.2])
          (taskRanges taskSize numTasks numFilters) in
    Some (StartTasksWaitAll taskFunction taskArgs)
  else
    Some (SequentialLoop
            (mkFor (Literal 0) (Literal numFilters)
               (mkFilterBody node pInput pFilterWeights pFilterMeans
                  pInputPaddingMask pInputPaddingMaskSums pOutput
                  hasZeroPadding outputColumns (wrap packedRowSize) packedRowStride
                  useVectorInstructions vectorSize numVectorBlocks))).

(** *** The body of a task function, with the actual arguments of a call
    put in the place of the formal ones *)

Definition instantiate (actuals : list LLVMValue) (v : LLVMValue) : LLVMValue :=
  match v with
  | Argument k => nth k actuals v
  | _ => v
  end.

Definition instantiateRowBody (actuals : list LLVMValue) (b : RowBody) : RowBody :=
  mkRowBody (row_this b)
            (instantiate actuals (row_pInput b)) (instantiate actuals (row_pOutput b))
            (row_packedRowSize b) (row_fieldVolumeSize b).

Definition instantiateFilterBody (actuals : list LLVMValue) (b : FilterBody)
    : FilterBody :=
  mkFilterBody (flt_this b)
    (instantiate actuals (flt_pInput b)) (instantiate actuals (flt_pFilterWeights b))
    (instantiate actuals (flt_pFilterMeans b))
    (instantiate actuals (flt_pInputPaddingMask b))
    (instantiate actuals (flt_pInputPaddingMaskSums b))
    (instantiate actuals (flt_pOutput b))
    (flt_hasZeroPadding b) (flt_outputColumns b) (flt_packedRowSize b)
    (flt_packedRowStride b) (flt_useVectorInstructions b) (flt_vectorSize b)
    (flt_numVectorBlocks b).

(** The amount of work that each [Compile] splits. *)
Definition rf_numOutputRows (node : BinaryReceptiveFieldMatrixNode) : Z :=
  int_mul (dimension (GetActiveSize (rf_outputMemoryLayout node)) 1)
          (dimension (GetActiveSize (rf_outputMemoryLayout node)) 0).

Definition xn_numFilters (node : BinaryXnorNode) : Z :=
  dimension (GetActiveSize (xn_outputMemoryLayout node)) 2.

(** The arguments of the task that works on [range]. *)
Definition rf_taskArgs (range : Z * Z) : list LLVMValue :=
  [PortVariable input; PortVariable output; Literal range.1; Literal range.2].

Definition xn_taskArgs (range : Z * Z) : list LLVMValue :=
  [PortVariable input; PortVariable filterWeights; PortVariable filterMeans;
   PortVariable inputPaddingMasks; PortVariable inputPaddingMaskSums;
   PortVariable output; Literal range.1; Literal range.2].

(** Small nodes to run the functions on. *)
Definition sampleReceptiveFieldNode : BinaryReceptiveFieldMatrixNode :=
  mkReceptiveFieldNode "1017" int64_t (mkConvParams 3 1 scale_mean)
    (mkLayout [6; 6; 2] [6; 6; 2]) (mkLayout [4; 4; 8] [4; 4; 8]).

Definition sampleXnorNode : BinaryXnorNode :=
  mkXnorNode "1018" int64_t (mkConvParams 3 1 scale_mean) (mkPadding true)
    (mkLayout [6; 6; 2] [6; 6; 2]) (mkLayout [4; 4; 8] [4; 4; 8]).

Definition sampleOptions (parallel : bool) : CompilerOptions :=
  mkOptions parallel 4 true 4.

End BinaryConvolution.

(** ** Running the emitted code

    The code that the loop bodies emit ([LoadRow], [CompressRow],
    [ComputeFilterOutput], [EmitInnerLoop]) is given as an interpreter of
    the closures: running a body at one index changes the memory as the
    emitted instructions would.  The element type [ValueType] is a
    parameter, with the operations the emitted code applies to it. *)
Module Execution.
Import MachineInt TaskSplit BinaryConvolution.

(** A pointer into the buffer of a port, counted in elements. *)
Definition Ptr : Type := PortName * Z.

Inductive RuntimeValue :=
| Pointer (p : Ptr)
| Int (z : Z).

Definition evaluate (arguments : list RuntimeValue) (v : LLVMValue)
    : option RuntimeValue :=
  match v with
  | PortVariable port => Some (Pointer (port, 0))
  | Argument k => arguments !! k
  | Literal z => Some (Int z)
  end.

Definition evalPointer (arguments : list RuntimeValue) (v : LLVMValue) : option Ptr :=
  match evaluate arguments v with
  | Some (Pointer p) => Some p
  | _ => None
  end.

Definition evalInt (arguments : list RuntimeValue) (v : LLVMValue) : option Z :=
  match evaluate arguments v with
  | Some (Int z) => Some z
  | _ => None
  end.

Definition PointerOffset (p : Ptr) (offset : Z) : Ptr := (p.1, p.2 + offset).

(** The counter values of an emitted loop from [lo] up to [hi]. *)
Definition loop_range (lo hi : Z) : list Z :=
  map (fun k => lo + Z.of_nat k) (seq 0 (Z.to_nat (hi - lo))).

Definition For {S : Type} (lo hi : Z) (body : Z -> S -> S) (s : S) : S :=
  fold_left (fun s i => body i s) (loop_range lo hi) s.

(** Values of [PackedBitsType] are two's-complement integers of
    [8 * sizeof] bits. *)
Definition wrapPacked (t : PackedBitsType) (z : Z) : Z :=
  let half := 2 ^ (8 * sizeof t - 1) in
  (z + half) mod (2 * half) - half.

(** [llvm.ctpop] on a value of [PackedBitsType]. *)
Definition popcount (t : PackedBitsType) (x : Z) : Z :=
  Z.of_nat (length (List.filter (Z.testbit x) (loop_indices (8 * sizeof t)))).

(** The offset of element [(i, j, k)] of a row-major tensor. *)
Definition rowMajorOffset (extent : list Z) (i j k : Z) : Z :=
  (i * dimension extent 1 + j) * dimension extent 2 + k.

Fixpoint foldOption {A S : Type} (f : S -> A -> option S) (s : S) (l : list A)
    : option S :=
  match l with
  | [] => Some s
  | a :: rest => s' ← f s a; foldOption f s' rest
  end.

(** A list of stores into a buffer, done from left to right. *)
Definition applyWrites `{Countable K} {V : Type} (writes : list (K * V))
    (cells : gmap K V) : gmap K V :=
  fold_left (fun cells kv => <[kv.1 := kv.2]> cells) writes cells.

(** The sizes of a receptive-field node are positive and the products that
    its code computes fit an [int]. *)
Definition rf_wellFormed (node : BinaryReceptiveFieldMatrixNode) : Prop :=
  let filterWidth := receptiveField (rf_convolutionalParameters node) in
  let inputDepth := dimension (GetActiveSize (rf_inputMemoryLayout node)) 2 in
  let outputImageHeight := dimension (GetActiveSize (rf_outputMemoryLayout node)) 0 in
  let outputImageWidth := dimension (GetActiveSize (rf_outputMemoryLayout node)) 1 in
  let numBits := 8 * sizeof (rf_PackedBitsType node) in
  1 <= filterWidth /\ 1 <= inputDepth /\
  filterWidth * filterWidth * inputDepth <= INT_MAX /\
  1 <= outputImageHeight /\ 1 <= outputImageWidth /\
  outputImageWidth * outputImageHeight <= 1073741824 /\
  outputImageWidth * outputImageHeight
  * ((filterWidth * filterWidth * inputDepth - 1) / numBits + 1) <= INT_MAX.

(** The same for an xnor node. *)
Definition xn_wellFormed (node : BinaryXnorNode) : Prop :=
  let outputSize := GetActiveSize (xn_outputMemoryLayout node) in
  let numFilters := dimension outputSize 2 in
  let outputColumns := dimension outputSize 0 * dimension outputSize 1 in
  1 <= numFilters <= 1073741824 /\
  0 <= dimension outputSize 0 /\ 0 <= dimension outputSize 1 /\
  numFilters * outputColumns <= INT_MAX.

Section ValueType.
Context {ValueType : Type}.

(** [realValue > 0], the value of uninitialised memory, and
    [CastValue<ValueType>], [-] and [*] on [ValueType]. *)
Variable isPositive : ValueType -> bool.
Variable uninitialized : ValueType.
Variable castInt : Z -> ValueType.
Variable subtract : ValueType -> ValueType -> ValueType.
Variable multiply : ValueType -> ValueType -> ValueType.

(** The buffers of the ports: cells of [ValueType] and integer cells. *)
Record Memory := mkMemory {
  realCells : gmap (PortName * Z) ValueType;
  intCells : gmap (PortName * Z) Z
}.

Definition readReal (mem : Memory) (p : Ptr) (index : Z) : ValueType :=
  default uninitialized (realCells mem !! PointerOffset p index).

Definition readInt (mem : Memory) (p : Ptr) (index : Z) : Z :=
  default 0 (intCells mem !! PointerOffset p index).

Definition writeReal (mem : Memory) (p : Ptr) (index : Z) (v : ValueType) : Memory :=
  mkMemory (<[PointerOffset p index := v]> (realCells mem)) (intCells mem).

Definition writeInt (mem : Memory) (p : Ptr) (index : Z) (v : Z) : Memory :=
  mkMemory (realCells mem) (<[PointerOffset p index := v]> (intCells mem)).

(** The scratch row [realValueRow] of a function: its cells by index. *)
Definition readScratch (realValueRow : gmap Z ValueType) (index : Z) : ValueType :=
  default uninitialized (realValueRow !! index).

(** *** BinaryReceptiveFieldMatrixNode *)

(** [LoadRow]: copies the receptive field of one output pixel into
    [realValueRow]. *)
Definition LoadRow (mem : Memory) (inputVolume : Ptr) (inputLayout : PortMemoryLayout)
    (outputRowIndex : Z) (outputLayout : PortMemoryLayout)
    (convParams : BinaryConvolutionalParameters)
    (realValueRow : gmap Z ValueType) : gmap Z ValueType :=
  let numChannels := dimension (GetActiveSize inputLayout) 2 in
  let outputImageWidth := dimension (GetActiveSize outputLayout) 1 in
  let filterSize := wrap (receptiveField convParams) in
  let stride := wrap (stride convParams) in
  let outputImageRow := Z.quot outputRowIndex outputImageWidth in
  let outputImageCol := Z.rem outputRowIndex outputImageWidth in
  let inputRowStart := int_mul outputImageRow stride in
  let inputColStart := int_mul outputImageCol stride in
  For 0 filterSize (fun rowIndex =>
    For 0 filterSize (fun columnIndex =>
      For 0 numChannels (fun channelIndex realValueRow =>
        let inputRow := int_add inputRowStart rowIndex in
        let inputColumn := int_add inputColStart columnIndex in
        let inputChannel := channelIndex in
        <[rowMajorOffset [filterSize; filterSize; numChannels]
                         rowIndex columnIndex channelIndex
          := readReal mem inputVolume
               (rowMajorOffset (GetExtent inputLayout) inputRow inputColumn inputChannel)]>
          realValueRow)))
    realValueRow.

(** The bits of one block: bit [bitIndex] is set when the value at
    [first + bitIndex] is positive. *)
Definition packBits (t : PackedBitsType) (realRow : gmap Z ValueType)
    (first : Z) (count : Z) : Z :=
  fold_left
    (fun blockValue bitIndex =>
       let realValue := readScratch realRow (int_add first bitIndex) in
       let bitValue := if isPositive realValue then 1 else 0 in
       Z.lor blockValue (wrapPacked t (Z.shiftl bitValue bitIndex)))
    (loop_indices count) 0.

(** [CompressRow]: packs [numValues] values of [realRow], a bit each, into
    blocks stored at [packedOutput]. *)
Definition CompressRow (t : PackedBitsType) (realRow : gmap Z ValueType)
    (packedOutput : Ptr) (numValues : Z) (mem : Memory) : Memory :=
  let storedElementSize := sizeof t in
  let storedElementNumBits := int_mul 8 storedElementSize in
  let numBlocks := int_add (Z.quot (int_sub numValues 1) storedElementNumBits) 1 in
  let numCompleteBlocks := Z.quot numValues storedElementNumBits in
  let mem :=
    For 0 numCompleteBlocks (fun blockIndex mem =>
      writeInt mem packedOutput blockIndex
        (packBits t realRow (int_mul blockIndex storedElementNumBits)
                  storedElementNumBits))
      mem in
  if numCompleteBlocks <? numBlocks then
    let leftoverBits := Z.rem numValues storedElementNumBits in
    writeInt mem packedOutput numCompleteBlocks
      (packBits t realRow (int_mul numCompleteBlocks storedElementNumBits) leftoverBits)
  else mem.

(** A [RowBody] whose pointers are known. *)
Record BoundRowBody := mkBoundRowBody {
  bound_row_this : BinaryReceptiveFieldMatrixNode;
  bound_row_pInput : Ptr;
  bound_row_pOutput : Ptr;
  bound_row_packedRowSize : Z;
  bound_row_fieldVolumeSize : Z
}.

Definition bindRowBody (arguments : list RuntimeValue) (b : RowBody)
    : option BoundRowBody :=
  pInput ← evalPointer arguments (row_pInput b);
  pOutput ← evalPointer arguments (row_pOutput b);
  Some (mkBoundRowBody (row_this b) pInput pOutput
                       (row_packedRowSize b) (row_fieldVolumeSize b)).

(** One run of the loop body of the receptive-field node; the state is the
    memory and the scratch row of the running function. *)
Definition execRow (b : BoundRowBody) (i : Z)
    (state : Memory * gmap Z ValueType) : Memory * gmap Z ValueType :=
  let node := bound_row_this b in
  let outputRowIndex := i in
  let realValueRow :=
    LoadRow state.1 (bound_row_pInput b) (rf_inputMemoryLayout node) outputRowIndex
            (rf_outputMemoryLayout node) (rf_convolutionalParameters node) state.2 in
  let outputRow :=
    PointerOffset (bound_row_pOutput b)
                  (int_mul outputRowIndex (bound_row_packedRowSize b)) in
  (CompressRow (rf_PackedBitsType node) realValueRow outputRow
               (wrap (bound_row_fieldVolumeSize b)) state.1,
   realValueRow).

(** *** BinaryXnorNode *)

(** The count that one block adds to the running sum of [EmitInnerLoop]. *)
Definition xorCount (t : PackedBitsType) (hasZeroPadding : bool)
    (inputVal filterVal paddingMaskVal : Z) : Z :=
  let xorVal := Z.lxor inputVal filterVal in
  let xorVal := if hasZeroPadding then Z.land paddingMaskVal xorVal else xorVal in
  popcount t xorVal.

(** [EmitInnerLoop] on pointers to blocks. *)
Definition EmitInnerLoop (mem : Memory) (t : PackedBitsType)
    (reshapedInputPtr paddingMaskPtr weightsPtr : Ptr) (xorSum : Z)
    (startBlock numBlocks : Z) (hasZeroPadding : bool) : Z :=
  For startBlock (int_add startBlock numBlocks)
    (fun blockIndex xorSum =>
       let inputVal := readInt mem reshapedInputPtr blockIndex in
       let filterVal := readInt mem weightsPtr blockIndex in
       let paddingMaskVal := readInt mem paddingMaskPtr blockIndex in
       wrapPacked t (xorSum + xorCount t hasZeroPadding inputVal filterVal paddingMaskVal))
    xorSum.

(** Element [blockIndex] behind a pointer cast to a vector of [vectorSize]
    blocks. *)
Definition readVector (mem : Memory) (p : Ptr) (vectorSize blockIndex : Z) : list Z :=
  map (fun lane => readInt mem p (blockIndex * vectorSize + lane))
      (loop_indices vectorSize).

Definition FillVector (vectorSize : Z) (z : Z) : list Z :=
  map (fun _ => z) (loop_indices vectorSize).

(** [EmitInnerLoop] on pointers to vectors: the same operations, lane by
    lane. *)
Definition EmitInnerLoopVector (mem : Memory) (t : PackedBitsType) (vectorSize : Z)
    (reshapedInputPtr paddingMaskPtr weightsPtr : Ptr) (xorSum : list Z)
    (startBlock numBlocks : Z) (hasZeroPadding : bool) : list Z :=
  For startBlock (int_add startBlock numBlocks)
    (fun blockIndex xorSum =>
       let inputVal := readVector mem reshapedInputPtr vectorSize blockIndex in
       let filterVal := readVector mem weightsPtr vectorSize blockIndex in
       let paddingMaskVal := readVector mem paddingMaskPtr vectorSize blockIndex in
       let counts :=
         zip_with (fun (iw : Z * Z) m => xorCount t hasZeroPadding iw.1 iw.2 m)
                  (zip inputVal filterVal) paddingMaskVal in
       zip_with (fun s c => wrapPacked t (s + c)) xorSum counts)
    xorSum.

Definition HorizontalVectorSum (t : PackedBitsType) (v : list Z) : Z :=
  fold_left (fun s x => wrapPacked t (s + x)) v 0.

(** A [FilterBody] whose pointers are known. *)
Record BoundFilterBody := mkBoundFilterBody {
  bound_flt_this : BinaryXnorNode;
  bound_flt_pInput : Ptr;
  bound_flt_pFilterWeights : Ptr;
  bound_flt_pFilterMeans : Ptr;
  bound_flt_pInputPaddingMask : Ptr;
  bound_flt_pInputPaddingMaskSums : Ptr;
  bound_flt_pOutput : Ptr;
  bound_flt_hasZeroPadding : bool;
  bound_flt_outputColumns : Z;
  bound_flt_packedRowSize : Z;
  bound_flt_packedRowStride : Z;
  bound_flt_useVectorInstructions : bool;
  bound_flt_vectorSize : Z;
  bound_flt_numVectorBlocks : Z
}.

Definition bindFilterBody (arguments : list RuntimeValue) (b : FilterBody)
    : option BoundFilterBody :=
  pInput ← evalPointer arguments (flt_pInput b);
  pFilterWeights ← evalPointer arguments (flt_pFilterWeights b);
  pFilterMeans ← evalPointer arguments (flt_pFilterMeans b);
  pInputPaddingMask ← evalPointer arguments (flt_pInputPaddingMask b);
  pInputPaddingMaskSums ← evalPointer arguments (flt_pInputPaddingMaskSums b);
  pOutput ← evalPointer arguments (flt_pOutput b);
  Some (mkBoundFilterBody (flt_this b) pInput pFilterWeights pFilterMeans
          pInputPaddingMask pInputPaddingMaskSums pOutput
          (flt_hasZeroPadding b) (flt_outputColumns b) (flt_packedRowSize b)
          (flt_packedRowStride b) (flt_useVectorInstructions b) (flt_vectorSize b)
          (flt_numVectorBlocks b)).

(** The value that [ComputeFilterOutput] stores for one output column.
    The code has no sum to work with when there are neither vector nor
    scalar blocks; 0 stands for it here. *)
Definition filterOutputValue (b : BoundFilterBody) (filterIndex : Z)
    (filterMean : option ValueType) (outputColumnIndex : Z) (mem : Memory) : ValueType :=
  let node := bound_flt_this b in
  let t := xn_PackedBitsType node in
  let hasZeroPadding := bound_flt_hasZeroPadding b in
  let packedRowSize := bound_flt_packedRowSize b in
  let packedRowStride := bound_flt_packedRowStride b in
  let vectorSize := bound_flt_vectorSize b in
  let numVectorBlocks := bound_flt_numVectorBlocks b in
  let inputSize := GetActiveSize (xn_inputMemoryLayout node) in
  let storedElementSize := wrap (sizeof t) in
  let storedElementNumBits := int_mul 8 storedElementSize in
  let numBits := storedElementNumBits in
  let filterWidth := wrap (receptiveField (xn_convolutionalParameters node)) in
  let numInputChannels := dimension inputSize 2 in
  let fieldVolumeSize := int_mul (int_mul filterWidth filterWidth) numInputChannels in
  let partialBlockSize := Z.rem fieldVolumeSize numBits in
  let weightsBegin := int_mul filterIndex packedRowStride in
  let weightsBeginPtr := PointerOffset (bound_flt_pFilterWeights b) weightsBegin in
  let numScalarBlocks := int_sub packedRowSize (int_mul vectorSize numVectorBlocks) in
  let inputBegin := int_mul outputColumnIndex packedRowSize in
  let paddingBegin := int_mul outputColumnIndex packedRowStride in
  let inputBeginPtr := PointerOffset (bound_flt_pInput b) inputBegin in
  let paddingMaskBeginPtr := PointerOffset (bound_flt_pInputPaddingMask b) paddingBegin in
  let vectorXorSum :=
    if 0 <? numVectorBlocks then
      Some (HorizontalVectorSum t
              (EmitInnerLoopVector mem t vectorSize inputBeginPtr paddingMaskBeginPtr
                 weightsBeginPtr (FillVector vectorSize 0) 0 numVectorBlocks
                 hasZeroPadding))
    else None in
  let sum :=
    if 0 <? numScalarBlocks then
      let start := int_mul vectorSize numVectorBlocks in
      Some (EmitInnerLoop mem t inputBeginPtr paddingMaskBeginPtr weightsBeginPtr 0
              start numScalarBlocks hasZeroPadding)
    else None in
  let xorSum :=
    match sum, vectorXorSum with
    | Some s, Some v => wrapPacked t (s + v)
    | Some s, None => s
    | None, Some v => v
    | None, None => 0
    end in
  let sumInt := wrap xorSum in
  let scaledSum := int_add (int_mul (-2) sumInt) (int_mul numBits packedRowSize) in
  let scaledSumWithPadding :=
    if hasZeroPadding then
      let paddingSum := readInt mem (bound_flt_pInputPaddingMaskSums b) outputColumnIndex in
      int_sub scaledSum paddingSum
    else scaledSum in
  let sumFloat := castInt scaledSumWithPadding in
  let adjustedSum :=
    if partialBlockSize =? 0 then sumFloat
    else
      let filterAdjust := int_sub numBits partialBlockSize in
      subtract sumFloat (castInt filterAdjust) in
  match filterMean with
  | Some mean => multiply adjustedSum mean
  | None => adjustedSum
  end.

(** [ComputeFilterOutput]: one run of the loop body of the xnor node. *)
Definition ComputeFilterOutput (b : BoundFilterBody) (filterIndex : Z) (mem : Memory)
    : Memory :=
  let node := bound_flt_this b in
  let outputColumns := bound_flt_outputColumns b in
  let filterMean :=
    if decide (weightsScale (xn_convolutionalParameters node) = scale_mean)
    then Some (readReal mem (bound_flt_pFilterMeans b) filterIndex)
    else None in
  For 0 outputColumns
    (fun outputColumnIndex mem =>
       let outIndex := int_add (int_mul filterIndex outputColumns) outputColumnIndex in
       writeReal mem (bound_flt_pOutput b) outIndex
         (filterOutputValue b filterIndex filterMean outputColumnIndex mem))
    mem.

(** The xnor node keeps nothing in the frame of the running function. *)
Definition execFilter (b : BoundFilterBody) (i : Z) (state : Memory * unit)
    : Memory * unit :=
  (ComputeFilterOutput b i state.1, tt).

(** *** Functions and tasks *)

(** A call of a function whose code is one loop: [frame] is the state of
    the local variables the body keeps across iterations, gone at the
    return. *)
Definition callFunction {Body Bound Frame : Type}
    (bindBody : list RuntimeValue -> Body -> option Bound)
    (execBody : Bound -> Z -> Memory * Frame -> Memory * Frame)
    (code : ForLoop Body) (arguments : list RuntimeValue) (frame : Frame)
    (mem : Memory) : option Memory :=
  lo ← evalInt arguments (loopBegin code);
  hi ← evalInt arguments (loopEnd code);
  b ← bindBody arguments (loopBody code);
  Some (For lo hi (execBody b) (mem, frame)).1.

(** Running what [Compile] emitted.  The sequential loop runs in the frame
    of the caller.  Started tasks each run the task function in a frame of
    their own, and the join returns when all are done: [schedule] is the
    order in which the tasks run, every task once. *)
Definition runEmitted {Body Bound Frame : Type}
    (bindBody : list RuntimeValue -> Body -> option Bound)
    (execBody : Bound -> Z -> Memory * Frame -> Memory * Frame)
    (frames : nat -> Frame) (schedule : list nat)
    (e : Emitted Body) (mem : Memory) : option Memory :=
  match e with
  | SequentialLoop loop => callFunction bindBody execBody loop [] (frames 0%nat) mem
  | StartTasksWaitAll taskFunction taskArgs =>
      foldOption
        (fun mem task =>
           args ← taskArgs !! task;
           actuals ← mapM (evaluate []) args;
           callFunction bindBody execBody (functionCode taskFunction) actuals
                        (frames task) mem)
        mem schedule
  end.

Definition validSchedule {Body : Type} (e : Emitted Body) (schedule : list nat) : Prop :=
  match e with
  | SequentialLoop _ => True
  | StartTasksWaitAll _ taskArgs => Permutation schedule (seq 0 (length taskArgs))
  end.

(** *** What the properties are stated with *)

(** One run of the row body as a change of the memory alone. *)
Definition rowEffect (b : BoundRowBody) (i : Z) (mem : Memory) : Memory :=
  (execRow b i (mem, ∅)).1.

Definition filterEffect (b : BoundFilterBody) (i : Z) (mem : Memory) : Memory :=
  (execFilter b i (mem, tt)).1.

(** The stores of [CompressRow], in order. *)
Definition compressWrites (t : PackedBitsType) (realRow : gmap Z ValueType)
    (packedOutput : Ptr) (numValues : Z) : list ((PortName * Z) * Z) :=
  let storedElementNumBits := int_mul 8 (sizeof t) in
  let numBlocks := int_add (Z.quot (int_sub numValues 1) storedElementNumBits) 1 in
  let numCompleteBlocks := Z.quot numValues storedElementNumBits in
  map (fun blockIndex =>
         (PointerOffset packedOutput blockIndex,
          packBits t realRow (int_mul blockIndex storedElementNumBits)
                   storedElementNumBits))
      (loop_range 0 numCompleteBlocks)
  ++ (if numCompleteBlocks <? numBlocks then
        [(PointerOffset packedOutput numCompleteBlocks,
          packBits t realRow (int_mul numCompleteBlocks storedElementNumBits)
                   (Z.rem numValues storedElementNumBits))]
      else []).

(** The stores of one run of the row body. *)
Definition rowWrites (b : BoundRowBody) (i : Z) (mem : Memory)
    : list ((PortName * Z) * Z) :=
  let node := bound_row_this b in
  compressWrites (rf_PackedBitsType node)
    (LoadRow mem (bound_row_pInput b) (rf_inputMemoryLayout node) i
             (rf_outputMemoryLayout node) (rf_convolutionalParameters node) ∅)
    (PointerOffset (bound_row_pOutput b) (int_mul i (bound_row_packedRowSize b)))
    (wrap (bound_row_fieldVolumeSize b)).

(** The body belongs to a well-formed node and carries the sizes that
    [Compile] and [GetTaskFunction] compute for it. *)
Definition rowBodyFits (b : BoundRowBody) : Prop :=
  let node := bound_row_this b in
  let filterWidth := receptiveField (rf_convolutionalParameters node) in
  let inputDepth := dimension (GetActiveSize (rf_inputMemoryLayout node)) 2 in
  let numBits := 8 * sizeof (rf_PackedBitsType node) in
  rf_wellFormed node /\
  bound_row_fieldVolumeSize b = filterWidth * filterWidth * inputDepth /\
  bound_row_packedRowSize b
  = (filterWidth * filterWidth * inputDepth - 1) / numBits + 1.

(** The stores of [ComputeFilterOutput], in order, for the memory [mem] it
    starts from. *)
Definition filterWrites (b : BoundFilterBody) (filterIndex : Z) (mem : Memory)
    : list ((PortName * Z) * ValueType) :=
  let filterMean :=
    if decide (weightsScale (xn_convolutionalParameters (bound_flt_this b)) = scale_mean)
    then Some (readReal mem (bound_flt_pFilterMeans b) filterIndex)
    else None in
  map (fun outputColumnIndex =>
         (PointerOffset (bound_flt_pOutput b)
            (int_add (int_mul filterIndex (bound_flt_outputColumns b)) outputColumnIndex),
          filterOutputValue b filterIndex filterMean outputColumnIndex mem))
      (loop_range 0 (bound_flt_outputColumns b)).

End ValueType.

(** Two scratch rows hold the same values at the indices in [P]. *)
Definition agreeOn {V : Type} (P : Z -> Prop) (s1 s2 : gmap Z V) : Prop :=
  forall k, P k -> s1 !! k = s2 !! k.

(** The body of the task function of a receptive-field node, bound to the
    buffers of the ports. *)
Definition rf_boundBody (node : BinaryReceptiveFieldMatrixNode) : BoundRowBody :=
  mkBoundRowBody node (input, 0) (output, 0)
    (row_packedRowSize (loopBody (functionCode (rf_GetTaskFunction node))))
    (row_fieldVolumeSize (loopBody (functionCode (rf_GetTaskFunction node)))).

(** The body of a task function of an xnor node, bound to the buffers of
    the ports. *)
Definition xn_boundBody (taskFunction : TaskFunction FilterBody) : BoundFilterBody :=
  let body := loopBody (functionCode taskFunction) in
  mkBoundFilterBody (flt_this body) (input, 0) (filterWeights, 0) (filterMeans, 0)
    (inputPaddingMasks, 0) (inputPaddingMaskSums, 0) (output, 0)
    (flt_hasZeroPadding body) (flt_outputColumns body) (flt_packedRowSize body)
    (flt_packedRowStride body) (flt_useVectorInstructions body) (flt_vectorSize body)
    (flt_numVectorBlocks body).

(** The body belongs to a well-formed node, carries the number of output
    columns that [Compile] computes, and its output is not the buffer of the
    filter means. *)
Definition filterBodyFits (b : BoundFilterBody) : Prop :=
  let outputSize := GetActiveSize (xn_outputMemoryLayout (bound_flt_this b)) in
  xn_wellFormed (bound_flt_this b) /\
  bound_flt_outputColumns b = dimension outputSize 0 * dimension outputSize 1 /\
  (bound_flt_pOutput b).1 <> (bound_flt_pFilterMeans b).1.

(** The body of [taskFunction], called with [taskArgs], and the body of
    [loop] are bound to the same closure, and one run of either at an index
    changes the memory in the same way, whatever the local variables of the
    running function hold. *)
Definition sameIndexResult {ValueType Body Bound Frame : Type}
    (bindBody : list RuntimeValue -> Body -> option Bound)
    (execBody : Bound -> Z -> Memory (ValueType := ValueType) * Frame
                -> Memory (ValueType := ValueType) * Frame)
    (taskFunction : TaskFunction Body) (taskArgs : list LLVMValue)
    (loop : ForLoop Body) : Prop :=
  exists actuals b,
    mapM (evaluate []) taskArgs = Some actuals /\
    bindBody actuals (loopBody (functionCode taskFunction)) = Some b /\
    bindBody [] (loopBody loop) = Some b /\
    forall i mem frame frame',
      (execBody b i (mem, frame)).1 = (execBody b i (mem, frame')).1.

(** Run from the same memory, with the tasks in any order and whatever
    the local variables hold, [parallel] and [sequential] end with the same
    memory. *)
Definition sameOutputs {ValueType Body Bound Frame : Type}
    (bindBody : list RuntimeValue -> Body -> option Bound)
    (execBody : Bound -> Z -> Memory (ValueType := ValueType) * Frame
                -> Memory (ValueType := ValueType) * Frame)
    (parallel sequential : Emitted Body) : Prop :=
  forall frames frames' schedule mem,
    validSchedule parallel schedule ->
    exists result,
      runEmitted bindBody execBody frames schedule parallel mem = Some result /\
      runEmitted bindBody execBody frames' [] sequential mem = Some result.

Definition withParallelize (parallel : bool) (compilerSettings : CompilerOptions)
    : CompilerOptions :=
  mkOptions parallel (maxThreads compilerSettings)
            (allowVectorInstructions compilerSettings) (vectorWidth compilerSettings).

(** A memory whose input holds values of both signs, for running the samples
    with [ValueType := Z]. *)
Definition sampleMemory : Memory (ValueType := Z) :=
  mkMemory
    (list_to_map
       (map (fun k => ((input, k), (k * k) mod 7 - 3)) (loop_indices 72)))
    ∅.

End Execution.

Module PortSamples.
Import Exceptions Ports.

(** A store in which input port 1 points at output port 1, whose reference
    set has lost the input. *)
Definition lost_back_reference : PortStore :=
  mkPortStore {[ 1%positive := mkInputPort (Some 1%positive) ]}
              {[ 1%positive := mkOutputPort 3 ∅ ]}.

(** A store with two output ports and one input port bound to the first. *)
Definition two_outputs : PortStore :=
  new_InputPort
    (mkPortStore ∅ {[ 1%positive := mkOutputPort 3 ∅; 2%positive := mkOutputPort 5 ∅ ]})
    1 1.

(** A store with one output port and no input port. *)
Definition no_input : PortStore :=
  mkPortStore ∅ {[ 1%positive := mkOutputPort 3 ∅ ]}.

(** Output port [old] lists the input port [this], which does not
    reference it. *)
Definition dangling (s : PortStore) (old this : positive) : Prop :=
  referencedPort s this <> Some old /\ referenced_by s old this.

End PortSamples.

Module HeaderText.
Import IRHeaderWriter.

(** A struct type that [ShouldWriteType] keeps out of the header: it is
    named "timespec", or its name begins with "struct." or "class.". *)
Definition hiddenType (t : StructType) : Prop :=
  exists typeName,
    structName t = Some typeName /\
    (typeName = "timespec"%string \/
     String.prefix "struct." typeName = true \/
     String.prefix "class." typeName = true).

(** The comment lines that [WriteFunction] puts before a signature. *)
Definition commentLines (moduleEmitter : IRModuleEmitter) (name : string) : string :=
  match functionComments moduleEmitter name with
  | Some comments =>
      String.concat "" (map (fun comment => "// " +:+ comment +:+ nl) comments)
  | None => ""
  end.

(** The text of a type, written to an empty stream. *)
Definition typeText (t : LLVMType) : string := WriteLLVMType "" t.

(** A function with comments and three arguments. *)
Definition commentedModule : IRModuleEmitter :=
  mkModule "model" [("N", "3")]%string
    [mkStructType (Some "Shape") [IntegerTy 32; ArrayTy 4 DoubleTy];
     mkStructType (Some "struct.internal") [];
     mkStructType None [FloatTy]]
    [mkFunction (Some "predict") (IntegerTy 32)
       [PointerTy DoubleTy; StructTy (Some "Shape"); ArrayTy 3 FloatTy]]
    (fun name => if String.eqb name "predict"
                 then Some ["runs the model"; "returns 0"]%string else None).

(** The declaration of a function in the header: the comment lines
    registered for its name, the return type, the name, and the argument
    types in parentheses. *)
Definition declaration (moduleEmitter : IRModuleEmitter) (f : Function) : string :=
  match name f with
  | Some functionName =>
      commentLines moduleEmitter functionName
      +:+ typeText (returnType f) +:+ " " +:+ functionName +:+ "("
      +:+ String.concat ", " (map typeText (args f)) +:+ ");"
  | None => ""
  end.

(** The declarations of the functions that [ShouldWriteFunction] lets
    through, in module order, each followed by an empty line. *)
Definition declarations (moduleEmitter : IRModuleEmitter) : string :=
  String.concat ""
    (map (fun f => declaration moduleEmitter f +:+ nl +:+ nl)
         (List.filter ShouldWriteFunction (functions moduleEmitter))).

(** The declaration of a variable or field: an array has its size after
    the name. *)
Definition varDeclText (t : LLVMType) (name : string) : string :=
  match t with
  | ArrayTy size elemType =>
      typeText elemType +:+ " " +:+ name +:+ "[" +:+ to_string size +:+ "]"
  | _ => typeText t +:+ " " +:+ name
  end.

(** The fields of a struct, a line each, named "param" and their index,
    counted from [index]. *)
Fixpoint fieldLines (index : N) (fields : list LLVMType) : string :=
  match fields with
  | [] => ""
  | fieldType :: rest =>
      "    " +:+ varDeclText fieldType ("param" +:+ to_string index) +:+ ";" +:+ nl
      +:+ fieldLines (index + 1) rest
  end.

(** The definition of a named struct type in the header. *)
Definition structText (t : StructType) : string :=
  match structName t with
  | Some typeName =>
      "struct " +:+ typeName +:+ nl +:+ "{" +:+ nl
      +:+ fieldLines 0 (elements t) +:+ "};"
  | None => ""
  end.

(** The definitions of the struct types that [ShouldWriteType] lets
    through, in module order, each followed by an empty line. *)
Definition typeDefinitions (moduleEmitter : IRModuleEmitter) : string :=
  String.concat ""
    (map (fun t => structText t +:+ nl +:+ nl)
         (List.filter ShouldWriteType (identifiedStructTypes moduleEmitter))).

(** The module without its struct types. *)
Definition withoutTypes (moduleEmitter : IRModuleEmitter) : IRModuleEmitter :=
  mkModule (moduleName moduleEmitter) (preprocessorDefinitions moduleEmitter) []
           (functions moduleEmitter) (functionComments moduleEmitter).

(** Lines of text, each ended by a line feed. *)
Definition lines (ls : list string) : string :=
  String.concat "" (map (fun l => l +:+ nl) ls).

End HeaderText.

Module ThreadCounts.
Import MachineInt TaskSplit BinaryConvolution.

(** The thread counts for which [CeilDiv(total, maxThreads)] or the
    [CeilDiv(total, taskSize)] after it divides by zero: no thread, or a
    negative count that divides [total - 1] to -1 and so gives a task size
    of 0. *)
Definition dividesByZero (total maxThreads : Z) : Prop :=
  maxThreads = 0 \/
  (maxThreads < 0 /\ - maxThreads <= total - 1 < - 2 * maxThreads).

(** Compiler options with no thread. *)
Definition noThreads : CompilerOptions := mkOptions true 0 false 4.

(** Compiler options with one thread, and with two. *)
Definition oneThread (parallel : bool) : CompilerOptions := mkOptions parallel 1 false 4.

Definition twoThreads (parallel : bool) : CompilerOptions := mkOptions parallel 2 false 4.

(** Nodes without work: an output of height 0, and an output of 0 channels. *)
Definition noRowsNode : BinaryReceptiveFieldMatrixNode :=
  mkReceptiveFieldNode "1021" int64_t (mkConvParams 3 1 scale_none)
    (mkLayout [2; 6; 2] [2; 6; 2]) (mkLayout [0; 4; 8] [0; 4; 8]).

Definition noFiltersNode : BinaryXnorNode :=
  mkXnorNode "1022" int64_t (mkConvParams 3 1 scale_none) (mkPadding false)
    (mkLayout [6; 6; 2] [6; 6; 2]) (mkLayout [4; 4; 0] [4; 4; 0]).

(** A receptive-field node with [INT_MAX] output rows of one value each. *)
Definition manyRowsNode : BinaryReceptiveFieldMatrixNode :=
  mkReceptiveFieldNode "1020" int64_t (mkConvParams 1 1 scale_none)
    (mkLayout [2147483647; 1; 1] [2147483647; 1; 1])
    (mkLayout [2147483647; 1; 1] [2147483647; 1; 1]).

(** What [Compile] emits for [manyRowsNode] with two threads.  The task size
    is 1073741824, and the end of the second task,
    [std::min(2 * 1073741824, numOutputRows)], is computed in [int]: the
    product wraps to -2147483648. *)
Definition manyRowsTasks : Emitted RowBody :=
  StartTasksWaitAll (rf_GetTaskFunction manyRowsNode)
    [rf_taskArgs (0, 1073741824); rf_taskArgs (1073741824, -2147483648)].

Definition manyRowsLoop : Emitted RowBody :=
  SequentialLoop
    (mkFor (Literal 0) (Literal 2147483647)
       (instantiateRowBody (rf_taskArgs (0, 0))
          (loopBody (functionCode (rf_GetTaskFunction manyRowsNode))))).

(** A memory whose input value of row 1073741824 is positive and whose
    output is all 0. *)
Definition lateRowMemory : Execution.Memory (ValueType := Z) :=
  Execution.mkMemory {[ (input, 1073741824) := 5 ]} ∅.

End ThreadCounts.

(** ** Packed bits ([BinaryConvolutionalLayerNode.cpp])

    The functions that size and fill the buffers of packed bits. *)
Module Packing.
Import MachineInt TaskSplit BinaryConvolution Execution.

(** [size_t GetFilterVolumeSize(convolutionalParameters, inputMemoryLayout)];
    [inputDepth] is an [int], [filterSize] a [size_t]. *)
Definition GetFilterVolumeSize (convolutionalParameters : BinaryConvolutionalParameters)
    (inputMemoryLayout : PortMemoryLayout) : Z :=
  let inputDepth := dimension (GetActiveSize inputMemoryLayout) 2 in
  let filterSize := receptiveField convolutionalParameters in
  size_t (size_t (size_t inputDepth * filterSize) * filterSize).

(** [template <typename PackedBitsType> size_t GetPackedFilterSize(...)] *)
Definition GetPackedFilterSize (t : PackedBitsType)
    (convolutionalParameters : BinaryConvolutionalParameters)
    (inputMemoryLayout outputMemoryLayout : PortMemoryLayout) : Z :=
  let numOutputPixels :=
    size_t (int_mul (dimension (GetActiveSize outputMemoryLayout) 0)
                    (dimension (GetActiveSize outputMemoryLayout) 1)) in
  let filterVolumeSize := GetFilterVolumeSize convolutionalParameters inputMemoryLayout in
  size_t (size_t (size_t (filterVolumeSize - 1) / size_t (8 * sizeof t) + 1)
          * numOutputPixels).

(** The size that the constructor of [BinaryReceptiveFieldMatrixNode]
    gives to the output port. *)
Definition rf_outputSize (node : BinaryReceptiveFieldMatrixNode) : Z :=
  GetPackedFilterSize (rf_PackedBitsType node) (rf_convolutionalParameters node)
                      (rf_inputMemoryLayout node) (rf_outputMemoryLayout node).

(** [void PushPackedBits(std::vector<int64_t>& vec, const std::vector<uint64_t>& bits)];
    a [uint64_t] becomes the [int64_t] with the same bits. *)
Definition PushPackedBits64 (vec : list Z) (bits : list Z) : list Z :=
  vec ++ map (wrapPacked int64_t) bits.

(** [void PushPackedBits(std::vector<int32_t>& vec, const std::vector<uint64_t>& bits)] *)
Definition PushPackedBits32 (vec : list Z) (bits : list Z) : list Z :=
  fold_left
    (fun vec b =>
       let vec := vec ++ [wrapPacked int32_t (Z.land b 4294967295)] in
       vec ++ [wrapPacked int32_t (Z.land (Z.shiftr b 32) 4294967295)])
    bits vec.

(** The overload chosen by the element type of [vec]. *)
Definition PushPackedBits (t : PackedBitsType) (vec bits : list Z) : list Z :=
  match t with
  | int32_t => PushPackedBits32 vec bits
  | int64_t => PushPackedBits64 vec bits
  end.

(** [BinaryConvolutionalLayerNode::GetCompressedFilterWeights<PackedBitsType>]
    and [GetCompressedInputPaddingMask<PackedBitsType>], on the vector of
    vectors of [uint64_t] that the layer hands out. *)
Definition GetCompressedFilterWeights (t : PackedBitsType) (filterWeights : list (list Z))
    : list Z :=
  fold_left (PushPackedBits t) filterWeights [].

Definition GetCompressedInputPaddingMask (t : PackedBitsType) (masks : list (list Z))
    : list Z :=
  fold_left (PushPackedBits t) masks [].

(** Bit [k] of a sequence of blocks of [numBits] bits each, the bits of a
    block counted from the least significant one. *)
Definition streamBit (numBits : Z) (block : Z -> Z) (k : Z) : bool :=
  Z.testbit (block (k / numBits)) (k mod numBits).

(** Block [j] of a vector. *)
Definition blockAt (blocks : list Z) (j : Z) : Z := nth (Z.to_nat j) blocks 0.

(** The number of values in the receptive field of an xnor node. *)
Definition xn_fieldVolumeSize (node : BinaryXnorNode) : Z :=
  receptiveField (xn_convolutionalParameters node)
  * receptiveField (xn_convolutionalParameters node)
  * dimension (GetActiveSize (xn_inputMemoryLayout node)) 2.

(** The receptive field of an xnor node is not empty and its size fits an
    [int]. *)
Definition xn_fieldFits (node : BinaryXnorNode) : Prop :=
  1 <= receptiveField (xn_convolutionalParameters node) /\
  1 <= dimension (GetActiveSize (xn_inputMemoryLayout node)) 2 /\
  xn_fieldVolumeSize node <= INT_MAX.

(** Two filters of two 64-bit blocks each. *)
Definition sampleWeights : list (list Z) :=
  [[6148914691236517205; 18446744073709551615]; [1; 9223372036854775808]].

End Packing.

(** ** The arithmetic of the xnor convolution

    A set bit stands for +1 and a clear bit for -1; the convolution of two
    packed rows is the dot product of the two vectors of signs. *)
Module SignedBits.
Import MachineInt TaskSplit BinaryConvolution Execution Packing.

Definition Zsum (l : list Z) : Z := fold_right Z.add 0 l.

Definition bitSign (b : bool) : Z := if b then 1 else -1.

(** The dot product of the sign vectors [a] and [b] over the positions
    [0 .. n - 1]; with zero padding the positions whose [mask] bit is clear
    hold an input of 0 and add nothing. *)
Definition maskedDot (hasZeroPadding : bool) (mask a b : Z -> bool) (n : Z) : Z :=
  Zsum (map (fun k => if hasZeroPadding && negb (mask k) then 0
                      else bitSign (a k) * bitSign (b k))
            (loop_indices n)).

(** The number of positions in [0 .. n - 1] whose [mask] bit is clear. *)
Definition maskedOut (mask : Z -> bool) (n : Z) : Z :=
  Z.of_nat (length (List.filter (fun k => negb (mask k)) (loop_indices n))).

(** [adjustedSum * filterMean], or [adjustedSum] without scaling. *)
Definition scaleOutput {ValueType : Type}
    (multiply : ValueType -> ValueType -> ValueType)
    (filterMean : option ValueType) (adjustedSum : ValueType) : ValueType :=
  match filterMean with
  | Some mean => multiply adjustedSum mean
  | None => adjustedSum
  end.

(** What [ComputeFilterOutput] makes of the integer [dot]: the sum it casts
    to [ValueType] counts one more for every unused bit of the last block
    of the row, and when there are such bits their number is cast too and
    subtracted in [ValueType]. *)
Definition adjustedOutput {ValueType : Type} (castInt : Z -> ValueType)
    (subtract : ValueType -> ValueType -> ValueType)
    (numBits fieldVolumeSize dot : Z) : ValueType :=
  let unusedBits := numBits - fieldVolumeSize mod numBits in
  if fieldVolumeSize mod numBits =? 0 then castInt dot
  else subtract (castInt (dot + unusedBits)) (castInt unusedBits).

(** What one block adds to the running sum of [EmitInnerLoop]. *)
Definition blockCount {ValueType : Type} (mem : Memory (ValueType := ValueType))
    (t : PackedBitsType) (hasZeroPadding : bool)
    (inputPtr paddingMaskPtr weightsPtr : Ptr) (blockIndex : Z) : Z :=
  xorCount t hasZeroPadding (readInt mem inputPtr blockIndex)
           (readInt mem weightsPtr blockIndex) (readInt mem paddingMaskPtr blockIndex).

(** The sum of the xor counts as [ComputeFilterOutput] puts it together
    from the vector blocks and the scalar blocks. *)
Definition xorSumOf {ValueType : Type} (mem : Memory (ValueType := ValueType))
    (t : PackedBitsType) (hasZeroPadding : bool)
    (inputBeginPtr paddingMaskBeginPtr weightsBeginPtr : Ptr)
    (packedRowSize vectorSize numVectorBlocks : Z) : Z :=
  let numScalarBlocks := int_sub packedRowSize (int_mul vectorSize numVectorBlocks) in
  let vectorXorSum :=
    if 0 <? numVectorBlocks then
      Some (HorizontalVectorSum t
              (EmitInnerLoopVector mem t vectorSize inputBeginPtr paddingMaskBeginPtr
                 weightsBeginPtr (FillVector vectorSize 0) 0 numVectorBlocks
                 hasZeroPadding))
    else None in
  let sum :=
    if 0 <? numScalarBlocks then
      let start := int_mul vectorSize numVectorBlocks in
      Some (EmitInnerLoop mem t inputBeginPtr paddingMaskBeginPtr weightsBeginPtr 0
              start numScalarBlocks hasZeroPadding)
    else None in
  match sum, vectorXorSum with
  | Some s, Some v => wrapPacked t (s + v)
  | Some s, None => s
  | None, Some v => v
  | None, None => 0
  end.

(** The vector settings of a loop body fit its packed rows: the vector
    blocks do not reach past the row. *)
Definition vectorsFit (vectorSize numVectorBlocks packedRowSize : Z) : Prop :=
  0 <= numVectorBlocks /\ 0 <= vectorSize * numVectorBlocks <= packedRowSize /\
  (0 < numVectorBlocks -> 1 <= vectorSize).

(** The receptive field of an xnor node is not empty and a packed row,
    the unused bits of its last block included, has no more bits than an
    [int] can count. *)
Definition xn_rowFits (node : BinaryXnorNode) : Prop :=
  1 <= receptiveField (xn_convolutionalParameters node) /\
  1 <= dimension (GetActiveSize (xn_inputMemoryLayout node)) 2 /\
  xn_fieldVolumeSize node + 63 <= INT_MAX.

(** The compiler options with vector instructions allowed or not. *)
Definition withVectorInstructions (allow : bool) (compilerSettings : CompilerOptions)
    : CompilerOptions :=
  mkOptions (parallelize compilerSettings) (maxThreads compilerSettings) allow
            (vectorWidth compilerSettings).

(** The vector width is an [int] and, if vector instructions are allowed,
    not 0. *)
Definition vectorWidthFits (compilerSettings : CompilerOptions) : Prop :=
  is_int (vectorWidth compilerSettings) /\
  (allowVectorInstructions compilerSettings = true -> vectorWidth compilerSettings <> 0).

(** Options with vector instructions on one-block vectors and no tasks. *)
Definition vectorOptions : CompilerOptions := mkOptions false 4 true 1.

(** An xnor node without zero padding and without scaling, and a memory
    with one packed input row and one packed filter. *)
Definition plainXnorNode : BinaryXnorNode :=
  mkXnorNode "1019" int64_t (mkConvParams 3 1 scale_none) (mkPadding false)
    (mkLayout [6; 6; 2] [6; 6; 2]) (mkLayout [1; 1; 1] [1; 1; 1]).

Definition plainXnorBody : BoundFilterBody :=
  mkBoundFilterBody plainXnorNode (input, 0) (filterWeights, 0) (filterMeans, 0)
    (inputPaddingMasks, 0) (inputPaddingMaskSums, 0) (output, 0)
    false 1 1 1 false 4 0.

Definition xnorMemory : Memory (ValueType := Z) :=
  mkMemory ∅ {[ (input, 0) := 5; (filterWeights, 0) := 3 ]}.

(** [ValueType := double]: the cast of an [int] is the binary64 number
    nearest to it, and [-] and [*] are those of binary64. *)
Definition castDouble (z : Z) : PrimFloat.float :=
  Floats.FloatOps.SF2Prim
    (Floats.SpecFloat.binary_normalize Floats.FloatOps.prec Floats.FloatOps.emax z 0 false).

(** The same packed row and filter in a memory of [double]s. *)
Definition xnorMemoryDouble : Memory (ValueType := PrimFloat.float) :=
  mkMemory ∅ {[ (input, 0) := 5; (filterWeights, 0) := 3 ]}.

End SignedBits.

(** * HuberLoss.h *)

(** The loss works on [double], here the binary64 numbers of the kernel
    with their IEEE 754 operations, each rounded on its own.  [OutputType]
    is a template parameter that the code converts to [double] in every
    expression; it is [double] here. *)
Module HuberLoss.
Import Floats.PrimFloat.
Local Open Scope float_scope.

Record HuberLoss := mkHuberLoss { _gamma : float }.

(** [HuberLoss(double gamma = 2.0)] *)
Definition default_HuberLoss : HuberLoss := mkHuberLoss 2.

Definition Smoothness (this : HuberLoss) : float := 2 / _gamma this.

Definition Value (this : HuberLoss) (prediction output : float) : float :=
  let residual := prediction - output in
  if (- _gamma this <=? residual) && (residual <=? _gamma this)
  then 0.5 / _gamma this * residual * residual
  else abs residual - 0.5 * _gamma this.

Definition Derivative (this : HuberLoss) (prediction output : float) : float :=
  let residual := prediction - output in
  if (- _gamma this <=? residual) && (residual <=? _gamma this)
  then residual / _gamma this
  else if 0 <? residual then 1 else -1.



End HuberLoss.

(** * Properties *)

(** ** Facts about [int] arithmetic *)
Module MachineIntFacts.
Import MachineInt.

Lemma wrap_small z : is_int z -> wrap z = z.
Proof.
  unfold is_int, INT_MIN, INT_MAX, wrap. intros H.
  rewrite Z.mod_small; lia.
Qed.

Lemma int_div_pos a b :
  is_int a -> 0 < b -> int_div a b = Some (Z.quot a b).
Proof.
  intros Ha Hb. unfold int_div.
  destruct (Z.eqb_spec b 0); [lia|].
  destruct (Z.eqb_spec b (-1)); [lia|].
  now rewrite andb_false_r.
Qed.

Lemma int_min_spec a b : int_min a b = Z.min a b.
Proof. unfold int_min. destruct (Z.ltb_spec b a); lia. Qed.

End MachineIntFacts.

(** ** Task splitting *)
Module TaskSplitFacts.
Import MachineInt MachineIntFacts TaskSplit.

Lemma ceil_div_unique a b q :
  0 < b -> b * (q - 1) < a <= b * q -> ceil_div a b = q.
Proof.
  intros Hb H. unfold ceil_div.
  assert (E : (- a) / b = - q); [|lia].
  symmetry. apply (Z.div_unique_pos (- a) b (- q) (b * q - a)); lia.
Qed.

Lemma ceil_div_bounds a b :
  0 < b -> b * (ceil_div a b - 1) < a <= b * ceil_div a b.
Proof.
  intros Hb. unfold ceil_div.
  pose proof (Z.div_mod (- a) b ltac:(lia)) as E.
  pose proof (Z.mod_pos_bound (- a) b Hb). nia.
Qed.

(** On positive [int]s the idiom [(a - 1) / b + 1] is the ceiling. *)
Lemma CeilDiv_positive a b :
  1 <= a <= INT_MAX -> 1 <= b <= INT_MAX ->
  CeilDiv a b = Some (ceil_div a b) /\ 1 <= ceil_div a b <= a.
Proof.
  unfold INT_MAX. intros Ha Hb. unfold CeilDiv, int_sub, int_add.
  rewrite (wrap_small (a - 1)) by (unfold is_int, INT_MIN, INT_MAX; lia).
  rewrite int_div_pos by (unfold is_int, INT_MIN, INT_MAX; lia). simpl.
  rewrite Z.quot_div_nonneg by lia.
  pose proof (Z.div_mod (a - 1) b ltac:(lia)) as E.
  pose proof (Z.mod_pos_bound (a - 1) b ltac:(lia)) as M.
  assert (Q0 : 0 <= (a - 1) / b) by (apply Z.div_pos; lia).
  assert (Q1 : (a - 1) / b <= a - 1) by (apply Z.div_le_upper_bound; nia).
  rewrite wrap_small by (unfold is_int, INT_MIN, INT_MAX; lia).
  assert (C : ceil_div a b = (a - 1) / b + 1) by (apply ceil_div_unique; nia).
  rewrite C. split; [reflexivity | lia].
Qed.

Lemma in_loop_indices n i : In i (loop_indices n) <-> 0 <= i < n.
Proof.
  unfold loop_indices. rewrite in_map_iff. split.
  - intros (k & <- & Hk). apply in_seq in Hk. lia.
  - intros Hi. exists (Z.to_nat i). split; [lia|]. apply in_seq. lia.
Qed.

Lemma taskRange_exact ts total i :
  0 <= i -> 0 <= ts -> (i + 1) * ts <= INT_MAX ->
  taskRange ts total i = (i * ts, Z.min ((i + 1) * ts) total).
Proof.
  unfold INT_MAX. intros Hi Hts Hb. unfold taskRange, int_mul, int_add.
  rewrite int_min_spec.
  assert (i + 1 <= 2147483647 \/ ts = 0) as [Hs | ->] by nia.
  - rewrite (wrap_small (i + 1)) by (unfold is_int, INT_MIN, INT_MAX; lia).
    rewrite !wrap_small by (unfold is_int, INT_MIN, INT_MAX; nia).
    reflexivity.
  - rewrite !Z.mul_0_r. reflexivity.
Qed.

Lemma tiles_from ts total nt :
  1 <= ts -> 0 <= nt -> (nt - 1) * ts < total <= nt * ts ->
  nt * ts <= INT_MAX ->
  forall n i,
    Z.of_nat i + Z.of_nat n = nt ->
    tiles (Z.min (Z.of_nat i * ts) total) total
          (map (taskRange ts total) (map Z.of_nat (seq i n))).
Proof.
  intros Hts Hnt Hb Hmax n. induction n as [|n IH]; intros i Hi; simpl.
  - replace (Z.of_nat i) with nt by lia.
    rewrite Z.min_r by lia. constructor.
  - rewrite taskRange_exact by nia.
    replace (Z.min (Z.of_nat i * ts) total) with (Z.of_nat i * ts) by nia.
    constructor; [nia|].
    replace (Z.of_nat i + 1) with (Z.of_nat (S i)) by lia.
    apply IH. lia.
Qed.

Lemma tiles_le lo hi rs : tiles lo hi rs -> lo <= hi.
Proof. induction 1; lia. Qed.

Lemma tiles_cover lo hi rs :
  tiles lo hi rs ->
  forall x, lo <= x < hi <-> exists r, In r rs /\ in_range x r.
Proof.
  induction 1 as [lo | lo mid hi rs Hlt Ht IH]; intros x.
  - split; [lia | intros (r & [] & _)].
  - pose proof (tiles_le _ _ _ Ht) as Hle. split.
    + intros Hx. destruct (Z.lt_ge_cases x mid) as [Hm | Hm].
      * exists (lo, mid). split; [now left | unfold in_range; simpl; lia].
      * destruct (proj1 (IH x) ltac:(lia)) as (r & Hr & Hin).
        exists r. split; [now right | exact Hin].
    + intros (r & [<- | Hr] & Hin).
      * unfold in_range in Hin; simpl in Hin. lia.
      * pose proof (proj2 (IH x) (ex_intro _ r (conj Hr Hin))). lia.
Qed.

Lemma tiles_within lo hi rs :
  tiles lo hi rs ->
  forall (i : nat) r, rs !! i = Some r -> lo <= r.1 /\ r.1 < r.2 /\ r.2 <= hi.
Proof.
  induction 1 as [lo | lo mid hi rs Hlt Ht IH]; intros i r Hr.
  - destruct i; discriminate.
  - pose proof (tiles_le _ _ _ Ht) as Hle. destruct i as [|i]; simpl in Hr.
    + injection Hr as <-. simpl. lia.
    + specialize (IH i r Hr). lia.
Qed.

Lemma tiles_sorted lo hi rs :
  tiles lo hi rs ->
  forall (i j : nat) r1 r2,
    rs !! i = Some r1 -> rs !! j = Some r2 -> (i < j)%nat -> r1.2 <= r2.1.
Proof.
  induction 1 as [lo | lo mid hi rs Hlt Ht IH]; intros i j r1 r2 H1 H2 Hij.
  - destruct i; discriminate.
  - destruct j as [|j]; [lia|]. simpl in H2. destruct i as [|i]; simpl in H1.
    + injection H1 as <-. simpl.
      pose proof (tiles_within _ _ _ Ht j r2 H2). lia.
    + apply (IH i j r1 r2 H1 H2). lia.
Qed.

Lemma tiles_contiguous lo hi rs :
  tiles lo hi rs ->
  forall (i : nat) r1 r2,
    rs !! i = Some r1 -> rs !! S i = Some r2 -> r1.2 = r2.1.
Proof.
  induction 1 as [lo | lo mid hi rs Hlt Ht IH]; intros i r1 r2 H1 H2.
  - destruct i; discriminate.
  - destruct i as [|i]; simpl in *.
    + injection H1 as <-. inversion Ht; subst; simpl in *; [discriminate|].
      now injection H2 as <-.
    + eapply IH; eauto.
Qed.

Lemma tiles_disjoint lo hi rs :
  tiles lo hi rs ->
  forall (i j : nat) r1 r2,
    rs !! i = Some r1 -> rs !! j = Some r2 -> i <> j -> disjoint_ranges r1 r2.
Proof.
  intros Ht i j r1 r2 H1 H2 Hij x [Hx1 Hx2]. unfold in_range in *.
  destruct (Nat.lt_total i j) as [Hlt | [-> | Hlt]]; [| congruence |].
  - pose proof (tiles_sorted _ _ _ Ht i j r1 r2 H1 H2 Hlt). lia.
  - pose proof (tiles_sorted _ _ _ Ht j i r2 r1 H2 H1 Hlt). lia.
Qed.

(** For a non-empty amount of work the split is the one the design
    describes, and the ranges tile [[0, total)]. *)
Theorem positive_work_is_tiled total numDesiredTasks :
  1 <= total <= 1073741824 -> 1 <= numDesiredTasks <= INT_MAX ->
  let taskSize := ceil_div total numDesiredTasks in
  let numTasks := ceil_div total taskSize in
  splitTasks total numDesiredTasks = Some (taskSize, numTasks) /\
  1 <= taskSize /\ 1 <= numTasks <= numDesiredTasks /\
  Z.of_nat (length (taskRanges taskSize numTasks total)) = numTasks /\
  (forall i, 0 <= i < numTasks ->
     taskRanges taskSize numTasks total !! Z.to_nat i
     = Some (i * taskSize, Z.min ((i + 1) * taskSize) total)) /\
  tiles 0 total (taskRanges taskSize numTasks total).
Proof.
  intros HN HD ts nt. unfold INT_MAX in *.
  destruct (CeilDiv_positive total numDesiredTasks) as [E1 B1];
    [unfold INT_MAX; lia | unfold INT_MAX; lia |]. fold ts in E1, B1.
  destruct (CeilDiv_positive total ts) as [E2 B2];
    [unfold INT_MAX; lia | unfold INT_MAX; lia |]. fold nt in E2, B2.
  pose proof (ceil_div_bounds total numDesiredTasks ltac:(lia)) as C1. fold ts in C1.
  pose proof (ceil_div_bounds total ts ltac:(lia)) as C2. fold nt in C2.
  assert (Hnt : nt <= numDesiredTasks).
  { unfold nt. rewrite (ceil_div_unique total ts nt) by (fold nt; lia).
    destruct (Z.le_gt_cases nt numDesiredTasks); [assumption | nia]. }
  assert (Hmax : nt * ts <= 2147483647) by nia.
  assert (Hlen : Z.of_nat (length (taskRanges ts nt total)) = nt).
  { unfold taskRanges, loop_indices. rewrite !length_map, length_seq. lia. }
  repeat split; try assumption; try lia.
  - unfold splitTasks. rewrite E1. simpl. rewrite E2. reflexivity.
  - intros i Hi. unfold taskRanges, loop_indices.
    rewrite !list_lookup_fmap.
    rewrite lookup_seq_lt by lia. simpl.
    rewrite taskRange_exact by (unfold INT_MAX; nia). f_equal. f_equal; f_equal; lia.
  - pose proof (tiles_from ts total nt ltac:(lia) ltac:(lia) ltac:(nia)
                  ltac:(unfold INT_MAX; lia) (Z.to_nat nt) 0%nat ltac:(lia)) as T.
    simpl in T. rewrite Z.min_l in T by lia. exact T.
Qed.

(** For a non-empty amount of work the task ranges are what the design
    asks for: their union is [[0, total)], they are sorted, each starts where
    the one before it ends, and no two of them overlap. *)
Theorem positive_work_ranges_partition total numDesiredTasks :
  1 <= total <= 1073741824 -> 1 <= numDesiredTasks <= INT_MAX ->
  let taskSize := ceil_div total numDesiredTasks in
  let numTasks := ceil_div total taskSize in
  let ranges := taskRanges taskSize numTasks total in
  (forall x, 0 <= x < total <-> exists r, In r ranges /\ in_range x r) /\
  (forall (i j : nat) r1 r2,
     ranges !! i = Some r1 -> ranges !! j = Some r2 -> (i < j)%nat -> r1.2 <= r2.1) /\
  (forall (i : nat) r1 r2,
     ranges !! i = Some r1 -> ranges !! S i = Some r2 -> r1.2 = r2.1) /\
  (forall (i j : nat) r1 r2,
     ranges !! i = Some r1 -> ranges !! j = Some r2 -> i <> j ->
     disjoint_ranges r1 r2).
Proof.
  intros HN HD taskSize numTasks ranges.
  destruct (positive_work_is_tiled total numDesiredTasks HN HD)
    as (_ & _ & _ & _ & _ & Htiles).
  fold taskSize numTasks ranges in Htiles.
  split; [|split; [|split]].
  - now apply tiles_cover.
  - now apply (tiles_sorted 0 total).
  - now apply (tiles_contiguous 0 total).
  - now apply (tiles_disjoint 0 total).
Qed.

(** C1: the task size is meant to be [ceil(N / D)] for every [N >= 0] and
    [D >= 1].  With no work and two desired tasks, [CeilDiv] (documented as
    "computes ceil(a/b)") yields a task size of 1 where the ceiling is 0;
    with no work and one desired task the task size is 0 and the task count
    is then a division by zero. *)
Theorem CeilDiv_of_no_work :
  CeilDiv 0 2 = Some 1 /\ ceil_div 0 2 = 0 /\
  splitTasks 0 2 = Some (1, 0) /\ taskRanges 1 0 0 = [] /\
  CeilDiv 0 1 = Some 0 /\ ceil_div 0 1 = 0 /\
  splitTasks 0 1 = None.
Proof. repeat split; reflexivity. Qed.

End TaskSplitFacts.

(** ** Ports *)
Module PortFacts.
Import Exceptions Ports.

Lemma referencedPort_set s this input i :
  referencedPort (set_referencedPort s this input) i
  = if decide (this = i) then input else referencedPort s i.
Proof.
  unfold referencedPort, set_referencedPort. simpl.
  rewrite lookup_insert. destruct (decide (this = i)); reflexivity.
Qed.

Lemma referencedPort_AddReference s port r i :
  referencedPort (AddReference s port r) i = referencedPort s i.
Proof. reflexivity. Qed.

Lemma referenced_by_set s this input o i :
  referenced_by (set_referencedPort s this input) o i <-> referenced_by s o i.
Proof. reflexivity. Qed.

Lemma referenced_by_AddReference s port r o i :
  referenced_by (AddReference s port r) o i
  <-> referenced_by s o i \/ (o = port /\ i = r /\ is_Some (outputs s !! port)).
Proof.
  unfold referenced_by, AddReference. simpl. split.
  - intros (p & Hp & Hi). rewrite lookup_alter in Hp.
    destruct (decide (port = o)) as [<- | Hne].
    + destruct (outputs s !! port) as [q|] eqn:Hq; [|discriminate].
      simpl in Hp. injection Hp as <-. simpl in Hi.
      apply elem_of_union in Hi as [Hi | Hi].
      * apply elem_of_singleton in Hi. right. eauto.
      * left. eauto.
    + left. eauto.
  - intros [(p & Hp & Hi) | (-> & -> & [p Hp])].
    + rewrite lookup_alter. destruct (decide (port = o)) as [<- | Hne].
      * rewrite Hp. simpl. eexists. split; [reflexivity|]. simpl. set_solver.
      * eauto.
    + rewrite lookup_alter, decide_True by reflexivity. rewrite Hp. simpl.
      eexists. split; [reflexivity|]. simpl. set_solver.
Qed.

Lemma referenced_by_RemoveReference s port r o i :
  referenced_by (RemoveReference s port r) o i
  <-> referenced_by s o i /\ ~ (o = port /\ i = r).
Proof.
  unfold referenced_by, RemoveReference. simpl. split.
  - intros (p & Hp & Hi). rewrite lookup_alter in Hp.
    destruct (decide (port = o)) as [<- | Hne].
    + destruct (outputs s !! port) as [q|] eqn:Hq; [|discriminate].
      simpl in Hp. injection Hp as <-. simpl in Hi.
      apply elem_of_difference in Hi as [Hi Hn].
      split; [eauto|]. intros [_ ->]. apply Hn. set_solver.
    + split; [eauto|]. intros [-> _]. congruence.
  - intros [(p & Hp & Hi) Hn]. rewrite lookup_alter.
    destruct (decide (port = o)) as [<- | Hne].
    + rewrite Hp. simpl. eexists. split; [reflexivity|]. simpl.
      apply elem_of_difference. split; [assumption|].
      intros Hr. apply elem_of_singleton in Hr. apply Hn. auto.
    + eauto.
Qed.

Lemma referencedPort_unlinked s this i :
  referencedPort (unlinked s this) i = referencedPort s i.
Proof. unfold unlinked. destruct (referencedPort s this); reflexivity. Qed.

Lemma referenced_by_unlinked s this o i :
  consistent s ->
  referenced_by (unlinked s this) o i <-> referenced_by s o i /\ i <> this.
Proof.
  intros Hc. unfold unlinked.
  destruct (referencedPort s this) as [old|] eqn:Hold.
  - rewrite referenced_by_RemoveReference. split.
    + intros [Hr Hn]. split; [assumption|]. intros ->.
      apply Hc in Hr. unfold references in Hr. rewrite Hold in Hr.
      injection Hr as ->. auto.
    + intros [Hr Hn]. split; [assumption|]. intros [_ ->]. auto.
  - split.
    + intros Hr. split; [assumption|]. intros ->.
      apply Hc in Hr. unfold references in Hr. congruence.
    + intros [Hr _]. assumption.
Qed.

Lemma outputs_unlinked_is_Some s this port :
  is_Some (outputs (unlinked s this) !! port) <-> is_Some (outputs s !! port).
Proof.
  unfold unlinked. destruct (referencedPort s this) as [old|]; [|reflexivity].
  unfold RemoveReference. simpl. rewrite lookup_alter.
  destruct (decide (old = port)) as [<- | Hne]; [|reflexivity].
  rewrite fmap_is_Some. reflexivity.
Qed.

Lemma SetReferencedPort_bind_consistent s this port :
  consistent s -> is_Some (outputs s !! port) ->
  consistent (SetReferencedPort s this (Some port)).
Proof.
  intros Hc Hlive i o. unfold SetReferencedPort. fold (unlinked s this).
  unfold references. rewrite referencedPort_set, referenced_by_set.
  rewrite referenced_by_AddReference, referenced_by_unlinked by assumption.
  rewrite referencedPort_AddReference, referencedPort_unlinked.
  rewrite outputs_unlinked_is_Some.
  destruct (decide (this = i)) as [<- | Hne].
  - split.
    + intros [= ->]. right. auto.
    + intros [[_ Hn] | (-> & _ & _)]; [congruence | reflexivity].
  - split.
    + intros Hr. left. split; [now apply Hc | congruence].
    + intros [[Hr _] | (_ & -> & _)]; [now apply Hc | congruence].
Qed.

Lemma SetReferencedPort_unbind_consistent s this :
  consistent s -> consistent (SetReferencedPort s this None).
Proof.
  intros Hc i o. unfold SetReferencedPort. fold (unlinked s this).
  unfold references. rewrite referencedPort_set, referenced_by_set.
  rewrite referenced_by_unlinked, referencedPort_unlinked by assumption.
  destruct (decide (this = i)) as [<- | Hne].
  - split; [discriminate | intros [_ Hn]; congruence].
  - split.
    + intros Hr. split; [now apply Hc | congruence].
    + intros [Hr _]. now apply Hc.
Qed.

Lemma destroy_InputPort_consistent s this :
  consistent s -> consistent (destroy_InputPort s this).
Proof.
  intros Hc i o. unfold destroy_InputPort. fold (unlinked s this).
  assert (R : referenced_by
                (mkPortStore (delete this (inputs (unlinked s this)))
                             (outputs (unlinked s this))) o i
              <-> referenced_by (unlinked s this) o i) by reflexivity.
  rewrite R, referenced_by_unlinked by assumption.
  unfold references, referencedPort. simpl. rewrite lookup_delete.
  assert (I : inputs (unlinked s this) = inputs s).
  { unfold unlinked. destruct (referencedPort s this); reflexivity. }
  rewrite I. destruct (decide (this = i)) as [<- | Hne]; simpl.
  - split; [discriminate | intros [_ Hn]; congruence].
  - split.
    + intros Hr. split; [now apply Hc | congruence].
    + intros [Hr _]. now apply Hc.
Qed.

Lemma ClearReferencedPort_forward s this :
  forward_consistent s -> forward_consistent (ClearReferencedPort s this).
Proof.
  intros Hc i o. unfold ClearReferencedPort, references.
  rewrite referencedPort_set, referenced_by_set.
  destruct (decide (this = i)); [discriminate | apply Hc].
Qed.

Lemma ClearReferencedPort_keeps_back_reference s this o :
  referenced_by s o this ->
  referencedPort (ClearReferencedPort s this) this = None /\
  referenced_by (ClearReferencedPort s this) o this.
Proof.
  intros Hr. unfold ClearReferencedPort.
  rewrite referencedPort_set, decide_True by reflexivity.
  split; [reflexivity | exact Hr].
Qed.

Lemma UpdateReferencedPort_consistent s this :
  consistent s -> is_Some (referencedPort s this) ->
  exists s', UpdateReferencedPort s this = Some s' /\ consistent s'.
Proof.
  intros Hc [port Hp]. unfold UpdateReferencedPort. rewrite Hp.
  assert (Hr : referenced_by s port this) by now apply Hc.
  destruct Hr as (p & Hq & Hi). unfold HasReference. rewrite Hq.
  rewrite bool_decide_eq_true_2 by assumption. simpl. eauto.
Qed.

Lemma one_link_consistent : consistent one_link.
Proof.
  unfold one_link, new_InputPort.
  apply SetReferencedPort_bind_consistent.
  - intros i o. unfold references. rewrite referencedPort_set, referenced_by_set.
    unfold referenced_by, referencedPort. simpl. rewrite lookup_empty. simpl.
    destruct (decide (1%positive = i)).
    + split; [discriminate|]. intros (p & Hp & Hi).
      apply lookup_singleton_Some in Hp as [_ <-]. set_solver.
    + split; [discriminate|]. intros (p & Hp & Hi).
      apply lookup_singleton_Some in Hp as [_ <-]. set_solver.
  - simpl. rewrite lookup_singleton_eq. eauto.
Qed.

Lemma one_link_referenced : referenced_by one_link 1 1.
Proof.
  pose proof one_link_consistent as Hc. apply Hc.
  unfold references, one_link, new_InputPort, SetReferencedPort.
  rewrite referencedPort_set, decide_True by reflexivity. reflexivity.
Qed.

(** C6 (as stated): binding, unbinding through [ClearReferencedPort] and
    destruction would all keep "input references output iff the output's
    reference set holds the input".  [ClearReferencedPort] does not: the
    store [one_link] is consistent, and after clearing its input port the
    output port still lists an input that references nothing. *)
Lemma ClearReferencedPort_breaks_consistency :
  consistent one_link /\ ~ consistent (ClearReferencedPort one_link 1).
Proof.
  split; [exact one_link_consistent|]. intros Hc.
  destruct (ClearReferencedPort_keeps_back_reference one_link 1 1
              one_link_referenced) as [Hnone Hback].
  apply Hc in Hback. unfold references in Hback. congruence.
Qed.

(** C6 (amended): on a consistent store, [SetReferencedPort] (binding to a
    live output port, rebinding, or unbinding with [nullptr]) and the
    destructor of an input port keep the two-way invariant, and after a bind
    the input references the new port.  [ClearReferencedPort] only resets the
    input's own pointer: every input that references an output is still in
    that output's reference set, while the cleared input stays in the set of
    the port it used to reference. *)
Theorem port_consistency s this :
  consistent s ->
  (forall port, is_Some (outputs s !! port) ->
     consistent (SetReferencedPort s this (Some port)) /\
     references (SetReferencedPort s this (Some port)) this port) /\
  (consistent (SetReferencedPort s this None) /\
   referencedPort (SetReferencedPort s this None) this = None) /\
  consistent (destroy_InputPort s this) /\
  (forward_consistent (ClearReferencedPort s this) /\
   referencedPort (ClearReferencedPort s this) this = None /\
   forall o, references s this o ->
             referenced_by (ClearReferencedPort s this) o this).
Proof.
  intros Hc. split; [|split; [|split]].
  - intros port Hlive. split.
    + now apply SetReferencedPort_bind_consistent.
    + unfold references, SetReferencedPort.
      rewrite referencedPort_set, decide_True by reflexivity. reflexivity.
  - split.
    + now apply SetReferencedPort_unbind_consistent.
    + unfold SetReferencedPort.
      rewrite referencedPort_set, decide_True by reflexivity. reflexivity.
  - now apply destroy_InputPort_consistent.
  - split; [|split].
    + apply ClearReferencedPort_forward. intros i o Hr. now apply Hc.
    + unfold ClearReferencedPort.
      rewrite referencedPort_set, decide_True by reflexivity. reflexivity.
    + intros o Hr. apply ClearReferencedPort_keeps_back_reference.
      now apply Hc.
Qed.

Lemma port_consistency_witness :
  consistent (SetReferencedPort one_link 1 None) /\
  consistent (destroy_InputPort one_link 1) /\
  consistent (SetReferencedPort one_link 1 (Some 1%positive)).
Proof.
  pose proof (port_consistency one_link 1 one_link_consistent)
    as (Hbind & [Hunbind _] & Hdestroy & _).
  split; [exact Hunbind|]. split; [exact Hdestroy|].
  apply Hbind. vm_compute. eauto.
Defined.

(** C7: querying an unbound input port through [GetReferencedPort] or
    [GetInputElement] raises an [illegalState] logic exception. *)
Theorem unbound_port_raises_IllegalState {PortElementBase : Type}
    (GetElement : positive -> Z -> Result PortElementBase) s this index :
  referencedPort s this = None ->
  raises (GetReferencedPort s this) illegalState /\
  raises (GetInputElement GetElement s this index) illegalState.
Proof.
  intros Hn. unfold GetReferencedPort, GetInputElement, IsValid.
  rewrite Hn. simpl. split; eexists; reflexivity.
Qed.

Lemma unbound_port_raises_IllegalState_witness :
  raises (GetReferencedPort lone_input 1) illegalState /\
  raises (GetInputElement (fun port index => Returns (port, index))
                          lone_input 1 0) illegalState.
Proof.
  apply (unbound_port_raises_IllegalState
           (fun port index => Returns (port, index)) lone_input 1 0).
  reflexivity.
Defined.

(** C10: [Size] of an unbound input port returns 0 and does not throw;
    [Size] of a bound input port returns the size of the output port it
    references. *)
Theorem Size_of_input_port s this :
  (referencedPort s this = None -> Size s this = Returns 0) /\
  (forall port, referencedPort s this = Some port ->
     Size s this = Returns (OutputPort_Size s port)).
Proof.
  unfold Size, GetReferencedPort, IsValid. split.
  - intros ->. reflexivity.
  - intros port ->. reflexivity.
Qed.

Lemma Size_of_input_port_witness :
  Size lone_input 1 = Returns 0 /\ Size one_link 1 = Returns 3.
Proof.
  split.
  - apply (proj1 (Size_of_input_port lone_input 1)). reflexivity.
  - apply (proj2 (Size_of_input_port one_link 1) 1%positive). reflexivity.
Defined.

End PortFacts.

(** ** The exported header *)
Module IRHeaderWriterFacts.
Import IRHeaderWriter.

(** [s.find(p) == 0] holds exactly when [s] begins with [p]. *)
Lemma found_at_0_prefix s p : found_at_0 s p = String.prefix p s.
Proof.
  unfold found_at_0, find. destruct s as [|c s].
  - destruct p; reflexivity.
  - cbn -[String.prefix].
    destruct (String.prefix p (String c s)); [reflexivity|].
    destruct (String.index 0 p s); reflexivity.
Qed.

Lemma ShouldWriteFunction_exportedb f : ShouldWriteFunction f = exportedb f.
Proof.
  unfold ShouldWriteFunction, exportedb. destruct (name f) as [n|]; [|reflexivity].
  rewrite !found_at_0_prefix. unfold excludedPrefixes. cbn [forallb].
  repeat (match goal with
          | |- context [String.prefix ?p n] => destruct (String.prefix p n)
          end; cbn [negb andb]; try reflexivity).
Qed.

Lemma exportedb_exported f : exportedb f = true <-> exported f.
Proof.
  unfold exportedb, exported. destruct (name f) as [n|].
  - rewrite forallb_forall. split.
    + intros H. exists n. split; [reflexivity|]. intros p Hp.
      apply H in Hp. now apply negb_true_iff in Hp.
    + intros (n' & [= <-] & H) p Hp. apply negb_true_iff. now apply H.
  - split; [discriminate | intros (n' & Hn & _); discriminate].
Qed.

Lemma WriteFunctions_filter os m fs :
  fold_left
    (fun os f =>
       if ShouldWriteFunction f then WriteFunction os m f +:+ nl +:+ nl
       else os) fs os
  = fold_left (fun os f => WriteFunction os m f +:+ nl +:+ nl) (List.filter exportedb fs) os.
Proof.
  revert os. induction fs as [|f fs IH]; intros os; simpl; [reflexivity|].
  rewrite ShouldWriteFunction_exportedb.
  destruct (exportedb f); simpl; apply IH.
Qed.

(** Of the five functions of the sample module, two are declared. *)
Example WriteFunctions_sample :
  WriteFunctions "" sampleModule
  = "void predict(double*, int32_t);" +:+ nl +:+ nl +:+ "void reset();" +:+ nl +:+ nl.
Proof. reflexivity. Qed.

End IRHeaderWriterFacts.

(** ** The node-action policy *)
Module NodeActionFacts.
Import NodeActions.

Section Precedence.
Context {Node MapCompiler : Type}.
Variable IsCompilable : Node -> option MapCompiler -> bool.

Lemma firstDecision_app (fs gs : list (NodeActionFunction (Node := Node))) node :
  firstDecision (fs ++ gs) node
  = match firstDecision fs node with
    | Some action => Some action
    | None => firstDecision gs node
    end.
Proof.
  induction fs as [|f fs IH]; simpl; [reflexivity|].
  destruct (f node); [exact IH | reflexivity | reflexivity].
Qed.

Lemma firstDecision_None (fs : list (NodeActionFunction (Node := Node))) node :
  firstDecision fs node = None <-> forall f, In f fs -> f node = abstain.
Proof.
  induction fs as [|f fs IH]; simpl.
  - split; [intros _ f [] | reflexivity].
  - destruct (f node) eqn:E.
    + rewrite IH. split.
      * intros H g [<- | Hg]; [exact E | now apply H].
      * intros H g Hg. apply H. now right.
    + split; [discriminate | intros H; specialize (H f (or_introl eq_refl)); congruence].
    + split; [discriminate | intros H; specialize (H f (or_introl eq_refl)); congruence].
Qed.

Lemma firstDecision_cons_decides (f : NodeActionFunction (Node := Node)) fs node :
  f node <> abstain -> firstDecision (f :: fs) node = Some (f node).
Proof. simpl. destruct (f node); [congruence | reflexivity | reflexivity]. Qed.

(** Registering one more function puts it in front of the others. *)
Lemma GetNodeAction_Add (context : TransformContext Node MapCompiler) f node :
  GetNodeAction IsCompilable (AddNodeActionFunction context f) node
  = if decide (f node = abstain) then GetNodeAction IsCompilable context node
    else f node.
Proof.
  unfold GetNodeAction, AddNodeActionFunction, IsNodeCompilable. simpl.
  rewrite rev_app_distr. simpl.
  destruct (f node); reflexivity.
Qed.

(** C4: [GetNodeAction] returns the result of the last registered
    function that does not abstain; when every registered function
    abstains, or none is registered, it returns [compile] for a node that
    is compilable under the context's compiler and [refine] otherwise. *)
Theorem GetNodeAction_precedence (context : TransformContext Node MapCompiler) node :
  (forall (i : nat) f,
     _nodeActionFunctions context !! i = Some f ->
     f node <> abstain ->
     (forall (j : nat) g,
        (i < j)%nat -> _nodeActionFunctions context !! j = Some g ->
        g node = abstain) ->
     GetNodeAction IsCompilable context node = f node) /\
  ((forall f, In f (_nodeActionFunctions context) -> f node = abstain) ->
   GetNodeAction IsCompilable context node
   = if IsNodeCompilable IsCompilable context node then compile else refine).
Proof.
  unfold GetNodeAction. split.
  - intros i f Hi Hf Hlater.
    rewrite <- (take_drop_middle _ i f Hi).
    rewrite rev_app_distr. simpl. rewrite <- app_assoc. simpl.
    rewrite firstDecision_app.
    assert (Hnone : firstDecision (rev (drop (S i) (_nodeActionFunctions context))) node = None).
    { apply firstDecision_None. intros g Hg. apply in_rev in Hg.
      apply list_elem_of_In, list_elem_of_lookup in Hg as [k Hk].
      rewrite lookup_drop in Hk. apply (Hlater (S i + k)%nat g); [lia | exact Hk]. }
    unfold NodeActionFunction in *.
    rewrite Hnone, firstDecision_cons_decides by assumption. reflexivity.
  - intros Hall.
    assert (Hnone : firstDecision (rev (_nodeActionFunctions context)) node = None).
    { apply firstDecision_None. intros g Hg. apply Hall. now apply in_rev. }
    unfold NodeActionFunction in *. rewrite Hnone. reflexivity.
Qed.

End Precedence.

Lemma GetNodeAction_precedence_witness :
  GetNodeAction (fun (n : nat) (c : option unit) => Nat.even n)
    (mkTransformContext [fun _ => compile; fun _ => refine; fun _ => abstain] None) 3%nat
  = refine /\
  GetNodeAction (fun (n : nat) (c : option unit) => Nat.even n)
    (mkTransformContext [fun _ => abstain] None) 4%nat
  = compile.
Proof.
  split.
  - apply (proj1 (GetNodeAction_precedence (fun (n : nat) (c : option unit) => Nat.even n)
             (mkTransformContext [fun _ => compile; fun _ => refine; fun _ => abstain] None)
             3%nat) 1%nat (fun _ => refine)).
    + reflexivity.
    + discriminate.
    + intros [|[|[|j]]] g Hj Hg; try lia; [|discriminate].
      injection Hg as <-. reflexivity.
  - apply (proj2 (GetNodeAction_precedence (fun (n : nat) (c : option unit) => Nat.even n)
             (mkTransformContext [fun _ => abstain] None) 4%nat)).
    intros f [<- | []]. reflexivity.
Defined.

End NodeActionFacts.

(** ** Copying and grafting submodels *)
Module GraftingFacts.
Import Grafting.

Lemma MapNodeOutput_self_untouched model t p :
  untouched model t -> untouched model (MapNodeOutput t p p).
Proof.
  intros (Hm & Hp & Hid). repeat split; try assumption.
  intros a b. simpl. rewrite lookup_insert.
  case_decide as Hpa; [subst a; now intros [= <-] | apply Hid].
Qed.

Lemma MapNodeOutput_self_fixes t p q :
  fixes (MapNodeOutput t p p) q <-> q = p \/ fixes t q.
Proof.
  unfold fixes. simpl. rewrite lookup_insert.
  case_decide as Hpq; [subst q; tauto|].
  split; [tauto | intros [-> | H]; [now destruct Hpq | exact H]].
Qed.

Lemma MapCorrespondingInputs_coincide model sources :
  forall onto t,
    mapM (GetReferencedPort model) sources = inr onto ->
    untouched model t ->
    exists t', MapCorrespondingInputs t model sources onto = inr t' /\
               untouched model t' /\
               (forall p, fixes t' p <-> In p onto \/ fixes t p).
Proof.
  induction sources as [|source sources IH]; intros onto t Hmap Ht; simpl in *.
  - injection Hmap as <-. exists t. repeat split; try apply Ht; simpl; tauto.
  - destruct (GetReferencedPort model source) as [e | referenced]; [discriminate|].
    simpl in Hmap.
    destruct (mapM (GetReferencedPort model) sources) as [e | rest] eqn:Hrest;
      [discriminate|]. simpl in Hmap. injection Hmap as <-. simpl.
    destruct (IH rest (MapNodeOutput t referenced referenced) eq_refl
                (MapNodeOutput_self_untouched _ _ _ Ht)) as (t' & E & Hu & Hf).
    exists t'. split; [exact E|]. split; [exact Hu|].
    intros p. rewrite Hf, MapNodeOutput_self_fixes. simpl.
    split; intros H; [destruct H as [H | [-> | H]] | destruct H as [[<- | H] | H]];
      tauto.
Qed.

Lemma ReuseNode_ports model ports :
  forall t,
    untouched model t ->
    let t' := fold_left (fun t port => MapNodeOutput t port port) ports t in
    untouched model t' /\ (forall p, fixes t' p <-> In p ports \/ fixes t p).
Proof.
  induction ports as [|port ports IH]; intros t Ht; simpl.
  - split; [exact Ht | tauto].
  - destruct (IH (MapNodeOutput t port port) (MapNodeOutput_self_untouched _ _ _ Ht))
      as [Hu Hf].
    split; [exact Hu|]. intros p. rewrite Hf, MapNodeOutput_self_fixes.
    split; intros H; [destruct H as [H | [-> | H]] | destruct H as [[<- | H] | H]];
      tauto.
Qed.

Lemma sameInputs_fixes t node :
  sameInputs t node = true <-> forall r, In r (inputs node) -> fixes t r.
Proof.
  unfold sameInputs, fixes. rewrite forallb_forall. split.
  - intros H r Hr. apply H in Hr. now apply bool_decide_eq_true in Hr.
  - intros H r Hr. apply bool_decide_eq_true. now apply H.
Qed.

(** A node whose copy would reference the inputs of the original is
    reused, not copied: the model is left alone. *)
Lemma VisitNode_elides model t node :
  untouched model t ->
  (forall r, In r (inputs node) -> fixes t r) ->
  VisitNode t node = inr (ReuseNode t node) /\
  untouched model (ReuseNode t node) /\
  (forall p, fixes (ReuseNode t node) p <-> In p (outputPorts node) \/ fixes t p).
Proof.
  intros Ht Hin. unfold VisitNode, ShouldCopyNode.
  destruct Ht as (Hm & Hp & Hid). rewrite Hp. simpl.
  rewrite (proj2 (sameInputs_fixes t node) Hin). simpl.
  split; [reflexivity|]. apply ReuseNode_ports. repeat split; assumption.
Qed.

Lemma foldM_VisitNode_elides model boundary :
  forall rest done t,
    closedSlice boundary (done ++ rest) ->
    untouched model t ->
    (forall p, In p boundary -> fixes t p) ->
    (forall n p, In n done -> In p (outputPorts n) -> fixes t p) ->
    exists t', foldM VisitNode t rest = inr t' /\
               untouched model t' /\
               (forall p, In p boundary -> fixes t' p) /\
               (forall n p, In n (done ++ rest) -> In p (outputPorts n) -> fixes t' p).
Proof.
  induction rest as [|node rest IH]; intros done t Hclosed Ht Hb Hd; simpl.
  - exists t. rewrite app_nil_r. auto.
  - assert (Hin : forall r, In r (inputs node) -> fixes t r).
    { intros r Hr. destruct (Hclosed done node rest eq_refl r Hr)
        as [Hbd | (earlier & He & Hp)]; [now apply Hb | now apply (Hd earlier)]. }
    destruct (VisitNode_elides model t node Ht Hin) as (E & Hu & Hf).
    rewrite E. simpl.
    destruct (IH (done ++ [node]) (ReuseNode t node)) as (t' & E' & Hu' & Hb' & Hd').
    + now rewrite <- app_assoc.
    + exact Hu.
    + intros p Hp. apply Hf. right. now apply Hb.
    + intros n p Hn Hp. apply Hf. apply in_app_iff in Hn as [Hn | [<- | []]].
      * right. now apply (Hd n).
      * now left.
    + exists t'. rewrite <- app_assoc in Hd'. auto.
Qed.

(** C5: an in-place graft whose destinations are the ports that the
    designated inputs already reference copies nothing.  Each visited node
    would reference the inputs of the original, so it is reused; the model
    that results is the model that was given, and every port of the
    submodel corresponds to itself. *)
Theorem in_place_graft_is_noop submodel onto :
  mapM (GetReferencedPort (sourceModel submodel)) (sliceInputs submodel) = inr onto ->
  closedSlice onto (slice submodel) ->
  exists t,
    CopySubmodelOnto submodel (sourceModel submodel) onto = inr t /\
    _model t = sourceModel submodel /\
    (forall node, In node (slice submodel) ->
       forall p, In p (outputPorts node) -> GetCorrespondingOutputs t p = inr p) /\
    (forall p, In p onto -> GetCorrespondingOutputs t p = inr p) /\
    (forall p q, GetCorrespondingOutputs t p = inr q -> p = q).
Proof.
  intros Honto Hclosed. unfold CopySubmodelOnto.
  rewrite bool_decide_eq_true_2 by reflexivity.
  set (t0 := mkTransformer (sourceModel submodel) ∅ true).
  assert (H0 : untouched (sourceModel submodel) t0).
  { repeat split. intros p q. simpl. rewrite lookup_empty. discriminate. }
  destruct (MapCorrespondingInputs_coincide _ _ onto t0 Honto H0) as (t1 & E1 & H1 & F1).
  rewrite E1. simpl.
  destruct (foldM_VisitNode_elides (sourceModel submodel) onto (slice submodel) [] t1)
    as (t & E & Hu & Hb & Hd).
  - exact Hclosed.
  - exact H1.
  - intros p Hp. apply F1. now left.
  - intros n p [].
  - exists t. split; [exact E|]. destruct Hu as (Hm & _ & Hid).
    split; [exact Hm|]. unfold GetCorrespondingOutputs. split; [|split].
    + intros node Hn p Hp. specialize (Hd node p Hn Hp). unfold fixes in Hd.
      now rewrite Hd.
    + intros p Hp. specialize (Hb p Hp). unfold fixes in Hb. now rewrite Hb.
    + intros p q. destruct (_elementsMap t !! p) as [q'|] eqn:Eq; [|discriminate].
      intros [= <-]. now apply Hid.
Qed.

Lemma chain_closed : closedSlice [(0, 0)%nat] (slice chainSubmodel).
Proof.
  intros before node after Heq referenced Hr. simpl in Heq.
  destruct before as [|b0 before]; simpl in Heq.
  - injection Heq as <- <-. destruct Hr as [<- | []]. left. now left.
  - injection Heq as <- Heq. destruct before as [|b1 before]; simpl in Heq.
    + injection Heq as <- <-. destruct Hr as [<- | []]. right.
      exists (mkNode 1 [(0, 0)%nat] 1). split; [now left | now left].
    + injection Heq as _ Heq. destruct before; discriminate.
Qed.

Lemma in_place_graft_is_noop_witness :
  exists t,
    CopySubmodelOnto chainSubmodel chainModel [(0, 0)%nat] = inr t /\
    _model t = chainModel /\
    (forall node, In node (slice chainSubmodel) ->
       forall p, In p (outputPorts node) -> GetCorrespondingOutputs t p = inr p) /\
    (forall p, In p [(0, 0)%nat] -> GetCorrespondingOutputs t p = inr p) /\
    (forall p q, GetCorrespondingOutputs t p = inr q -> p = q).
Proof.
  apply (in_place_graft_is_noop chainSubmodel [(0, 0)%nat]).
  - reflexivity.
  - exact chain_closed.
Defined.

End GraftingFacts.

(** ** The binary-convolution nodes: what [Compile] emits *)
Module CompileFacts.
Import MachineInt MachineIntFacts TaskSplit TaskSplitFacts Exceptions BinaryConvolution.

Lemma splitTasks_Some total numDesiredTasks taskSize numTasks :
  CeilDiv total numDesiredTasks = Some taskSize ->
  CeilDiv total taskSize = Some numTasks ->
  splitTasks total numDesiredTasks = Some (taskSize, numTasks).
Proof. intros E1 E2. unfold splitTasks. rewrite E1. simpl. rewrite E2. reflexivity. Qed.

Lemma splitTasks_defined total numDesiredTasks :
  1 <= total <= INT_MAX -> 1 <= numDesiredTasks <= INT_MAX ->
  exists taskSize numTasks,
    CeilDiv total numDesiredTasks = Some taskSize /\
    CeilDiv total taskSize = Some numTasks.
Proof.
  intros HN HD.
  destruct (CeilDiv_positive total numDesiredTasks HN HD) as [E1 B1].
  destruct (CeilDiv_positive total (ceil_div total numDesiredTasks) HN) as [E2 _];
    [unfold INT_MAX in *; lia|].
  eauto.
Qed.

(** The sequential loop of [rf_Compile] has the body of the task function,
    with the port variables where the task function has its arguments. *)
Lemma rf_same_body node range :
  instantiateRowBody (rf_taskArgs range) (loopBody (functionCode (rf_GetTaskFunction node)))
  = mkRowBody node (PortVariable input) (PortVariable output)
      (row_packedRowSize (loopBody (functionCode (rf_GetTaskFunction node))))
      (row_fieldVolumeSize (loopBody (functionCode (rf_GetTaskFunction node)))).
Proof. reflexivity. Qed.

Lemma rf_Compile_cases compilerSettings node taskSize numTasks :
  splitTasks (rf_numOutputRows node) (maxThreads compilerSettings)
  = Some (taskSize, numTasks) ->
  rf_Compile compilerSettings node
  = Some (if parallelize compilerSettings && (1 <? numTasks)
          then StartTasksWaitAll (rf_GetTaskFunction node)
                 (map rf_taskArgs (taskRanges taskSize numTasks (rf_numOutputRows node)))
          else SequentialLoop
                 (mkFor (Literal 0) (Literal (rf_numOutputRows node))
                    (instantiateRowBody (rf_taskArgs (0, 0))
                       (loopBody (functionCode (rf_GetTaskFunction node)))))).
Proof.
  unfold splitTasks, rf_Compile. fold (rf_numOutputRows node). cbv zeta.
  destruct (CeilDiv (rf_numOutputRows node) (maxThreads compilerSettings))
    as [ts|]; [|discriminate]. simpl.
  destruct (CeilDiv (rf_numOutputRows node) ts) as [nt|]; [|discriminate]. simpl.
  intros [= <- <-].
  destruct (parallelize compilerSettings && (1 <? nt)); reflexivity.
Qed.

Lemma rf_Compile_None compilerSettings node :
  splitTasks (rf_numOutputRows node) (maxThreads compilerSettings) = None ->
  rf_Compile compilerSettings node = None.
Proof.
  unfold splitTasks, rf_Compile. fold (rf_numOutputRows node). cbv zeta.
  destruct (CeilDiv (rf_numOutputRows node) (maxThreads compilerSettings))
    as [ts|]; [|reflexivity]. simpl.
  destruct (CeilDiv (rf_numOutputRows node) ts) as [nt|]; [discriminate | reflexivity].
Qed.

Lemma xn_GetTaskFunction_defined compilerSettings node :
  (allowVectorInstructions compilerSettings = true ->
   size_t (vectorWidth compilerSettings) <> 0) ->
  is_Some (xn_GetTaskFunction compilerSettings node).
Proof.
  intros Hv. unfold xn_GetTaskFunction. cbv zeta.
  destruct (allowVectorInstructions compilerSettings); simpl; [|eauto].
  unfold size_div. destruct (Z.eqb_spec (size_t (vectorWidth compilerSettings)) 0) as [E|E].
  - now destruct Hv.
  - simpl. eauto.
Qed.

Lemma xn_Compile_cases compilerSettings node taskFunction taskSize numTasks :
  xn_GetTaskFunction compilerSettings node = Some taskFunction ->
  splitTasks (xn_numFilters node) (maxThreads compilerSettings)
  = Some (taskSize, numTasks) ->
  xn_Compile compilerSettings node
  = Some (if parallelize compilerSettings && (1 <? numTasks)
          then StartTasksWaitAll taskFunction
                 (map xn_taskArgs (taskRanges taskSize numTasks (xn_numFilters node)))
          else SequentialLoop
                 (mkFor (Literal 0) (Literal (xn_numFilters node))
                    (instantiateFilterBody (xn_taskArgs (0, 0))
                       (loopBody (functionCode taskFunction))))).
Proof.
  unfold splitTasks, xn_Compile. fold (xn_numFilters node). cbv zeta.
  intros Htf.
  destruct (CeilDiv (xn_numFilters node) (maxThreads compilerSettings))
    as [ts|]; [|discriminate]. simpl.
  destruct (CeilDiv (xn_numFilters node) ts) as [nt|]; [|discriminate]. simpl.
  intros [= <- <-]. rewrite Htf.
  unfold xn_GetTaskFunction in Htf. cbv zeta in Htf.
  destruct (if allowVectorInstructions compilerSettings
            then option_map wrap _ else Some 0) as [nvb|]; [|discriminate].
  simpl in *. injection Htf as <-.
  destruct (parallelize compilerSettings && (1 <? nt)); reflexivity.
Qed.

Lemma xn_Compile_Some compilerSettings node e :
  xn_Compile compilerSettings node = Some e ->
  exists taskFunction taskSize numTasks,
    xn_GetTaskFunction compilerSettings node = Some taskFunction /\
    splitTasks (xn_numFilters node) (maxThreads compilerSettings)
    = Some (taskSize, numTasks).
Proof.
  unfold splitTasks, xn_Compile, xn_GetTaskFunction. fold (xn_numFilters node).
  cbv zeta.
  destruct (if allowVectorInstructions compilerSettings
            then option_map wrap _ else Some 0) as [nvb|]; [|discriminate].
  simpl.
  destruct (CeilDiv (xn_numFilters node) (maxThreads compilerSettings))
    as [ts|]; [|discriminate]. simpl.
  destruct (CeilDiv (xn_numFilters node) ts) as [nt|]; [|discriminate]. simpl.
  intros _. eauto.
Qed.

Lemma dispatch_rule {Body} (parallel : bool) numTasks (par seq : Emitted Body) :
  dispatchesTasks par = true -> dispatchesTasks seq = false ->
  let e := if parallel && (1 <? numTasks) then par else seq in
  (dispatchesTasks e = true <-> parallel = true /\ 1 < numTasks) /\
  (dispatchesTasks e = true -> e = par) /\
  (dispatchesTasks e = false -> e = seq).
Proof.
  intros Hp Hs. cbv zeta.
  destruct parallel; destruct (Z.ltb_spec 1 numTasks); simpl;
    rewrite ?Hp, ?Hs;
    (split;
     [split; [try discriminate; auto | intros [? ?]; try discriminate; try lia; auto]
     | split; intros; try reflexivity; discriminate]).
Qed.

(** Whenever the [Compile] functions have a result, they start tasks exactly
    when [parallelize] is set and the task count they computed exceeds 1;
    the tasks run the task
    function on the argument lists of the task ranges.  In every other case
    they emit one loop from 0 to the whole amount of work, whose body is the
    body of the task function with the port variables in the place of the
    task function's arguments.  [Compile] has a result whenever the amount of
    work and the desired task count are positive [int]s (and, for the xnor
    node, vector instructions come with a non-zero vector width). *)
Theorem Compile_dispatches_iff_parallel compilerSettings rf xn :
  ((forall e, rf_Compile compilerSettings rf = Some e ->
      exists taskSize numTasks,
        splitTasks (rf_numOutputRows rf) (maxThreads compilerSettings)
        = Some (taskSize, numTasks) /\
        (dispatchesTasks e = true
         <-> parallelize compilerSettings = true /\ 1 < numTasks) /\
        (dispatchesTasks e = true ->
         e = StartTasksWaitAll (rf_GetTaskFunction rf)
               (map rf_taskArgs (taskRanges taskSize numTasks (rf_numOutputRows rf)))) /\
        (dispatchesTasks e = false ->
         e = SequentialLoop
               (mkFor (Literal 0) (Literal (rf_numOutputRows rf))
                  (instantiateRowBody (rf_taskArgs (0, 0))
                     (loopBody (functionCode (rf_GetTaskFunction rf))))))) /\
   (1 <= rf_numOutputRows rf <= INT_MAX ->
    1 <= maxThreads compilerSettings <= INT_MAX ->
    is_Some (rf_Compile compilerSettings rf))) /\
  ((forall e, xn_Compile compilerSettings xn = Some e ->
      exists taskFunction taskSize numTasks,
        xn_GetTaskFunction compilerSettings xn = Some taskFunction /\
        splitTasks (xn_numFilters xn) (maxThreads compilerSettings)
        = Some (taskSize, numTasks) /\
        (dispatchesTasks e = true
         <-> parallelize compilerSettings = true /\ 1 < numTasks) /\
        (dispatchesTasks e = true ->
         e = StartTasksWaitAll taskFunction
               (map xn_taskArgs (taskRanges taskSize numTasks (xn_numFilters xn)))) /\
        (dispatchesTasks e = false ->
         e = SequentialLoop
               (mkFor (Literal 0) (Literal (xn_numFilters xn))
                  (instantiateFilterBody (xn_taskArgs (0, 0))
                     (loopBody (functionCode taskFunction)))))) /\
   (1 <= xn_numFilters xn <= INT_MAX ->
    1 <= maxThreads compilerSettings <= INT_MAX ->
    (allowVectorInstructions compilerSettings = true ->
     size_t (vectorWidth compilerSettings) <> 0) ->
    is_Some (xn_Compile compilerSettings xn))).
Proof.
  split; split.
  - intros e He.
    destruct (splitTasks (rf_numOutputRows rf) (maxThreads compilerSettings))
      as [[ts nt]|] eqn:Hs.
    + exists ts, nt. split; [reflexivity|].
      rewrite (rf_Compile_cases _ _ _ _ Hs) in He. injection He as <-.
      now apply dispatch_rule.
    + rewrite (rf_Compile_None _ _ Hs) in He. discriminate.
  - intros HN HD.
    destruct (splitTasks_defined _ _ HN HD) as (ts & nt & E1 & E2).
    rewrite (rf_Compile_cases _ _ ts nt (splitTasks_Some _ _ _ _ E1 E2)). eauto.
  - intros e He.
    destruct (xn_Compile_Some _ _ _ He) as (tf & ts & nt & Htf & Hs).
    exists tf, ts, nt. split; [exact Htf|]. split; [exact Hs|].
    rewrite (xn_Compile_cases _ _ _ _ _ Htf Hs) in He. injection He as <-.
    now apply dispatch_rule.
  - intros HN HD Hv.
    destruct (xn_GetTaskFunction_defined compilerSettings xn Hv) as [tf Htf].
    destruct (splitTasks_defined _ _ HN HD) as (ts & nt & E1 & E2).
    rewrite (xn_Compile_cases _ _ tf ts nt Htf (splitTasks_Some _ _ _ _ E1 E2)). eauto.
Qed.

Lemma Compile_dispatches_iff_parallel_witness :
  is_Some (rf_Compile (sampleOptions true) sampleReceptiveFieldNode) /\
  is_Some (xn_Compile (sampleOptions true) sampleXnorNode).
Proof.
  destruct (Compile_dispatches_iff_parallel (sampleOptions true)
              sampleReceptiveFieldNode sampleXnorNode) as [[_ Hrf] [_ Hxn]].
  split.
  - apply Hrf; vm_compute; split; discriminate.
  - apply Hxn; [vm_compute; split; discriminate .. | intros _; vm_compute; discriminate].
Defined.

(** Sixteen output rows on four threads: four tasks of four rows. *)
Example rf_Compile_sample_parallel :
  rf_Compile (sampleOptions true) sampleReceptiveFieldNode
  = Some (StartTasksWaitAll (rf_GetTaskFunction sampleReceptiveFieldNode)
            (map rf_taskArgs [(0, 4); (4, 8); (8, 12); (12, 16)])).
Proof. reflexivity. Qed.

Example rf_Compile_sample_sequential :
  rf_Compile (sampleOptions false) sampleReceptiveFieldNode
  = Some (SequentialLoop
            (mkFor (Literal 0) (Literal 16)
               (mkRowBody sampleReceptiveFieldNode (PortVariable input)
                  (PortVariable output) 1 18))).
Proof. reflexivity. Qed.

(** C9: [Compute], [WriteToArchive] and [ReadFromArchive] of the two
    IR-only nodes always raise a [notImplemented] logic exception. *)
Theorem ir_only_nodes_raise_NotImplemented {Archiver Unarchiver : Type}
    (rf : BinaryReceptiveFieldMatrixNode) (xn : BinaryXnorNode)
    (archiver : Archiver) (unarchiver : Unarchiver) :
  raises (rf_Compute rf) notImplemented /\
  raises (rf_WriteToArchive rf archiver) notImplemented /\
  raises (rf_ReadFromArchive rf unarchiver) notImplemented /\
  raises (xn_Compute xn) notImplemented /\
  raises (xn_WriteToArchive xn archiver) notImplemented /\
  raises (xn_ReadFromArchive xn unarchiver) notImplemented.
Proof. repeat split; eexists; reflexivity. Qed.

End CompileFacts.

(** ** Loops, stores and schedules *)
Module LoopFacts.
Import MachineInt MachineIntFacts TaskSplit TaskSplitFacts BinaryConvolution Execution.

Lemma in_loop_range lo hi i : In i (loop_range lo hi) <-> lo <= i < hi.
Proof.
  unfold loop_range. rewrite in_map_iff. split.
  - intros (k & <- & Hk). apply in_seq in Hk. lia.
  - intros Hi. exists (Z.to_nat (i - lo)). split; [lia|]. apply in_seq. lia.
Qed.

Lemma loop_range_empty lo hi : hi <= lo -> loop_range lo hi = [].
Proof.
  intros H. unfold loop_range. replace (Z.to_nat (hi - lo)) with 0%nat by lia.
  reflexivity.
Qed.

Lemma loop_range_split lo mid hi :
  lo <= mid <= hi -> loop_range lo hi = loop_range lo mid ++ loop_range mid hi.
Proof.
  intros H. unfold loop_range.
  replace (Z.to_nat (hi - lo)) with (Z.to_nat (mid - lo) + Z.to_nat (hi - mid))%nat
    by lia.
  rewrite seq_app, map_app. f_equal.
  replace (seq (0 + Z.to_nat (mid - lo)) (Z.to_nat (hi - mid)))
    with (map (Nat.add (Z.to_nat (mid - lo))) (seq 0 (Z.to_nat (hi - mid)))).
  - rewrite map_map. apply map_ext. intros k. lia.
  - change (map ?f ?l) with (fmap f l). rewrite fmap_add_seq. f_equal. lia.
Qed.

(** The indices of ranges that tile [[lo, hi)], one range after the
    other, are the indices of [[lo, hi)]. *)
Lemma tiles_concat lo hi rs :
  tiles lo hi rs ->
  concat (map (fun r : Z * Z => loop_range r.1 r.2) rs) = loop_range lo hi.
Proof.
  induction 1 as [lo | lo mid hi rs Hlt Ht IH]; simpl.
  - symmetry. apply loop_range_empty. lia.
  - rewrite IH. symmetry. apply loop_range_split.
    pose proof (tiles_le _ _ _ Ht). lia.
Qed.

Lemma fold_left_ext_in {A S : Type} (f g : S -> A -> S) l s :
  (forall s a, In a l -> f s a = g s a) ->
  fold_left f l s = fold_left g l s.
Proof.
  revert s. induction l as [|a l IH]; intros s H; simpl; [reflexivity|].
  rewrite H by now left. apply IH. intros s' a' Ha. apply H. now right.
Qed.

Lemma fold_left_concat {A S : Type} (f : S -> A -> S) ls s :
  fold_left f (concat ls) s = fold_left (fun s l => fold_left f l s) ls s.
Proof.
  revert s. induction ls as [|l ls IH]; intros s; simpl; [reflexivity|].
  rewrite fold_left_app. apply IH.
Qed.

(** A fold whose steps commute on the elements of the list does not
    depend on the order of the list. *)
Lemma fold_left_commuting {A S : Type} `{EqDecision A}
    (f : S -> A -> S) (P : A -> Prop) l1 l2 :
  Permutation l1 l2 ->
  (forall a b s, P a -> P b -> a <> b -> f (f s a) b = f (f s b) a) ->
  (forall a, In a l1 -> P a) ->
  forall s, fold_left f l1 s = fold_left f l2 s.
Proof.
  intros Hperm Hcomm. induction Hperm as [|x l l' Hp IH|x y l|l l' l'' Hp1 IH1 Hp2 IH2];
    intros HP s; simpl.
  - reflexivity.
  - apply IH. intros a Ha. apply HP. now right.
  - assert (E : f (f s y) x = f (f s x) y); [|now rewrite E].
    destruct (decide (y = x)) as [-> | Hne]; [reflexivity|].
    apply Hcomm; [apply HP; now left | apply HP; right; now left | exact Hne].
  - rewrite IH1 by assumption. apply IH2.
    intros a Ha. apply HP. eapply Permutation_in; [symmetry; exact Hp1 | exact Ha].
Qed.

Section Writes.
Context `{Countable K} {V : Type}.
Implicit Types (writes : list (K * V)) (cells : gmap K V).

Lemma applyWrites_app writes1 writes2 cells :
  applyWrites (writes1 ++ writes2) cells = applyWrites writes2 (applyWrites writes1 cells).
Proof. unfold applyWrites. apply fold_left_app. Qed.

Lemma applyWrites_lookup_other writes cells k :
  ~ In k (map fst writes) -> applyWrites writes cells !! k = cells !! k.
Proof.
  unfold applyWrites. revert cells.
  induction writes as [|[k' v] writes IH]; intros cells Hk; simpl; [reflexivity|].
  rewrite IH by (intros Hin; apply Hk; now right).
  apply lookup_insert_ne. intros ->. apply Hk. now left.
Qed.

Lemma applyWrites_insert_commute writes cells k v :
  ~ In k (map fst writes) ->
  applyWrites writes (<[k := v]> cells) = <[k := v]> (applyWrites writes cells).
Proof.
  unfold applyWrites. revert cells.
  induction writes as [|[k' v'] writes IH]; intros cells Hk; simpl; [reflexivity|].
  rewrite <- IH by (intros Hin; apply Hk; now right). f_equal.
  apply insert_insert_ne. intros ->. apply Hk. now left.
Qed.

Lemma applyWrites_commute writes1 writes2 cells :
  (forall k, In k (map fst writes1) -> ~ In k (map fst writes2)) ->
  applyWrites writes1 (applyWrites writes2 cells)
  = applyWrites writes2 (applyWrites writes1 cells).
Proof.
  revert cells. induction writes1 as [|[k v] writes1 IH]; intros cells Hd;
    [reflexivity|].
  change (applyWrites ((k, v) :: writes1) ?c) with (applyWrites writes1 (<[k := v]> c)).
  rewrite <- applyWrites_insert_commute by (apply Hd; now left).
  apply IH. intros k' Hk'. apply Hd. now right.
Qed.

End Writes.

End LoopFacts.

(** ** The binary-convolution nodes: what the emitted code does *)
Module ExecutionFacts.
Import MachineInt MachineIntFacts TaskSplit TaskSplitFacts.
Import BinaryConvolution Execution LoopFacts CompileFacts.

Section Scratch.
Context {V : Type}.

Lemma agreeOn_insert (P : Z -> Prop) (s1 s2 : gmap Z V) key v :
  agreeOn P s1 s2 ->
  agreeOn (fun k => P k \/ k = key) (<[key := v]> s1) (<[key := v]> s2).
Proof.
  intros H k [Hk | ->].
  - rewrite !lookup_insert. case_decide; [reflexivity | now apply H].
  - now rewrite !lookup_insert_eq.
Qed.

Lemma agreeOn_weaken (P Q : Z -> Prop) (s1 s2 : gmap Z V) :
  (forall k, Q k -> P k) -> agreeOn P s1 s2 -> agreeOn Q s1 s2.
Proof. intros HPQ H k Hk. apply H, HPQ, Hk. Qed.

Lemma For_agreeOn lo hi (body : Z -> gmap Z V -> gmap Z V) (W : Z -> Z -> Prop) :
  (forall i P s1 s2, lo <= i < hi -> agreeOn P s1 s2 ->
     agreeOn (fun k => P k \/ W i k) (body i s1) (body i s2)) ->
  forall P s1 s2, agreeOn P s1 s2 ->
    agreeOn (fun k => P k \/ exists i, lo <= i < hi /\ W i k)
            (For lo hi body s1) (For lo hi body s2).
Proof.
  intros Hbody. unfold For.
  assert (G : forall l, (forall i, In i l -> lo <= i < hi) ->
            forall P s1 s2, agreeOn P s1 s2 ->
              agreeOn (fun k => P k \/ exists i, In i l /\ W i k)
                      (fold_left (fun s i => body i s) l s1)
                      (fold_left (fun s i => body i s) l s2)).
  { induction l as [|i l IH]; intros Hl P s1 s2 H; simpl.
    - eapply agreeOn_weaken; [|exact H]. intros k [Hk | (i & [] & _)]. exact Hk.
    - eapply agreeOn_weaken;
        [|apply IH; [intros j Hj; apply Hl; now right
                    | apply (Hbody i P); [apply Hl; now left | exact H]]].
      intros k [Hk | (j & [<- | Hj] & Hw)]; [tauto | tauto | right; eauto]. }
  intros P s1 s2 H. eapply agreeOn_weaken; [|apply G; [|exact H]].
  - intros k [Hk | (i & Hi & Hw)]; [tauto|]. right. exists i.
    split; [now apply in_loop_range | exact Hw].
  - intros i Hi. now apply in_loop_range.
Qed.

End Scratch.

Lemma foldOption_Some {A S : Type} (f : S -> A -> option S) (g : S -> A -> S) l s :
  (forall s a, In a l -> f s a = Some (g s a)) ->
  foldOption f s l = Some (fold_left g l s).
Proof.
  revert s. induction l as [|a l IH]; intros s H; simpl; [reflexivity|].
  rewrite H by now left. simpl. apply IH. intros s' a' Ha. apply H. now right.
Qed.

Lemma map_lookup_seq {A B : Type} (f : option A -> B) (l : list A) :
  map (fun k => f (l !! k)) (seq 0 (length l)) = map (fun a => f (Some a)) l.
Proof.
  induction l as [|a l IH] using rev_ind; [reflexivity|].
  rewrite length_app. change (length [a]) with 1%nat.
  rewrite seq_app, !map_app. cbn [seq map Nat.add]. f_equal.
  - rewrite <- IH. apply map_ext_in. intros k Hk. apply in_seq in Hk.
    f_equal. apply lookup_app_l. lia.
  - f_equal. f_equal. rewrite lookup_app_r by lia.
    now rewrite Nat.sub_diag.
Qed.

(** Tasks on ranges that tile [[0, total)], run in any order, do what the
    loop over [[0, total)] does, when the effects of different indices
    commute. *)
Lemma tasks_in_any_order {S : Type} (effect : Z -> S -> S) total ranges schedule s :
  tiles 0 total ranges ->
  (forall i j s, 0 <= i < total -> 0 <= j < total -> i <> j ->
     effect j (effect i s) = effect i (effect j s)) ->
  Permutation schedule (seq 0 (length ranges)) ->
  fold_left
    (fun s task =>
       match ranges !! task with
       | Some range => fold_left (fun s i => effect i s) (loop_range range.1 range.2) s
       | None => s
       end) schedule s
  = fold_left (fun s i => effect i s) (loop_range 0 total) s.
Proof.
  intros Htiles Hcomm Hperm.
  set (indices := fun o : option (Z * Z) =>
                    match o with
                    | Some range => loop_range range.1 range.2
                    | None => []
                    end).
  transitivity (fold_left (fun s i => effect i s)
                  (concat (map (fun task => indices (ranges !! task)) schedule)) s).
  { rewrite fold_left_concat. generalize schedule as l. intros l. revert s.
    induction l as [|task l IH]; intros s; simpl; [reflexivity|].
    rewrite <- IH. f_equal. unfold indices. destruct (ranges !! task); reflexivity. }
  rewrite <- (tiles_concat 0 total ranges Htiles).
  apply (fold_left_commuting _ (fun i => 0 <= i < total)).
  - rewrite <- (map_lookup_seq indices ranges
                 : _ = map (fun r : Z * Z => loop_range r.1 r.2) ranges).
    rewrite <- !flat_map_concat_map. now apply Permutation_flat_map.
  - intros a b s' Ha Hb Hne. now apply Hcomm.
  - intros i Hi.
    assert (Hall : In i (concat (map (fun task => indices (ranges !! task))
                                     (seq 0 (length ranges))))).
    { rewrite <- flat_map_concat_map in *.
      eapply Permutation_in; [apply Permutation_flat_map; exact Hperm | exact Hi]. }
    rewrite (map_lookup_seq indices ranges) in Hall.
    change (map (fun a => indices (Some a)) ranges)
      with (map (fun r : Z * Z => loop_range r.1 r.2) ranges) in Hall.
    rewrite (tiles_concat 0 total ranges Htiles) in Hall.
    now apply in_loop_range.
Qed.

Lemma numBits_cases t :
  int_mul 8 (sizeof t) = 8 * sizeof t /\ (8 * sizeof t = 32 \/ 8 * sizeof t = 64).
Proof. destruct t; vm_compute; auto. Qed.

Lemma size_t_small z : 0 <= z < 18446744073709551616 -> size_t z = z.
Proof. intros H. unfold size_t. now apply Z.mod_small. Qed.

Lemma rf_boundBody_fits node : rf_wellFormed node -> rowBodyFits (rf_boundBody node).
Proof.
  intros Hwf. split; [exact Hwf|]. unfold rf_boundBody, rf_GetTaskFunction. simpl.
  destruct Hwf as (Hfw & Hnc & Hfvs & _). unfold INT_MAX in *.
  set (fw := receptiveField _) in *. set (nc := dimension _ 2) in *.
  destruct (numBits_cases (rf_PackedBitsType node)) as [_ Hbits].
  set (bits := 8 * sizeof (rf_PackedBitsType node)) in *.
  assert (Hfw2 : fw * fw <= 2147483647) by nia.
  rewrite (size_t_small (fw * fw)) by nia.
  rewrite (size_t_small nc) by nia.
  rewrite (size_t_small (fw * fw * nc)) by nia.
  split; [reflexivity|].
  rewrite (size_t_small bits) by lia.
  rewrite (size_t_small (fw * fw * nc - 1)) by nia.
  assert (Q0 : 0 <= (fw * fw * nc - 1) / bits) by (apply Z.div_pos; nia).
  assert (Q1 : (fw * fw * nc - 1) / bits <= fw * fw * nc - 1)
    by (apply Z.div_le_upper_bound; nia).
  rewrite size_t_small by lia.
  apply wrap_small. unfold is_int, INT_MIN, INT_MAX. lia.
Qed.

Lemma rf_numOutputRows_exact node :
  rf_wellFormed node -> 1 <= rf_numOutputRows node <= 1073741824.
Proof.
  intros (_ & _ & _ & HH & HW & HN & _). unfold rf_numOutputRows, int_mul.
  rewrite wrap_small by (unfold is_int, INT_MIN, INT_MAX; nia). nia.
Qed.

Section RF.
Context {ValueType : Type}.
Variable isPositive : ValueType -> bool.
Variable uninitialized : ValueType.


Lemma rowMajorOffset_cover fs nc k :
  1 <= fs -> 1 <= nc -> 0 <= k < fs * fs * nc ->
  exists r c ch, 0 <= r < fs /\ 0 <= c < fs /\ 0 <= ch < nc /\
                 k = rowMajorOffset [fs; fs; nc] r c ch.
Proof.
  intros Hfs Hnc Hk.
  pose proof (Z.div_mod k nc ltac:(lia)) as E1.
  pose proof (Z.mod_pos_bound k nc ltac:(lia)) as B1.
  pose proof (Z.div_mod (k / nc) fs ltac:(lia)) as E2.
  pose proof (Z.mod_pos_bound (k / nc) fs ltac:(lia)) as B2.
  assert (Q0 : 0 <= k / nc) by (apply Z.div_pos; lia).
  assert (Q1 : k / nc < fs * fs) by (apply Z.div_lt_upper_bound; nia).
  assert (R0 : 0 <= k / nc / fs) by (apply Z.div_pos; lia).
  assert (R1 : k / nc / fs < fs) by (apply Z.div_lt_upper_bound; nia).
  exists (k / nc / fs), ((k / nc) mod fs), (k mod nc).
  unfold rowMajorOffset, dimension. simpl. repeat split; nia.
Qed.

Lemma LoadRow_agreeOn (mem : Memory (ValueType := ValueType)) inputVolume inputLayout i
    outputLayout convParams s1 s2 :
  let fs := wrap (receptiveField convParams) in
  let nc := dimension (GetActiveSize inputLayout) 2 in
  agreeOn (fun k => exists r c ch, 0 <= r < fs /\ 0 <= c < fs /\ 0 <= ch < nc /\
                                   k = rowMajorOffset [fs; fs; nc] r c ch)
    (LoadRow uninitialized mem inputVolume inputLayout i outputLayout convParams s1)
    (LoadRow uninitialized mem inputVolume inputLayout i outputLayout convParams s2).
Proof.
  intros fs nc. unfold LoadRow. cbv zeta. fold fs. fold nc.
  eapply agreeOn_weaken;
    [|apply (For_agreeOn 0 fs _
               (fun r k => exists c ch, 0 <= c < fs /\ 0 <= ch < nc /\
                                        k = rowMajorOffset [fs; fs; nc] r c ch))
        with (P := fun _ => False)].
  - intros k (r & c & ch & Hr & Hc & Hch & ->). right. exists r. eauto 10.
  - intros r P t1 t2 Hr Ht.
    eapply agreeOn_weaken;
      [|apply (For_agreeOn 0 fs _
                 (fun c k => exists ch, 0 <= ch < nc /\
                                        k = rowMajorOffset [fs; fs; nc] r c ch))
          with (P := P); [|exact Ht]].
    + intros k [Hk | (c & ch & Hc & Hch & ->)]; [tauto|]. right. exists c. eauto.
    + intros c Q u1 u2 Hc Hu.
      eapply agreeOn_weaken;
        [|apply (For_agreeOn 0 nc _
                   (fun ch k => k = rowMajorOffset [fs; fs; nc] r c ch))
            with (P := Q); [|exact Hu]].
      * intros k [Hk | (ch & Hch & ->)]; [tauto|]. right. eauto.
      * intros ch Q' v1 v2 Hch Hv. now apply agreeOn_insert.
  - intros k [].
Qed.

Lemma packBits_agreeOn t (s1 s2 : gmap Z ValueType) first count (P : Z -> Prop) :
  agreeOn P s1 s2 ->
  (forall bitIndex, 0 <= bitIndex < count -> P (int_add first bitIndex)) ->
  packBits isPositive uninitialized t s1 first count
  = packBits isPositive uninitialized t s2 first count.
Proof.
  intros H HP. unfold packBits. apply fold_left_ext_in.
  intros blockValue bitIndex Hin. apply in_loop_indices in Hin.
  unfold readScratch. now rewrite (H _ (HP _ Hin)).
Qed.

Lemma CompressRow_agreeOn t (s1 s2 : gmap Z ValueType) packedOutput numValues
    (mem : Memory (ValueType := ValueType)) :
  0 <= numValues <= INT_MAX ->
  agreeOn (fun k => 0 <= k < numValues) s1 s2 ->
  CompressRow isPositive uninitialized t s1 packedOutput numValues mem
  = CompressRow isPositive uninitialized t s2 packedOutput numValues mem.
Proof.
  intros Hnv H. unfold CompressRow. cbv zeta.
  destruct (numBits_cases t) as [-> Hbits].
  set (bits := 8 * sizeof t) in *.
  assert (Hq : Z.quot numValues bits = numValues / bits)
    by (apply Z.quot_div_nonneg; lia).
  assert (Hr : Z.rem numValues bits = numValues mod bits)
    by (apply Z.rem_mod_nonneg; lia).
  rewrite Hq, Hr.
  pose proof (Z.div_mod numValues bits ltac:(lia)) as E.
  pose proof (Z.mod_pos_bound numValues bits ltac:(lia)) as B.
  assert (Q0 : 0 <= numValues / bits) by (apply Z.div_pos; lia).
  unfold INT_MAX in Hnv.
  assert (Efold :
    For 0 (numValues / bits)
      (fun blockIndex mem =>
         writeInt mem packedOutput blockIndex
           (packBits isPositive uninitialized t s1 (int_mul blockIndex bits) bits)) mem
    = For 0 (numValues / bits)
      (fun blockIndex mem =>
         writeInt mem packedOutput blockIndex
           (packBits isPositive uninitialized t s2 (int_mul blockIndex bits) bits)) mem).
  { unfold For. apply fold_left_ext_in. intros m blockIndex Hin.
    apply in_loop_range in Hin. f_equal.
    apply (packBits_agreeOn _ _ _ _ _ _ H). intros bitIndex Hb.
    unfold int_mul, int_add.
    rewrite (wrap_small (blockIndex * bits)) by (unfold is_int, INT_MIN, INT_MAX; nia).
    rewrite wrap_small by (unfold is_int, INT_MIN, INT_MAX; nia). nia. }
  rewrite Efold.
  destruct (numValues / bits <? _); [|reflexivity]. f_equal.
  apply (packBits_agreeOn _ _ _ _ _ _ H). intros bitIndex Hb.
  unfold int_mul, int_add.
  rewrite (wrap_small (numValues / bits * bits)) by (unfold is_int, INT_MIN, INT_MAX; nia).
  rewrite wrap_small by (unfold is_int, INT_MIN, INT_MAX; nia). nia.
Qed.

Lemma rowBodyFits_sizes b :
  rowBodyFits b ->
  let node := bound_row_this b in
  let fs := wrap (receptiveField (rf_convolutionalParameters node)) in
  let nc := dimension (GetActiveSize (rf_inputMemoryLayout node)) 2 in
  let nv := wrap (bound_row_fieldVolumeSize b) in
  1 <= fs /\ 1 <= nc /\ nv = fs * fs * nc /\ 1 <= nv <= INT_MAX /\
  1 <= bound_row_packedRowSize b /\
  bound_row_packedRowSize b = (nv - 1) / (8 * sizeof (rf_PackedBitsType node)) + 1.
Proof.
  intros (Hwf & Hfvs & Hprs). cbv zeta.
  destruct Hwf as (Hfw & Hnc & Hfvs_max & _). unfold INT_MAX in *.
  set (fw := receptiveField _) in *. set (nc := dimension _ 2) in *.
  assert (Hfw_max : fw <= 2147483647) by nia.
  rewrite (wrap_small fw) by (unfold is_int, INT_MIN, INT_MAX; lia).
  rewrite Hfvs, Hprs.
  rewrite wrap_small by (unfold is_int, INT_MIN, INT_MAX; nia).
  destruct (numBits_cases (rf_PackedBitsType (bound_row_this b))) as [_ Hbits].
  assert (0 <= (fw * fw * nc - 1) / (8 * sizeof (rf_PackedBitsType (bound_row_this b))))
    by (apply Z.div_pos; nia).
  repeat split; nia.
Qed.

Lemma execRow_frame b i (mem : Memory (ValueType := ValueType)) s1 s2 :
  rowBodyFits b ->
  (execRow isPositive uninitialized b i (mem, s1)).1
  = (execRow isPositive uninitialized b i (mem, s2)).1.
Proof.
  intros Hfit. destruct (rowBodyFits_sizes b Hfit) as (Hfs & Hnc & Hnv & Hmax & _).
  unfold execRow. simpl.
  apply CompressRow_agreeOn; [lia|].
  eapply agreeOn_weaken; [|apply LoadRow_agreeOn].
  intros k Hk. cbv zeta. apply rowMajorOffset_cover; [assumption..|].
  rewrite <- Hnv. exact Hk.
Qed.

Lemma For_execRow b lo hi (mem : Memory (ValueType := ValueType)) s :
  rowBodyFits b ->
  (For lo hi (execRow isPositive uninitialized b) (mem, s)).1
  = fold_left (fun mem i => rowEffect isPositive uninitialized b i mem)
              (loop_range lo hi) mem.
Proof.
  intros Hfit. unfold For. generalize (loop_range lo hi) as l. intros l.
  revert mem s. induction l as [|i l IH]; intros mem s; simpl; [reflexivity|].
  destruct (execRow isPositive uninitialized b i (mem, s)) as [mem' s'] eqn:E.
  rewrite IH. f_equal. unfold rowEffect.
  rewrite (execRow_frame b i mem ∅ s Hfit), E. reflexivity.
Qed.

Lemma For_writeInt {A : Type} (l : list A) p (index : A -> Z) (value : A -> Z)
    (mem : Memory (ValueType := ValueType)) :
  fold_left (fun mem a => writeInt mem p (index a) (value a)) l mem
  = mkMemory (realCells mem)
      (applyWrites (map (fun a => (PointerOffset p (index a), value a)) l)
                   (intCells mem)).
Proof.
  revert mem. induction l as [|a l IH]; intros mem; simpl.
  - now destruct mem.
  - rewrite IH. reflexivity.
Qed.

Lemma CompressRow_writes t (row : gmap Z ValueType) packedOutput numValues
    (mem : Memory (ValueType := ValueType)) :
  CompressRow isPositive uninitialized t row packedOutput numValues mem
  = mkMemory (realCells mem)
      (applyWrites (compressWrites isPositive uninitialized t row packedOutput numValues)
                   (intCells mem)).
Proof.
  unfold CompressRow, compressWrites. cbv zeta. unfold For.
  rewrite For_writeInt, applyWrites_app.
  destruct (_ <? _); reflexivity.
Qed.

Lemma rowEffect_writes b i (mem : Memory (ValueType := ValueType)) :
  rowEffect isPositive uninitialized b i mem
  = mkMemory (realCells mem)
      (applyWrites (rowWrites isPositive uninitialized b i mem) (intCells mem)).
Proof. unfold rowEffect, execRow, rowWrites. simpl. apply CompressRow_writes. Qed.

Lemma rowWrites_realCells b i (mem mem' : Memory (ValueType := ValueType)) :
  realCells mem = realCells mem' ->
  rowWrites isPositive uninitialized b i mem
  = rowWrites isPositive uninitialized b i mem'.
Proof.
  destruct mem as [rc ic], mem' as [rc' ic']. simpl. intros <-. reflexivity.
Qed.

Lemma compressWrites_keys t (row : gmap Z ValueType) packedOutput numValues k :
  1 <= numValues <= INT_MAX ->
  In k (map fst (compressWrites isPositive uninitialized t row packedOutput numValues)) ->
  exists blockIndex,
    0 <= blockIndex < (numValues - 1) / (8 * sizeof t) + 1 /\
    k = PointerOffset packedOutput blockIndex.
Proof.
  intros Hnv. unfold compressWrites. cbv zeta.
  destruct (numBits_cases t) as [-> Hbits]. set (bits := 8 * sizeof t) in *.
  unfold INT_MAX in Hnv.
  rewrite (Z.quot_div_nonneg numValues bits) by lia.
  unfold int_sub, int_add.
  rewrite (wrap_small (numValues - 1)) by (unfold is_int, INT_MIN, INT_MAX; lia).
  rewrite (Z.quot_div_nonneg (numValues - 1) bits) by lia.
  assert (Q0 : 0 <= (numValues - 1) / bits) by (apply Z.div_pos; lia).
  assert (Q1 : (numValues - 1) / bits <= numValues - 1)
    by (apply Z.div_le_upper_bound; nia).
  rewrite wrap_small by (unfold is_int, INT_MIN, INT_MAX; lia).
  assert (Q2 : numValues / bits <= (numValues - 1) / bits + 1).
  { pose proof (Z.div_mod numValues bits ltac:(lia)).
    pose proof (Z.mod_pos_bound numValues bits ltac:(lia)).
    pose proof (Z.div_mod (numValues - 1) bits ltac:(lia)).
    pose proof (Z.mod_pos_bound (numValues - 1) bits ltac:(lia)). nia. }
  rewrite map_app, in_app_iff, map_map. simpl. intros [Hin | Hin].
  - apply in_map_iff in Hin as (blockIndex & <- & Hb). apply in_loop_range in Hb.
    exists blockIndex. split; [lia | reflexivity].
  - destruct (Z.ltb_spec (numValues / bits) ((numValues - 1) / bits + 1)) as [Hlt|];
      [|destruct Hin].
    destruct Hin as [<- | []]. exists (numValues / bits). split; [|reflexivity].
    split; [apply Z.div_pos; lia | exact Hlt].
Qed.

Lemma rowEffect_commute b i j (mem : Memory (ValueType := ValueType)) :
  rowBodyFits b ->
  0 <= i < rf_numOutputRows (bound_row_this b) ->
  0 <= j < rf_numOutputRows (bound_row_this b) ->
  i <> j ->
  rowEffect isPositive uninitialized b j (rowEffect isPositive uninitialized b i mem)
  = rowEffect isPositive uninitialized b i (rowEffect isPositive uninitialized b j mem).
Proof.
  intros Hfit Hi Hj Hne.
  destruct (rowBodyFits_sizes b Hfit) as (Hfs & Hnc & Hnv & Hmax & Hprs1 & Hprs).
  cbv zeta in *.
  rewrite !rowEffect_writes. simpl.
  rewrite (rowWrites_realCells b j
             (mkMemory (realCells mem)
                (applyWrites (rowWrites isPositive uninitialized b i mem) (intCells mem)))
             mem eq_refl).
  rewrite (rowWrites_realCells b i
             (mkMemory (realCells mem)
                (applyWrites (rowWrites isPositive uninitialized b j mem) (intCells mem)))
             mem eq_refl).
  f_equal. apply applyWrites_commute.
  intros k Hkj Hki. unfold rowWrites in Hkj, Hki.
  apply compressWrites_keys in Hkj as (bj & Hbj & ->); [|assumption].
  apply compressWrites_keys in Hki as (bi & Hbi & E); [|assumption].
  rewrite <- Hprs in Hbj, Hbi.
  destruct Hfit as (Hwf & _ & Hprs').
  destruct Hwf as (_ & _ & _ & HH & HW & HN & Hout).
  unfold rf_numOutputRows, int_mul in Hi, Hj.
  rewrite wrap_small in Hi, Hj by (unfold is_int, INT_MIN, INT_MAX; nia).
  rewrite <- Hprs' in Hout. unfold INT_MAX in *.
  set (prs := bound_row_packedRowSize b) in *.
  unfold int_mul in E.
  rewrite (wrap_small (j * prs)) in E by (unfold is_int, INT_MIN, INT_MAX; nia).
  rewrite (wrap_small (i * prs)) in E by (unfold is_int, INT_MIN, INT_MAX; nia).
  unfold PointerOffset in E. simpl in E. injection E as E.
  destruct (Z.lt_total i j) as [Hlt | [-> | Hlt]]; [nia | congruence | nia].
Qed.

Lemma rf_parallel_matches_sequential compilerSettings node
    (frames frames' : nat -> gmap Z ValueType) schedule
    (mem : Memory (ValueType := ValueType)) :
  rf_wellFormed node ->
  1 <= maxThreads compilerSettings <= INT_MAX ->
  exists parallel,
    let sequential :=
      SequentialLoop
        (mkFor (Literal 0) (Literal (rf_numOutputRows node))
           (instantiateRowBody (rf_taskArgs (0, 0))
              (loopBody (functionCode (rf_GetTaskFunction node))))) in
    rf_Compile (withParallelize true compilerSettings) node = Some parallel /\
    rf_Compile (withParallelize false compilerSettings) node = Some sequential /\
    (validSchedule parallel schedule ->
     runEmitted bindRowBody (execRow isPositive uninitialized) frames schedule
                parallel mem
     = Some (fold_left (fun mem i => rowEffect isPositive uninitialized
                                       (rf_boundBody node) i mem)
                       (loop_range 0 (rf_numOutputRows node)) mem)) /\
    runEmitted bindRowBody (execRow isPositive uninitialized) frames' [] sequential mem
    = Some (fold_left (fun mem i => rowEffect isPositive uninitialized
                                      (rf_boundBody node) i mem)
                      (loop_range 0 (rf_numOutputRows node)) mem).
Proof.
  intros Hwf HD. pose proof (rf_numOutputRows_exact node Hwf) as HN.
  pose proof (rf_boundBody_fits node Hwf) as Hfit.
  destruct (positive_work_is_tiled (rf_numOutputRows node) (maxThreads compilerSettings)
              HN HD) as (Hsplit & Hts & Hnt & Hlen & _ & Htiles).
  set (ts := ceil_div _ _) in *. set (nt := ceil_div _ ts) in *.
  assert (Hseq : forall frame,
    callFunction bindRowBody (execRow isPositive uninitialized)
      (mkFor (Literal 0) (Literal (rf_numOutputRows node))
         (instantiateRowBody (rf_taskArgs (0, 0))
            (loopBody (functionCode (rf_GetTaskFunction node))))) [] frame mem
    = Some (fold_left (fun mem i => rowEffect isPositive uninitialized
                                      (rf_boundBody node) i mem)
                      (loop_range 0 (rf_numOutputRows node)) mem)).
  { intros frame. unfold callFunction. simpl. f_equal.
    apply (For_execRow (rf_boundBody node)). exact Hfit. }
  eexists. cbv zeta. split; [|split; [|split]].
  - apply (rf_Compile_cases (withParallelize true compilerSettings) node ts nt Hsplit).
  - apply (rf_Compile_cases (withParallelize false compilerSettings) node ts nt Hsplit).
  - simpl. destruct (Z.ltb_spec 1 nt) as [Hpar | Hone]; simpl.
    + intros Hperm. rewrite length_map in Hperm.
      erewrite foldOption_Some.
      * f_equal.
        apply (tasks_in_any_order
                 (fun i mem => rowEffect isPositive uninitialized (rf_boundBody node) i mem)
                 (rf_numOutputRows node) (taskRanges ts nt (rf_numOutputRows node))
                 schedule mem Htiles); [|exact Hperm].
        intros i j m Hi Hj Hne. now apply rowEffect_commute.
      * intros m task Hin.
        assert (Htask : (task < length (taskRanges ts nt (rf_numOutputRows node)))%nat).
        { eapply Permutation_in in Hin; [|exact Hperm]. apply in_seq in Hin. lia. }
        destruct (lookup_lt_is_Some_2 _ _ Htask) as [range Hrange].
        rewrite list_lookup_fmap, Hrange. simpl.
        unfold callFunction. simpl. f_equal.
        apply (For_execRow (rf_boundBody node)). exact Hfit.
    + intros _. apply Hseq.
  - simpl. apply Hseq.
Qed.

End RF.

Lemma xn_GetTaskFunction_shape compilerSettings node taskFunction :
  xn_GetTaskFunction compilerSettings node = Some taskFunction ->
  exists hasZeroPadding packedRowSize packedRowStride useVectorInstructions
         vectorSize numVectorBlocks,
    functionCode taskFunction
    = mkFor (Argument 6) (Argument 7)
        (mkFilterBody node (Argument 0) (Argument 1) (Argument 2) (Argument 3)
           (Argument 4) (Argument 5) hasZeroPadding
           (int_mul (dimension (GetActiveSize (xn_outputMemoryLayout node)) 0)
                    (dimension (GetActiveSize (xn_outputMemoryLayout node)) 1))
           packedRowSize packedRowStride useVectorInstructions vectorSize
           numVectorBlocks).
Proof.
  unfold xn_GetTaskFunction. cbv zeta.
  destruct (if allowVectorInstructions compilerSettings
            then option_map wrap _ else Some 0) as [nvb|]; [|discriminate].
  simpl. intros [= <-]. simpl. eauto 10.
Qed.

Lemma xn_boundBody_fits compilerSettings node taskFunction :
  xn_wellFormed node ->
  xn_GetTaskFunction compilerSettings node = Some taskFunction ->
  filterBodyFits (xn_boundBody taskFunction) /\
  bound_flt_this (xn_boundBody taskFunction) = node.
Proof.
  intros Hwf Htf.
  destruct (xn_GetTaskFunction_shape _ _ _ Htf) as (hz & prs & prst & uv & vs & nvb & E).
  unfold xn_boundBody, filterBodyFits. rewrite E. simpl.
  split; [|reflexivity]. split; [exact Hwf|]. split; [|discriminate].
  destruct Hwf as (Hnf & H0 & H1 & Hmax). cbv zeta in Hmax. unfold INT_MAX in *.
  unfold int_mul. apply wrap_small. unfold is_int, INT_MIN, INT_MAX. nia.
Qed.

Section XN.
Context {ValueType : Type}.
Variable uninitialized : ValueType.
Variable castInt : Z -> ValueType.
Variable subtract : ValueType -> ValueType -> ValueType.
Variable multiply : ValueType -> ValueType -> ValueType.

Lemma filterOutputValue_intCells b f mean col (m1 m2 : Memory (ValueType := ValueType)) :
  intCells m1 = intCells m2 ->
  filterOutputValue castInt subtract multiply b f mean col m1
  = filterOutputValue castInt subtract multiply b f mean col m2.
Proof.
  destruct m1 as [rc1 ic1], m2 as [rc2 ic2]. simpl. intros <-. reflexivity.
Qed.

Lemma For_writeReal {A : Type} (l : list A) p (index : A -> Z)
    (value : A -> Memory (ValueType := ValueType) -> ValueType) :
  (forall a m1 m2, intCells m1 = intCells m2 -> value a m1 = value a m2) ->
  forall mem0 mem, intCells mem = intCells mem0 ->
    fold_left (fun mem a => writeReal mem p (index a) (value a mem)) l mem
    = mkMemory
        (applyWrites (map (fun a => (PointerOffset p (index a), value a mem0)) l)
                     (realCells mem))
        (intCells mem).
Proof.
  intros Hvalue mem0. induction l as [|a l IH]; intros mem Hmem; simpl.
  - now destruct mem.
  - rewrite IH by exact Hmem. simpl. rewrite (Hvalue a mem mem0 Hmem). reflexivity.
Qed.

Lemma filterEffect_writes b f (mem : Memory (ValueType := ValueType)) :
  filterEffect uninitialized castInt subtract multiply b f mem
  = mkMemory (applyWrites (filterWrites uninitialized castInt subtract multiply b f mem)
                          (realCells mem))
             (intCells mem).
Proof.
  unfold filterEffect, execFilter, ComputeFilterOutput, filterWrites. simpl.
  unfold For.
  apply (For_writeReal (loop_range 0 (bound_flt_outputColumns b)) (bound_flt_pOutput b)
           (fun col => int_add (int_mul f (bound_flt_outputColumns b)) col)
           (fun col m => filterOutputValue castInt subtract multiply b f _ col m)).
  - intros a m1 m2. apply filterOutputValue_intCells.
  - reflexivity.
Qed.

Lemma For_execFilter b lo hi (mem : Memory (ValueType := ValueType)) :
  (For lo hi (execFilter uninitialized castInt subtract multiply b) (mem, tt)).1
  = fold_left (fun mem i => filterEffect uninitialized castInt subtract multiply b i mem)
              (loop_range lo hi) mem.
Proof.
  unfold For. generalize (loop_range lo hi) as l. intros l. revert mem.
  induction l as [|i l IH]; intros mem; simpl; [reflexivity|].
  unfold execFilter at 2. simpl. rewrite IH. reflexivity.
Qed.

Lemma filterWrites_ext b f (m1 m2 : Memory (ValueType := ValueType)) :
  intCells m1 = intCells m2 ->
  readReal uninitialized m1 (bound_flt_pFilterMeans b) f
  = readReal uninitialized m2 (bound_flt_pFilterMeans b) f ->
  filterWrites uninitialized castInt subtract multiply b f m1
  = filterWrites uninitialized castInt subtract multiply b f m2.
Proof.
  intros Hint Hmean. unfold filterWrites. cbv zeta. rewrite Hmean.
  apply map_ext. intros col. f_equal. now apply filterOutputValue_intCells.
Qed.

Lemma filterWrites_keys b f (mem : Memory (ValueType := ValueType)) k :
  In k (map fst (filterWrites uninitialized castInt subtract multiply b f mem)) ->
  exists col, 0 <= col < bound_flt_outputColumns b /\
    k = PointerOffset (bound_flt_pOutput b)
          (int_add (int_mul f (bound_flt_outputColumns b)) col).
Proof.
  unfold filterWrites. cbv zeta. rewrite map_map. simpl.
  intros Hin. apply in_map_iff in Hin as (col & <- & Hcol).
  apply in_loop_range in Hcol. eauto.
Qed.

Lemma filterEffect_commute b i j (mem : Memory (ValueType := ValueType)) :
  filterBodyFits b ->
  0 <= i < xn_numFilters (bound_flt_this b) ->
  0 <= j < xn_numFilters (bound_flt_this b) ->
  i <> j ->
  filterEffect uninitialized castInt subtract multiply b j
    (filterEffect uninitialized castInt subtract multiply b i mem)
  = filterEffect uninitialized castInt subtract multiply b i
      (filterEffect uninitialized castInt subtract multiply b j mem).
Proof.
  intros (Hwf & Hoc & Hbuf) Hi Hj Hne.
  assert (Hsame : forall a c,
    filterWrites uninitialized castInt subtract multiply b a
      (mkMemory (applyWrites (filterWrites uninitialized castInt subtract multiply b c mem)
                             (realCells mem)) (intCells mem))
    = filterWrites uninitialized castInt subtract multiply b a mem).
  { intros a c. apply filterWrites_ext; [reflexivity|].
    unfold readReal. simpl. f_equal. apply applyWrites_lookup_other.
    intros Hin. apply filterWrites_keys in Hin as (col & _ & E).
    apply Hbuf. unfold PointerOffset in E. simpl in E. now injection E as <- _. }
  rewrite !filterEffect_writes. simpl. rewrite !Hsame. f_equal.
  apply applyWrites_commute. intros k Hkj Hki.
  apply filterWrites_keys in Hkj as (cj & Hcj & ->).
  apply filterWrites_keys in Hki as (ci & Hci & E).
  destruct Hwf as (Hnf & H0 & H1 & Hmax). cbv zeta in Hmax.
  unfold xn_numFilters in Hi, Hj. unfold INT_MAX in *.
  set (nf := dimension _ 2) in *. rewrite Hoc in *.
  set (oc := dimension _ 0 * dimension _ 1) in *.
  assert (Hoc0 : 0 <= oc) by (unfold oc; nia).
  unfold int_add, int_mul in E.
  rewrite (wrap_small (j * oc)) in E by (unfold is_int, INT_MIN, INT_MAX; nia).
  rewrite (wrap_small (i * oc)) in E by (unfold is_int, INT_MIN, INT_MAX; nia).
  rewrite !wrap_small in E by (unfold is_int, INT_MIN, INT_MAX; nia).
  unfold PointerOffset in E. simpl in E. injection E as E.
  destruct (Z.lt_total i j) as [Hlt | [-> | Hlt]]; [nia | congruence | nia].
Qed.

Lemma xn_parallel_matches_sequential compilerSettings node
    (frames frames' : nat -> unit) schedule (mem : Memory (ValueType := ValueType)) :
  xn_wellFormed node ->
  1 <= maxThreads compilerSettings <= INT_MAX ->
  (allowVectorInstructions compilerSettings = true ->
   size_t (vectorWidth compilerSettings) <> 0) ->
  exists taskFunction parallel,
    let sequential :=
      SequentialLoop
        (mkFor (Literal 0) (Literal (xn_numFilters node))
           (instantiateFilterBody (xn_taskArgs (0, 0))
              (loopBody (functionCode taskFunction)))) in
    xn_GetTaskFunction compilerSettings node = Some taskFunction /\
    xn_Compile (withParallelize true compilerSettings) node = Some parallel /\
    xn_Compile (withParallelize false compilerSettings) node = Some sequential /\
    (validSchedule parallel schedule ->
     runEmitted bindFilterBody (execFilter uninitialized castInt subtract multiply)
                frames schedule parallel mem
     = Some (fold_left
               (fun mem i => filterEffect uninitialized castInt subtract multiply
                               (xn_boundBody taskFunction) i mem)
               (loop_range 0 (xn_numFilters node)) mem)) /\
    runEmitted bindFilterBody (execFilter uninitialized castInt subtract multiply)
               frames' [] sequential mem
    = Some (fold_left
              (fun mem i => filterEffect uninitialized castInt subtract multiply
                              (xn_boundBody taskFunction) i mem)
              (loop_range 0 (xn_numFilters node)) mem).
Proof.
  intros Hwf HD Hv.
  destruct (xn_GetTaskFunction_defined compilerSettings node Hv) as [tf Htf].
  destruct (xn_boundBody_fits _ _ _ Hwf Htf) as [Hfit Hthis].
  assert (HN : 1 <= xn_numFilters node <= 1073741824) by apply Hwf.
  destruct (positive_work_is_tiled (xn_numFilters node) (maxThreads compilerSettings)
              HN HD) as (Hsplit & Hts & Hnt & Hlen & _ & Htiles).
  set (ts := ceil_div _ _) in *. set (nt := ceil_div _ ts) in *.
  destruct (xn_GetTaskFunction_shape _ _ _ Htf) as (hz & prs & prst & uv & vs & nvb & E).
  assert (Hframe : forall u : unit, u = tt) by (now intros []).
  assert (Hseq : forall frame,
    callFunction bindFilterBody (execFilter uninitialized castInt subtract multiply)
      (mkFor (Literal 0) (Literal (xn_numFilters node))
         (instantiateFilterBody (xn_taskArgs (0, 0)) (loopBody (functionCode tf))))
      [] frame mem
    = Some (fold_left
              (fun mem i => filterEffect uninitialized castInt subtract multiply
                              (xn_boundBody tf) i mem)
              (loop_range 0 (xn_numFilters node)) mem)).
  { intros frame. rewrite (Hframe frame). unfold callFunction, xn_boundBody.
    rewrite E. simpl. f_equal. apply For_execFilter. }
  exists tf. eexists. cbv zeta. split; [exact Htf|]. split; [|split; [|split]].
  - apply (xn_Compile_cases (withParallelize true compilerSettings) node tf ts nt);
      [exact Htf | exact Hsplit].
  - apply (xn_Compile_cases (withParallelize false compilerSettings) node tf ts nt);
      [exact Htf | exact Hsplit].
  - simpl. destruct (Z.ltb_spec 1 nt) as [Hpar | Hone]; simpl.
    + intros Hperm. rewrite length_map in Hperm.
      erewrite foldOption_Some.
      * f_equal.
        apply (tasks_in_any_order
                 (fun i mem => filterEffect uninitialized castInt subtract multiply
                                 (xn_boundBody tf) i mem)
                 (xn_numFilters node) (taskRanges ts nt (xn_numFilters node))
                 schedule mem Htiles); [|exact Hperm].
        intros i j m Hi Hj Hne. apply filterEffect_commute;
          [exact Hfit | rewrite Hthis; exact Hi | rewrite Hthis; exact Hj | exact Hne].
      * intros m task Hin.
        assert (Htask : (task < length (taskRanges ts nt (xn_numFilters node)))%nat).
        { eapply Permutation_in in Hin; [|exact Hperm]. apply in_seq in Hin. lia. }
        destruct (lookup_lt_is_Some_2 _ _ Htask) as [range Hrange].
        rewrite list_lookup_fmap, Hrange. simpl. rewrite (Hframe (frames task)).
        unfold callFunction, xn_boundBody. rewrite E. simpl. f_equal.
        apply For_execFilter.
    + intros _. apply Hseq.
  - simpl. apply Hseq.
Qed.

End XN.

Section Lowering.
Context {ValueType : Type}.
Variable isPositive : ValueType -> bool.
Variable uninitialized : ValueType.
Variable castInt : Z -> ValueType.
Variable subtract : ValueType -> ValueType -> ValueType.
Variable multiply : ValueType -> ValueType -> ValueType.

(** Nodes whose sizes fit: for both nodes the loop body of the task
    function, called on a task range, is the closure of the sequential loop and one run of it at
    an index changes the memory in the same way; and the code compiled with
    parallelism forced on, its tasks run in any order, leaves the same memory
    as the code compiled with parallelism forced off.  The element type and
    its arithmetic are parameters; the sizes of the nodes are positive and
    fit an [int]. *)
Theorem parallel_and_sequential_lowering_agree compilerSettings rf xn :
  rf_wellFormed rf -> xn_wellFormed xn ->
  1 <= maxThreads compilerSettings <= INT_MAX ->
  (allowVectorInstructions compilerSettings = true ->
   size_t (vectorWidth compilerSettings) <> 0) ->
  (exists parallel loop,
     rf_Compile (withParallelize true compilerSettings) rf = Some parallel /\
     rf_Compile (withParallelize false compilerSettings) rf = Some (SequentialLoop loop) /\
     (forall range,
        sameIndexResult bindRowBody (execRow isPositive uninitialized)
          (rf_GetTaskFunction rf) (rf_taskArgs range) loop) /\
     sameOutputs bindRowBody (execRow isPositive uninitialized)
       parallel (SequentialLoop loop)) /\
  (exists taskFunction parallel loop,
     xn_GetTaskFunction compilerSettings xn = Some taskFunction /\
     xn_Compile (withParallelize true compilerSettings) xn = Some parallel /\
     xn_Compile (withParallelize false compilerSettings) xn = Some (SequentialLoop loop) /\
     (forall range,
        sameIndexResult bindFilterBody
          (execFilter uninitialized castInt subtract multiply)
          taskFunction (xn_taskArgs range) loop) /\
     sameOutputs bindFilterBody (execFilter uninitialized castInt subtract multiply)
       parallel (SequentialLoop loop)).
Proof.
  intros Hrf Hxn HD Hv. split.
  - destruct (rf_parallel_matches_sequential isPositive uninitialized compilerSettings rf
                (fun _ => ∅) (fun _ => ∅) [] (mkMemory ∅ ∅) Hrf HD)
      as (parallel & Hpar & Hseq & _ & _).
    exists parallel. eexists. split; [exact Hpar|]. split; [exact Hseq|]. split.
    + intros range.
      exists [Pointer (input, 0); Pointer (output, 0); Int range.1; Int range.2],
             (rf_boundBody rf).
      repeat split. intros i mem frame frame'.
      apply execRow_frame. now apply rf_boundBody_fits.
    + intros frames frames' schedule mem Hvalid.
      destruct (rf_parallel_matches_sequential isPositive uninitialized compilerSettings
                  rf frames frames' schedule mem Hrf HD)
        as (parallel' & Hpar' & _ & Hrun & Hrun').
      rewrite Hpar in Hpar'. injection Hpar' as <-. eauto.
  - destruct (xn_parallel_matches_sequential uninitialized castInt subtract multiply
                compilerSettings xn (fun _ => tt) (fun _ => tt) [] (mkMemory ∅ ∅)
                Hxn HD Hv)
      as (tf & parallel & Htf & Hpar & Hseq & _ & _).
    exists tf, parallel. eexists. split; [exact Htf|]. split; [exact Hpar|].
    split; [exact Hseq|]. split.
    + intros range.
      destruct (xn_GetTaskFunction_shape _ _ _ Htf)
        as (hz & prs & prst & uv & vs & nvb & E).
      exists [Pointer (input, 0); Pointer (filterWeights, 0); Pointer (filterMeans, 0);
              Pointer (inputPaddingMasks, 0); Pointer (inputPaddingMaskSums, 0);
              Pointer (output, 0); Int range.1; Int range.2],
             (xn_boundBody tf).
      unfold xn_boundBody. rewrite E. repeat split.
    + intros frames frames' schedule mem Hvalid.
      destruct (xn_parallel_matches_sequential uninitialized castInt subtract multiply
                  compilerSettings xn frames frames' schedule mem Hxn HD Hv)
        as (tf' & parallel' & Htf' & Hpar' & _ & Hrun & Hrun').
      rewrite Htf in Htf'. injection Htf' as <-.
      rewrite Hpar in Hpar'. injection Hpar' as <-. eauto.
Qed.

End Lowering.

Lemma sample_nodes_wellFormed :
  rf_wellFormed sampleReceptiveFieldNode /\ xn_wellFormed sampleXnorNode.
Proof.
  unfold rf_wellFormed, xn_wellFormed. repeat split; vm_compute; discriminate.
Qed.

Lemma parallel_and_sequential_lowering_agree_witness :
  exists parallel loop,
    rf_Compile (withParallelize true (sampleOptions false)) sampleReceptiveFieldNode
    = Some parallel /\
    rf_Compile (withParallelize false (sampleOptions false)) sampleReceptiveFieldNode
    = Some (SequentialLoop loop) /\
    sameOutputs bindRowBody (execRow (Z.ltb 0) 0) parallel (SequentialLoop loop).
Proof.
  destruct (parallel_and_sequential_lowering_agree (Z.ltb 0) 0 (fun z => z) Z.sub Z.mul
              (sampleOptions false) sampleReceptiveFieldNode sampleXnorNode
              (proj1 sample_nodes_wellFormed) (proj2 sample_nodes_wellFormed))
    as [(parallel & loop & Hpar & Hseq & _ & Hsame) _].
  - vm_compute. split; discriminate.
  - intros _. vm_compute. discriminate.
  - exists parallel, loop. auto.
Defined.

(** The sample node on the sample memory: four tasks finishing out of
    order and the sequential loop store the same sixteen packed rows. *)
Example sample_runs_agree :
  (parallel ← rf_Compile (sampleOptions true) sampleReceptiveFieldNode;
   runEmitted bindRowBody (execRow (Z.ltb 0) 0) (fun _ => ∅) [2; 0; 3; 1]%nat
              parallel sampleMemory)
  = (sequential ← rf_Compile (sampleOptions false) sampleReceptiveFieldNode;
     runEmitted bindRowBody (execRow (Z.ltb 0) 0) (fun _ => ∅) [] sequential sampleMemory).
Proof. vm_compute. reflexivity. Qed.

End ExecutionFacts.

Module PortOperationFacts.
Import Exceptions Ports PortFacts PortSamples.

Lemma OutputPort_Size_AddReference s port r o :
  OutputPort_Size (AddReference s port r) o = OutputPort_Size s o.
Proof.
  unfold OutputPort_Size, AddReference. simpl. rewrite lookup_alter.
  destruct (decide (port = o)) as [<- | Hne]; [|reflexivity].
  destruct (outputs s !! port); reflexivity.
Qed.

Lemma OutputPort_Size_RemoveReference s port r o :
  OutputPort_Size (RemoveReference s port r) o = OutputPort_Size s o.
Proof.
  unfold OutputPort_Size, RemoveReference. simpl. rewrite lookup_alter.
  destruct (decide (port = o)) as [<- | Hne]; [|reflexivity].
  destruct (outputs s !! port); reflexivity.
Qed.

Lemma OutputPort_Size_unlinked s this o :
  OutputPort_Size (unlinked s this) o = OutputPort_Size s o.
Proof.
  unfold unlinked. destruct (referencedPort s this); [|reflexivity].
  apply OutputPort_Size_RemoveReference.
Qed.

Lemma referenced_by_unlinked_other s this o i :
  i <> this -> referenced_by (unlinked s this) o i <-> referenced_by s o i.
Proof.
  intros Hne. unfold unlinked. destruct (referencedPort s this); [|reflexivity].
  rewrite referenced_by_RemoveReference. split; [tauto|].
  intros Hr. split; [assumption|]. intros [_ ->]. auto.
Qed.

Lemma OutputPort_Size_SetReferencedPort s this input o :
  OutputPort_Size (SetReferencedPort s this input) o = OutputPort_Size s o.
Proof.
  unfold SetReferencedPort. fold (unlinked s this). destruct input as [port|].
  - change (OutputPort_Size (AddReference (unlinked s this) port this) o
            = OutputPort_Size s o).
    rewrite OutputPort_Size_AddReference. apply OutputPort_Size_unlinked.
  - change (OutputPort_Size (unlinked s this) o = OutputPort_Size s o).
    apply OutputPort_Size_unlinked.
Qed.

(** X1: [SetReferencedPort] touches the pointer of [this] and the entries of
    [this] in the reference sets, and nothing else: the other input ports
    reference what they did, they are listed where they were, and no output
    port changes its size. *)
Theorem SetReferencedPort_frame s this input :
  (forall i, i <> this ->
     referencedPort (SetReferencedPort s this input) i = referencedPort s i) /\
  (forall o i, i <> this ->
     referenced_by (SetReferencedPort s this input) o i <-> referenced_by s o i) /\
  (forall o, OutputPort_Size (SetReferencedPort s this input) o = OutputPort_Size s o).
Proof.
  unfold SetReferencedPort. fold (unlinked s this). split; [|split].
  - intros i Hne. rewrite referencedPort_set, decide_False by congruence.
    destruct input; [rewrite referencedPort_AddReference|];
      apply referencedPort_unlinked.
  - intros o i Hne. rewrite referenced_by_set. destruct input as [port|].
    + rewrite referenced_by_AddReference, referenced_by_unlinked_other by assumption.
      split; [intros [Hr | (_ & -> & _)]; [assumption | congruence] | auto].
    + now apply referenced_by_unlinked_other.
  - intros o. apply OutputPort_Size_SetReferencedPort.
Qed.

(** X2: What the queries of an input port answer after [SetReferencedPort]:
    bound to [port], the port is valid, references [port], has the size of
    [port] and one parent node, the owner of [port]; bound to [nullptr] (or
    cleared with [ClearReferencedPort]) it is invalid, has size 0 and no
    parent node, and [GetReferencedPort] throws. *)
Theorem queries_after_SetReferencedPort {Node : Type} (GetNode : positive -> Node)
    s this port :
  (let s' := SetReferencedPort s this (Some port) in
   IsValid s' this = true /\
   GetReferencedPort s' this = Returns port /\
   Size s' this = Returns (OutputPort_Size s port) /\
   GetParentNodes GetNode s' this = [GetNode port]) /\
  (forall s', s' = SetReferencedPort s this None \/ s' = ClearReferencedPort s this ->
   IsValid s' this = false /\
   raises (GetReferencedPort s' this) illegalState /\
   Size s' this = Returns 0 /\
   GetParentNodes GetNode s' this = []).
Proof.
  split.
  - cbv zeta.
    assert (E : referencedPort (SetReferencedPort s this (Some port)) this = Some port).
    { unfold SetReferencedPort. now rewrite referencedPort_set, decide_True. }
    unfold Size, GetReferencedPort, GetParentNodes, IsValid. rewrite E. simpl.
    repeat split. f_equal.
    apply OutputPort_Size_SetReferencedPort.
  - intros s' Hs'.
    assert (E : referencedPort s' this = None).
    { destruct Hs' as [-> | ->]; unfold SetReferencedPort, ClearReferencedPort;
        now rewrite referencedPort_set, decide_True. }
    unfold Size, GetReferencedPort, GetParentNodes, IsValid. rewrite E. simpl.
    repeat split. eexists. reflexivity.
Qed.

Lemma HasReference_true s port this :
  HasReference s port this = true <-> referenced_by s port this.
Proof.
  unfold HasReference, referenced_by. destruct (outputs s !! port) as [o|].
  - rewrite bool_decide_eq_true. split; [eauto|]. now intros (p & [= <-] & Hp).
  - split; [discriminate | now intros (p & Hp & _)].
Qed.

(** X3: [UpdateReferencedPort] on an input port that references a live output
    port puts the input back into that port's reference set if it was
    missing, changes no pointer and no other entry, and does nothing when
    run again; if the lost entry was the only fault of the store, the store
    is consistent afterwards. *)
Theorem UpdateReferencedPort_restores s this port :
  referencedPort s this = Some port -> is_Some (outputs s !! port) ->
  exists s',
    UpdateReferencedPort s this = Some s' /\
    HasReference s' port this = true /\
    (forall i, referencedPort s' i = referencedPort s i) /\
    (forall o i, referenced_by s' o i
                 <-> referenced_by s o i \/ (o = port /\ i = this)) /\
    UpdateReferencedPort s' this = Some s' /\
    (backward_consistent s ->
     (forall i o, i <> this -> references s i o -> referenced_by s o i) ->
     consistent s').
Proof.
  intros Hp Hlive. unfold UpdateReferencedPort. rewrite Hp.
  assert (G : forall s',
             (forall i, referencedPort s' i = referencedPort s i) ->
             (forall o i, referenced_by s' o i
                          <-> referenced_by s o i \/ (o = port /\ i = this)) ->
             HasReference s' port this = true /\
             (forall i, referencedPort s' i = referencedPort s i) /\
             (forall o i, referenced_by s' o i
                          <-> referenced_by s o i \/ (o = port /\ i = this)) /\
             UpdateReferencedPort s' this = Some s' /\
             (backward_consistent s ->
              (forall i o, i <> this -> references s i o -> referenced_by s o i) ->
              consistent s')).
  { intros s' Hptr Href.
    assert (Hhas : HasReference s' port this = true).
    { apply HasReference_true, Href. auto. }
    split; [exact Hhas|]. split; [exact Hptr|]. split; [exact Href|]. split.
    - unfold UpdateReferencedPort. rewrite Hptr, Hp, Hhas. reflexivity.
    - intros Hback Hfwd i o. unfold references. rewrite Hptr, Href. split.
      + intros Hr. destruct (decide (i = this)) as [-> | Hne].
        * right. split; [congruence | reflexivity].
        * left. now apply Hfwd.
      + intros [Hr | [-> ->]]; [now apply Hback | exact Hp]. }
  destruct (HasReference s port this) eqn:Hhas; simpl.
  - exists s. split; [reflexivity|]. apply G; [reflexivity|].
    intros o i. split; [auto|]. intros [Hr | [-> ->]]; [assumption|].
    now apply HasReference_true.
  - exists (AddReference s port this). split; [reflexivity|]. apply G.
    + intros i. apply referencedPort_AddReference.
    + intros o i. rewrite referenced_by_AddReference. split.
      * intros [Hr | (-> & -> & _)]; auto.
      * intros [Hr | [-> ->]]; auto.
Qed.

Lemma UpdateReferencedPort_restores_witness :
  exists s',
    UpdateReferencedPort lost_back_reference 1 = Some s' /\
    HasReference s' 1 1 = true /\
    (forall i, referencedPort s' i = referencedPort lost_back_reference i) /\
    (forall o i, referenced_by s' o i
                 <-> referenced_by lost_back_reference o i
                     \/ (o = 1%positive /\ i = 1%positive)) /\
    UpdateReferencedPort s' 1 = Some s' /\
    (backward_consistent lost_back_reference ->
     (forall i o, i <> 1%positive -> references lost_back_reference i o ->
                  referenced_by lost_back_reference o i) ->
     consistent s').
Proof.
  apply (UpdateReferencedPort_restores lost_back_reference 1 1).
  - reflexivity.
  - vm_compute. eauto.
Defined.

Lemma referenced_by_unlinked_elsewhere s i o this :
  referencedPort s i <> Some o \/ i <> this ->
  referenced_by (unlinked s i) o this <-> referenced_by s o this.
Proof.
  intros H. unfold unlinked. destruct (referencedPort s i) as [p|] eqn:E; [|reflexivity].
  rewrite referenced_by_RemoveReference. split; [tauto|].
  intros Hr. split; [assumption|]. intros [-> ->]. destruct H; congruence.
Qed.

Lemma dangling_SetReferencedPort s old this i input :
  dangling s old this -> i <> this \/ input <> Some old ->
  dangling (SetReferencedPort s i input) old this.
Proof.
  intros [Hp Hr] Hop. unfold dangling, SetReferencedPort. fold (unlinked s i).
  rewrite referencedPort_set, referenced_by_set. split.
  - destruct (decide (i = this)) as [-> | Hne].
    + destruct Hop; congruence.
    + destruct input; [rewrite referencedPort_AddReference|];
        now rewrite referencedPort_unlinked.
  - assert (Hu : referenced_by (unlinked s i) old this).
    { apply referenced_by_unlinked_elsewhere; [|exact Hr].
      destruct (decide (i = this)) as [-> | Hne]; [left; exact Hp | right; exact Hne]. }
    destruct input as [port|]; [|exact Hu].
    apply referenced_by_AddReference. now left.
Qed.

Lemma dangling_destroy_InputPort s old this i :
  dangling s old this -> dangling (destroy_InputPort s i) old this.
Proof.
  intros [Hp Hr]. unfold destroy_InputPort. fold (unlinked s i). split.
  - unfold referencedPort. simpl.
    destruct (decide (i = this)) as [-> | Hne].
    + rewrite lookup_delete_eq. discriminate.
    + rewrite lookup_delete_ne by exact Hne.
      change (referencedPort (unlinked s i) this <> Some old).
      now rewrite referencedPort_unlinked.
  - change (referenced_by (unlinked s i) old this).
    apply referenced_by_unlinked_elsewhere; [|exact Hr].
    destruct (decide (i = this)) as [-> | Hne]; [left; exact Hp | right; exact Hne].
Qed.

(** X4: after [ClearReferencedPort] on a bound input port, in a store whose
    references and reference sets agree, the output port it referenced still
    lists it, though the input references it no more.  Each of these later
    operations of an input port keeps it so: [SetReferencedPort] of the port
    to another output port or to [nullptr], its [ClearReferencedPort],
    [UpdateReferencedPort] and destructor, and [SetReferencedPort],
    [ClearReferencedPort], [UpdateReferencedPort] and the destructor of any
    other input port.  Binding the port to the old output port again ends
    it: unbinding the port after that takes the entry out, as
    [SetReferencedPort] to another port does when there was no clear. *)
Theorem ClearReferencedPort_leaves_a_dangling_reference s this old :
  consistent s -> references s this old ->
  dangling (ClearReferencedPort s this) old this /\
  (forall new, new <> old ->
     ~ referenced_by (SetReferencedPort s this (Some new)) old this) /\
  (forall s1, dangling s1 old this ->
     (forall input, input <> Some old ->
        dangling (SetReferencedPort s1 this input) old this) /\
     dangling (ClearReferencedPort s1 this) old this /\
     (forall s2, UpdateReferencedPort s1 this = Some s2 -> dangling s2 old this) /\
     dangling (destroy_InputPort s1 this) old this /\
     (forall other input, other <> this ->
        dangling (SetReferencedPort s1 other input) old this /\
        dangling (ClearReferencedPort s1 other) old this /\
        (forall s2, UpdateReferencedPort s1 other = Some s2 -> dangling s2 old this) /\
        dangling (destroy_InputPort s1 other) old this) /\
     ~ referenced_by
         (SetReferencedPort (SetReferencedPort s1 this (Some old)) this None) old this).
Proof.
  intros Hc Hr.
  assert (Hback : referenced_by s old this) by now apply Hc.
  split; [|split].
  - destruct (ClearReferencedPort_keeps_back_reference s this old Hback) as [E Hl].
    split; [rewrite E; discriminate | exact Hl].
  - intros new Hne. unfold SetReferencedPort. fold (unlinked s this).
    rewrite referenced_by_set, referenced_by_AddReference.
    rewrite referenced_by_unlinked by assumption.
    intros [[_ Hn] | (-> & _)]; congruence.
  - intros s1 Hd. split; [|split; [|split; [|split; [|split]]]].
    + intros input Hin. apply dangling_SetReferencedPort; [exact Hd | now right].
    + destruct Hd as [Hp Hl]. unfold dangling, ClearReferencedPort.
      rewrite referencedPort_set, referenced_by_set, decide_True by reflexivity.
      split; [discriminate | exact Hl].
    + intros s2. unfold UpdateReferencedPort.
      destruct (referencedPort s1 this) as [port|] eqn:E; [|discriminate].
      destruct (negb (HasReference s1 port this)); intros [= <-]; [|exact Hd].
      destruct Hd as [Hp Hl]. split.
      * rewrite referencedPort_AddReference, E. congruence.
      * apply referenced_by_AddReference. now left.
    + now apply dangling_destroy_InputPort.
    + intros other input Hne. split; [|split; [|split]].
      * apply dangling_SetReferencedPort; [exact Hd | now left].
      * destruct Hd as [Hp Hl]. unfold dangling, ClearReferencedPort.
        rewrite referencedPort_set, referenced_by_set, decide_False by exact Hne.
        split; assumption.
      * intros s2. unfold UpdateReferencedPort.
        destruct (referencedPort s1 other) as [port|]; [|discriminate].
        destruct (negb (HasReference s1 port other)); intros [= <-]; [|exact Hd].
        destruct Hd as [Hp Hl]. split.
        -- now rewrite referencedPort_AddReference.
        -- apply referenced_by_AddReference. now left.
      * now apply dangling_destroy_InputPort.
    + destruct Hd as [Hp Hl].
      unfold SetReferencedPort at 1.
      assert (E : referencedPort (SetReferencedPort s1 this (Some old)) this = Some old).
      { unfold SetReferencedPort. now rewrite referencedPort_set, decide_True. }
      rewrite E. rewrite referenced_by_set, referenced_by_RemoveReference.
      intros [_ Hn]. apply Hn. split; reflexivity.
Qed.

Lemma two_outputs_consistent : consistent two_outputs.
Proof.
  unfold two_outputs, new_InputPort. apply SetReferencedPort_bind_consistent.
  - intros i o. unfold references. rewrite referencedPort_set, referenced_by_set.
    unfold referenced_by, referencedPort. simpl. rewrite lookup_empty. simpl.
    split.
    + destruct (decide (1%positive = i)); discriminate.
    + intros (p & Hp & Hi). exfalso.
      apply lookup_insert_Some in Hp as [[_ <-] | [_ Hp]]; [set_solver|].
      apply lookup_singleton_Some in Hp as [_ <-]. set_solver.
  - simpl. rewrite lookup_insert_eq. eauto.
Qed.

Lemma ClearReferencedPort_leaves_a_dangling_reference_witness :
  dangling (ClearReferencedPort two_outputs 1) 1 1 /\
  referenced_by
    (destroy_InputPort
       (SetReferencedPort (ClearReferencedPort two_outputs 1) 1 (Some 2%positive)) 1)
    1 1 /\
  ~ referenced_by (SetReferencedPort two_outputs 1 (Some 2%positive)) 1 1 /\
  ~ referenced_by
      (SetReferencedPort
         (SetReferencedPort (ClearReferencedPort two_outputs 1) 1 (Some 1%positive)) 1 None)
      1 1.
Proof.
  destruct (ClearReferencedPort_leaves_a_dangling_reference two_outputs 1 1)
    as (Hd & Hdirect & Hlater).
  - exact two_outputs_consistent.
  - reflexivity.
  - destruct (Hlater _ Hd) as (Hset & _ & _ & _ & _ & Hagain).
    split; [exact Hd|]. split; [|split].
    + destruct (Hlater _ (Hset (Some 2%positive) ltac:(discriminate)))
        as (_ & _ & _ & Hdestroy & _).
      exact (proj2 Hdestroy).
    + apply Hdirect. discriminate.
    + exact Hagain.
Defined.

(** X5: Constructing an input port on an output port and destroying it again
    leaves the store as it was: no entry of the input survives in the
    reference set. *)
Theorem new_then_destroy_InputPort s this input :
  inputs s !! this = None ->
  (forall port, outputs s !! input = Some port -> this ∉ _references port) ->
  destroy_InputPort (new_InputPort s this input) this = s.
Proof.
  intros Hfresh Hnot. destruct s as [ins outs]. simpl in *.
  unfold destroy_InputPort, new_InputPort, SetReferencedPort.
  rewrite !referencedPort_set, !decide_True by reflexivity.
  unfold set_referencedPort, AddReference, RemoveReference. simpl.
  f_equal.
  - rewrite insert_insert_eq, delete_insert_eq. now apply delete_id.
  - rewrite alter_alter_eq. apply alter_id. intros [size refs] Hport. simpl.
    f_equal. specialize (Hnot _ Hport). simpl in Hnot.
    apply set_eq. intros x. rewrite elem_of_difference, elem_of_union, !elem_of_singleton.
    split; [tauto|]. intros Hx. split; [auto|]. intros ->. auto.
Qed.

Lemma new_then_destroy_InputPort_witness :
  destroy_InputPort (new_InputPort no_input 1 1) 1 = no_input.
Proof.
  apply (new_then_destroy_InputPort no_input 1 1).
  - reflexivity.
  - intros port Hport. unfold no_input in Hport. simpl in Hport.
    apply lookup_singleton_Some in Hport as [_ <-]. apply not_elem_of_empty.
Defined.

End PortOperationFacts.

Module HeaderTextFacts.
Import IRHeaderWriter IRHeaderWriterFacts HeaderText.

Lemma append_cons x (a b : string) : String x a +:+ b = String x (a +:+ b).
Proof. reflexivity. Qed.

Lemma append_nil_l (a : string) : "" +:+ a = a.
Proof. reflexivity. Qed.

Lemma append_assoc (a b c : string) : (a +:+ b) +:+ c = a +:+ (b +:+ c).
Proof.
  induction a as [|x a IH]; [reflexivity|]. now rewrite !append_cons, IH.
Qed.

Lemma append_nil_r (a : string) : a +:+ "" = a.
Proof.
  induction a as [|x a IH]; [reflexivity|]. now rewrite append_cons, IH.
Qed.

Lemma ShouldWriteType_hiddenType t : ShouldWriteType t = false <-> hiddenType t.
Proof.
  unfold ShouldWriteType, hiddenType. destruct (structName t) as [n|].
  - rewrite !found_at_0_prefix. split.
    + intros H. exists n. split; [reflexivity|].
      destruct (String.eqb_spec n "timespec"); [now left|].
      destruct (String.prefix "struct." n); [right; now left|].
      destruct (String.prefix "class." n); [right; now right|]. discriminate.
    + intros (n' & [= <-] & [-> | [H | H]]); [reflexivity| |].
      * rewrite H. simpl. now destruct (String.eqb n "timespec").
      * rewrite H, orb_true_r. now destruct (String.eqb n "timespec").
  - split; [discriminate | intros (n' & Hn & _); discriminate].
Qed.

Lemma writeParams_appends (W : string -> LLVMType -> string) pts :
  Forall (fun t => forall os, W os t = os +:+ W "" t) pts ->
  forall os first,
    (fix writeParams (os : string) (first : bool) (pts : list LLVMType) : string :=
       match pts with
       | [] => os
       | pt :: rest =>
           let os := if first then os else os +:+ ", " in
           writeParams (W os pt) false rest
       end) os first pts
    = os +:+
      (fix writeParams (os : string) (first : bool) (pts : list LLVMType) : string :=
         match pts with
         | [] => os
         | pt :: rest =>
             let os := if first then os else os +:+ ", " in
             writeParams (W os pt) false rest
         end) "" first pts.
Proof.
  induction 1 as [|pt rest Hpt _ IH]; intros os first; simpl.
  - now rewrite append_nil_r.
  - rewrite IH. symmetry. rewrite IH. symmetry.
    rewrite <- append_assoc. f_equal.
    destruct first.
    + apply Hpt.
    + rewrite Hpt. symmetry. rewrite Hpt. rewrite append_nil_l.
      now rewrite append_assoc.
Qed.

(** [WriteLLVMType] only appends: what it writes to a stream is the stream
    followed by what it writes to an empty one. *)
Lemma WriteLLVMType_appends t : forall os, WriteLLVMType os t = os +:+ typeText t.
Proof.
  unfold typeText. revert t. fix IH 1. intros t os.
  destruct t as [[typeName|] | size elem | elem | size | | | | ret params | ].
  - simpl. reflexivity.
  - simpl. now rewrite append_nil_r.
  - simpl. rewrite (IH elem os), (IH elem ""%string). simpl. now rewrite !append_assoc.
  - simpl. rewrite (IH elem os), (IH elem ""%string). simpl. now rewrite !append_assoc.
  - reflexivity.
  - reflexivity.
  - reflexivity.
  - reflexivity.
  - assert (Hps : Forall (fun t => forall os, WriteLLVMType os t
                                              = os +:+ WriteLLVMType "" t) params).
    { revert params. fix IHps 1. intros [|pt rest]; constructor.
      - apply IH.
      - apply IHps. }
    cbn [WriteLLVMType].
    rewrite (writeParams_appends WriteLLVMType params Hps (WriteLLVMType os ret +:+ " (")).
    rewrite (writeParams_appends WriteLLVMType params Hps (WriteLLVMType "" ret +:+ " (")).
    rewrite (IH ret os). rewrite !append_assoc. reflexivity.
  - reflexivity.
Qed.

Lemma concat_cons sep a rest :
  String.concat sep (a :: rest)
  = a +:+ String.concat "" (map (fun x => sep +:+ x) rest).
Proof.
  revert a. induction rest as [|b rest IH]; intros a.
  - simpl. now rewrite append_nil_r.
  - change (String.concat sep (a :: b :: rest))
      with (a +:+ sep +:+ String.concat sep (b :: rest)).
    rewrite IH. cbn [map].
    destruct (map (fun x => sep +:+ x) rest) as [|y ys] eqn:E.
    + cbn [String.concat]. rewrite !append_nil_r. reflexivity.
    + change (String.concat "" ((sep +:+ b) :: y :: ys))
        with ((sep +:+ b) +:+ "" +:+ String.concat "" (y :: ys)).
      rewrite append_nil_l, append_assoc. reflexivity.
Qed.

Lemma concat_nil_sep_cons a rest :
  String.concat "" (a :: rest) = a +:+ String.concat "" rest.
Proof.
  destruct rest as [|b rest]; [simpl; now rewrite append_nil_r|]. reflexivity.
Qed.

Lemma writeArgs_rest args :
  forall os,
    fst (fold_left
           (fun (st : string * bool) argType =>
              let '(os, first) := st in
              let os := if first then os else os +:+ ", " in
              (WriteLLVMType os argType, false))
           args (os, false))
    = os +:+ String.concat "" (map (fun x => ", " +:+ x) (map typeText args)).
Proof.
  induction args as [|a args IH]; intros os.
  - simpl. now rewrite append_nil_r.
  - cbn [fold_left map]. rewrite IH, WriteLLVMType_appends.
    rewrite concat_nil_sep_cons, !append_assoc. reflexivity.
Qed.

Lemma writeArgs_text args os :
  fst (fold_left
         (fun (st : string * bool) argType =>
            let '(os, first) := st in
            let os := if first then os else os +:+ ", " in
            (WriteLLVMType os argType, false))
         args (os, true))
  = os +:+ String.concat ", " (map typeText args).
Proof.
  destruct args as [|a args].
  - simpl. now rewrite append_nil_r.
  - cbn [fold_left map]. rewrite writeArgs_rest, WriteLLVMType_appends.
    rewrite concat_cons, !append_assoc. reflexivity.
Qed.

Lemma writeComments_text comments :
  forall os,
    fold_left (fun os comment => os +:+ "// " +:+ comment +:+ nl) comments os
    = os +:+ String.concat "" (map (fun comment => "// " +:+ comment +:+ nl) comments).
Proof.
  induction comments as [|c comments IH]; intros os.
  - simpl. now rewrite append_nil_r.
  - cbn [fold_left map]. rewrite IH, concat_nil_sep_cons, !append_assoc. reflexivity.
Qed.

(** The statement of [WriteFunction_signature], shared with the proofs that build on it. *)
Lemma WriteFunction_text os moduleEmitter f :
  WriteFunction os moduleEmitter f
  = match name f with
    | None => os
    | Some name =>
        os +:+ commentLines moduleEmitter name
           +:+ typeText (returnType f) +:+ " " +:+ name +:+ "("
           +:+ String.concat ", " (map typeText (args f)) +:+ ");"
    end.
Proof.
  unfold WriteFunction, commentLines. destruct (name f) as [n|]; [|reflexivity].
  rewrite writeArgs_text. rewrite WriteLLVMType_appends.
  assert (E : forall os,
            match functionComments moduleEmitter n with
            | Some comments =>
                fold_left (fun os comment => os +:+ "// " +:+ comment +:+ nl) comments os
            | None => os
            end
            = os +:+ match functionComments moduleEmitter n with
                     | Some comments =>
                         String.concat ""
                           (map (fun comment => "// " +:+ comment +:+ nl) comments)
                     | None => ""
                     end).
  { intros os'. destruct (functionComments moduleEmitter n).
    - apply writeComments_text.
    - now rewrite append_nil_r. }
  rewrite E. rewrite !append_assoc. reflexivity.
Qed.

(** X7: [WriteFunction] writes nothing for a function without a name.  For a
    function named [name] it appends the comment lines registered for
    [name], then the return type, a space, [name] and the argument types in
    parentheses, separated by ", " and closed by ");". *)
Theorem WriteFunction_signature os moduleEmitter f :
  WriteFunction os moduleEmitter f
  = match name f with
    | None => os
    | Some name =>
        os +:+ commentLines moduleEmitter name
           +:+ typeText (returnType f) +:+ " " +:+ name +:+ "("
           +:+ String.concat ", " (map typeText (args f)) +:+ ");"
    end.
Proof. exact (WriteFunction_text os moduleEmitter f). Qed.

Example WriteFunction_sample :
  WriteFunctions "" commentedModule
  = "// runs the model" +:+ nl +:+ "// returns 0" +:+ nl
    +:+ "int32_t predict(double*, struct Shape, float[3]);" +:+ nl +:+ nl.
Proof. reflexivity. Qed.

Lemma fold_left_appends {A : Type} (step : string -> A -> string) l :
  (forall os a, step os a = os +:+ step "" a) ->
  forall os, fold_left step l os = os +:+ fold_left step l "".
Proof.
  intros Hstep. induction l as [|a l IH]; intros os; simpl.
  - now rewrite append_nil_r.
  - rewrite IH. symmetry. rewrite IH. symmetry.
    rewrite Hstep, append_assoc. reflexivity.
Qed.

Lemma WriteLLVMVarDecl_appends os t name :
  WriteLLVMVarDecl os t name = os +:+ WriteLLVMVarDecl "" t name.
Proof.
  unfold WriteLLVMVarDecl. destruct t;
    rewrite WriteLLVMType_appends; symmetry; rewrite WriteLLVMType_appends;
    rewrite append_nil_l, !append_assoc; reflexivity.
Qed.

Lemma writeFields_appends fields :
  forall os index,
    fst (fold_left
           (fun (st : string * N) fieldType =>
              let '(os, index) := st in
              let os := os +:+ "    " in
              let fieldName := ("param" +:+ to_string index) in
              let os := WriteLLVMVarDecl os fieldType fieldName in
              (os +:+ ";" +:+ nl, (index + 1)%N))
           fields (os, index))
    = os +:+ fst (fold_left
                    (fun (st : string * N) fieldType =>
                       let '(os, index) := st in
                       let os := os +:+ "    " in
                       let fieldName := ("param" +:+ to_string index) in
                       let os := WriteLLVMVarDecl os fieldType fieldName in
                       (os +:+ ";" +:+ nl, (index + 1)%N))
                    fields ("", index)).
Proof.
  induction fields as [|fieldType fields IH]; intros os index.
  - simpl. now rewrite append_nil_r.
  - cbn [fold_left]. rewrite IH. symmetry. rewrite IH. symmetry.
    match goal with
    | |- _ +:+ ?rest = _ => generalize rest
    end.
    intros rest. rewrite WriteLLVMVarDecl_appends. symmetry.
    rewrite WriteLLVMVarDecl_appends.
    rewrite append_nil_l, !append_assoc. reflexivity.
Qed.

Lemma WriteStructDefinition_appends os t :
  WriteStructDefinition os t = os +:+ WriteStructDefinition "" t.
Proof.
  unfold WriteStructDefinition. destruct (structName t) as [typeName|].
  - cbv zeta. rewrite writeFields_appends. symmetry. rewrite writeFields_appends.
    rewrite append_nil_l, !append_assoc. reflexivity.
  - now rewrite append_nil_r.
Qed.

Lemma WriteFunction_appends os m f :
  WriteFunction os m f = os +:+ WriteFunction "" m f.
Proof.
  rewrite !WriteFunction_text. destruct (name f).
  - rewrite append_nil_l. reflexivity.
  - now rewrite append_nil_r.
Qed.

Lemma WriteFunctions_appends os m :
  WriteFunctions os m = os +:+ WriteFunctions "" m.
Proof.
  unfold WriteFunctions. apply fold_left_appends. intros os' f.
  destruct (ShouldWriteFunction f).
  - rewrite WriteFunction_appends, !append_assoc. reflexivity.
  - now rewrite append_nil_r.
Qed.

Lemma WriteTypes_appends os m :
  WriteTypes os m = os +:+ WriteTypes "" m.
Proof.
  unfold WriteTypes. cbv zeta.
  set (types := fun os t => if ShouldWriteType t
                            then WriteStructDefinition os t +:+ nl +:+ nl else os).
  assert (Htypes : forall os a, types os a = os +:+ types "" a).
  { intros os' t. unfold types. destruct (ShouldWriteType t).
    - rewrite WriteStructDefinition_appends, !append_assoc. reflexivity.
    - now rewrite append_nil_r. }
  rewrite (fold_left_appends types _ Htypes). symmetry.
  rewrite (fold_left_appends types _ Htypes). symmetry.
  match goal with
  | |- _ +:+ ?rest = _ => generalize rest
  end.
  intros rest.
  set (define := fun os (def : string * string) =>
                   os +:+ "#define " +:+ def.1 +:+ " " +:+ def.2 +:+ nl).
  assert (Hdefine : forall os a, define os a = os +:+ define "" a).
  { intros os' def. unfold define. rewrite append_nil_l. reflexivity. }
  destruct (preprocessorDefinitions m) as [|def defs].
  - rewrite !append_nil_l, !append_assoc. reflexivity.
  - repeat match goal with
           | |- context [fold_left define ?l ?o] =>
               lazymatch o with
               | EmptyString => fail
               | _ => rewrite (fold_left_appends define l Hdefine o)
               end
           end.
    rewrite !append_nil_l, !append_assoc. reflexivity.
Qed.

(** X8: [WriteModuleHeader] only appends to the stream it is given: the header
    written to a stream that holds [os] is [os] followed by the header
    written to an empty stream. *)
Theorem WriteModuleHeader_appends os moduleEmitter :
  WriteModuleHeader os moduleEmitter = os +:+ WriteModuleHeader "" moduleEmitter.
Proof.
  unfold WriteModuleHeader. cbv zeta.
  unfold WriteFooter, WriteFunctionsHeading. cbv zeta.
  rewrite WriteFunctions_appends. symmetry. rewrite WriteFunctions_appends. symmetry.
  rewrite WriteTypes_appends. rewrite !append_assoc. reflexivity.
Qed.

Lemma WriteFunction_declaration os m f :
  WriteFunction os m f = os +:+ declaration m f.
Proof.
  rewrite WriteFunction_text. unfold declaration.
  destruct (name f) as [n|]; [reflexivity | now rewrite append_nil_r].
Qed.

Lemma WriteFunctions_declarations m :
  forall os, WriteFunctions os m = os +:+ declarations m.
Proof.
  unfold WriteFunctions, declarations.
  induction (functions m) as [|f fs IH]; intros os.
  - simpl. now rewrite append_nil_r.
  - cbn [fold_left List.filter]. destruct (ShouldWriteFunction f).
    + cbn [map]. rewrite IH, WriteFunction_declaration, concat_nil_sep_cons.
      now rewrite !append_assoc.
    + apply IH.
Qed.

Lemma ShouldWriteFunction_exported f : ShouldWriteFunction f = true <-> exported f.
Proof. rewrite ShouldWriteFunction_exportedb. apply exportedb_exported. Qed.

(** C8: [WriteModuleHeader] writes the declaration of exactly those
    functions of the module that have a name which begins with none of
    "_Node__", "llvm.", "clock_gettime", "cblas", "printf" and "_", in module
    order: after the types and the heading of the functions comes, for each
    of them, its comment lines and its signature (return type, name,
    argument types in parentheses) and an empty line, and then the footer.
    Every other function is left out of the header. *)
Theorem header_lists_exported_functions m :
  (forall f, ShouldWriteFunction f = true <-> exported f) /\
  (forall f, In f (List.filter ShouldWriteFunction (functions m))
             <-> In f (functions m) /\ exported f) /\
  (forall os, WriteFunctions os m = os +:+ declarations m) /\
  (forall os,
     WriteModuleHeader os m
     = WriteFooter (WriteFunctionsHeading (WriteTypes os m) +:+ declarations m)).
Proof.
  split; [|split; [|split]].
  - apply ShouldWriteFunction_exported.
  - intros f. rewrite filter_In, ShouldWriteFunction_exported. reflexivity.
  - apply WriteFunctions_declarations.
  - intros os. unfold WriteModuleHeader. cbv zeta.
    now rewrite WriteFunctions_declarations.
Qed.

Lemma WriteLLVMVarDecl_text os t name :
  WriteLLVMVarDecl os t name = os +:+ varDeclText t name.
Proof.
  unfold WriteLLVMVarDecl, varDeclText.
  destruct t; rewrite WriteLLVMType_appends, ?append_assoc; reflexivity.
Qed.

Lemma writeFields_text fields :
  forall os index,
    fst (fold_left
           (fun (st : string * N) fieldType =>
              let '(os, index) := st in
              let os := os +:+ "    " in
              let fieldName := ("param" +:+ to_string index) in
              let os := WriteLLVMVarDecl os fieldType fieldName in
              (os +:+ ";" +:+ nl, (index + 1)%N))
           fields (os, index))
    = os +:+ fieldLines index fields.
Proof.
  induction fields as [|t fields IH]; intros os index.
  - simpl. now rewrite append_nil_r.
  - cbn [fold_left fieldLines]. rewrite IH, WriteLLVMVarDecl_text.
    now rewrite !append_assoc.
Qed.

Lemma WriteStructDefinition_text os t :
  WriteStructDefinition os t = os +:+ structText t.
Proof.
  unfold WriteStructDefinition, structText.
  destruct (structName t) as [n|]; [|now rewrite append_nil_r].
  cbv zeta. rewrite writeFields_text. now rewrite !append_assoc.
Qed.

Lemma WriteTypes_typeDefinitions m :
  forall os, WriteTypes os m = WriteTypes os (withoutTypes m) +:+ typeDefinitions m.
Proof.
  intros os. unfold WriteTypes, typeDefinitions, withoutTypes. cbn [identifiedStructTypes moduleName preprocessorDefinitions fold_left]. cbv zeta.
  match goal with |- fold_left _ _ ?o = _ => generalize o end.
  induction (identifiedStructTypes m) as [|t ts IH]; intros o.
  - simpl. now rewrite append_nil_r.
  - cbn [fold_left List.filter]. destruct (ShouldWriteType t).
    + cbn [map]. rewrite IH, WriteStructDefinition_text, concat_nil_sep_cons.
      now rewrite !append_assoc.
    + apply IH.
Qed.

(** X6: [ShouldWriteType] refuses exactly the struct types named "timespec" or
    named with the prefix "struct." or "class.".  After its heading of the
    types the header holds the definition of each of the other struct types
    of the module, in module order, and nothing for the refused ones: the
    line "struct" with the name, the fields in braces, a line each, named
    "param0", "param1", ..., and an empty line.  A struct type without a
    name passes the test; no definition is written for it, only the two line
    feeds that follow every definition. *)
Theorem ShouldWriteType_hides m :
  (forall t, ShouldWriteType t = false <-> hiddenType t) /\
  (forall t, structName t = None -> ShouldWriteType t = true /\ structText t = "") /\
  (forall os t, WriteStructDefinition os t = os +:+ structText t) /\
  (forall t, In t (List.filter ShouldWriteType (identifiedStructTypes m))
             <-> In t (identifiedStructTypes m) /\ ~ hiddenType t) /\
  (forall os, WriteTypes os m = WriteTypes os (withoutTypes m) +:+ typeDefinitions m) /\
  (forall os,
     WriteModuleHeader os m
     = WriteFooter
         (WriteFunctions
            (WriteFunctionsHeading
               (WriteTypes os (withoutTypes m) +:+ typeDefinitions m)) m)).
Proof.
  split; [|split; [|split; [|split; [|split]]]].
  - apply ShouldWriteType_hiddenType.
  - intros t Hn. unfold ShouldWriteType, structText. rewrite Hn. auto.
  - intros os t. apply WriteStructDefinition_text.
  - intros t. rewrite filter_In, <- ShouldWriteType_hiddenType.
    destruct (ShouldWriteType t); split; intros [? ?]; split; congruence.
  - apply WriteTypes_typeDefinitions.
  - intros os. unfold WriteModuleHeader. cbv zeta.
    now rewrite WriteTypes_typeDefinitions.
Qed.

(** The header of a module with a define, a struct type to declare, one to
    hide and one without a name, and a commented function. *)
Example WriteModuleHeader_sample :
  WriteModuleHeader "" commentedModule
  = lines ["//"; "// ELL header for module model"; "//"; "";
           "#include <stdint.h>"; "";
           "#ifdef __cplusplus";
           "extern " +:+ quote +:+ "C" +:+ quote +:+ "{";
           "#endif";
           "#define N 3"; "";
           "//"; "// Types"; "//"; "";
           "struct Shape"; "{";
           "    int32_t param0;";
           "    double param1[4];";
           "};"; ""; ""; ""; "";
           "//"; "// Functions"; "//"; "";
           "// runs the model"; "// returns 0";
           "int32_t predict(double*, struct Shape, float[3]);"; "";
           "#ifdef __cplusplus";
           "} // extern " +:+ quote +:+ "C" +:+ quote;
           "#endif"]%string.
Proof. reflexivity. Qed.

End HeaderTextFacts.

Module ThreadCountFacts.
Import MachineInt MachineIntFacts TaskSplit TaskSplitFacts BinaryConvolution CompileFacts.
Import ThreadCounts.

(** X9: With work to do and at least one thread, no more tasks are made than
    there are threads, no task is empty, every task but the last works on
    exactly [taskSize] indices, and one task fewer could not take the work
    in pieces of that size. *)
Theorem tasks_are_balanced total numDesiredTasks :
  1 <= total <= 1073741824 -> 1 <= numDesiredTasks <= INT_MAX ->
  exists taskSize numTasks,
    splitTasks total numDesiredTasks = Some (taskSize, numTasks) /\
    1 <= numTasks <= numDesiredTasks /\
    Z.of_nat (length (taskRanges taskSize numTasks total)) = numTasks /\
    (forall (i : nat) r,
       taskRanges taskSize numTasks total !! i = Some r ->
       1 <= r.2 - r.1 <= taskSize /\
       (Z.of_nat i < numTasks - 1 -> r.2 - r.1 = taskSize)) /\
    (numTasks - 1) * taskSize < total <= numTasks * taskSize.
Proof.
  intros HN HD.
  destruct (positive_work_is_tiled total numDesiredTasks HN HD)
    as (Hsplit & Hts & Hnt & Hlen & Hith & _).
  set (ts := ceil_div total numDesiredTasks) in *.
  set (nt := ceil_div total ts) in *.
  pose proof (ceil_div_bounds total ts ltac:(lia)) as C2. fold nt in C2.
  exists ts, nt. split; [exact Hsplit|]. split; [exact Hnt|]. split; [exact Hlen|].
  split; [|nia].
  intros i r Hr.
  assert (Hi : 0 <= Z.of_nat i < nt).
  { apply lookup_lt_Some in Hr. lia. }
  specialize (Hith (Z.of_nat i) Hi). rewrite Nat2Z.id in Hith.
  rewrite Hith in Hr. injection Hr as <-. simpl. split; [nia|]. intros Hlast. nia.
Qed.

Lemma tasks_are_balanced_witness :
  exists taskSize numTasks,
    splitTasks 10 4 = Some (taskSize, numTasks) /\
    1 <= numTasks <= 4 /\
    Z.of_nat (length (taskRanges taskSize numTasks 10)) = numTasks /\
    (forall (i : nat) r,
       taskRanges taskSize numTasks 10 !! i = Some r ->
       1 <= r.2 - r.1 <= taskSize /\
       (Z.of_nat i < numTasks - 1 -> r.2 - r.1 = taskSize)) /\
    (numTasks - 1) * taskSize < 10 <= numTasks * taskSize.
Proof.
  apply (tasks_are_balanced 10 4); unfold INT_MAX; lia.
Defined.

Lemma quot_bounds a b : 0 <= a -> b <> 0 -> - a <= Z.quot a b <= a.
Proof.
  intros Ha Hb. destruct (Z.lt_ge_cases b 0).
  - rewrite <- (Z.opp_involutive b), Z.quot_opp_r by lia.
    rewrite Z.quot_div_nonneg by lia.
    assert (0 <= a / - b <= a); [|lia].
    split; [apply Z.div_pos; lia | apply Z.div_le_upper_bound; nia].
  - rewrite Z.quot_div_nonneg by lia.
    assert (0 <= a / b <= a); [|lia].
    split; [apply Z.div_pos; lia | apply Z.div_le_upper_bound; nia].
Qed.

Lemma CeilDiv_value a b :
  1 <= a <= INT_MAX ->
  CeilDiv a b = if b =? 0 then None else Some (Z.quot (a - 1) b + 1).
Proof.
  unfold INT_MAX. intros Ha. unfold CeilDiv, int_sub, int_add.
  rewrite (wrap_small (a - 1)) by (unfold is_int, INT_MIN, INT_MAX; lia).
  unfold int_div.
  destruct (Z.eqb_spec b 0) as [-> | Hb]; [reflexivity|].
  destruct (Z.eqb_spec (a - 1) INT_MIN) as [E | _]; [unfold INT_MIN in E; lia|].
  cbn [orb andb mbind option_bind].
  pose proof (quot_bounds (a - 1) b ltac:(lia) Hb).
  rewrite wrap_small by (unfold is_int, INT_MIN, INT_MAX; lia). reflexivity.
Qed.

Lemma quot_minus_one a b :
  0 <= a -> (Z.quot a b = -1 <-> b < 0 /\ - b <= a < - 2 * b).
Proof.
  intros Ha. destruct (Z.eq_dec b 0) as [-> | Hb].
  - assert (E : Z.quot a 0 = 0) by (destruct a; reflexivity). lia.
  - destruct (Z.lt_ge_cases b 0) as [Hneg | Hpos].
    + rewrite <- (Z.opp_involutive b) at 1. rewrite Z.quot_opp_r by lia.
      rewrite Z.quot_div_nonneg by lia.
      pose proof (Z.div_mod a (- b) ltac:(lia)) as DM.
      pose proof (Z.mod_pos_bound a (- b) ltac:(lia)) as MB. split.
      * intros E. assert (E1 : a / - b = 1) by lia. rewrite E1 in DM. lia.
      * intros [_ Hb']. assert (E1 : a / - b = 1); [|lia].
        symmetry. apply (Z.div_unique_pos a (- b) 1 (a + b)); lia.
    + rewrite Z.quot_div_nonneg by lia.
      assert (0 <= a / b) by (apply Z.div_pos; lia). lia.
Qed.

Lemma splitTasks_None total d :
  1 <= total <= INT_MAX ->
  splitTasks total d = None <-> dividesByZero total d.
Proof.
  intros HN. unfold splitTasks, dividesByZero.
  rewrite (CeilDiv_value total d HN).
  destruct (Z.eqb_spec d 0) as [-> | Hd]; [simpl; tauto|].
  cbn [mbind option_bind]. rewrite (CeilDiv_value total _ HN).
  rewrite <- (quot_minus_one (total - 1) d) by (unfold INT_MAX in HN; lia).
  destruct (Z.eqb_spec (Z.quot (total - 1) d + 1) 0) as [Hz | Hnz]; simpl.
  - split; [intros _; right; lia | reflexivity].
  - split; [discriminate | intros [? | ?]; [contradiction | lia]].
Qed.

(** X10: When [Compile] divides by zero.  For a node with work to do,
    [BinaryReceptiveFieldMatrixNode::Compile] has no result exactly when
    [maxThreads] is 0, or negative with
    [-maxThreads <= numOutputRows - 1 < -2 * maxThreads];
    [BinaryXnorNode::Compile] also when vector instructions are allowed
    with a vector width of 0. *)
Theorem Compile_divides_by_zero compilerSettings rf xn :
  (1 <= rf_numOutputRows rf <= INT_MAX ->
   (rf_Compile compilerSettings rf = None
    <-> dividesByZero (rf_numOutputRows rf) (maxThreads compilerSettings))) /\
  (1 <= xn_numFilters xn <= INT_MAX ->
   (xn_Compile compilerSettings xn = None
    <-> (allowVectorInstructions compilerSettings = true /\
         size_t (vectorWidth compilerSettings) = 0) \/
        dividesByZero (xn_numFilters xn) (maxThreads compilerSettings))).
Proof.
  split.
  - intros HN. rewrite <- (splitTasks_None _ _ HN).
    destruct (splitTasks (rf_numOutputRows rf) (maxThreads compilerSettings))
      as [[ts nt]|] eqn:E.
    + rewrite (rf_Compile_cases _ _ _ _ E). split; discriminate.
    + rewrite (rf_Compile_None _ _ E). tauto.
  - intros HN. rewrite <- (splitTasks_None _ _ HN).
    destruct (allowVectorInstructions compilerSettings) eqn:Hvec.
    + destruct (Z.eq_dec (size_t (vectorWidth compilerSettings)) 0) as [Hw | Hw].
      * split; [intros _; left; auto|]. intros _.
        unfold xn_Compile. cbv zeta. rewrite Hvec. unfold size_div. rewrite Hw.
        reflexivity.
      * destruct (xn_GetTaskFunction_defined compilerSettings xn ltac:(auto))
          as [tf Htf].
        destruct (splitTasks (xn_numFilters xn) (maxThreads compilerSettings))
          as [[ts nt]|] eqn:E.
        -- rewrite (xn_Compile_cases _ _ _ _ _ Htf E).
           split; [discriminate | intros [[_ ?] | ?]; [contradiction | discriminate]].
        -- split; [auto|]. intros _.
           destruct (xn_Compile compilerSettings xn) as [e|] eqn:Hc; [|reflexivity].
           destruct (xn_Compile_Some _ _ _ Hc) as (tf' & ts & nt & _ & Hs). congruence.
    + destruct (xn_GetTaskFunction_defined compilerSettings xn
                  ltac:(intros; congruence)) as [tf Htf].
      destruct (splitTasks (xn_numFilters xn) (maxThreads compilerSettings))
        as [[ts nt]|] eqn:E.
      * rewrite (xn_Compile_cases _ _ _ _ _ Htf E).
        split; [discriminate | intros [[? _] | ?]; discriminate].
      * split; [auto|]. intros _.
        destruct (xn_Compile compilerSettings xn) as [e|] eqn:Hc; [|reflexivity].
        destruct (xn_Compile_Some _ _ _ Hc) as (tf' & ts & nt & _ & Hs). congruence.
Qed.

Lemma Compile_divides_by_zero_witness :
  rf_Compile noThreads sampleReceptiveFieldNode = None /\
  xn_Compile noThreads sampleXnorNode = None.
Proof.
  destruct (Compile_divides_by_zero noThreads sampleReceptiveFieldNode sampleXnorNode)
    as [Hrf Hxn].
  split.
  - apply Hrf; [vm_compute; split; discriminate | left; reflexivity].
  - apply Hxn; [vm_compute; split; discriminate | right; left; reflexivity].
Defined.

Lemma splitTasks_no_thread total : splitTasks total 0 = None.
Proof. reflexivity. Qed.

Lemma xn_Compile_None compilerSettings node :
  splitTasks (xn_numFilters node) (maxThreads compilerSettings) = None ->
  xn_Compile compilerSettings node = None.
Proof.
  intros Hs. destruct (xn_Compile compilerSettings node) as [e|] eqn:He; [|reflexivity].
  destruct (xn_Compile_Some _ _ _ He) as (tf & ts & nt & _ & Hs'). congruence.
Qed.

(** C2: with [parallelize] off no task is to be started and [Compile] is
    to emit one sequential loop.  It does not always: both [Compile]
    functions compute [CeilDiv(total, maxThreads)] and
    [CeilDiv(total, taskSize)] before they look at [parallelize].  With
    [maxThreads = 0] the first division is by zero for every node and
    whatever [parallelize] is, and with no work ([total = 0]) and one thread
    the task size is 0 and the second division is by zero.  In both cases
    [Compile] has no result: no loop is emitted. *)
Theorem sequential_lowering_divides_by_zero :
  (forall parallel vectors width rf,
     rf_Compile (mkOptions parallel 0 vectors width) rf = None) /\
  (forall parallel vectors width xn,
     xn_Compile (mkOptions parallel 0 vectors width) xn = None) /\
  (rf_numOutputRows noRowsNode = 0 /\ rf_Compile (oneThread false) noRowsNode = None) /\
  (xn_numFilters noFiltersNode = 0 /\ xn_Compile (oneThread false) noFiltersNode = None).
Proof.
  split; [|split; [|split; split; reflexivity]].
  - intros. apply rf_Compile_None. apply splitTasks_no_thread.
  - intros. apply xn_Compile_None. apply splitTasks_no_thread.
Qed.

End ThreadCountFacts.

(** ** Task ranges past [INT_MAX] *)
Module OverflowFacts.
Import MachineInt MachineIntFacts TaskSplit TaskSplitFacts.
Import BinaryConvolution Execution LoopFacts CompileFacts ExecutionFacts ThreadCounts.

Section Overflow.
Context {ValueType : Type}.
Variable isPositive : ValueType -> bool.
Variable uninitialized : ValueType.

(** The stores of one run of the body of [manyRowsNode]: one block, at the
    index of the row. *)
Lemma manyRows_stores i (mem : Memory (ValueType := ValueType)) s :
  is_int i ->
  intCells (execRow isPositive uninitialized (rf_boundBody manyRowsNode) i (mem, s)).1
  = applyWrites
      (compressWrites isPositive uninitialized int64_t
         (LoadRow uninitialized mem (input, 0) (rf_inputMemoryLayout manyRowsNode) i
                  (rf_outputMemoryLayout manyRowsNode)
                  (rf_convolutionalParameters manyRowsNode) s)
         (output, i) 1)
      (intCells mem).
Proof.
  intros Hi. unfold execRow. cbv zeta.
  change (bound_row_packedRowSize (rf_boundBody manyRowsNode)) with 1.
  change (wrap (bound_row_fieldVolumeSize (rf_boundBody manyRowsNode))) with 1.
  unfold int_mul. rewrite Z.mul_1_r, (wrap_small i Hi).
  change (PointerOffset (bound_row_pOutput (rf_boundBody manyRowsNode)) i)
    with (output, 0 + i). rewrite Z.add_0_l.
  cbn [fst]. rewrite CompressRow_writes. reflexivity.
Qed.

Lemma manyRows_elsewhere i (mem : Memory (ValueType := ValueType)) s j :
  is_int i -> i <> j ->
  intCells (execRow isPositive uninitialized (rf_boundBody manyRowsNode) i (mem, s)).1
    !! (output, j)
  = intCells mem !! (output, j).
Proof.
  intros Hi Hne. rewrite manyRows_stores by exact Hi.
  apply applyWrites_lookup_other. intros Hin.
  apply compressWrites_keys in Hin as (blockIndex & Hb & E);
    [|unfold INT_MAX; lia].
  change ((1 - 1) / (8 * sizeof int64_t) + 1) with 1 in Hb.
  unfold PointerOffset in E. simpl in E. injection E as E. lia.
Qed.

Lemma rows_elsewhere l j :
  (forall i, In i l -> is_int i /\ i <> j) ->
  forall st : Memory (ValueType := ValueType) * gmap Z ValueType,
    intCells (fold_left (fun s i => execRow isPositive uninitialized
                                      (rf_boundBody manyRowsNode) i s) l st).1
      !! (output, j)
    = intCells st.1 !! (output, j).
Proof.
  induction l as [|i l IH]; intros Hl st; [reflexivity|].
  cbn [fold_left]. rewrite IH by (intros i' Hi'; apply Hl; now right).
  destruct st as [mem s]. apply manyRows_elsewhere; apply Hl; now left.
Qed.

(** One run of the body keeps the cells of [ValueType]. *)
Lemma manyRows_realCells i (mem : Memory (ValueType := ValueType)) s :
  realCells (execRow isPositive uninitialized (rf_boundBody manyRowsNode) i (mem, s)).1
  = realCells mem.
Proof. unfold execRow. cbv zeta. cbn [fst]. now rewrite CompressRow_writes. Qed.

Lemma rows_realCells l :
  forall st : Memory (ValueType := ValueType) * gmap Z ValueType,
    realCells (fold_left (fun s i => execRow isPositive uninitialized
                                       (rf_boundBody manyRowsNode) i s) l st).1
    = realCells st.1.
Proof.
  induction l as [|i l IH]; intros st; [reflexivity|].
  cbn [fold_left]. rewrite IH. destruct st as [mem s]. apply manyRows_realCells.
Qed.

(** The block that the run for row [i] stores: the sign of input value [i]. *)
Lemma manyRows_value i (mem : Memory (ValueType := ValueType)) s :
  0 <= i <= INT_MAX ->
  intCells (execRow isPositive uninitialized (rf_boundBody manyRowsNode) i (mem, s)).1
    !! (output, i)
  = Some (if isPositive (readReal uninitialized mem (input, 0) i) then 1 else 0).
Proof.
  intros Hi.
  assert (Hint : is_int i) by (unfold is_int, INT_MIN, INT_MAX in *; lia).
  rewrite manyRows_stores by exact Hint.
  unfold compressWrites. cbv zeta.
  change (Z.quot 1 (int_mul 8 (sizeof int64_t))) with 0.
  change (int_add (Z.quot (int_sub 1 1) (int_mul 8 (sizeof int64_t))) 1) with 1.
  change (0 <? 1) with true. cbv iota.
  change (loop_range 0 0) with (@nil Z). cbn [map app].
  change (Z.rem 1 (int_mul 8 (sizeof int64_t))) with 1.
  change (int_mul 0 (int_mul 8 (sizeof int64_t))) with 0.
  unfold applyWrites. cbn [fold_left fst snd].
  unfold PointerOffset. cbn [fst snd]. rewrite Z.add_0_r, lookup_insert_eq.
  f_equal. unfold packBits.
  change (loop_indices 1) with [0]. cbn [fold_left].
  change (int_add 0 0) with 0.
  unfold LoadRow. cbv zeta.
  change (wrap (receptiveField (rf_convolutionalParameters manyRowsNode))) with 1.
  change (wrap (stride (rf_convolutionalParameters manyRowsNode))) with 1.
  change (dimension (GetActiveSize (rf_inputMemoryLayout manyRowsNode)) 2) with 1.
  change (dimension (GetActiveSize (rf_outputMemoryLayout manyRowsNode)) 1) with 1.
  unfold For. change (loop_range 0 1) with [0]. cbn [fold_left].
  change (rowMajorOffset [1; 1; 1] 0 0 0) with 0.
  unfold readScratch. rewrite lookup_insert_eq. cbn [default].
  assert (E : rowMajorOffset (GetExtent (rf_inputMemoryLayout manyRowsNode))
                (int_add (int_mul (Z.quot i 1) 1) 0)
                (int_add (int_mul (Z.rem i 1) 1) 0) 0 = i).
  { unfold rowMajorOffset.
    change (dimension (GetExtent (rf_inputMemoryLayout manyRowsNode)) 1) with 1.
    change (dimension (GetExtent (rf_inputMemoryLayout manyRowsNode)) 2) with 1.
    rewrite Z.quot_1_r, Z.rem_1_r. unfold int_add, int_mul.
    change (wrap (wrap (0 * 1) + 0)) with 0.
    rewrite (Z.mul_1_r i), (wrap_small i Hint), (Z.add_0_r i), (wrap_small i Hint). lia. }
  rewrite E. unfold id.
  destruct (isPositive (readReal uninitialized mem (input, 0) i)); reflexivity.
Qed.

(** A task on the rows from [lo] up to [hi] stores to the output blocks of
    these rows and to no other. *)
Lemma task_elsewhere lo hi j (st : Memory (ValueType := ValueType) * gmap Z ValueType) :
  0 <= lo -> hi <= 2147483648 -> ~ lo <= j < hi ->
  intCells (For lo hi (execRow isPositive uninitialized (rf_boundBody manyRowsNode)) st).1
    !! (output, j)
  = intCells st.1 !! (output, j).
Proof.
  intros Hlo Hhi Hj. unfold For. apply rows_elsewhere.
  intros i Hi. apply in_loop_range in Hi. unfold is_int, INT_MIN, INT_MAX. lia.
Qed.

(** What a loop over the rows from [lo] up to [hi] leaves in the block of
    one of its rows. *)
Lemma loop_value lo hi j (st : Memory (ValueType := ValueType) * gmap Z ValueType) :
  0 <= lo -> hi <= 2147483648 -> lo <= j < hi ->
  intCells (For lo hi (execRow isPositive uninitialized
                         (rf_boundBody manyRowsNode)) st).1 !! (output, j)
  = Some (if isPositive (readReal uninitialized st.1 (input, 0) j) then 1 else 0).
Proof.
  intros Hlo Hhi Hj. unfold For.
  rewrite (loop_range_split lo j hi) by lia.
  rewrite (loop_range_split j (j + 1) hi) by lia.
  assert (E : loop_range j (j + 1) = [j]).
  { unfold loop_range. replace (j + 1 - j) with 1 by lia. simpl. now rewrite Z.add_0_r. }
  rewrite E, !fold_left_app. cbn [fold_left].
  rewrite rows_elsewhere.
  2:{ intros i Hi. apply in_loop_range in Hi. unfold is_int, INT_MIN, INT_MAX. lia. }
  pose proof (rows_realCells (loop_range lo j) st) as Hreal.
  destruct (fold_left _ (loop_range lo j) st) as [mem1 s1]. cbn [fst] in Hreal.
  rewrite manyRows_value by (unfold INT_MAX; lia).
  unfold readReal. now rewrite Hreal.
Qed.

Lemma callFunction_task lo hi (frame : gmap Z ValueType)
    (mem : Memory (ValueType := ValueType)) :
  callFunction bindRowBody (execRow isPositive uninitialized)
    (functionCode (rf_GetTaskFunction manyRowsNode))
    [Pointer (input, 0); Pointer (output, 0); Int lo; Int hi] frame mem
  = Some (For lo hi (execRow isPositive uninitialized (rf_boundBody manyRowsNode))
              (mem, frame)).1.
Proof. reflexivity. Qed.

Lemma callFunction_loop hi (frame : gmap Z ValueType)
    (mem : Memory (ValueType := ValueType)) :
  callFunction bindRowBody (execRow isPositive uninitialized)
    (mkFor (Literal 0) (Literal hi)
       (instantiateRowBody (rf_taskArgs (0, 0))
          (loopBody (functionCode (rf_GetTaskFunction manyRowsNode)))))
    [] frame mem
  = Some (For 0 hi (execRow isPositive uninitialized (rf_boundBody manyRowsNode))
              (mem, frame)).1.
Proof. reflexivity. Qed.

Lemma run_two_tasks r0 r1 (frames : nat -> gmap Z ValueType) (a b : nat)
    (mem : Memory (ValueType := ValueType)) :
  let ranges := [r0; r1] in
  forall ra rb, ranges !! a = Some ra -> ranges !! b = Some rb ->
  runEmitted bindRowBody (execRow isPositive uninitialized) frames [a; b]
    (StartTasksWaitAll (rf_GetTaskFunction manyRowsNode)
       [rf_taskArgs r0; rf_taskArgs r1]) mem
  = Some (For rb.1 rb.2 (execRow isPositive uninitialized (rf_boundBody manyRowsNode))
            ((For ra.1 ra.2 (execRow isPositive uninitialized (rf_boundBody manyRowsNode))
                (mem, frames a)).1, frames b)).1.
Proof.
  cbv zeta. intros ra rb Ha Hb.
  destruct a as [|[|a]]; simpl in Ha; try discriminate; injection Ha as <-;
    (destruct b as [|[|b]]; simpl in Hb; try discriminate; injection Hb as <-);
    reflexivity.
Qed.

Lemma run_loop (frames' : nat -> gmap Z ValueType) (mem : Memory (ValueType := ValueType)) :
  runEmitted bindRowBody (execRow isPositive uninitialized) frames' [] manyRowsLoop mem
  = Some (For 0 2147483647
            (execRow isPositive uninitialized (rf_boundBody manyRowsNode))
            (mem, frames' 0%nat)).1.
Proof. apply callFunction_loop. Qed.

Lemma run_tasks (frames : nat -> gmap Z ValueType) (a b : nat)
    (mem : Memory (ValueType := ValueType)) ra rb :
  [(0, 1073741824); (1073741824, -2147483648)] !! a = Some ra ->
  [(0, 1073741824); (1073741824, -2147483648)] !! b = Some rb ->
  runEmitted bindRowBody (execRow isPositive uninitialized) frames [a; b] manyRowsTasks mem
  = Some (For rb.1 rb.2 (execRow isPositive uninitialized (rf_boundBody manyRowsNode))
            ((For ra.1 ra.2 (execRow isPositive uninitialized (rf_boundBody manyRowsNode))
                (mem, frames a)).1, frames b)).1.
Proof. apply (run_two_tasks (0, 1073741824) (1073741824, -2147483648)). Qed.

Lemma manyRows_parallel : rf_Compile (twoThreads true) manyRowsNode = Some manyRowsTasks.
Proof. reflexivity. Qed.

Lemma manyRows_sequential : rf_Compile (twoThreads false) manyRowsNode = Some manyRowsLoop.
Proof. reflexivity. Qed.

Lemma overflow_values (frames frames' : nat -> gmap Z ValueType) schedule
    (mem : Memory (ValueType := ValueType)) :
  validSchedule manyRowsTasks schedule ->
  exists memP memS,
    runEmitted bindRowBody (execRow isPositive uninitialized) frames schedule
               manyRowsTasks mem = Some memP /\
    runEmitted bindRowBody (execRow isPositive uninitialized) frames' []
               manyRowsLoop mem = Some memS /\
    forall j, 1073741824 <= j < 2147483647 ->
      readInt memP (output, 0) j = readInt mem (output, 0) j /\
      readInt memS (output, 0) j
      = (if isPositive (readReal uninitialized mem (input, 0) j) then 1 else 0).
Proof.
  intros Hvalid.
  assert (Hs : schedule = [0; 1]%nat \/ schedule = [1; 0]%nat).
  { apply Permutation_length_2_inv. symmetry. exact Hvalid. }
  assert (Hpar : exists ra rb a b,
            runEmitted bindRowBody (execRow isPositive uninitialized) frames schedule
              manyRowsTasks mem
            = Some (For rb.1 rb.2
                      (execRow isPositive uninitialized (rf_boundBody manyRowsNode))
                      ((For ra.1 ra.2
                          (execRow isPositive uninitialized (rf_boundBody manyRowsNode))
                          (mem, frames a)).1, frames b)).1 /\
            0 <= ra.1 /\ ra.2 <= 1073741824 /\ 0 <= rb.1 /\ rb.2 <= 1073741824).
  { destruct Hs as [-> | ->].
    - exists (0, 1073741824), (1073741824, -2147483648), 0%nat, 1%nat.
      split; [now apply run_tasks|]. cbn [fst snd]. lia.
    - exists (1073741824, -2147483648), (0, 1073741824), 1%nat, 0%nat.
      split; [now apply run_tasks|]. cbn [fst snd]. lia. }
  destruct Hpar as ([a1 a2] & [b1 b2] & a & b & Hpar & Ha1 & Ha2 & Hb1 & Hb2).
  cbn [fst snd] in *.
  eexists _, _. split; [exact Hpar|]. split; [apply run_loop|].
  intros j Hj. unfold readInt, PointerOffset. cbn [fst snd]. rewrite !Z.add_0_l. split.
  - f_equal. rewrite task_elsewhere by lia. cbn [fst]. apply task_elsewhere; lia.
  - rewrite loop_value by lia. reflexivity.
Qed.

(** C3: the two lowerings of a node do not always leave the same outputs.
    For [manyRowsNode] ([INT_MAX] output rows) and two threads the task size
    is 1073741824 and the end of the second task,
    [(taskIndex + 1) * taskSize = 2 * 1073741824], does not fit an [int]:
    the second task gets the range from 1073741824 to -2147483648 and runs
    no index.  So with [parallelize] on, in every order of the tasks, the
    output blocks of the rows from 1073741824 on are left as they were,
    while the loop emitted with [parallelize] off stores in each of them the
    sign of the input value of its row: on a memory whose output holds
    anything else there, the outputs differ. *)
Theorem parallel_lowering_loses_rows_on_overflow :
  rf_Compile (twoThreads true) manyRowsNode = Some manyRowsTasks /\
  rf_Compile (twoThreads false) manyRowsNode = Some manyRowsLoop /\
  (forall (frames frames' : nat -> gmap Z ValueType) schedule
          (mem : Memory (ValueType := ValueType)),
     validSchedule manyRowsTasks schedule ->
     exists memP memS,
       runEmitted bindRowBody (execRow isPositive uninitialized) frames schedule
                  manyRowsTasks mem = Some memP /\
       runEmitted bindRowBody (execRow isPositive uninitialized) frames' []
                  manyRowsLoop mem = Some memS /\
       forall j, 1073741824 <= j < 2147483647 ->
         readInt memP (output, 0) j = readInt mem (output, 0) j /\
         readInt memS (output, 0) j
         = (if isPositive (readReal uninitialized mem (input, 0) j) then 1 else 0)) /\
  ~ sameOutputs bindRowBody (execRow isPositive uninitialized) manyRowsTasks manyRowsLoop.
Proof.
  split; [exact manyRows_parallel|]. split; [exact manyRows_sequential|].
  split; [exact overflow_values|].
  intros Hsame.
  destruct (Hsame (fun _ => ∅) (fun _ => ∅) [0; 1]%nat (mkMemory (ValueType := ValueType) ∅ {[ (output, 1073741824) := 2 ]})
              (Permutation_refl _)) as (result & HP & HS).
  destruct (overflow_values (fun _ => ∅) (fun _ => ∅) [0; 1]%nat (mkMemory (ValueType := ValueType) ∅ {[ (output, 1073741824) := 2 ]})
              (Permutation_refl _)) as (memP & memS & HP' & HS' & Hrows).
  assert (HmemP : memP = result) by congruence.
  assert (HmemS : memS = result) by congruence.
  subst memP memS.
  destruct (Hrows 1073741824 ltac:(lia)) as [Hkept Hstored].
  rewrite Hkept in Hstored.
  change (readInt (mkMemory (ValueType := ValueType) ∅ {[ (output, 1073741824) := 2 ]}) (output, 0) 1073741824) with 2 in Hstored.
  destruct (isPositive _); discriminate.
Qed.

End Overflow.

(** On [lateRowMemory] the tasks leave 0 in the output block of row
    1073741824 and the loop stores 1 there. *)
Example lateRow_differs :
  exists memP memS,
    runEmitted bindRowBody (execRow (Z.ltb 0) 0) (fun _ => ∅) [0; 1]%nat
               manyRowsTasks lateRowMemory = Some memP /\
    runEmitted bindRowBody (execRow (Z.ltb 0) 0) (fun _ => ∅) []
               manyRowsLoop lateRowMemory = Some memS /\
    readInt memP (output, 0) 1073741824 = 0 /\
    readInt memS (output, 0) 1073741824 = 1.
Proof.
  destruct (overflow_values (Z.ltb 0) 0 (fun _ => ∅) (fun _ => ∅) [0; 1]%nat
              lateRowMemory (Permutation_refl _)) as (memP & memS & HP & HS & Hrows).
  exists memP, memS. split; [exact HP|]. split; [exact HS|].
  destruct (Hrows 1073741824 ltac:(lia)) as [-> ->]. split; reflexivity.
Qed.

End OverflowFacts.

Module PackingFacts.
Import MachineInt MachineIntFacts TaskSplit TaskSplitFacts.
Import BinaryConvolution Execution LoopFacts CompileFacts ExecutionFacts Packing.

Lemma numBits_pow t :
  1 <= 8 * sizeof t /\ 0 < 2 ^ (8 * sizeof t) /\
  2 * 2 ^ (8 * sizeof t - 1) = 2 ^ (8 * sizeof t).
Proof. destruct t; vm_compute; repeat split; discriminate. Qed.

Lemma wrapPacked_mod t z :
  wrapPacked t z mod 2 ^ (8 * sizeof t) = z mod 2 ^ (8 * sizeof t).
Proof.
  destruct (numBits_pow t) as (Hw & Hp & Hh). unfold wrapPacked. cbv zeta.
  rewrite Hh. rewrite Zminus_mod, Zmod_mod, <- Zminus_mod.
  f_equal. lia.
Qed.

Lemma wrapPacked_testbit t z j :
  0 <= j < 8 * sizeof t -> Z.testbit (wrapPacked t z) j = Z.testbit z j.
Proof.
  intros Hj.
  rewrite <- (Z.mod_pow2_bits_low (wrapPacked t z) (8 * sizeof t) j) by lia.
  rewrite <- (Z.mod_pow2_bits_low z (8 * sizeof t) j) by lia.
  now rewrite wrapPacked_mod.
Qed.

Lemma wrapPacked_range t z :
  - 2 ^ (8 * sizeof t - 1) <= wrapPacked t z < 2 ^ (8 * sizeof t - 1).
Proof.
  destruct (numBits_pow t) as (Hw & Hp & Hh). unfold wrapPacked. cbv zeta.
  pose proof (Z.mod_pos_bound (z + 2 ^ (8 * sizeof t - 1)) (2 * 2 ^ (8 * sizeof t - 1))
                ltac:(lia)). lia.
Qed.

Lemma wrapPacked_small t z :
  - 2 ^ (8 * sizeof t - 1) <= z < 2 ^ (8 * sizeof t - 1) -> wrapPacked t z = z.
Proof.
  destruct (numBits_pow t) as (Hw & Hp & Hh). intros Hz. unfold wrapPacked. cbv zeta.
  rewrite Z.mod_small by lia. lia.
Qed.

Lemma PushPackedBits32_flat bits :
  forall vec,
    PushPackedBits32 vec bits
    = vec ++ flat_map (fun b => [wrapPacked int32_t (Z.land b 4294967295);
                                 wrapPacked int32_t (Z.land (Z.shiftr b 32) 4294967295)])
                      bits.
Proof.
  unfold PushPackedBits32.
  induction bits as [|b bits IH]; intros vec; simpl.
  - now rewrite app_nil_r.
  - rewrite IH, <- !app_assoc. reflexivity.
Qed.

Lemma PushPackedBits_appends t vec bits :
  PushPackedBits t vec bits = vec ++ PushPackedBits t [] bits.
Proof.
  destruct t; simpl.
  - rewrite PushPackedBits32_flat. symmetry. now rewrite PushPackedBits32_flat.
  - reflexivity.
Qed.

Lemma nth_flat_pairs (lo hi : Z -> Z) bits :
  forall j : nat,
    (j < length bits)%nat ->
    nth (2 * j) (flat_map (fun b => [lo b; hi b]) bits) 0 = lo (nth j bits 0) /\
    nth (2 * j + 1) (flat_map (fun b => [lo b; hi b]) bits) 0 = hi (nth j bits 0).
Proof.
  induction bits as [|b bits IH]; intros j Hj; simpl in Hj; [lia|].
  destruct j as [|j].
  - simpl. auto.
  - replace (2 * S j)%nat with (S (S (2 * j))) by lia.
    replace (S (S (2 * j)) + 1)%nat with (S (S (2 * j + 1))) by lia.
    simpl. apply IH. lia.
Qed.

Lemma length_flat_pairs (lo hi : Z -> Z) bits :
  length (flat_map (fun b => [lo b; hi b]) bits) = (2 * length bits)%nat.
Proof. induction bits as [|b bits IH]; simpl; [reflexivity | rewrite IH; lia]. Qed.

Lemma PushPackedBits_length t bits :
  Z.of_nat (length (PushPackedBits t [] bits)) = 8 / sizeof t * Z.of_nat (length bits).
Proof.
  destruct t; simpl.
  - rewrite PushPackedBits32_flat. simpl. rewrite length_flat_pairs.
    change (8 / 4) with 2. lia.
  - unfold PushPackedBits64. simpl. rewrite length_map. change (8 / 8) with 1. lia.
Qed.

Lemma PushPackedBits_bits t bits k :
  0 <= k < 64 * Z.of_nat (length bits) ->
  streamBit (8 * sizeof t) (blockAt (PushPackedBits t [] bits)) k
  = streamBit 64 (blockAt bits) k.
Proof.
  intros Hk. unfold streamBit, blockAt.
  pose proof (Z.div_mod k 64 ltac:(lia)) as E64.
  pose proof (Z.mod_pos_bound k 64 ltac:(lia)) as B64.
  assert (Q : 0 <= k / 64 < Z.of_nat (length bits)).
  { split; [apply Z.div_pos; lia | apply Z.div_lt_upper_bound; lia]. }
  destruct t; simpl sizeof.
  - change (8 * 4) with 32. simpl PushPackedBits. rewrite PushPackedBits32_flat. simpl app.
    pose proof (Z.div_mod k 32 ltac:(lia)) as E32.
    pose proof (Z.mod_pos_bound k 32 ltac:(lia)) as B32.
    destruct (nth_flat_pairs
                (fun b => wrapPacked int32_t (Z.land b 4294967295))
                (fun b => wrapPacked int32_t (Z.land (Z.shiftr b 32) 4294967295))
                bits (Z.to_nat (k / 64)) ltac:(lia)) as [Hlo Hhi].
    destruct (Z.lt_ge_cases (k mod 64) 32) as [Hlow | Hhigh].
    + assert (E1 : k / 32 = 2 * (k / 64)) by lia.
      assert (E2 : k mod 32 = k mod 64) by lia.
      rewrite E1, E2. replace (Z.to_nat (2 * (k / 64))) with (2 * Z.to_nat (k / 64))%nat by lia.
      rewrite Hlo. rewrite wrapPacked_testbit by (simpl; lia).
      rewrite Z.land_spec. change 4294967295 with (Z.ones 32).
      rewrite Z.ones_spec_low by lia. apply andb_true_r.
    + assert (E1 : k / 32 = 2 * (k / 64) + 1) by lia.
      assert (E2 : k mod 32 = k mod 64 - 32) by lia.
      rewrite E1, E2.
      replace (Z.to_nat (2 * (k / 64) + 1)) with (2 * Z.to_nat (k / 64) + 1)%nat by lia.
      rewrite Hhi. rewrite wrapPacked_testbit by (simpl; lia).
      rewrite Z.land_spec. change 4294967295 with (Z.ones 32).
      rewrite Z.ones_spec_low by lia. rewrite andb_true_r.
      rewrite Z.shiftr_spec by lia. f_equal. lia.
  - change (8 * 8) with 64. simpl PushPackedBits. unfold PushPackedBits64. simpl app.
    rewrite (nth_indep (map (wrapPacked int64_t) bits) 0 (wrapPacked int64_t 0))
      by (rewrite length_map; lia).
    rewrite map_nth. apply wrapPacked_testbit. simpl. lia.
Qed.

(** X11: [PushPackedBits] only appends, it appends [64 / numBits] blocks for
    every 64-bit word, and the blocks it appends hold the bits of the words
    in the same order: bit [k] of the appended blocks, [numBits] bits to a
    block, is bit [k] of [bits], 64 bits to a word.  The 32-bit packing
    holds the same sequence of bits as the 64-bit one. *)
Theorem PushPackedBits_keeps_the_bits t vec bits :
  PushPackedBits t vec bits = vec ++ PushPackedBits t [] bits /\
  Z.of_nat (length (PushPackedBits t [] bits))
  = 64 / (8 * sizeof t) * Z.of_nat (length bits) /\
  (forall k, 0 <= k < 64 * Z.of_nat (length bits) ->
     streamBit (8 * sizeof t) (blockAt (PushPackedBits t [] bits)) k
     = streamBit 64 (blockAt bits) k).
Proof.
  split; [apply PushPackedBits_appends|]. split.
  - rewrite PushPackedBits_length. destruct t; reflexivity.
  - intros k. apply PushPackedBits_bits.
Qed.

Lemma shiftl_bit_testbit (bit : bool) b i :
  0 <= b -> 0 <= i ->
  Z.testbit (Z.shiftl (if bit then 1 else 0) b) i = (b =? i) && bit.
Proof.
  intros Hb Hi. rewrite Z.shiftl_spec by lia. destruct bit.
  - rewrite andb_true_r. destruct (Z.eqb_spec b i) as [-> | Hne].
    + now rewrite Z.sub_diag.
    + destruct (Z.lt_ge_cases i b).
      * apply Z.testbit_neg_r. lia.
      * replace 1 with (2 ^ 0) by reflexivity. apply Z.pow2_bits_false. lia.
  - rewrite andb_false_r. apply Z.testbit_0_l.
Qed.

Lemma existsb_loop_indices (p : Z -> bool) count i :
  0 <= i ->
  existsb (fun b => (b =? i) && p b) (loop_indices count) = (i <? count) && p i.
Proof.
  intros Hi. destruct (existsb _ _) eqn:E.
  - apply existsb_exists in E as (b & Hb & Hp). apply in_loop_indices in Hb.
    apply andb_true_iff in Hp as [Hbi Hp]. apply Z.eqb_eq in Hbi. subst b.
    rewrite Hp. symmetry. rewrite andb_true_r. apply Z.ltb_lt. lia.
  - symmetry. apply not_true_is_false. intros H.
    apply andb_true_iff in H as [Hlt Hp]. apply Z.ltb_lt in Hlt.
    assert (existsb (fun b => (b =? i) && p b) (loop_indices count) = true); [|congruence].
    apply existsb_exists. exists i. split; [apply in_loop_indices; lia|].
    now rewrite Z.eqb_refl, Hp.
Qed.

Section Packed.
Context {ValueType : Type}.
Variable isPositive : ValueType -> bool.
Variable uninitialized : ValueType.

Lemma packBits_fold_testbit t (row : gmap Z ValueType) first l :
  forall acc i,
    0 <= i < 8 * sizeof t ->
    (forall b, In b l -> 0 <= b < 8 * sizeof t) ->
    Z.testbit
      (fold_left
         (fun blockValue bitIndex =>
            let realValue := readScratch uninitialized row (int_add first bitIndex) in
            let bitValue := if isPositive realValue then 1 else 0 in
            Z.lor blockValue (wrapPacked t (Z.shiftl bitValue bitIndex)))
         l acc) i
    = Z.testbit acc i
      || existsb (fun b => (b =? i)
                           && isPositive (readScratch uninitialized row (int_add first b)))
                 l.
Proof.
  induction l as [|b l IH]; intros acc i Hi Hl; simpl.
  - now rewrite orb_false_r.
  - pose proof (Hl b (or_introl eq_refl)) as Hb.
    rewrite IH by (auto; intros; apply Hl; now right).
    rewrite Z.lor_spec, wrapPacked_testbit by assumption.
    rewrite shiftl_bit_testbit by lia.
    now rewrite orb_assoc.
Qed.

Lemma packBits_testbit t (row : gmap Z ValueType) first count i :
  count <= 8 * sizeof t -> 0 <= i < 8 * sizeof t ->
  Z.testbit (packBits isPositive uninitialized t row first count) i
  = (i <? count) && isPositive (readScratch uninitialized row (int_add first i)).
Proof.
  intros Hcount Hi. unfold packBits.
  rewrite packBits_fold_testbit; [|assumption|].
  - rewrite Z.testbit_0_l. simpl.
    apply (existsb_loop_indices
             (fun b => isPositive (readScratch uninitialized row (int_add first b)))).
    lia.
  - intros b Hb. apply in_loop_indices in Hb. lia.
Qed.

End Packed.

Lemma applyWrites_lookup_In `{Countable K} {V : Type} (writes : list (K * V)) :
  forall cells k v,
    In (k, v) writes ->
    (forall v', In (k, v') writes -> v' = v) ->
    applyWrites writes cells !! k = Some v.
Proof.
  induction writes as [|[k1 v1] writes IH]; intros cells k v Hin Hfun; [destruct Hin|].
  change (applyWrites writes (<[k1 := v1]> cells) !! k = Some v).
  destruct (In_dec (fun a b : K => decide (a = b)) k (map fst writes)) as [Hk | Hk].
  - apply in_map_iff in Hk as ([k' v'] & Hk' & Hin'). simpl in Hk'. subst k'.
    assert (v' = v) by (apply Hfun; now right). subst v'.
    apply IH; [assumption|]. intros v'' Hin''. apply Hfun. now right.
  - rewrite applyWrites_lookup_other by assumption.
    destruct Hin as [[= -> ->] | Hin].
    + apply lookup_insert_eq.
    + exfalso. apply Hk. apply in_map_iff. exists (k, v). auto.
Qed.

Section CompressRow.
Context {ValueType : Type}.
Variable isPositive : ValueType -> bool.
Variable uninitialized : ValueType.

Lemma compressWrites_In t (row : gmap Z ValueType) packedOutput numValues k v :
  1 <= numValues <= INT_MAX ->
  In (k, v) (compressWrites isPositive uninitialized t row packedOutput numValues)
  <-> exists j,
        0 <= j < (numValues - 1) / (8 * sizeof t) + 1 /\
        k = PointerOffset packedOutput j /\
        v = packBits isPositive uninitialized t row (j * (8 * sizeof t))
              (Z.min (8 * sizeof t) (numValues - j * (8 * sizeof t))).
Proof.
  intros Hnv. unfold compressWrites. cbv zeta.
  destruct (numBits_cases t) as [-> Hbits]. set (bits := 8 * sizeof t) in *.
  unfold INT_MAX in Hnv.
  rewrite (Z.quot_div_nonneg numValues bits) by lia.
  rewrite (Z.rem_mod_nonneg numValues bits) by lia.
  unfold int_sub, int_add.
  rewrite (wrap_small (numValues - 1)) by (unfold is_int, INT_MIN, INT_MAX; lia).
  rewrite (Z.quot_div_nonneg (numValues - 1) bits) by lia.
  assert (Q0 : 0 <= (numValues - 1) / bits) by (apply Z.div_pos; lia).
  assert (Q1 : (numValues - 1) / bits <= numValues - 1)
    by (apply Z.div_le_upper_bound; nia).
  rewrite wrap_small by (unfold is_int, INT_MIN, INT_MAX; lia).
  pose proof (Z.div_mod numValues bits ltac:(lia)) as DM.
  pose proof (Z.mod_pos_bound numValues bits ltac:(lia)) as MB.
  pose proof (Z.div_mod (numValues - 1) bits ltac:(lia)) as DM1.
  pose proof (Z.mod_pos_bound (numValues - 1) bits ltac:(lia)) as MB1.
  assert (C0 : 0 <= numValues / bits) by (apply Z.div_pos; lia).
  assert (Hmul : forall j, 0 <= j <= numValues / bits -> int_mul j bits = j * bits).
  { intros j Hj. unfold int_mul. apply wrap_small.
    unfold is_int, INT_MIN, INT_MAX. nia. }
  rewrite in_app_iff. split.
  - intros [Hin | Hin].
    + apply in_map_iff in Hin as (j & [= <- <-] & Hj). apply in_loop_range in Hj.
      exists j. split; [nia|]. split; [reflexivity|].
      rewrite Hmul by lia. f_equal. nia.
    + destruct (Z.ltb_spec (numValues / bits) ((numValues - 1) / bits + 1)) as [Hlt|];
        [|destruct Hin].
      destruct Hin as [[= <- <-] | []]. exists (numValues / bits).
      split; [lia|]. split; [reflexivity|]. rewrite Hmul by lia. f_equal. nia.
  - intros (j & Hj & -> & ->).
    destruct (Z.lt_ge_cases j (numValues / bits)) as [Hc | Hc].
    + left. apply in_map_iff. exists j. split; [|apply in_loop_range; lia].
      rewrite Hmul by lia. do 2 f_equal. nia.
    + right. assert (j = numValues / bits) by nia. subst j.
      destruct (Z.ltb_spec (numValues / bits) ((numValues - 1) / bits + 1)); [|lia].
      left. rewrite Hmul by lia. do 2 f_equal. nia.
Qed.

Lemma CompressRow_block t (row : gmap Z ValueType) packedOutput numValues
    (mem : Memory (ValueType := ValueType)) j :
  1 <= numValues <= INT_MAX ->
  0 <= j < (numValues - 1) / (8 * sizeof t) + 1 ->
  readInt (CompressRow isPositive uninitialized t row packedOutput numValues mem)
          packedOutput j
  = packBits isPositive uninitialized t row (j * (8 * sizeof t))
      (Z.min (8 * sizeof t) (numValues - j * (8 * sizeof t))).
Proof.
  intros Hnv Hj. rewrite CompressRow_writes. unfold readInt. simpl.
  erewrite applyWrites_lookup_In; [reflexivity| |].
  - apply compressWrites_In; [assumption|]. exists j. auto.
  - intros v' Hv'. apply compressWrites_In in Hv' as (j' & Hj' & E & ->); [|assumption].
    unfold PointerOffset in E. injection E as E. assert (j' = j) by lia. now subst.
Qed.

(** The statement of [CompressRow_packs_signs], shared with the proofs that build on it. *)
Lemma CompressRow_bits t (realRow : gmap Z ValueType) packedOutput numValues
    (mem : Memory (ValueType := ValueType)) :
  1 <= numValues <= INT_MAX ->
  let mem' := CompressRow isPositive uninitialized t realRow packedOutput numValues mem in
  let numBits := 8 * sizeof t in
  let numBlocks := (numValues - 1) / numBits + 1 in
  (forall k, 0 <= k < numBits * numBlocks ->
     streamBit numBits (readInt mem' packedOutput) k
     = (k <? numValues) && isPositive (readScratch uninitialized realRow k)) /\
  realCells mem' = realCells mem /\
  (forall p, (forall j, 0 <= j < numBlocks -> p <> PointerOffset packedOutput j) ->
     intCells mem' !! p = intCells mem !! p).
Proof.
  intros Hnv. cbv zeta. destruct (numBits_cases t) as [_ Hbits].
  set (bits := 8 * sizeof t) in *. split; [|split].
  - intros k Hk. unfold streamBit.
    pose proof (Z.div_mod k bits ltac:(lia)) as DM.
    pose proof (Z.mod_pos_bound k bits ltac:(lia)) as MB.
    assert (Q : 0 <= k / bits < (numValues - 1) / bits + 1).
    { split; [apply Z.div_pos; lia | apply Z.div_lt_upper_bound; lia]. }
    rewrite CompressRow_block by assumption. fold bits.
    rewrite packBits_testbit by (fold bits; lia). fold bits.
    destruct (Z.ltb_spec k numValues) as [Hlt | Hge].
    + replace (k mod bits <? Z.min bits (numValues - k / bits * bits)) with true
        by (symmetry; apply Z.ltb_lt; lia).
      simpl. do 2 f_equal. unfold int_add. unfold INT_MAX in Hnv.
      rewrite wrap_small by (unfold is_int, INT_MIN, INT_MAX; lia). lia.
    + replace (k mod bits <? Z.min bits (numValues - k / bits * bits)) with false
        by (symmetry; apply Z.ltb_ge; lia).
      reflexivity.
  - rewrite CompressRow_writes. reflexivity.
  - intros p Hp. rewrite CompressRow_writes. simpl.
    apply applyWrites_lookup_other. intros Hin.
    apply compressWrites_keys in Hin as (j & Hj & ->); [|assumption].
    now apply (Hp j).
Qed.

(** X12: [CompressRow] packs the signs of [numValues] values: bit [k] of the
    blocks it stores at [packedOutput], [numBits] bits to a block, is set
    exactly when value [k] of [realRow] is positive; the bits of the last
    block past [numValues] are 0.  It stores [(numValues - 1) / numBits + 1]
    blocks and changes nothing else. *)
Theorem CompressRow_packs_signs t (realRow : gmap Z ValueType) packedOutput numValues
    (mem : Memory (ValueType := ValueType)) :
  1 <= numValues <= INT_MAX ->
  let mem' := CompressRow isPositive uninitialized t realRow packedOutput numValues mem in
  let numBits := 8 * sizeof t in
  let numBlocks := (numValues - 1) / numBits + 1 in
  (forall k, 0 <= k < numBits * numBlocks ->
     streamBit numBits (readInt mem' packedOutput) k
     = (k <? numValues) && isPositive (readScratch uninitialized realRow k)) /\
  realCells mem' = realCells mem /\
  (forall p, (forall j, 0 <= j < numBlocks -> p <> PointerOffset packedOutput j) ->
     intCells mem' !! p = intCells mem !! p).
Proof. exact (CompressRow_bits t realRow packedOutput numValues mem). Qed.

End CompressRow.

(** A loop whose runs each store [val k] at the keys [k] they own ([K i k])
    and leave the other keys alone does the same for the keys that some run
    owns. *)
Lemma For_stores {V : Type} (val : Z -> V) lo hi
    (body : Z -> gmap Z V -> gmap Z V) (K : Z -> Z -> Prop) :
  (forall i, lo <= i < hi ->
     forall s k, (K i k /\ body i s !! k = Some (val k))
                 \/ (~ K i k /\ body i s !! k = s !! k)) ->
  forall s k,
    ((exists i, lo <= i < hi /\ K i k) /\ For lo hi body s !! k = Some (val k))
    \/ (~ (exists i, lo <= i < hi /\ K i k) /\ For lo hi body s !! k = s !! k).
Proof.
  intros Hbody. unfold For.
  assert (G : forall l, (forall i, In i l -> lo <= i < hi) ->
            forall s k,
              ((exists i, In i l /\ K i k)
               /\ fold_left (fun s i => body i s) l s !! k = Some (val k))
              \/ (~ (exists i, In i l /\ K i k)
                  /\ fold_left (fun s i => body i s) l s !! k = s !! k)).
  { induction l as [|a l IH]; intros Hl s k.
    - right. split; [intros (i & [] & _) | reflexivity].
    - simpl. destruct (IH (fun i Hi => Hl i (or_intror Hi)) (body a s) k)
        as [[(i & Hi & HK) E] | [Hnone E]].
      + left. split; [exists i; split; [now right | assumption] | exact E].
      + destruct (Hbody a (Hl a (or_introl eq_refl)) s k) as [[HK Ea] | [HK Ea]].
        * left. split; [exists a; split; [now left | assumption]|]. congruence.
        * right. split; [|congruence].
          intros (i & [<- | Hi] & HK'); [contradiction|]. apply Hnone. eauto. }
  intros s k.
  destruct (G (loop_range lo hi) (fun i Hi => proj1 (in_loop_range lo hi i) Hi) s k)
    as [[(i & Hi & HK) E] | [Hnone E]].
  - left. split; [|exact E]. exists i. split; [now apply in_loop_range | assumption].
  - right. split; [|exact E]. intros (i & Hi & HK). apply Hnone.
    exists i. split; [now apply in_loop_range | assumption].
Qed.

Lemma rowMajorOffset_decode fs nc r c ch :
  0 <= r -> 0 <= c < fs -> 0 <= ch < nc ->
  let k := rowMajorOffset [fs; fs; nc] r c ch in
  k mod nc = ch /\ (k / nc) mod fs = c /\ k / nc / fs = r.
Proof.
  intros Hr Hc Hch. unfold rowMajorOffset, dimension. simpl.
  assert (E1 : ((r * fs + c) * nc + ch) / nc = r * fs + c).
  { symmetry. apply (Z.div_unique_pos _ nc _ ch); lia. }
  assert (E2 : ((r * fs + c) * nc + ch) mod nc = ch).
  { symmetry. apply (Z.mod_unique_pos _ nc (r * fs + c)); lia. }
  rewrite E1, E2. split; [reflexivity|]. split.
  - symmetry. apply (Z.mod_unique_pos _ fs r); lia.
  - symmetry. apply (Z.div_unique_pos _ fs _ c); lia.
Qed.

Section LoadRow.
Context {ValueType : Type}.
Variable uninitialized : ValueType.

(** The statement of [LoadRow_copies_the_receptive_field], shared with the proofs that build on it. *)
Lemma LoadRow_cells (mem : Memory (ValueType := ValueType))
    inputVolume inputLayout outputRowIndex outputLayout convParams
    (realValueRow : gmap Z ValueType) :
  let numChannels := dimension (GetActiveSize inputLayout) 2 in
  let outputImageWidth := dimension (GetActiveSize outputLayout) 1 in
  let filterSize := wrap (receptiveField convParams) in
  let inputRowStart :=
    int_mul (Z.quot outputRowIndex outputImageWidth) (wrap (stride convParams)) in
  let inputColStart :=
    int_mul (Z.rem outputRowIndex outputImageWidth) (wrap (stride convParams)) in
  let loaded := LoadRow uninitialized mem inputVolume inputLayout outputRowIndex
                        outputLayout convParams realValueRow in
  (forall rowIndex columnIndex channelIndex,
     0 <= rowIndex < filterSize -> 0 <= columnIndex < filterSize ->
     0 <= channelIndex < numChannels ->
     loaded !! rowMajorOffset [filterSize; filterSize; numChannels]
                              rowIndex columnIndex channelIndex
     = Some (readReal uninitialized mem inputVolume
               (rowMajorOffset (GetExtent inputLayout)
                  (int_add inputRowStart rowIndex) (int_add inputColStart columnIndex)
                  channelIndex))) /\
  (forall k, ~ (0 <= k < filterSize * filterSize * numChannels) ->
     loaded !! k = realValueRow !! k).
Proof.
  cbv zeta. set (nc := dimension (GetActiveSize inputLayout) 2).
  set (fs := wrap (receptiveField convParams)).
  set (rs := int_mul _ _). set (cs := int_mul _ _).
  set (val := fun k =>
         readReal uninitialized mem inputVolume
           (rowMajorOffset (GetExtent inputLayout)
              (int_add rs (k / nc / fs)) (int_add cs ((k / nc) mod fs)) (k mod nc))).
  pose (store := fun r c channelIndex (realValueRow : gmap Z ValueType) =>
          <[rowMajorOffset [fs; fs; nc] r c channelIndex
            := readReal uninitialized mem inputVolume
                 (rowMajorOffset (GetExtent inputLayout)
                    (int_add rs r) (int_add cs c) channelIndex)]> realValueRow).
  pose (owns := fun r c ch k => k = rowMajorOffset [fs; fs; nc] r c ch).
  assert (Hinner : forall r c, 0 <= r < fs -> 0 <= c < fs ->
            forall (s : gmap Z ValueType) k,
              ((exists ch, 0 <= ch < nc /\ owns r c ch k)
               /\ For 0 nc (store r c) s !! k = Some (val k))
              \/ (~ (exists ch, 0 <= ch < nc /\ owns r c ch k)
                  /\ For 0 nc (store r c) s !! k = s !! k)).
  { intros r c Hr Hc. apply (For_stores val 0 nc (store r c) (owns r c)).
    intros ch Hch s k. unfold owns, store.
    destruct (Z.eq_dec k (rowMajorOffset [fs; fs; nc] r c ch)) as [-> | Hne].
    - left. split; [reflexivity|]. rewrite lookup_insert_eq. f_equal. unfold val.
      destruct (rowMajorOffset_decode fs nc r c ch ltac:(lia) Hc Hch) as (-> & -> & ->).
      reflexivity.
    - right. split; [assumption|]. now rewrite lookup_insert_ne. }
  assert (Hmiddle : forall r, 0 <= r < fs ->
            forall (s : gmap Z ValueType) k,
              ((exists c, 0 <= c < fs /\ exists ch, 0 <= ch < nc /\ owns r c ch k)
               /\ For 0 fs (fun c => For 0 nc (store r c)) s !! k = Some (val k))
              \/ (~ (exists c, 0 <= c < fs /\ exists ch, 0 <= ch < nc /\ owns r c ch k)
                  /\ For 0 fs (fun c => For 0 nc (store r c)) s !! k = s !! k)).
  { intros r Hr.
    apply (For_stores val 0 fs (fun c => For 0 nc (store r c))
             (fun c k => exists ch, 0 <= ch < nc /\ owns r c ch k)).
    intros c Hc. now apply Hinner. }
  assert (Houter : forall (s : gmap Z ValueType) k,
            ((exists r, 0 <= r < fs /\ exists c, 0 <= c < fs /\
                exists ch, 0 <= ch < nc /\ owns r c ch k)
             /\ LoadRow uninitialized mem inputVolume inputLayout outputRowIndex
                        outputLayout convParams s !! k = Some (val k))
            \/ (~ (exists r, 0 <= r < fs /\ exists c, 0 <= c < fs /\
                     exists ch, 0 <= ch < nc /\ owns r c ch k)
                /\ LoadRow uninitialized mem inputVolume inputLayout outputRowIndex
                           outputLayout convParams s !! k = s !! k)).
  { intros s k.
    change (LoadRow uninitialized mem inputVolume inputLayout outputRowIndex
                    outputLayout convParams s)
      with (For 0 fs (fun r => For 0 fs (fun c => For 0 nc (store r c))) s).
    revert s k.
    apply (For_stores val 0 fs (fun r => For 0 fs (fun c => For 0 nc (store r c)))
             (fun r k => exists c, 0 <= c < fs /\
                exists ch, 0 <= ch < nc /\ owns r c ch k)).
    intros r Hr. now apply Hmiddle. }
  unfold owns in Houter.
  split.
  - intros r c ch Hr Hc Hch.
    destruct (Houter realValueRow (rowMajorOffset [fs; fs; nc] r c ch))
      as [[_ E] | [Hnone _]].
    + rewrite E. f_equal. unfold val.
      destruct (rowMajorOffset_decode fs nc r c ch ltac:(lia) Hc Hch) as (-> & -> & ->).
      reflexivity.
    + exfalso. apply Hnone. eauto 10.
  - intros k Hk. destruct (Houter realValueRow k) as [[(r & Hr & c & Hc & ch & Hch & ->) _]
                                                     | [_ E]]; [|exact E].
    exfalso. apply Hk. unfold rowMajorOffset, dimension. simpl.
    assert (0 <= r * fs + c <= fs * fs - 1) by nia. nia.
Qed.


End LoadRow.

Lemma applyWrites_lookup_indep `{Countable K} {V : Type} (writes : list (K * V)) :
  forall cells1 cells2 k,
    In k (map fst writes) ->
    applyWrites writes cells1 !! k = applyWrites writes cells2 !! k.
Proof.
  induction writes as [|[k1 v1] writes IH]; intros cells1 cells2 k Hin; [destruct Hin|].
  change (applyWrites writes (<[k1 := v1]> cells1) !! k
          = applyWrites writes (<[k1 := v1]> cells2) !! k).
  destruct (In_dec (fun a b : K => decide (a = b)) k (map fst writes)) as [Hk | Hk].
  - now apply IH.
  - rewrite !applyWrites_lookup_other by assumption.
    destruct Hin as [<- | Hin]; [|contradiction]. simpl.
    now rewrite !lookup_insert_eq.
Qed.

Lemma rf_sizes node :
  rf_wellFormed node ->
  let filterWidth := receptiveField (rf_convolutionalParameters node) in
  let inputDepth := dimension (GetActiveSize (rf_inputMemoryLayout node)) 2 in
  let numBits := 8 * sizeof (rf_PackedBitsType node) in
  let packedRowSize := (filterWidth * filterWidth * inputDepth - 1) / numBits + 1 in
  wrap filterWidth = filterWidth /\
  bound_row_packedRowSize (rf_boundBody node) = packedRowSize /\
  wrap (bound_row_fieldVolumeSize (rf_boundBody node))
  = filterWidth * filterWidth * inputDepth /\
  1 <= packedRowSize /\
  filterWidth * filterWidth * inputDepth <= numBits * packedRowSize /\
  rf_outputSize node = rf_numOutputRows node * packedRowSize /\
  rf_numOutputRows node * packedRowSize <= INT_MAX.
Proof.
  intros Hwf. cbv zeta.
  destruct (rowBodyFits_sizes _ (rf_boundBody_fits node Hwf))
    as (Hfs & Hnc & Hnv & Hmax & Hprs1 & Hprs). cbv zeta in *.
  destruct (rf_boundBody_fits node Hwf) as (_ & Hfvs & Hprs').
  pose proof (rf_numOutputRows_exact node Hwf) as HN.
  destruct Hwf as (Hfw & Hncs & Hfvs_max & HH & HW & HNmax & Hout).
  cbv zeta in *. unfold INT_MAX in *.
  change (bound_row_this (rf_boundBody node)) with node in *.
  set (fw := receptiveField (rf_convolutionalParameters node)) in *.
  set (nc := dimension (GetActiveSize (rf_inputMemoryLayout node)) 2) in *.
  destruct (numBits_cases (rf_PackedBitsType node)) as [_ Hbits].
  set (bits := 8 * sizeof (rf_PackedBitsType node)) in *.
  assert (Hfw_max : fw <= 2147483647) by nia.
  assert (Hw : wrap fw = fw) by (apply wrap_small; unfold is_int, INT_MIN, INT_MAX; lia).
  rewrite Hw in *.
  pose proof (Z.div_mod (fw * fw * nc - 1) bits ltac:(lia)) as DM.
  pose proof (Z.mod_pos_bound (fw * fw * nc - 1) bits ltac:(lia)) as MB.
  assert (Q0 : 0 <= (fw * fw * nc - 1) / bits) by (apply Z.div_pos; nia).
  assert (Q1 : (fw * fw * nc - 1) / bits <= fw * fw * nc - 1)
    by (apply Z.div_le_upper_bound; nia).
  split; [reflexivity|]. split; [exact Hprs'|]. split; [rewrite Hnv; reflexivity|].
  split; [lia|]. split; [nia|]. split.
  - unfold rf_outputSize, GetPackedFilterSize, GetFilterVolumeSize. cbv zeta.
    fold fw nc bits.
    unfold rf_numOutputRows in *. unfold int_mul in *.
    rewrite (wrap_small (dimension _ 1 * dimension _ 0)) in HN |- *
      by (unfold is_int, INT_MIN, INT_MAX; nia).
    rewrite (wrap_small (dimension _ 0 * dimension _ 1))
      by (unfold is_int, INT_MIN, INT_MAX; nia).
    rewrite (size_t_small nc) by nia.
    rewrite (size_t_small (nc * fw)) by nia.
    rewrite (size_t_small (nc * fw * fw)) by nia.
    replace (nc * fw * fw) with (fw * fw * nc) by lia.
    rewrite (size_t_small (fw * fw * nc - 1)) by nia.
    rewrite (size_t_small bits) by lia.
    rewrite (size_t_small ((fw * fw * nc - 1) / bits + 1)) by lia.
    rewrite (size_t_small (dimension _ 0 * dimension _ 1)) by nia.
    rewrite size_t_small by nia. lia.
  - unfold rf_numOutputRows in *. unfold int_mul in *.
    rewrite (wrap_small (dimension _ 1 * dimension _ 0)) in HN |- *
      by (unfold is_int, INT_MIN, INT_MAX; nia).
    exact Hout.
Qed.

Section ReceptiveFields.
Context {ValueType : Type}.
Variable isPositive : ValueType -> bool.
Variable uninitialized : ValueType.

Lemma rowWrites_keys node i (mem : Memory (ValueType := ValueType)) k :
  rf_wellFormed node -> 0 <= i < rf_numOutputRows node ->
  let packedRowSize := bound_row_packedRowSize (rf_boundBody node) in
  In k (map fst (rowWrites isPositive uninitialized (rf_boundBody node) i mem))
  <-> exists j, 0 <= j < packedRowSize /\ k = (output, i * packedRowSize + j).
Proof.
  intros Hwf Hi. cbv zeta.
  destruct (rf_sizes node Hwf) as (Hw & Hprs & Hnv & Hprs1 & Hcap & Hsize & Hmax).
  cbv zeta in *. unfold INT_MAX in *. unfold rowWrites. cbv zeta.
  change (bound_row_this (rf_boundBody node)) with node. rewrite Hnv, Hprs.
  set (fvs := receptiveField _ * receptiveField _ * dimension _ 2) in *.
  set (bits := 8 * sizeof (rf_PackedBitsType node)) in *.
  set (prs := (fvs - 1) / bits + 1) in *.
  assert (Hfvs : 1 <= fvs <= INT_MAX).
  { destruct Hwf as (? & ? & ? & _). unfold INT_MAX. subst fvs. split; [nia | assumption]. }
  assert (Hoff : int_mul i prs = i * prs).
  { unfold int_mul. apply wrap_small. unfold is_int, INT_MIN, INT_MAX. nia. }
  rewrite Hoff. split.
  - intros Hin. apply compressWrites_keys in Hin as (j & Hj & ->); [|assumption].
    exists j. split; [exact Hj|]. unfold PointerOffset. simpl. f_equal.
  - intros (j & Hj & ->). apply in_map_iff.
    eexists (_, _). split; [|apply compressWrites_In; [assumption|]; exists j;
                             split; [exact Hj|]; split; reflexivity].
    unfold PointerOffset. simpl. f_equal.
Qed.

Lemma rows_fold node l :
  rf_wellFormed node -> NoDup l ->
  (forall i, In i l -> 0 <= i < rf_numOutputRows node) ->
  forall mem : Memory (ValueType := ValueType),
    let packedRowSize := bound_row_packedRowSize (rf_boundBody node) in
    let final := fold_left (fun mem i => rowEffect isPositive uninitialized
                                           (rf_boundBody node) i mem) l mem in
    realCells final = realCells mem /\
    (forall i j, In i l -> 0 <= j < packedRowSize ->
       intCells final !! (output, i * packedRowSize + j)
       = intCells (rowEffect isPositive uninitialized (rf_boundBody node) i mem)
           !! (output, i * packedRowSize + j)) /\
    (forall p, (forall i j, In i l -> 0 <= j < packedRowSize ->
                  p <> (output, i * packedRowSize + j)) ->
       intCells final !! p = intCells mem !! p).
Proof.
  intros Hwf. cbv zeta.
  destruct (rf_sizes node Hwf) as (_ & _ & _ & Hprs1 & _). cbv zeta in Hprs1.
  induction l as [|a l IH]; intros Hnd Hl mem.
  - simpl. split; [reflexivity|]. split; [intros i j []|reflexivity].
  - inversion Hnd as [|? ? Ha Hnd']; subst.
    assert (Ha_range := Hl a (or_introl eq_refl)).
    specialize (IH Hnd' (fun i Hi => Hl i (or_intror Hi))
                  (rowEffect isPositive uninitialized (rf_boundBody node) a mem)).
    destruct IH as (IHreal & IHrow & IHother). simpl fold_left.
    assert (Hreal : realCells (rowEffect isPositive uninitialized (rf_boundBody node) a mem)
                    = realCells mem) by (rewrite rowEffect_writes; reflexivity).
    split; [congruence|]. split.
    + intros i j [<- | Hi] Hj.
      * apply IHother. intros i' j' Hi' Hj' E.
        assert (i' = a); [|subst i'; apply Ha, list_elem_of_In, Hi'].
        pose proof (Hl i' (or_intror Hi')).
        set (prs := bound_row_packedRowSize (rf_boundBody node)) in *.
        assert (E' : a * prs + j = i' * prs + j') by (injection E as E; exact E).
        clearbody prs.
        destruct (Z.lt_total i' a) as [? | [? | ?]]; [nia | assumption | nia].
      * rewrite (IHrow i j Hi Hj). rewrite !rowEffect_writes. simpl.
        rewrite (rowWrites_realCells isPositive uninitialized (rf_boundBody node) i
                   (mkMemory (realCells mem)
                      (applyWrites (rowWrites isPositive uninitialized
                                      (rf_boundBody node) a mem) (intCells mem)))
                   mem eq_refl).
        apply applyWrites_lookup_indep.
        apply rowWrites_keys; [assumption | apply Hl; now right |]. eauto.
    + intros p Hp. rewrite IHother by (intros i j Hi; apply Hp; now right).
      rewrite rowEffect_writes. simpl. apply applyWrites_lookup_other.
      intros Hin. apply rowWrites_keys in Hin as (j & Hj & ->); [|assumption..].
      now apply (Hp a j (or_introl eq_refl)).
Qed.

Lemma NoDup_loop_range lo hi : NoDup (loop_range lo hi).
Proof.
  unfold loop_range. apply NoDup_fmap_2; [|apply NoDup_seq].
  intros a b E. lia.
Qed.

Lemma rf_Compile_runs compilerSettings node (frames : nat -> gmap Z ValueType)
    schedule (mem : Memory (ValueType := ValueType)) e :
  rf_wellFormed node -> 1 <= maxThreads compilerSettings <= INT_MAX ->
  rf_Compile compilerSettings node = Some e -> validSchedule e schedule ->
  runEmitted bindRowBody (execRow isPositive uninitialized) frames schedule e mem
  = Some (fold_left (fun mem i => rowEffect isPositive uninitialized
                                    (rf_boundBody node) i mem)
                    (loop_range 0 (rf_numOutputRows node)) mem).
Proof.
  intros Hwf HD He Hvalid.
  destruct (rf_parallel_matches_sequential isPositive uninitialized compilerSettings
              node frames frames schedule mem Hwf HD)
    as (parallel & Hpar & Hseq & Hrunpar & Hrunseq).
  assert (Hcs : compilerSettings
                = withParallelize (parallelize compilerSettings) compilerSettings)
    by (destruct compilerSettings; reflexivity).
  rewrite Hcs in He. destruct (parallelize compilerSettings).
  - rewrite Hpar in He. injection He as <-. now apply Hrunpar.
  - rewrite Hseq in He. injection He as <-. exact Hrunseq.
Qed.

(** X14: What the code that [BinaryReceptiveFieldMatrixNode::Compile] emits
    computes, with tasks or without.  For a node with sizes that fit, the
    run ends, and afterwards the bit at position
    [(rowIndex, columnIndex, channelIndex)] of packed row [outputRowIndex] of
    the output tells whether the input value at row
    [outputRow * stride + rowIndex], column
    [outputColumn * stride + columnIndex] and that channel is positive; the
    bits of a packed row past the receptive field are 0.  The run stores to
    the output buffer only, inside the size that the constructor gave to the
    output port. *)
Theorem rf_Compile_packs_the_receptive_fields compilerSettings node
    (frames : nat -> gmap Z ValueType) schedule
    (mem : Memory (ValueType := ValueType)) e :
  rf_wellFormed node -> 1 <= maxThreads compilerSettings <= INT_MAX ->
  rf_Compile compilerSettings node = Some e -> validSchedule e schedule ->
  let filterWidth := receptiveField (rf_convolutionalParameters node) in
  let numChannels := dimension (GetActiveSize (rf_inputMemoryLayout node)) 2 in
  let outputImageWidth := dimension (GetActiveSize (rf_outputMemoryLayout node)) 1 in
  let stride := wrap (stride (rf_convolutionalParameters node)) in
  let numBits := 8 * sizeof (rf_PackedBitsType node) in
  let packedRowSize := (filterWidth * filterWidth * numChannels - 1) / numBits + 1 in
  exists mem',
    runEmitted bindRowBody (execRow isPositive uninitialized) frames schedule e mem
    = Some mem' /\
    realCells mem' = realCells mem /\
    (forall outputRowIndex rowIndex columnIndex channelIndex,
       0 <= outputRowIndex < rf_numOutputRows node ->
       0 <= rowIndex < filterWidth -> 0 <= columnIndex < filterWidth ->
       0 <= channelIndex < numChannels ->
       streamBit numBits
         (fun j => readInt mem' (output, 0) (outputRowIndex * packedRowSize + j))
         (rowMajorOffset [filterWidth; filterWidth; numChannels]
                         rowIndex columnIndex channelIndex)
       = isPositive
           (readReal uninitialized mem (input, 0)
              (rowMajorOffset (GetExtent (rf_inputMemoryLayout node))
                 (int_add (int_mul (Z.quot outputRowIndex outputImageWidth) stride)
                          rowIndex)
                 (int_add (int_mul (Z.rem outputRowIndex outputImageWidth) stride)
                          columnIndex)
                 channelIndex))) /\
    (forall outputRowIndex k,
       0 <= outputRowIndex < rf_numOutputRows node ->
       filterWidth * filterWidth * numChannels <= k < numBits * packedRowSize ->
       streamBit numBits
         (fun j => readInt mem' (output, 0) (outputRowIndex * packedRowSize + j)) k
       = false) /\
    rf_outputSize node = rf_numOutputRows node * packedRowSize /\
    (forall p, (forall j, 0 <= j < rf_outputSize node -> p <> (output, j)) ->
       intCells mem' !! p = intCells mem !! p).
Proof.
  intros Hwf HD He Hvalid. cbv zeta.
  destruct (rf_sizes node Hwf) as (Hw & Hprs & Hnv & Hprs1 & Hcap & Hsize & Hmax).
  cbv zeta in *.
  pose proof (rf_numOutputRows_exact node Hwf) as HN.
  destruct (numBits_cases (rf_PackedBitsType node)) as [_ Hbits].
  set (fw := receptiveField (rf_convolutionalParameters node)) in *.
  set (nc := dimension (GetActiveSize (rf_inputMemoryLayout node)) 2) in *.
  set (bits := 8 * sizeof (rf_PackedBitsType node)) in *.
  set (prs := (fw * fw * nc - 1) / bits + 1) in *.
  assert (Hfvs : 1 <= fw * fw * nc <= INT_MAX).
  { destruct Hwf as (Hfw1 & Hnc1 & Hmax1 & _). fold fw nc in Hfw1, Hnc1, Hmax1.
    unfold INT_MAX. split; [nia | assumption]. }
  eexists. split; [apply (rf_Compile_runs _ _ _ _ _ _ Hwf HD He Hvalid)|].
  destruct (rows_fold node (loop_range 0 (rf_numOutputRows node)) Hwf
              (NoDup_loop_range _ _)
              (fun i Hi => proj1 (in_loop_range _ _ i) Hi) mem)
    as (Hreal & Hrow & Hother).
  rewrite Hprs in Hrow, Hother.
  set (final := fold_left _ _ mem) in *.
  assert (Hblock : forall i k, 0 <= i < rf_numOutputRows node -> 0 <= k < bits * prs ->
            streamBit bits (fun j => readInt final (output, 0) (i * prs + j)) k
            = (k <? fw * fw * nc)
              && isPositive
                   (readScratch uninitialized
                      (LoadRow uninitialized mem (input, 0) (rf_inputMemoryLayout node) i
                         (rf_outputMemoryLayout node) (rf_convolutionalParameters node) ∅)
                      k)).
  { intros i k Hi Hk.
    pose proof (CompressRow_bits isPositive uninitialized
                  (rf_PackedBitsType node)
                  (LoadRow uninitialized mem (input, 0) (rf_inputMemoryLayout node) i
                     (rf_outputMemoryLayout node) (rf_convolutionalParameters node) ∅)
                  (PointerOffset (output, 0) (int_mul i prs)) (fw * fw * nc) mem Hfvs)
      as (Hbits' & _). cbv zeta in Hbits'. fold bits prs in Hbits'.
    rewrite <- (Hbits' k Hk). unfold streamBit.
    assert (Q : 0 <= k / bits < prs).
    { split; [apply Z.div_pos; lia | apply Z.div_lt_upper_bound; lia]. }
    assert (Hoff : int_mul i prs = i * prs).
    { unfold int_mul. apply wrap_small. unfold is_int, INT_MIN, INT_MAX.
      unfold INT_MAX in Hmax. nia. }
    f_equal. unfold readInt, PointerOffset. simpl. rewrite Hoff, !Z.add_0_l.
    unfold Ptr.
    rewrite (Hrow i (k / bits) (proj2 (in_loop_range _ _ i) Hi) Q).
    assert (Heff :
      rowEffect isPositive uninitialized (rf_boundBody node) i mem
      = CompressRow isPositive uninitialized (rf_PackedBitsType node)
          (LoadRow uninitialized mem (input, 0) (rf_inputMemoryLayout node) i
             (rf_outputMemoryLayout node) (rf_convolutionalParameters node) ∅)
          (PointerOffset (output, 0)
             (int_mul i (bound_row_packedRowSize (rf_boundBody node))))
          (wrap (bound_row_fieldVolumeSize (rf_boundBody node))) mem)
      by reflexivity.
    rewrite Heff, Hnv, Hprs, Hoff. unfold PointerOffset. simpl.
    rewrite Z.add_0_l. reflexivity. }
  split; [exact Hreal|]. split; [|split; [|split]].
  - intros i r c ch Hi Hr Hc Hch.
    assert (Hk : 0 <= rowMajorOffset [fw; fw; nc] r c ch < fw * fw * nc).
    { unfold rowMajorOffset, dimension. simpl.
      assert (0 <= r * fw + c <= fw * fw - 1) by nia. nia. }
    rewrite Hblock by (try assumption; lia).
    replace (rowMajorOffset [fw; fw; nc] r c ch <? fw * fw * nc) with true
      by (symmetry; apply Z.ltb_lt; lia).
    simpl. f_equal. unfold readScratch.
    destruct (LoadRow_cells uninitialized mem (input, 0)
                (rf_inputMemoryLayout node) i (rf_outputMemoryLayout node)
                (rf_convolutionalParameters node) ∅) as [Hload _].
    cbv zeta in Hload. fold nc fw in Hload. rewrite Hw in Hload.
    now rewrite (Hload r c ch Hr Hc Hch).
  - intros i k Hi Hk. rewrite Hblock by (try assumption; lia).
    replace (k <? fw * fw * nc) with false by (symmetry; apply Z.ltb_ge; lia).
    reflexivity.
  - exact Hsize.
  - intros p Hp. apply Hother. intros i j Hi Hj E. apply in_loop_range in Hi.
    apply (Hp (i * prs + j)); [|exact E]. rewrite Hsize. nia.
Qed.

End ReceptiveFields.

Lemma GetCompressedFilterWeights_concat t filterWeights :
  GetCompressedFilterWeights t filterWeights
  = concat (map (PushPackedBits t []) filterWeights).
Proof.
  unfold GetCompressedFilterWeights.
  assert (G : forall vec,
            fold_left (PushPackedBits t) filterWeights vec
            = vec ++ concat (map (PushPackedBits t []) filterWeights)).
  { induction filterWeights as [|w ws IH]; intros vec; simpl.
    - now rewrite app_nil_r.
    - rewrite IH, PushPackedBits_appends, <- app_assoc. reflexivity. }
  apply (G []).
Qed.

Lemma nth_concat_uniform (chunks : list (list Z)) (size : nat) :
  Forall (fun chunk => length chunk = size) chunks ->
  forall (f j : nat) chunk,
    chunks !! f = Some chunk -> (j < size)%nat ->
    nth (f * size + j) (concat chunks) 0 = nth j chunk 0.
Proof.
  induction 1 as [|c chunks Hc _ IH]; intros f j chunk Hf Hj; [destruct f; discriminate|].
  destruct f as [|f]; simpl in Hf.
  - injection Hf as <-. simpl. rewrite app_nth1 by lia. reflexivity.
  - simpl concat. rewrite app_nth2 by lia.
    replace (S f * size + j - length c)%nat with (f * size + j)%nat by lia.
    now apply IH.
Qed.

Lemma length_concat_uniform (chunks : list (list Z)) (size : nat) :
  Forall (fun chunk => length chunk = size) chunks ->
  length (concat chunks) = (size * length chunks)%nat.
Proof.
  induction 1 as [|c chunks Hc _ IH]; simpl; [lia|].
  rewrite length_app, IH. lia.
Qed.

Lemma xn_packedRowStride compilerSettings node taskFunction :
  xn_fieldFits node ->
  xn_GetTaskFunction compilerSettings node = Some taskFunction ->
  flt_packedRowStride (loopBody (functionCode taskFunction))
  = ((xn_fieldVolumeSize node - 1) / 64 + 1) * (8 / sizeof (xn_PackedBitsType node)) /\
  flt_packedRowSize (loopBody (functionCode taskFunction))
  = (xn_fieldVolumeSize node - 1) / (8 * sizeof (xn_PackedBitsType node)) + 1.
Proof.
  intros (Hfw & Hnc & Hmax). unfold xn_fieldVolumeSize, INT_MAX in *.
  unfold xn_GetTaskFunction. cbv zeta.
  destruct (if allowVectorInstructions compilerSettings
            then option_map wrap _ else Some 0) as [nvb|]; [|discriminate].
  simpl. intros [= <-]. simpl.
  set (fw := receptiveField (xn_convolutionalParameters node)) in *.
  set (nc := dimension (GetActiveSize (xn_inputMemoryLayout node)) 2) in *.
  assert (Hfw2 : fw * fw <= 2147483647) by nia.
  rewrite (size_t_small (fw * fw)) by nia.
  rewrite (size_t_small nc) by nia.
  rewrite (size_t_small (fw * fw * nc)) by nia.
  rewrite (size_t_small (fw * fw * nc - 1)) by nia.
  assert (Q0 : 0 <= (fw * fw * nc - 1) / 64 <= (fw * fw * nc - 1) / 32).
  { split; [apply Z.div_pos; nia|].
    pose proof (Z.div_mod (fw * fw * nc - 1) 64 ltac:(lia)).
    pose proof (Z.mod_pos_bound (fw * fw * nc - 1) 64 ltac:(lia)).
    apply Z.div_le_lower_bound; lia. }
  assert (Q1 : (fw * fw * nc - 1) / 32 <= (fw * fw * nc - 1) / 2).
  { pose proof (Z.div_mod (fw * fw * nc - 1) 32 ltac:(lia)).
    pose proof (Z.mod_pos_bound (fw * fw * nc - 1) 32 ltac:(lia)).
    apply Z.div_le_lower_bound; lia. }
  assert (Q2 : (fw * fw * nc - 1) / 2 <= 1073741823)
    by (apply Z.div_le_upper_bound; lia).
  assert (Q3 : (fw * fw * nc - 1) / 64 <= 33554432)
    by (apply Z.div_le_upper_bound; lia).
  change (size_t 64) with 64. change (size_t 8) with 8.
  rewrite (size_t_small ((fw * fw * nc - 1) / 64 + 1)) by lia.
  destruct (xn_PackedBitsType node); simpl sizeof.
  - change (size_t (8 * 4)) with 32. change (32 / 8) with 4. change (8 / 4) with 2.
    rewrite (size_t_small ((fw * fw * nc - 1) / 32 + 1)) by lia.
    rewrite (size_t_small (((fw * fw * nc - 1) / 64 + 1) * 2)) by lia.
    rewrite !wrap_small by (unfold is_int, INT_MIN, INT_MAX; lia). auto.
  - change (size_t (8 * 8)) with 64. change (64 / 8) with 8. change (8 / 8) with 1.
    rewrite (size_t_small ((fw * fw * nc - 1) / 64 + 1)) by lia.
    rewrite (size_t_small (((fw * fw * nc - 1) / 64 + 1) * 1)) by lia.
    rewrite !wrap_small by (unfold is_int, INT_MIN, INT_MAX; lia). auto.
Qed.

(** X15: The vector that [GetCompressedFilterWeights] (and
    [GetCompressedInputPaddingMask]) builds has the layout that the xnor
    node reads: when every filter comes as the 64-bit words of one row, the
    bits of filter [filterIndex] begin at block [filterIndex * packedRowStride],
    the [weightsBegin] of [ComputeFilterOutput], with 32-bit blocks as well as
    with 64-bit ones. *)
Theorem compressed_weights_follow_the_row_stride compilerSettings node taskFunction
    filterWeights :
  xn_fieldFits node ->
  xn_GetTaskFunction compilerSettings node = Some taskFunction ->
  Forall (fun w => Z.of_nat (length w) = (xn_fieldVolumeSize node - 1) / 64 + 1)
         filterWeights ->
  let t := xn_PackedBitsType node in
  let packedRowStride := flt_packedRowStride (loopBody (functionCode taskFunction)) in
  let weights := GetCompressedFilterWeights t filterWeights in
  GetCompressedInputPaddingMask t filterWeights = weights /\
  Z.of_nat (length weights) = packedRowStride * Z.of_nat (length filterWeights) /\
  forall (filterIndex : nat) w k,
    filterWeights !! filterIndex = Some w ->
    0 <= k < 64 * ((xn_fieldVolumeSize node - 1) / 64 + 1) ->
    streamBit (8 * sizeof t)
      (fun j => blockAt weights (Z.of_nat filterIndex * packedRowStride + j)) k
    = streamBit 64 (blockAt w) k.
Proof.
  intros Hfit Htf Hlen. cbv zeta.
  destruct (xn_packedRowStride _ _ _ Hfit Htf) as [-> _].
  destruct Hfit as (Hfw & Hnc & Hmax). unfold INT_MAX in Hmax.
  set (t := xn_PackedBitsType node).
  set (L := (xn_fieldVolumeSize node - 1) / 64 + 1) in *.
  assert (HL : 1 <= L).
  { assert (0 <= (xn_fieldVolumeSize node - 1) / 64); [|lia].
    apply Z.div_pos; [unfold xn_fieldVolumeSize; nia | lia]. }
  assert (Hr : 1 <= 8 / sizeof t <= 2 /\ 8 * sizeof t * (8 / sizeof t) = 64)
    by (destruct t; vm_compute; repeat split; discriminate).
  destruct (numBits_cases t) as [_ Hbits].
  set (size := Z.to_nat (L * (8 / sizeof t))).
  assert (Hchunks : Forall (fun chunk => length chunk = size)
                           (map (PushPackedBits t []) filterWeights)).
  { apply Forall_map. eapply Forall_impl; [exact Hlen|]. intros w Hw. simpl.
    pose proof (PushPackedBits_length t w) as Hpl. rewrite Hw in Hpl. unfold size. nia. }
  split; [reflexivity|]. split.
  - rewrite GetCompressedFilterWeights_concat.
    rewrite (length_concat_uniform _ size Hchunks), length_map. unfold size. nia.
  - intros f w k Hf Hk. unfold streamBit at 1. unfold blockAt at 1.
    rewrite GetCompressedFilterWeights_concat.
    pose proof (Z.div_mod k (8 * sizeof t) ltac:(lia)) as DM.
    pose proof (Z.mod_pos_bound k (8 * sizeof t) ltac:(lia)) as MB.
    assert (Q : 0 <= k / (8 * sizeof t) < L * (8 / sizeof t)).
    { split; [apply Z.div_pos; lia | apply Z.div_lt_upper_bound; nia]. }
    replace (Z.to_nat (Z.of_nat f * (L * (8 / sizeof t)) + k / (8 * sizeof t)))
      with (f * size + Z.to_nat (k / (8 * sizeof t)))%nat by (unfold size; nia).
    rewrite (nth_concat_uniform _ size Hchunks f _ (PushPackedBits t [] w))
      by (try (rewrite list_lookup_fmap, Hf; reflexivity); unfold size; lia).
    assert (Hw : Z.of_nat (length w) = L).
    { rewrite Forall_forall in Hlen. apply Hlen.
      apply list_elem_of_lookup. eauto. }
    rewrite <- (PushPackedBits_bits t w k) by lia. reflexivity.
Qed.

Lemma CompressRow_packs_signs_witness :
  let realRow : gmap Z Z := {[ 0 := 5; 1 := -2; 2 := 7 ]} in
  let mem' := CompressRow (Z.ltb 0) 0 int32_t realRow (output, 0) 3 sampleMemory in
  (forall k, 0 <= k < 32 * 1 ->
     streamBit 32 (readInt mem' (output, 0)) k
     = (k <? 3) && (0 <? readScratch 0 realRow k)) /\
  realCells mem' = realCells sampleMemory /\
  (forall p, (forall j, 0 <= j < 1 -> p <> PointerOffset (output, 0) j) ->
     intCells mem' !! p = intCells sampleMemory !! p).
Proof.
  apply (CompressRow_packs_signs (Z.ltb 0) 0 int32_t
           ({[ 0 := 5; 1 := -2; 2 := 7 ]} : gmap Z Z) (output, 0) 3 sampleMemory).
  unfold INT_MAX. lia.
Defined.

Lemma rf_Compile_packs_the_receptive_fields_witness :
  exists mem',
    runEmitted bindRowBody (execRow (Z.ltb 0) 0) (fun _ => ∅) [0; 1; 2; 3]%nat
      (StartTasksWaitAll (rf_GetTaskFunction sampleReceptiveFieldNode)
         (map rf_taskArgs [(0, 4); (4, 8); (8, 12); (12, 16)])) sampleMemory
    = Some mem' /\
    realCells mem' = realCells sampleMemory /\
    (forall outputRowIndex rowIndex columnIndex channelIndex,
       0 <= outputRowIndex < 16 ->
       0 <= rowIndex < 3 -> 0 <= columnIndex < 3 -> 0 <= channelIndex < 2 ->
       streamBit 64 (fun j => readInt mem' (output, 0) (outputRowIndex * 1 + j))
                 (rowMajorOffset [3; 3; 2] rowIndex columnIndex channelIndex)
       = (0 <? readReal 0 sampleMemory (input, 0)
                 (rowMajorOffset [6; 6; 2]
                    (int_add (int_mul (Z.quot outputRowIndex 4) 1) rowIndex)
                    (int_add (int_mul (Z.rem outputRowIndex 4) 1) columnIndex)
                    channelIndex))) /\
    rf_outputSize sampleReceptiveFieldNode = 16.
Proof.
  destruct (rf_Compile_packs_the_receptive_fields (Z.ltb 0) 0 (sampleOptions true)
              sampleReceptiveFieldNode (fun _ => ∅) [0; 1; 2; 3]%nat sampleMemory
              (StartTasksWaitAll (rf_GetTaskFunction sampleReceptiveFieldNode)
                 (map rf_taskArgs [(0, 4); (4, 8); (8, 12); (12, 16)])))
    as (mem' & Hrun & Hreal & Hbits & _ & Hsize & _).
  - exact (proj1 sample_nodes_wellFormed).
  - vm_compute. split; discriminate.
  - reflexivity.
  - simpl. reflexivity.
  - exists mem'. split; [exact Hrun|]. split; [exact Hreal|].
    split; [exact Hbits | exact Hsize].
Defined.

Lemma compressed_weights_follow_the_row_stride_witness :
  exists taskFunction,
    xn_GetTaskFunction (sampleOptions true) sampleXnorNode = Some taskFunction /\
    let packedRowStride := flt_packedRowStride (loopBody (functionCode taskFunction)) in
    let weights := GetCompressedFilterWeights int64_t [[5]; [6]] in
    GetCompressedInputPaddingMask int64_t [[5]; [6]] = weights /\
    Z.of_nat (length weights) = packedRowStride * 2 /\
    forall (filterIndex : nat) w k,
      [[5]; [6]] !! filterIndex = Some w -> 0 <= k < 64 * 1 ->
      streamBit 64 (fun j => blockAt weights (Z.of_nat filterIndex * packedRowStride + j)) k
      = streamBit 64 (blockAt w) k.
Proof.
  eexists. split; [reflexivity|].
  apply (compressed_weights_follow_the_row_stride (sampleOptions true) sampleXnorNode _
           [[5]; [6]]).
  - unfold xn_fieldFits, xn_fieldVolumeSize. repeat split; vm_compute; discriminate.
  - reflexivity.
  - repeat constructor.
Defined.

End PackingFacts.

Module SignedBitFacts.
Import MachineInt MachineIntFacts TaskSplit TaskSplitFacts.
Import BinaryConvolution Execution LoopFacts CompileFacts ExecutionFacts.
Import Packing PackingFacts SignedBits.

Lemma Zsum_app l1 l2 : Zsum (l1 ++ l2) = Zsum l1 + Zsum l2.
Proof. induction l1 as [|x l1 IH]; simpl; [reflexivity | rewrite IH; lia]. Qed.

Lemma loop_range_indices n : loop_range 0 n = loop_indices n.
Proof.
  unfold loop_range, loop_indices. rewrite Z.sub_0_r. apply map_ext. intros k. lia.
Qed.

Lemma loop_range_shift lo n :
  loop_range lo (lo + n) = map (fun i => lo + i) (loop_indices n).
Proof.
  unfold loop_range, loop_indices. rewrite map_map.
  replace (lo + n - lo) with n by lia. reflexivity.
Qed.

Lemma loop_range_snoc lo hi : lo <= hi -> loop_range lo (hi + 1) = loop_range lo hi ++ [hi].
Proof.
  intros H. rewrite (loop_range_split lo hi (hi + 1)) by lia. f_equal.
  unfold loop_range. replace (hi + 1 - hi) with 1 by lia. simpl. f_equal. lia.
Qed.

(** Equality of packed values is equality modulo [2 ^ numBits]. *)
Lemma wrapPacked_eq t x y :
  x mod 2 ^ (8 * sizeof t) = y mod 2 ^ (8 * sizeof t) -> wrapPacked t x = wrapPacked t y.
Proof.
  destruct (numBits_pow t) as (Hw & Hp & Hh). intros E. unfold wrapPacked. cbv zeta.
  rewrite Hh. f_equal.
  rewrite (Zplus_mod x), (Zplus_mod y), E. reflexivity.
Qed.

Lemma wrapPacked_add_l t a b :
  wrapPacked t (wrapPacked t a + b) = wrapPacked t (a + b).
Proof.
  apply wrapPacked_eq. rewrite Zplus_mod, wrapPacked_mod, <- Zplus_mod. reflexivity.
Qed.

Lemma wrapPacked_add_r t a b :
  wrapPacked t (a + wrapPacked t b) = wrapPacked t (a + b).
Proof. rewrite Z.add_comm, wrapPacked_add_l. f_equal. lia. Qed.

Lemma wrapPacked_idem t a : wrapPacked t (wrapPacked t a) = wrapPacked t a.
Proof. apply wrapPacked_eq, wrapPacked_mod. Qed.

Lemma fold_wrapPacked_sum t (c : Z -> Z) l :
  forall acc,
    wrapPacked t (fold_left (fun s j => wrapPacked t (s + c j)) l acc)
    = wrapPacked t (acc + Zsum (map c l)).
Proof.
  induction l as [|j l IH]; intros acc; simpl.
  - f_equal. lia.
  - rewrite IH, wrapPacked_add_l. f_equal. lia.
Qed.

Lemma fold_wrapPacked_sum_0 t (c : Z -> Z) l :
  fold_left (fun s j => wrapPacked t (s + c j)) l 0 = wrapPacked t (Zsum (map c l)).
Proof.
  destruct l as [|j l]; [destruct t; reflexivity|]. simpl.
  assert (G : forall l acc,
            fold_left (fun s j => wrapPacked t (s + c j)) l (wrapPacked t acc)
            = wrapPacked t (acc + Zsum (map c l))).
  { clear. induction l as [|j l IH]; intros acc; simpl.
    - f_equal. lia.
    - rewrite wrapPacked_add_l, IH. f_equal. lia. }
  rewrite G. reflexivity.
Qed.

Lemma zip_with_maps {A B C D E : Type} (f : B * C -> D -> E)
    (g : A -> B) (h : A -> C) (k : A -> D) l :
  zip_with f (zip (map g l) (map h l)) (map k l) = map (fun x => f (g x, h x) (k x)) l.
Proof. induction l as [|x l IH]; simpl; [reflexivity | now rewrite IH]. Qed.

Lemma Zsum_zip_with_mod t xs :
  forall cs, length xs = length cs ->
    Zsum (zip_with (fun s c => wrapPacked t (s + c)) xs cs) mod 2 ^ (8 * sizeof t)
    = (Zsum xs + Zsum cs) mod 2 ^ (8 * sizeof t).
Proof.
  induction xs as [|x xs IH]; intros [|c cs] Hlen; simpl in *; try discriminate.
  - reflexivity.
  - rewrite Zplus_mod, wrapPacked_mod, IH by lia. rewrite <- Zplus_mod. f_equal. lia.
Qed.

Lemma loop_indices_succ_block vs m :
  0 <= vs -> 0 <= m ->
  loop_indices (vs * (m + 1))
  = loop_indices (vs * m) ++ map (fun lane => m * vs + lane) (loop_indices vs).
Proof.
  intros Hvs Hm.
  rewrite <- (loop_range_indices (vs * (m + 1))), <- (loop_range_indices (vs * m)).
  rewrite (loop_range_split 0 (vs * m) (vs * (m + 1))) by nia. f_equal.
  replace (vs * (m + 1)) with (vs * m + vs) by lia.
  rewrite loop_range_shift. apply map_ext. intros lane. lia.
Qed.

Lemma vector_lanes_sum t (cnt : Z -> Z) vs :
  0 <= vs ->
  forall m : nat,
    let lanes :=
      fold_left
        (fun xs b =>
           zip_with (fun s c => wrapPacked t (s + c)) xs
                    (map (fun lane => cnt (b * vs + lane)) (loop_indices vs)))
        (loop_range 0 (Z.of_nat m)) (FillVector vs 0) in
    length lanes = Z.to_nat vs /\
    Zsum lanes mod 2 ^ (8 * sizeof t)
    = Zsum (map cnt (loop_indices (vs * Z.of_nat m))) mod 2 ^ (8 * sizeof t).
Proof.
  intros Hvs. induction m as [|m [IHlen IHsum]]; cbv zeta.
  - rewrite loop_range_empty by lia. simpl. rewrite Z.mul_0_r. simpl.
    unfold FillVector, loop_indices. rewrite !length_map, length_seq. split; [reflexivity|].
    f_equal. induction (seq 0 (Z.to_nat vs)) as [|x l IH]; simpl; [reflexivity | lia].
  - replace (Z.of_nat (S m)) with (Z.of_nat m + 1) by lia.
    rewrite loop_range_snoc by lia. rewrite fold_left_app. simpl.
    cbv zeta in IHlen, IHsum.
    set (lanes := fold_left _ (loop_range 0 (Z.of_nat m)) (FillVector vs 0)) in *.
    assert (Hcounts : length (map (fun lane => cnt (Z.of_nat m * vs + lane))
                                  (loop_indices vs)) = Z.to_nat vs).
    { unfold loop_indices. now rewrite !length_map, length_seq. }
    split.
    + rewrite length_zip_with. lia.
    + rewrite Zsum_zip_with_mod by lia.
      rewrite loop_indices_succ_block by lia.
      rewrite map_app, Zsum_app, map_map.
      rewrite Zplus_mod, IHsum, <- Zplus_mod. reflexivity.
Qed.

Lemma HorizontalVectorSum_sum t xs :
  HorizontalVectorSum t xs = wrapPacked t (Zsum xs).
Proof.
  unfold HorizontalVectorSum.
  rewrite (fold_wrapPacked_sum_0 t (fun x => x)). now rewrite map_id.
Qed.

Section InnerLoop.
Context {ValueType : Type}.

Lemma EmitInnerLoop_sum (mem : Memory (ValueType := ValueType)) t ip pp wp start n hz :
  is_int (start + n) ->
  EmitInnerLoop mem t ip pp wp 0 start n hz
  = wrapPacked t (Zsum (map (blockCount mem t hz ip pp wp)
                            (loop_range start (start + n)))).
Proof.
  intros Hint. unfold EmitInnerLoop, For, int_add. rewrite (wrap_small _ Hint).
  apply (fold_wrapPacked_sum_0 t (blockCount mem t hz ip pp wp)).
Qed.

Lemma EmitInnerLoopVector_sum (mem : Memory (ValueType := ValueType)) t vs ip pp wp n hz :
  0 <= vs -> 0 <= n -> is_int n ->
  HorizontalVectorSum t
    (EmitInnerLoopVector mem t vs ip pp wp (FillVector vs 0) 0 n hz)
  = wrapPacked t (Zsum (map (blockCount mem t hz ip pp wp) (loop_indices (vs * n)))).
Proof.
  intros Hvs Hn Hint. rewrite HorizontalVectorSum_sum. apply wrapPacked_eq.
  unfold EmitInnerLoopVector, For, int_add. rewrite Z.add_0_l, (wrap_small _ Hint).
  destruct (vector_lanes_sum t (blockCount mem t hz ip pp wp) vs Hvs (Z.to_nat n))
    as [_ Hsum]. cbv zeta in Hsum. rewrite Z2Nat.id in Hsum by lia.
  rewrite <- Hsum. do 2 f_equal.
  apply fold_left_ext_in. intros xs b _. f_equal.
  unfold readVector. apply zip_with_maps.
Qed.

Lemma xorSumOf_total (mem : Memory (ValueType := ValueType)) t hz ip pp wp prs vs nvb :
  1 <= prs <= INT_MAX -> vectorsFit vs nvb prs ->
  xorSumOf mem t hz ip pp wp prs vs nvb
  = wrapPacked t (Zsum (map (blockCount mem t hz ip pp wp) (loop_indices prs))).
Proof.
  unfold INT_MAX. intros Hprs (Hnvb & Hfit & Hvs). unfold xorSumOf. cbv zeta.
  assert (Hstart : int_mul vs nvb = vs * nvb).
  { unfold int_mul. apply wrap_small. unfold is_int, INT_MIN, INT_MAX. lia. }
  rewrite Hstart.
  assert (Hscalar : int_sub prs (vs * nvb) = prs - vs * nvb).
  { unfold int_sub. apply wrap_small. unfold is_int, INT_MIN, INT_MAX. lia. }
  rewrite Hscalar.
  assert (Hsplit : Zsum (map (blockCount mem t hz ip pp wp) (loop_indices prs))
                   = Zsum (map (blockCount mem t hz ip pp wp) (loop_indices (vs * nvb)))
                     + Zsum (map (blockCount mem t hz ip pp wp)
                                 (loop_range (vs * nvb) prs))).
  { rewrite <- (loop_range_indices prs), <- (loop_range_indices (vs * nvb)).
    rewrite (loop_range_split 0 (vs * nvb) prs) by lia.
    now rewrite map_app, Zsum_app. }
  destruct (Z.ltb_spec 0 nvb) as [Hvec | Hnovec].
  - assert (Hnvb_int : is_int nvb).
    { unfold is_int, INT_MIN, INT_MAX. specialize (Hvs Hvec). nia. }
    rewrite EmitInnerLoopVector_sum by (try apply Hvs; try assumption; lia).
    destruct (Z.ltb_spec 0 (prs - vs * nvb)) as [Hsc | Hnosc].
    + rewrite EmitInnerLoop_sum by (unfold is_int, INT_MIN, INT_MAX; lia).
      replace (vs * nvb + (prs - vs * nvb)) with prs by lia.
      rewrite wrapPacked_add_l, wrapPacked_add_r, Hsplit. f_equal. lia.
    + assert (E : vs * nvb = prs) by lia. rewrite E. reflexivity.
  - assert (nvb = 0) by lia. subst nvb. rewrite Z.mul_0_r, Z.sub_0_r.
    destruct (Z.ltb_spec 0 prs) as [_ | ?]; [|lia].
    rewrite EmitInnerLoop_sum by (unfold is_int, INT_MIN, INT_MAX; lia).
    rewrite Z.add_0_l, loop_range_indices. reflexivity.
Qed.

End InnerLoop.

Lemma Zsum_indicator (p : Z -> bool) l :
  Zsum (map (fun i => if p i then 1 else 0) l) = Z.of_nat (length (List.filter p l)).
Proof.
  induction l as [|x l IH]; simpl; [reflexivity|].
  destruct (p x); simpl; lia.
Qed.

Lemma popcount_bits t x :
  popcount t x
  = Zsum (map (fun i => if Z.testbit x i then 1 else 0) (loop_indices (8 * sizeof t))).
Proof. unfold popcount. now rewrite Zsum_indicator. Qed.

Lemma loop_indices_succ n : 0 <= n -> loop_indices (n + 1) = loop_indices n ++ [n].
Proof.
  intros Hn. rewrite <- !loop_range_indices. now apply loop_range_snoc.
Qed.

Lemma Zsum_blocks (g : Z -> Z -> Z) nb :
  1 <= nb ->
  forall n : nat,
    Zsum (map (fun j => Zsum (map (g j) (loop_indices nb))) (loop_indices (Z.of_nat n)))
    = Zsum (map (fun k => g (k / nb) (k mod nb)) (loop_indices (nb * Z.of_nat n))).
Proof.
  intros Hnb. induction n as [|n IH].
  - rewrite Z.mul_0_r. reflexivity.
  - replace (Z.of_nat (S n)) with (Z.of_nat n + 1) by lia.
    rewrite loop_indices_succ by lia.
    rewrite loop_indices_succ_block by lia.
    rewrite !map_app, !Zsum_app, IH. f_equal. simpl. rewrite Z.add_0_r, map_map.
    f_equal. apply map_ext_in. intros i Hi. apply in_loop_indices in Hi.
    f_equal.
    + apply (Z.div_unique_pos _ nb _ i); lia.
    + apply (Z.mod_unique_pos _ nb (Z.of_nat n)); lia.
Qed.

Lemma dot_terms (hz : bool) (mask a w : Z -> bool) l :
  Z.of_nat (length l)
  - 2 * Zsum (map (fun k => if (if hz then mask k else true) && xorb (a k) (w k)
                            then 1 else 0) l)
  = Zsum (map (fun k => if hz && negb (mask k) then 0
                        else bitSign (a k) * bitSign (w k)) l)
    + (if hz then Z.of_nat (length (List.filter (fun k => negb (mask k)) l)) else 0).
Proof.
  induction l as [|x l IH]; [destruct hz; reflexivity|].
  cbn [length map Zsum fold_right List.filter].
  unfold Zsum in *.
  destruct hz, (mask x), (a x), (w x); cbn [negb andb xorb bitSign length] in *; lia.
Qed.

Lemma indicator_bounds (p : Z -> bool) l :
  0 <= Zsum (map (fun k => if p k then 1 else 0) l) <= Z.of_nat (length l).
Proof.
  induction l as [|x l IH]; simpl; [lia|]. destruct (p x); lia.
Qed.

Lemma indicator_zero (p : Z -> bool) l :
  (forall k, In k l -> p k = false) ->
  Zsum (map (fun k => if p k then 1 else 0) l) = 0.
Proof.
  induction l as [|x l IH]; intros H; simpl; [reflexivity|].
  rewrite (H x) by now left. rewrite IH; [reflexivity|]. intros k Hk. apply H. now right.
Qed.

Lemma length_loop_range lo hi : lo <= hi -> Z.of_nat (length (loop_range lo hi)) = hi - lo.
Proof. intros H. unfold loop_range. rewrite length_map, length_seq. lia. Qed.

(** The arithmetic of the xnor trick: with [S] the number of positions of
    the packed row where the masked xor has a set bit, [numBits * packedRowSize
    - 2 * S] is the dot product of the signs, plus one for every masked
    position and for every unused bit of the last block. *)
Lemma scaled_sum_is_dot (hz : bool) (mask a w : Z -> bool) nb prs V :
  1 <= nb -> 1 <= V -> prs = (V - 1) / nb + 1 ->
  (forall k, V <= k < nb * prs -> a k = w k) ->
  let S := Zsum (map (fun k => if (if hz then mask k else true) && xorb (a k) (w k)
                               then 1 else 0)
                     (loop_indices (nb * prs))) in
  0 <= S <= nb * prs /\
  V <= nb * prs /\
  nb * prs - 2 * S
  = maskedDot hz mask a w V + (if hz then maskedOut mask V else 0) + (nb * prs - V).
Proof.
  intros Hnb HV -> Htail. cbv zeta.
  pose proof (Z.div_mod (V - 1) nb ltac:(lia)) as DM.
  pose proof (Z.mod_pos_bound (V - 1) nb ltac:(lia)) as MB.
  set (N := nb * ((V - 1) / nb + 1)) in *.
  assert (HN : V <= N) by (unfold N; lia).
  pose proof (indicator_bounds
                (fun k => (if hz then mask k else true) && xorb (a k) (w k))
                (loop_indices N)) as Hb.
  assert (Hlen : Z.of_nat (length (loop_indices N)) = N).
  { rewrite <- loop_range_indices, length_loop_range; lia. }
  rewrite Hlen in Hb. split; [exact Hb|]. split; [exact HN|].
  rewrite <- (loop_range_indices N).
  rewrite (loop_range_split 0 V N) by lia. rewrite map_app, Zsum_app.
  rewrite (indicator_zero _ (loop_range V N)).
  - rewrite loop_range_indices.
    pose proof (dot_terms hz mask a w (loop_indices V)) as D.
    assert (HlenV : Z.of_nat (length (loop_indices V)) = V).
    { rewrite <- loop_range_indices, length_loop_range; lia. }
    rewrite HlenV in D. unfold maskedDot, maskedOut. lia.
  - intros k Hk. apply in_loop_range in Hk. rewrite (Htail k) by (fold N; lia).
    rewrite xorb_nilpotent. apply andb_false_r.
Qed.

Lemma numBits_half t : 2147483648 <= 2 ^ (8 * sizeof t - 1).
Proof. destruct t; vm_compute; discriminate. Qed.

Lemma wrap_add_l a b : wrap (wrap a + b) = wrap (a + b).
Proof.
  unfold wrap. f_equal.
  replace ((a + 2147483648) mod 4294967296 - 2147483648 + b + 2147483648)
    with ((a + 2147483648) mod 4294967296 + b) by lia.
  rewrite Zplus_mod_idemp_l. f_equal. lia.
Qed.

Lemma maskedDot_bounds hz mask a w n :
  0 <= n -> - n <= maskedDot hz mask a w n <= n.
Proof.
  intros Hn. unfold maskedDot.
  assert (G : forall l,
            - Z.of_nat (length l)
            <= Zsum (map (fun k => if hz && negb (mask k) then 0
                                   else bitSign (a k) * bitSign (w k)) l)
            <= Z.of_nat (length l)).
  { induction l as [|x l IH]; simpl; [lia|].
    destruct (hz && negb (mask x)), (a x), (w x); simpl; lia. }
  specialize (G (loop_indices n)).
  rewrite <- (loop_range_indices n), length_loop_range in G by lia.
  rewrite loop_range_indices in G. lia.
Qed.

Section Xnor.
Context {ValueType : Type}.
Variable castInt : Z -> ValueType.
Variable subtract : ValueType -> ValueType -> ValueType.
Variable multiply : ValueType -> ValueType -> ValueType.

Lemma filterOutputValue_xorSumOf b filterIndex filterMean outputColumnIndex
    (mem : Memory (ValueType := ValueType)) :
  filterOutputValue castInt subtract multiply b filterIndex filterMean
                    outputColumnIndex mem
  = let node := bound_flt_this b in
    let t := xn_PackedBitsType node in
    let packedRowSize := bound_flt_packedRowSize b in
    let packedRowStride := bound_flt_packedRowStride b in
    let numBits := int_mul 8 (wrap (sizeof t)) in
    let filterWidth := wrap (receptiveField (xn_convolutionalParameters node)) in
    let numInputChannels := dimension (GetActiveSize (xn_inputMemoryLayout node)) 2 in
    let fieldVolumeSize := int_mul (int_mul filterWidth filterWidth) numInputChannels in
    let partialBlockSize := Z.rem fieldVolumeSize numBits in
    let xorSum :=
      xorSumOf mem t (bound_flt_hasZeroPadding b)
        (PointerOffset (bound_flt_pInput b) (int_mul outputColumnIndex packedRowSize))
        (PointerOffset (bound_flt_pInputPaddingMask b)
                       (int_mul outputColumnIndex packedRowStride))
        (PointerOffset (bound_flt_pFilterWeights b) (int_mul filterIndex packedRowStride))
        packedRowSize (bound_flt_vectorSize b) (bound_flt_numVectorBlocks b) in
    let scaledSum :=
      int_add (int_mul (-2) (wrap xorSum)) (int_mul numBits packedRowSize) in
    let scaledSumWithPadding :=
      if bound_flt_hasZeroPadding b
      then int_sub scaledSum
             (readInt mem (bound_flt_pInputPaddingMaskSums b) outputColumnIndex)
      else scaledSum in
    let sumFloat := castInt scaledSumWithPadding in
    let adjustedSum :=
      if partialBlockSize =? 0 then sumFloat
      else subtract sumFloat (castInt (int_sub numBits partialBlockSize)) in
    scaleOutput multiply filterMean adjustedSum.
Proof. reflexivity. Qed.

Lemma blockCount_bits (mem : Memory (ValueType := ValueType)) t hz ip pp wp prs :
  0 <= prs ->
  Zsum (map (blockCount mem t hz ip pp wp) (loop_indices prs))
  = Zsum (map (fun k =>
                 if (if hz then streamBit (8 * sizeof t) (readInt mem pp) k else true)
                    && xorb (streamBit (8 * sizeof t) (readInt mem ip) k)
                            (streamBit (8 * sizeof t) (readInt mem wp) k)
                 then 1 else 0)
              (loop_indices (8 * sizeof t * prs))).
Proof.
  intros Hprs. destruct (numBits_pow t) as (Hnb & _).
  pose proof (Zsum_blocks
                (fun j i =>
                   if (if hz then Z.testbit (readInt mem pp j) i else true)
                      && xorb (Z.testbit (readInt mem ip j) i)
                              (Z.testbit (readInt mem wp j) i)
                   then 1 else 0)
                (8 * sizeof t) Hnb (Z.to_nat prs)) as E.
  rewrite Z2Nat.id in E by lia. unfold streamBit. rewrite <- E.
  f_equal. apply map_ext. intros j. unfold blockCount, xorCount.
  rewrite popcount_bits. f_equal. apply map_ext. intros i.
  destruct hz.
  - now rewrite Z.land_spec, Z.lxor_spec.
  - now rewrite Z.lxor_spec.
Qed.

(** The statement of [ComputeFilterOutput_is_a_dot_product], shared with the proofs that build on it. *)
Lemma filterOutputValue_dot (b : BoundFilterBody)
    filterIndex filterMean outputColumnIndex (mem : Memory (ValueType := ValueType)) :
  let node := bound_flt_this b in
  let numBits := 8 * sizeof (xn_PackedBitsType node) in
  let fieldVolumeSize := xn_fieldVolumeSize node in
  let packedRowSize := bound_flt_packedRowSize b in
  let packedRowStride := bound_flt_packedRowStride b in
  let hasZeroPadding := bound_flt_hasZeroPadding b in
  let inputBit :=
    streamBit numBits
      (readInt mem (PointerOffset (bound_flt_pInput b)
                                  (int_mul outputColumnIndex packedRowSize))) in
  let weightBit :=
    streamBit numBits
      (readInt mem (PointerOffset (bound_flt_pFilterWeights b)
                                  (int_mul filterIndex packedRowStride))) in
  let maskBit :=
    streamBit numBits
      (readInt mem (PointerOffset (bound_flt_pInputPaddingMask b)
                                  (int_mul outputColumnIndex packedRowStride))) in
  xn_rowFits node ->
  packedRowSize = (fieldVolumeSize - 1) / numBits + 1 ->
  vectorsFit (bound_flt_vectorSize b) (bound_flt_numVectorBlocks b) packedRowSize ->
  (forall k, fieldVolumeSize <= k < numBits * packedRowSize ->
     inputBit k = weightBit k) ->
  (hasZeroPadding = true ->
   readInt mem (bound_flt_pInputPaddingMaskSums b) outputColumnIndex
   = maskedOut maskBit fieldVolumeSize) ->
  filterOutputValue castInt subtract multiply b filterIndex filterMean
                    outputColumnIndex mem
  = scaleOutput multiply filterMean
      (adjustedOutput castInt subtract numBits fieldVolumeSize
         (maskedDot hasZeroPadding maskBit inputBit weightBit fieldVolumeSize)).
Proof.
  cbv zeta. intros (Hfw & Hnc & Hmax) Hprs Hvec Htail Hpad.
  unfold INT_MAX in Hmax. unfold xn_fieldVolumeSize in *.
  set (node := bound_flt_this b) in *.
  set (t := xn_PackedBitsType node) in *.
  set (fw := receptiveField (xn_convolutionalParameters node)) in *.
  set (nc := dimension (GetActiveSize (xn_inputMemoryLayout node)) 2) in *.
  set (V := fw * fw * nc) in *.
  set (prs := bound_flt_packedRowSize b) in *.
  set (stride := bound_flt_packedRowStride b) in *.
  set (hz := bound_flt_hasZeroPadding b) in *.
  destruct (numBits_pow t) as (Hnb1 & Hpow & Hhalf).
  destruct (numBits_cases t) as [Hnb Hbits].
  set (nb := 8 * sizeof t) in *.
  assert (HV : 1 <= V) by (unfold V; nia).
  pose proof (Z.div_mod (V - 1) nb ltac:(lia)) as DM.
  pose proof (Z.mod_pos_bound (V - 1) nb ltac:(lia)) as MB.
  assert (HN : nb * prs <= 2147483647) by (rewrite Hprs; lia).
  assert (Hprs1 : 1 <= prs <= INT_MAX).
  { unfold INT_MAX. rewrite Hprs.
    assert (0 <= (V - 1) / nb) by (apply Z.div_pos; lia). nia. }
  rewrite filterOutputValue_xorSumOf. cbv zeta.
  fold node t fw nc prs stride hz.
  rewrite (xorSumOf_total mem t hz _ _ _ prs _ _ Hprs1 Hvec).
  rewrite blockCount_bits by lia. fold nb.
  set (ip := PointerOffset (bound_flt_pInput b) (int_mul outputColumnIndex prs)) in *.
  set (wp := PointerOffset (bound_flt_pFilterWeights b) (int_mul filterIndex stride)) in *.
  set (pp := PointerOffset (bound_flt_pInputPaddingMask b)
                           (int_mul outputColumnIndex stride)) in *.
  destruct (scaled_sum_is_dot hz (streamBit nb (readInt mem pp))
              (streamBit nb (readInt mem ip)) (streamBit nb (readInt mem wp))
              nb prs V Hnb1 HV Hprs Htail) as (HS & HVN & Hdot).
  set (S := Zsum _) in *.
  pose proof (maskedDot_bounds hz (streamBit nb (readInt mem pp))
                (streamBit nb (readInt mem ip)) (streamBit nb (readInt mem wp))
                V ltac:(lia)) as HD.
  set (D := maskedDot _ _ _ _ _) in *.
  pose proof (numBits_half t) as Hhalf31. fold nb in Hhalf31.
  rewrite (wrapPacked_small t S) by (fold nb; lia).
  rewrite (wrap_small S) by (unfold is_int, INT_MIN, INT_MAX; lia).
  assert (Hsz : wrap (sizeof t) = sizeof t) by (destruct t; reflexivity).
  rewrite Hsz, Hnb. fold nb.
  assert (Hfw_w : wrap fw = fw).
  { apply wrap_small. unfold is_int, INT_MIN, INT_MAX. unfold V in Hmax. nia. }
  rewrite Hfw_w.
  assert (HfieldV : int_mul (int_mul fw fw) nc = V).
  { unfold int_mul. rewrite (wrap_small (fw * fw))
      by (unfold is_int, INT_MIN, INT_MAX; unfold V in Hmax; nia).
    apply wrap_small. unfold is_int, INT_MIN, INT_MAX. fold V. lia. }
  rewrite HfieldV. rewrite (Z.rem_mod_nonneg V nb) by lia.
  assert (Hscaled : int_add (int_mul (-2) S) (int_mul nb prs) = nb * prs - 2 * S).
  { unfold int_add, int_mul. rewrite (wrap_small (nb * prs))
      by (unfold is_int, INT_MIN, INT_MAX; lia).
    rewrite wrap_add_l. rewrite wrap_small by (unfold is_int, INT_MIN, INT_MAX; lia).
    lia. }
  rewrite Hscaled.
  assert (Hpadded :
    (if hz
     then int_sub (nb * prs - 2 * S)
            (readInt mem (bound_flt_pInputPaddingMaskSums b) outputColumnIndex)
     else nb * prs - 2 * S)
    = D + (nb * prs - V)).
  { destruct hz.
    - rewrite (Hpad eq_refl). unfold int_sub. rewrite wrap_small; [lia|].
      unfold is_int, INT_MIN, INT_MAX. lia.
    - lia. }
  rewrite Hpadded. f_equal. unfold adjustedOutput. cbv zeta.
  pose proof (Z.div_mod V nb ltac:(lia)) as DMV.
  pose proof (Z.mod_pos_bound V nb ltac:(lia)) as MBV.
  assert (Hadj : nb * prs - V = if V mod nb =? 0 then 0 else nb - V mod nb).
  { rewrite Hprs. destruct (Z.eqb_spec (V mod nb) 0) as [Hz | Hnz].
    - assert (E : (V - 1) / nb = V / nb - 1); [|rewrite E; lia].
      symmetry. apply (Z.div_unique_pos (V - 1) nb (V / nb - 1) (nb - 1)); lia.
    - assert (E : (V - 1) / nb = V / nb); [|rewrite E; lia].
      symmetry. apply (Z.div_unique_pos (V - 1) nb (V / nb) (V mod nb - 1)); lia. }
  destruct (Z.eqb_spec (V mod nb) 0) as [Hz | Hnz].
  - rewrite Hadj, Z.add_0_r. reflexivity.
  - assert (Hsub : int_sub nb (V mod nb) = nb - V mod nb).
    { unfold int_sub. apply wrap_small. unfold is_int, INT_MIN, INT_MAX. lia. }
    rewrite Hsub, Hadj. reflexivity.
Qed.

(** X16: What [ComputeFilterOutput] stores for one output column, for any
    [ValueType] with its cast from [int], its [-] and its [*].  Let [dot] be
    the dot product of the signs of the receptive field and the filter, the
    positions masked as zero padding left out.  For a row that fits, when
    the bits past the receptive field agree in the packed input row and the
    packed filter (after [CompressRow] they are 0), and, with zero padding,
    the padding sum of the column counts the masked positions, the value is
    the cast of [dot] if the receptive field fills its blocks; otherwise
    it is the cast of [dot + unusedBits] less the cast of [unusedBits],
    subtracted in [ValueType], with [unusedBits] the number of bits of the
    last block past the receptive field.  The filter mean multiplies it if
    the node scales.  The vector blocks and the scalar blocks give the same
    sum as scalar blocks alone would. *)
Theorem ComputeFilterOutput_is_a_dot_product (b : BoundFilterBody)
    filterIndex filterMean outputColumnIndex (mem : Memory (ValueType := ValueType)) :
  let node := bound_flt_this b in
  let numBits := 8 * sizeof (xn_PackedBitsType node) in
  let fieldVolumeSize := xn_fieldVolumeSize node in
  let packedRowSize := bound_flt_packedRowSize b in
  let packedRowStride := bound_flt_packedRowStride b in
  let hasZeroPadding := bound_flt_hasZeroPadding b in
  let inputBit :=
    streamBit numBits
      (readInt mem (PointerOffset (bound_flt_pInput b)
                                  (int_mul outputColumnIndex packedRowSize))) in
  let weightBit :=
    streamBit numBits
      (readInt mem (PointerOffset (bound_flt_pFilterWeights b)
                                  (int_mul filterIndex packedRowStride))) in
  let maskBit :=
    streamBit numBits
      (readInt mem (PointerOffset (bound_flt_pInputPaddingMask b)
                                  (int_mul outputColumnIndex packedRowStride))) in
  xn_rowFits node ->
  packedRowSize = (fieldVolumeSize - 1) / numBits + 1 ->
  vectorsFit (bound_flt_vectorSize b) (bound_flt_numVectorBlocks b) packedRowSize ->
  (forall k, fieldVolumeSize <= k < numBits * packedRowSize ->
     inputBit k = weightBit k) ->
  (hasZeroPadding = true ->
   readInt mem (bound_flt_pInputPaddingMaskSums b) outputColumnIndex
   = maskedOut maskBit fieldVolumeSize) ->
  filterOutputValue castInt subtract multiply b filterIndex filterMean
                    outputColumnIndex mem
  = scaleOutput multiply filterMean
      (adjustedOutput castInt subtract numBits fieldVolumeSize
         (maskedDot hasZeroPadding maskBit inputBit weightBit fieldVolumeSize)).
Proof. exact (filterOutputValue_dot b filterIndex filterMean outputColumnIndex mem). Qed.

End Xnor.

Lemma plainXnorBody_is_compiled :
  option_map xn_boundBody (xn_GetTaskFunction (sampleOptions true) plainXnorNode)
  = Some plainXnorBody.
Proof. reflexivity. Qed.

Lemma ComputeFilterOutput_is_a_dot_product_witness :
  filterOutputValue castDouble PrimFloat.sub PrimFloat.mul plainXnorBody 0 None 0
                    xnorMemoryDouble
  = adjustedOutput castDouble PrimFloat.sub 64 18
      (maskedDot false
         (streamBit 64 (readInt xnorMemoryDouble (inputPaddingMasks, 0)))
         (streamBit 64 (readInt xnorMemoryDouble (input, 0)))
         (streamBit 64 (readInt xnorMemoryDouble (filterWeights, 0))) 18)
  /\ filterOutputValue castDouble PrimFloat.sub PrimFloat.mul plainXnorBody 0 None 0
                       xnorMemoryDouble
     = castDouble 14.
Proof.
  split; [|reflexivity].
  apply (ComputeFilterOutput_is_a_dot_product castDouble PrimFloat.sub PrimFloat.mul
           plainXnorBody 0 None 0 xnorMemoryDouble).
  - unfold xn_rowFits, xn_fieldVolumeSize. repeat split; vm_compute; discriminate.
  - reflexivity.
  - unfold vectorsFit. simpl. lia.
  - intros k Hk. unfold streamBit.
    change (xn_fieldVolumeSize (bound_flt_this plainXnorBody)) with 18 in Hk.
    change (8 * sizeof (xn_PackedBitsType (bound_flt_this plainXnorBody))) with 64 in *.
    change (bound_flt_packedRowSize plainXnorBody) with 1 in Hk.
    rewrite (Z.div_small k 64), (Z.mod_small k 64) by lia.
    change (Z.testbit 5 k = Z.testbit 3 k).
    rewrite !Z.bits_above_log2 by (simpl; lia). reflexivity.
  - discriminate.
Defined.

Lemma xn_rowFits_fieldFits node : xn_rowFits node -> xn_fieldFits node.
Proof. intros (H1 & H2 & H3). unfold xn_fieldFits, INT_MAX in *. repeat split; lia. Qed.

Lemma vectorWidthFits_size_t compilerSettings :
  vectorWidthFits compilerSettings ->
  allowVectorInstructions compilerSettings = true ->
  size_t (vectorWidth compilerSettings) <> 0.
Proof.
  intros [Hint Hnz] Hallow. specialize (Hnz Hallow).
  unfold is_int, INT_MIN, INT_MAX, size_t in *.
  destruct (Z.lt_ge_cases (vectorWidth compilerSettings) 0).
  - rewrite <- (Z.mod_add _ 1) by lia. rewrite Z.mod_small; lia.
  - rewrite Z.mod_small; lia.
Qed.

(** The closure that [GetTaskFunction] builds for an xnor node. *)
Lemma xn_boundBody_fields compilerSettings node taskFunction :
  xn_rowFits node -> vectorWidthFits compilerSettings ->
  xn_GetTaskFunction compilerSettings node = Some taskFunction ->
  let numBits := 8 * sizeof (xn_PackedBitsType node) in
  let packedRowSize := (xn_fieldVolumeSize node - 1) / numBits + 1 in
  exists useVectorInstructions numVectorBlocks,
    xn_boundBody taskFunction
    = mkBoundFilterBody node (input, 0) (filterWeights, 0) (filterMeans, 0)
        (inputPaddingMasks, 0) (inputPaddingMaskSums, 0) (output, 0)
        (hasZeroPadding (xn_inputPaddingParameters node))
        (int_mul (dimension (GetActiveSize (xn_outputMemoryLayout node)) 0)
                 (dimension (GetActiveSize (xn_outputMemoryLayout node)) 1))
        packedRowSize
        (((xn_fieldVolumeSize node - 1) / 64 + 1) * (8 / sizeof (xn_PackedBitsType node)))
        useVectorInstructions (vectorWidth compilerSettings) numVectorBlocks /\
    vectorsFit (vectorWidth compilerSettings) numVectorBlocks packedRowSize.
Proof.
  intros Hfit [Hvw Hnz] Htf. cbv zeta.
  destruct (xn_packedRowStride _ _ _ (xn_rowFits_fieldFits _ Hfit) Htf) as [Hstride Hprs].
  destruct Hfit as (Hfw & Hnc & Hmax). unfold INT_MAX in Hmax.
  revert Htf Hstride Hprs. unfold xn_GetTaskFunction. cbv zeta.
  set (nb := 8 * sizeof (xn_PackedBitsType node)).
  assert (Hnb : nb = 32 \/ nb = 64) by apply numBits_cases.
  set (prs_sz := size_t (size_t (size_t (size_t _ * size_t _) - 1) / size_t nb + 1)).
  intros Htf Hstride Hprs.
  assert (HV : 1 <= xn_fieldVolumeSize node) by (unfold xn_fieldVolumeSize; nia).
  pose proof (Z.div_mod (xn_fieldVolumeSize node - 1) nb ltac:(lia)) as DM.
  pose proof (Z.mod_pos_bound (xn_fieldVolumeSize node - 1) nb ltac:(lia)) as MB.
  assert (Q0 : 0 <= (xn_fieldVolumeSize node - 1) / nb) by (apply Z.div_pos; lia).
  destruct (if allowVectorInstructions compilerSettings
            then option_map wrap (size_div prs_sz (size_t (vectorWidth compilerSettings)))
            else Some 0) as [nvb|] eqn:Hnvb; [|discriminate].
  simpl in Htf. injection Htf as <-. simpl in Hstride, Hprs.
  unfold xn_boundBody. simpl. rewrite Hstride, Hprs. fold nb.
  eexists _, nvb. split; [reflexivity|].
  assert (Hprs_sz : wrap prs_sz = (xn_fieldVolumeSize node - 1) / nb + 1) by exact Hprs.
  assert (Hsz : 0 <= prs_sz < 18446744073709551616).
  { unfold prs_sz, size_t. apply Z.mod_pos_bound. lia. }
  set (prs := (xn_fieldVolumeSize node - 1) / nb + 1) in *.
  assert (Hprs_eq : prs_sz = prs).
  { unfold prs_sz, prs. unfold xn_fieldVolumeSize in *.
    set (fw := receptiveField (xn_convolutionalParameters node)) in *.
    set (nc := dimension (GetActiveSize (xn_inputMemoryLayout node)) 2) in *.
    assert (fw * fw <= 2147483647) by nia.
    rewrite (size_t_small (fw * fw)) by nia.
    rewrite (size_t_small nc) by nia.
    rewrite (size_t_small (fw * fw * nc)) by nia.
    rewrite (size_t_small (fw * fw * nc - 1)) by nia.
    rewrite (size_t_small nb) by lia.
    apply size_t_small. nia. }
  unfold vectorsFit. destruct (allowVectorInstructions compilerSettings).
  - specialize (Hnz eq_refl). unfold size_div in Hnvb.
    unfold is_int, INT_MIN, INT_MAX in Hvw.
    destruct (Z.eqb_spec (size_t (vectorWidth compilerSettings)) 0) as [|Hw];
      [discriminate|]. simpl in Hnvb. injection Hnvb as <-. rewrite Hprs_eq.
    destruct (Z.lt_ge_cases (vectorWidth compilerSettings) 0) as [Hneg | Hpos].
    + assert (E : prs / size_t (vectorWidth compilerSettings) = 0).
      { apply Z.div_small. unfold size_t.
        rewrite <- (Z.mod_add _ 1) by lia. rewrite Z.mod_small; lia. }
      rewrite E. change (wrap 0) with 0. lia.
    + rewrite (size_t_small (vectorWidth compilerSettings)) by lia.
      set (vw := vectorWidth compilerSettings) in *.
      pose proof (Z.div_mod prs vw ltac:(lia)) as DV.
      pose proof (Z.mod_pos_bound prs vw ltac:(lia)) as MV.
      assert (0 <= prs / vw <= prs).
      { split; [apply Z.div_pos; lia | apply Z.div_le_upper_bound; nia]. }
      rewrite wrap_small by (unfold is_int, INT_MIN, INT_MAX; lia).
      repeat split; try lia; nia.
  - injection Hnvb as <-. lia.
Qed.

Section XnorRuns.
Context {ValueType : Type}.
Variable uninitialized : ValueType.
Variable castInt : Z -> ValueType.
Variable subtract : ValueType -> ValueType -> ValueType.
Variable multiply : ValueType -> ValueType -> ValueType.

Lemma xn_Compile_runs compilerSettings node (frames : nat -> unit) schedule
    (mem : Memory (ValueType := ValueType)) e :
  xn_wellFormed node -> 1 <= maxThreads compilerSettings <= INT_MAX ->
  vectorWidthFits compilerSettings ->
  xn_Compile compilerSettings node = Some e -> validSchedule e schedule ->
  exists taskFunction,
    xn_GetTaskFunction compilerSettings node = Some taskFunction /\
    runEmitted bindFilterBody (execFilter uninitialized castInt subtract multiply)
               frames schedule e mem
    = Some (fold_left
              (fun mem i => filterEffect uninitialized castInt subtract multiply
                              (xn_boundBody taskFunction) i mem)
              (loop_range 0 (xn_numFilters node)) mem).
Proof.
  intros Hwf HD Hvw He Hvalid.
  destruct (xn_parallel_matches_sequential uninitialized castInt subtract multiply
              compilerSettings node frames frames schedule mem Hwf HD
              (vectorWidthFits_size_t _ Hvw))
    as (tf & parallel & Htf & Hpar & Hseq & Hrunpar & Hrunseq).
  exists tf. split; [exact Htf|].
  assert (Hcs : compilerSettings
                = withParallelize (parallelize compilerSettings) compilerSettings)
    by (destruct compilerSettings; reflexivity).
  rewrite Hcs in He. destruct (parallelize compilerSettings).
  - rewrite Hpar in He. injection He as <-. now apply Hrunpar.
  - rewrite Hseq in He. injection He as <-. exact Hrunseq.
Qed.

Lemma filterOutputValue_vector_free b b' filterIndex filterMean outputColumnIndex
    (mem : Memory (ValueType := ValueType)) :
  1 <= bound_flt_packedRowSize b <= INT_MAX ->
  vectorsFit (bound_flt_vectorSize b) (bound_flt_numVectorBlocks b)
             (bound_flt_packedRowSize b) ->
  vectorsFit (bound_flt_vectorSize b') (bound_flt_numVectorBlocks b')
             (bound_flt_packedRowSize b) ->
  b' = mkBoundFilterBody (bound_flt_this b) (bound_flt_pInput b)
         (bound_flt_pFilterWeights b) (bound_flt_pFilterMeans b)
         (bound_flt_pInputPaddingMask b) (bound_flt_pInputPaddingMaskSums b)
         (bound_flt_pOutput b) (bound_flt_hasZeroPadding b) (bound_flt_outputColumns b)
         (bound_flt_packedRowSize b) (bound_flt_packedRowStride b)
         (bound_flt_useVectorInstructions b') (bound_flt_vectorSize b')
         (bound_flt_numVectorBlocks b') ->
  filterOutputValue castInt subtract multiply b filterIndex filterMean
                    outputColumnIndex mem
  = filterOutputValue castInt subtract multiply b' filterIndex filterMean
                      outputColumnIndex mem.
Proof.
  intros Hprs Hfit Hfit' Hb'. rewrite !filterOutputValue_xorSumOf. cbv zeta.
  destruct b, b'. simpl in *. inversion Hb'; subst.
  rewrite (xorSumOf_total mem _ _ _ _ _ _ _ _ Hprs Hfit).
  rewrite (xorSumOf_total mem _ _ _ _ _ _ _ _ Hprs Hfit').
  reflexivity.
Qed.

Lemma xn_packedRowSize_bounds node :
  xn_rowFits node ->
  1 <= (xn_fieldVolumeSize node - 1) / (8 * sizeof (xn_PackedBitsType node)) + 1
  <= INT_MAX.
Proof.
  intros (Hfw & Hnc & Hmax). unfold INT_MAX in *.
  destruct (numBits_cases (xn_PackedBitsType node)) as [_ Hnb].
  set (nb := 8 * sizeof (xn_PackedBitsType node)) in *.
  assert (HV : 1 <= xn_fieldVolumeSize node) by (unfold xn_fieldVolumeSize; nia).
  pose proof (Z.div_mod (xn_fieldVolumeSize node - 1) nb ltac:(lia)) as DM.
  pose proof (Z.mod_pos_bound (xn_fieldVolumeSize node - 1) nb ltac:(lia)) as MB.
  assert (Q0 : 0 <= (xn_fieldVolumeSize node - 1) / nb) by (apply Z.div_pos; lia).
  nia.
Qed.

Lemma filterEffect_vector_free b b' filterIndex (mem : Memory (ValueType := ValueType)) :
  1 <= bound_flt_packedRowSize b <= INT_MAX ->
  vectorsFit (bound_flt_vectorSize b) (bound_flt_numVectorBlocks b)
             (bound_flt_packedRowSize b) ->
  vectorsFit (bound_flt_vectorSize b') (bound_flt_numVectorBlocks b')
             (bound_flt_packedRowSize b) ->
  b' = mkBoundFilterBody (bound_flt_this b) (bound_flt_pInput b)
         (bound_flt_pFilterWeights b) (bound_flt_pFilterMeans b)
         (bound_flt_pInputPaddingMask b) (bound_flt_pInputPaddingMaskSums b)
         (bound_flt_pOutput b) (bound_flt_hasZeroPadding b) (bound_flt_outputColumns b)
         (bound_flt_packedRowSize b) (bound_flt_packedRowStride b)
         (bound_flt_useVectorInstructions b') (bound_flt_vectorSize b')
         (bound_flt_numVectorBlocks b') ->
  filterEffect uninitialized castInt subtract multiply b filterIndex mem
  = filterEffect uninitialized castInt subtract multiply b' filterIndex mem.
Proof.
  intros Hprs Hfit Hfit' Hb'.
  unfold filterEffect, execFilter, ComputeFilterOutput. simpl. unfold For.
  replace (bound_flt_outputColumns b') with (bound_flt_outputColumns b)
    by (rewrite Hb'; reflexivity).
  replace (bound_flt_pOutput b') with (bound_flt_pOutput b) by (rewrite Hb'; reflexivity).
  replace (bound_flt_pFilterMeans b') with (bound_flt_pFilterMeans b)
    by (rewrite Hb'; reflexivity).
  replace (bound_flt_this b') with (bound_flt_this b) by (rewrite Hb'; reflexivity).
  apply fold_left_ext_in. intros m col _. f_equal.
  now apply filterOutputValue_vector_free.
Qed.

(** X17: Vector instructions do not change what the xnor node computes: the
    code that [BinaryXnorNode::Compile] emits with [allowVectorInstructions]
    and the code it emits without end with the same memory, whatever the
    vector width and with tasks or without. *)
Theorem vector_instructions_keep_the_output compilerSettings node
    (frames frames' : nat -> unit) schedule schedule'
    (mem : Memory (ValueType := ValueType)) e e' :
  xn_wellFormed node -> xn_rowFits node ->
  1 <= maxThreads compilerSettings <= INT_MAX -> vectorWidthFits compilerSettings ->
  xn_Compile compilerSettings node = Some e -> validSchedule e schedule ->
  xn_Compile (withVectorInstructions false compilerSettings) node = Some e' ->
  validSchedule e' schedule' ->
  exists mem',
    runEmitted bindFilterBody (execFilter uninitialized castInt subtract multiply)
               frames schedule e mem = Some mem' /\
    runEmitted bindFilterBody (execFilter uninitialized castInt subtract multiply)
               frames' schedule' e' mem = Some mem'.
Proof.
  intros Hwf Hfit HD Hvw He Hvalid He' Hvalid'.
  assert (Hvw' : vectorWidthFits (withVectorInstructions false compilerSettings)).
  { destruct Hvw as [Hint _]. split; [exact Hint | discriminate]. }
  destruct (xn_Compile_runs compilerSettings node frames schedule mem e
              Hwf HD Hvw He Hvalid) as (tf & Htf & Hrun).
  destruct (xn_Compile_runs (withVectorInstructions false compilerSettings) node
              frames' schedule' mem e' Hwf HD Hvw' He' Hvalid') as (tf' & Htf' & Hrun').
  destruct (xn_boundBody_fields _ _ _ Hfit Hvw Htf) as (uv & nvb & Hb & Hv).
  destruct (xn_boundBody_fields _ _ _ Hfit Hvw' Htf') as (uv' & nvb' & Hb' & Hv').
  cbv zeta in *. eexists. split; [exact Hrun|]. rewrite Hrun'. f_equal.
  apply fold_left_ext_in. intros m i _. symmetry.
  rewrite Hb, Hb'. apply filterEffect_vector_free; simpl.
  - now apply xn_packedRowSize_bounds.
  - exact Hv.
  - exact Hv'.
  - reflexivity.
Qed.

End XnorRuns.

Lemma vector_instructions_keep_the_output_witness :
  exists e e' mem',
    xn_Compile vectorOptions sampleXnorNode = Some e /\
    xn_Compile (withVectorInstructions false vectorOptions) sampleXnorNode = Some e' /\
    runEmitted bindFilterBody (execFilter 0 (fun z => z) Z.sub Z.mul)
               (fun _ => tt) [] e sampleMemory = Some mem' /\
    runEmitted bindFilterBody (execFilter 0 (fun z => z) Z.sub Z.mul)
               (fun _ => tt) [] e' sampleMemory = Some mem'.
Proof.
  assert (He : exists e, xn_Compile vectorOptions sampleXnorNode = Some e)
    by (eexists; reflexivity).
  assert (He' : exists e', xn_Compile (withVectorInstructions false vectorOptions)
                                      sampleXnorNode = Some e')
    by (eexists; reflexivity).
  destruct He as [e He], He' as [e' He'].
  assert (Hseq : dispatchesTasks e = false /\ dispatchesTasks e' = false).
  { vm_compute in He, He'. injection He as <-. injection He' as <-. split; reflexivity. }
  destruct (vector_instructions_keep_the_output 0 (fun z => z) Z.sub Z.mul
              vectorOptions sampleXnorNode (fun _ => tt) (fun _ => tt) [] []
              sampleMemory e e') as (mem' & Hrun & Hrun').
  - exact (proj2 sample_nodes_wellFormed).
  - unfold xn_rowFits, xn_fieldVolumeSize. repeat split; vm_compute; discriminate.
  - vm_compute. split; discriminate.
  - split; [vm_compute; split; discriminate | discriminate].
  - exact He.
  - destruct e; [exact I | destruct Hseq; discriminate].
  - exact He'.
  - destruct e'; [exact I | destruct Hseq; discriminate].
  - exists e, e', mem'. auto.
Defined.

Section XnorConvolution.
Context {ValueType : Type}.
Variable uninitialized : ValueType.
Variable castInt : Z -> ValueType.
Variable subtract : ValueType -> ValueType -> ValueType.
Variable multiply : ValueType -> ValueType -> ValueType.

Lemma filterWrites_In b filterIndex (mem : Memory (ValueType := ValueType)) outputColumns :
  bound_flt_pOutput b = (output, 0) ->
  bound_flt_outputColumns b = outputColumns ->
  0 <= filterIndex -> 0 <= outputColumns ->
  (filterIndex + 1) * outputColumns <= INT_MAX ->
  let filterMean :=
    if decide (weightsScale (xn_convolutionalParameters (bound_flt_this b)) = scale_mean)
    then Some (readReal uninitialized mem (bound_flt_pFilterMeans b) filterIndex)
    else None in
  forall k v,
    In (k, v) (filterWrites uninitialized castInt subtract multiply b filterIndex mem)
    <-> exists col,
          0 <= col < outputColumns /\
          k = (output, filterIndex * outputColumns + col) /\
          v = filterOutputValue castInt subtract multiply b filterIndex filterMean col mem.
Proof.
  intros Hout Hoc Hf Hoc0 Hmax. cbv zeta. intros k v. unfold filterWrites. cbv zeta.
  rewrite Hout, Hoc. unfold INT_MAX in Hmax.
  assert (Hkey : forall col, 0 <= col < outputColumns ->
            PointerOffset (output, 0) (int_add (int_mul filterIndex outputColumns) col)
            = (output, filterIndex * outputColumns + col)).
  { intros col Hcol. unfold PointerOffset, int_add, int_mul. simpl.
    rewrite (wrap_small (filterIndex * outputColumns))
      by (unfold is_int, INT_MIN, INT_MAX; nia).
    rewrite wrap_small by (unfold is_int, INT_MIN, INT_MAX; nia). reflexivity. }
  rewrite in_map_iff. split.
  - intros (col & [= <- <-] & Hcol). apply in_loop_range in Hcol.
    exists col. split; [exact Hcol|]. split; [now apply Hkey | reflexivity].
  - intros (col & Hcol & -> & ->). exists col.
    split; [|now apply in_loop_range]. now rewrite Hkey.
Qed.

Lemma filters_fold b numFilters outputColumns l :
  bound_flt_pOutput b = (output, 0) ->
  bound_flt_pFilterMeans b = (filterMeans, 0) ->
  bound_flt_outputColumns b = outputColumns ->
  0 <= outputColumns -> 0 <= numFilters -> numFilters * outputColumns <= INT_MAX ->
  NoDup l -> (forall f, In f l -> 0 <= f < numFilters) ->
  forall mem : Memory (ValueType := ValueType),
    let filterMean f :=
      if decide (weightsScale (xn_convolutionalParameters (bound_flt_this b)) = scale_mean)
      then Some (readReal uninitialized mem (filterMeans, 0) f)
      else None in
    let final := fold_left (fun mem f => filterEffect uninitialized castInt subtract
                                           multiply b f mem) l mem in
    intCells final = intCells mem /\
    (forall f col, In f l -> 0 <= col < outputColumns ->
       realCells final !! (output, f * outputColumns + col)
       = Some (filterOutputValue castInt subtract multiply b f (filterMean f) col mem)) /\
    (forall p, (forall f col, In f l -> 0 <= col < outputColumns ->
                  p <> (output, f * outputColumns + col)) ->
       realCells final !! p = realCells mem !! p).
Proof.
  intros Hout Hmeans Hoc Hoc0 Hnf Hmax. unfold INT_MAX in Hmax. cbv zeta.
  induction l as [|a l IH]; intros Hnd Hl mem.
  - simpl. split; [reflexivity|]. split; [intros f col []|reflexivity].
  - inversion Hnd as [|? ? Ha Hnd']; subst.
    assert (Ha_range := Hl a (or_introl eq_refl)).
    assert (HIn : forall k v,
              In (k, v) (filterWrites uninitialized castInt subtract multiply b a mem)
              <-> exists col,
                    0 <= col < bound_flt_outputColumns b /\
                    k = (output, a * bound_flt_outputColumns b + col) /\
                    v = filterOutputValue castInt subtract multiply b a
                          (if decide (weightsScale
                                        (xn_convolutionalParameters (bound_flt_this b))
                                      = scale_mean)
                           then Some (readReal uninitialized mem
                                        (bound_flt_pFilterMeans b) a)
                           else None) col mem).
    { apply filterWrites_In; try assumption; try reflexivity; try lia.
      unfold INT_MAX. nia. }
    set (oc := bound_flt_outputColumns b) in *.
    set (m1 := filterEffect uninitialized castInt subtract multiply b a mem).
    assert (Hm1 : m1 = mkMemory
                         (applyWrites (filterWrites uninitialized castInt subtract
                                         multiply b a mem) (realCells mem))
                         (intCells mem)) by apply filterEffect_writes.
    assert (Hint1 : intCells m1 = intCells mem) by (rewrite Hm1; reflexivity).
    assert (Hother1 : forall p, (forall col, 0 <= col < oc -> p <> (output, a * oc + col)) ->
              realCells m1 !! p = realCells mem !! p).
    { intros p Hp. rewrite Hm1. simpl. apply applyWrites_lookup_other.
      intros Hin. apply in_map_iff in Hin as ([k v] & Hk & Hin). simpl in Hk. subst k.
      apply HIn in Hin as (col & Hcol & -> & _). now apply (Hp col). }
    assert (Hmean1 : forall f, readReal uninitialized m1 (filterMeans, 0) f
                               = readReal uninitialized mem (filterMeans, 0) f).
    { intros f. unfold readReal. f_equal. apply Hother1. intros col _. discriminate. }
    specialize (IH Hnd' (fun f Hf => Hl f (or_intror Hf)) m1).
    destruct IH as (IHint & IHrow & IHother). simpl fold_left. fold m1.
    split; [congruence|]. split.
    + intros f col [<- | Hf] Hcol.
      * rewrite IHother.
        -- rewrite Hm1. simpl. apply applyWrites_lookup_In.
           ++ apply HIn. exists col. rewrite Hmeans. auto.
           ++ intros v' Hv'. apply HIn in Hv' as (col' & Hcol' & [= E] & ->).
              assert (col' = col) by lia. subst col'. now rewrite Hmeans.
        -- intros f' col' Hf' Hcol' [= E].
           assert (f' = a); [|subst f'; apply Ha, list_elem_of_In, Hf'].
           pose proof (Hl f' (or_intror Hf')).
           destruct (Z.lt_total f' a) as [? | [? | ?]]; [nia | assumption | nia].
      * rewrite (IHrow f col Hf Hcol). f_equal. rewrite Hmean1.
        apply filterOutputValue_intCells. exact Hint1.
    + intros p Hp. rewrite IHother by (intros f col Hf; apply Hp; now right).
      apply Hother1. intros col Hcol. apply (Hp a col); [now left | exact Hcol].
Qed.

(** X18: What the code that [BinaryXnorNode::Compile] emits computes, with
    tasks or without, with vector instructions or without, for any
    [ValueType] with its cast from [int], its [-] and its [*].  It is stated
    for a node with sizes that fit, [1 <= maxThreads], a vector width that
    is not 0 when vectors are allowed, packed rows and filters whose bits
    past the receptive field agree, and, with zero padding, padding sums
    that count the masked positions.  Then the run ends; it changes no
    packed buffer; and the output value of filter [f] at output column
    [col], kept at index [f * outputColumns + col], comes from [dot], the
    dot product of the signs of packed input row [col] and packed filter
    [f] over the receptive field, the positions masked as zero padding left
    out: it is the cast of [dot] if the receptive field fills its blocks,
    otherwise the cast of [dot + unusedBits] less the cast of [unusedBits],
    subtracted in [ValueType]; the mean of the filter multiplies it if the
    node scales.  The run stores to the [numFilters * outputColumns] cells
    of the output only. *)
Theorem xn_Compile_computes_the_convolution compilerSettings node
    (frames : nat -> unit) schedule (mem : Memory (ValueType := ValueType)) e :
  xn_wellFormed node -> xn_rowFits node ->
  1 <= maxThreads compilerSettings <= INT_MAX -> vectorWidthFits compilerSettings ->
  xn_Compile compilerSettings node = Some e -> validSchedule e schedule ->
  let numBits := 8 * sizeof (xn_PackedBitsType node) in
  let fieldVolumeSize := xn_fieldVolumeSize node in
  let packedRowSize := (fieldVolumeSize - 1) / numBits + 1 in
  let packedRowStride :=
    ((fieldVolumeSize - 1) / 64 + 1) * (8 / sizeof (xn_PackedBitsType node)) in
  let hasZeroPadding := hasZeroPadding (xn_inputPaddingParameters node) in
  let outputColumns := dimension (GetActiveSize (xn_outputMemoryLayout node)) 0
                       * dimension (GetActiveSize (xn_outputMemoryLayout node)) 1 in
  let inputBit col :=
    streamBit numBits
      (readInt mem (PointerOffset (input, 0) (int_mul col packedRowSize))) in
  let weightBit f :=
    streamBit numBits
      (readInt mem (PointerOffset (filterWeights, 0) (int_mul f packedRowStride))) in
  let maskBit col :=
    streamBit numBits
      (readInt mem (PointerOffset (inputPaddingMasks, 0) (int_mul col packedRowStride))) in
  let filterMean f :=
    if decide (weightsScale (xn_convolutionalParameters node) = scale_mean)
    then Some (readReal uninitialized mem (filterMeans, 0) f)
    else None in
  (forall f col k,
     0 <= f < xn_numFilters node -> 0 <= col < outputColumns ->
     fieldVolumeSize <= k < numBits * packedRowSize ->
     inputBit col k = weightBit f k) ->
  (hasZeroPadding = true ->
   forall col, 0 <= col < outputColumns ->
     readInt mem (inputPaddingMaskSums, 0) col = maskedOut (maskBit col) fieldVolumeSize) ->
  exists mem',
    runEmitted bindFilterBody (execFilter uninitialized castInt subtract multiply)
               frames schedule e mem = Some mem' /\
    intCells mem' = intCells mem /\
    (forall f col,
       0 <= f < xn_numFilters node -> 0 <= col < outputColumns ->
       readReal uninitialized mem' (output, 0) (f * outputColumns + col)
       = scaleOutput multiply (filterMean f)
           (adjustedOutput castInt subtract numBits fieldVolumeSize
              (maskedDot hasZeroPadding (maskBit col) (inputBit col) (weightBit f)
                         fieldVolumeSize))) /\
    (forall p,
       (forall j, 0 <= j < xn_numFilters node * outputColumns -> p <> (output, j)) ->
       realCells mem' !! p = realCells mem !! p).
Proof.
  intros Hwf Hfit HD Hvw He Hvalid. cbv zeta. intros Htail Hpad.
  destruct (xn_Compile_runs uninitialized castInt subtract multiply compilerSettings
              node frames schedule mem e Hwf HD Hvw He Hvalid) as (tf & Htf & Hrun).
  destruct (xn_boundBody_fields _ _ _ Hfit Hvw Htf) as (uv & nvb & Hb & Hv).
  cbv zeta in Hb, Hv.
  destruct Hwf as (Hnf & Hd0 & Hd1 & Hmax). cbv zeta in Hmax. unfold INT_MAX in Hmax.
  fold (xn_numFilters node) in Hnf, Hmax.
  set (oc := dimension (GetActiveSize (xn_outputMemoryLayout node)) 0
             * dimension (GetActiveSize (xn_outputMemoryLayout node)) 1) in *.
  assert (Hoc0 : 0 <= oc) by (unfold oc; nia).
  assert (Hoc : int_mul (dimension (GetActiveSize (xn_outputMemoryLayout node)) 0)
                        (dimension (GetActiveSize (xn_outputMemoryLayout node)) 1) = oc).
  { unfold int_mul. apply wrap_small. unfold is_int, INT_MIN, INT_MAX. fold oc. nia. }
  rewrite Hoc in Hb.
  set (b := xn_boundBody tf) in *. clearbody b. subst b.
  match type of Hrun with context [filterEffect _ _ _ _ ?r] => set (b := r) in * end.
  destruct (filters_fold b (xn_numFilters node) oc (loop_range 0 (xn_numFilters node)))
    with (mem := mem) as (Hint & Hrow & Hother);
    try reflexivity; try lia.
  { unfold INT_MAX. lia. }
  { apply NoDup_loop_range. }
  { intros f Hf. now apply in_loop_range. }
  eexists. split; [exact Hrun|]. split; [exact Hint|]. split.
  - intros f col Hf Hcol. unfold readReal at 1. unfold PointerOffset at 1. simpl fst. simpl snd.
    change (0 + (f * oc + col)) with (f * oc + col).
    pose proof (Hrow f col (proj2 (in_loop_range _ _ f) (conj (proj1 Hf) (proj2 Hf))) Hcol) as Hval.
    unfold Ptr in *. rewrite Hval. simpl.
    rewrite (filterOutputValue_dot castInt subtract multiply b f _ col mem).
    + reflexivity.
    + exact Hfit.
    + reflexivity.
    + exact Hv.
    + simpl. intros k Hk. now apply Htail.
    + simpl. intros Hhz. now apply Hpad.
  - intros p Hp. apply Hother. intros f col Hf Hcol E. apply in_loop_range in Hf.
    apply (Hp (f * oc + col)); [nia | exact E].
Qed.

End XnorConvolution.

Lemma xn_Compile_computes_the_convolution_witness :
  exists e mem',
    xn_Compile vectorOptions plainXnorNode = Some e /\
    runEmitted bindFilterBody
               (execFilter (castDouble 0) castDouble PrimFloat.sub PrimFloat.mul)
               (fun _ => tt) [] e xnorMemoryDouble = Some mem' /\
    intCells mem' = intCells xnorMemoryDouble /\
    readReal (castDouble 0) mem' (output, 0) 0
    = adjustedOutput castDouble PrimFloat.sub 64 18
        (maskedDot false
           (streamBit 64 (readInt xnorMemoryDouble (inputPaddingMasks, 0)))
           (streamBit 64 (readInt xnorMemoryDouble (input, 0)))
           (streamBit 64 (readInt xnorMemoryDouble (filterWeights, 0))) 18) /\
    adjustedOutput castDouble PrimFloat.sub 64 18
        (maskedDot false
           (streamBit 64 (readInt xnorMemoryDouble (inputPaddingMasks, 0)))
           (streamBit 64 (readInt xnorMemoryDouble (input, 0)))
           (streamBit 64 (readInt xnorMemoryDouble (filterWeights, 0))) 18)
    = castDouble 14.
Proof.
  assert (He : exists e, xn_Compile vectorOptions plainXnorNode = Some e)
    by (eexists; reflexivity).
  destruct He as [e He].
  assert (Hseq : dispatchesTasks e = false).
  { vm_compute in He. injection He as <-. reflexivity. }
  destruct (xn_Compile_computes_the_convolution (castDouble 0) castDouble
              PrimFloat.sub PrimFloat.mul
              vectorOptions plainXnorNode (fun _ => tt) []
              xnorMemoryDouble e) as (mem' & Hrun & Hint & Hout & _).
  - vm_compute. repeat split; discriminate.
  - unfold xn_rowFits, xn_fieldVolumeSize. repeat split; vm_compute; discriminate.
  - vm_compute. split; discriminate.
  - split; [vm_compute; split; discriminate | discriminate].
  - exact He.
  - destruct e; [exact I | discriminate].
  - intros f col k Hf Hcol Hk.
    change (xn_numFilters plainXnorNode) with 1 in Hf.
    change (dimension (GetActiveSize (xn_outputMemoryLayout plainXnorNode)) 0
            * dimension (GetActiveSize (xn_outputMemoryLayout plainXnorNode)) 1)
      with 1 in Hcol.
    change (xn_fieldVolumeSize plainXnorNode) with 18 in Hk.
    change (8 * sizeof (xn_PackedBitsType plainXnorNode)) with 64 in *.
    change ((18 - 1) / 64 + 1) with 1 in Hk.
    assert (f = 0) by lia. assert (col = 0) by lia. subst f col.
    unfold streamBit. rewrite (Z.div_small k 64), (Z.mod_small k 64) by lia.
    change (Z.testbit 5 k = Z.testbit 3 k).
    rewrite !Z.bits_above_log2 by (simpl; lia). reflexivity.
  - discriminate.
  - exists e, mem'. split; [exact He|]. split; [exact Hrun|]. split; [exact Hint|].
    split; [|reflexivity].
    exact (Hout 0 0 ltac:(vm_compute; split; [discriminate | reflexivity])
                    ltac:(vm_compute; split; [discriminate | reflexivity])).
Defined.

End SignedBitFacts.

Module HuberLossFacts.
Import Floats.PrimFloat Floats.SpecFloat Floats.FloatOps Floats.FloatAxioms HuberLoss.
Local Open Scope float_scope.

(** ** The order of binary64 numbers *)

Lemma SFcompare_antisym x y :
  SFcompare y x = option_map CompOpp (SFcompare x y).
Proof.
  destruct x as [sx | sx | | sx mx ex], y as [sy | sy | | sy my ey]; simpl;
    try reflexivity; try (destruct sx; reflexivity); try (destruct sy; reflexivity);
    try (destruct sx, sy; reflexivity).
  pose proof (Pos.compare_cont_antisym mx my Eq) as Hm. simpl in Hm.
  destruct sx, sy; simpl; try reflexivity;
    rewrite (Z.compare_antisym ex ey); destruct (ex ?= ey)%Z; simpl; try reflexivity;
    rewrite <- Hm; now destruct (Pos.compare_cont Eq mx my).
Qed.

Lemma SFcompare_refl x : x <> S754_nan -> SFcompare x x = Some Eq.
Proof.
  destruct x as [s | s | | s m e]; simpl; intros Hx; try congruence.
  - now destruct s.
  - destruct s; rewrite Z.compare_refl, Pos.compare_cont_refl; reflexivity.
Qed.

Lemma is_nan_spec x : is_nan x = true <-> Prim2SF x = S754_nan.
Proof.
  unfold is_nan. rewrite eqb_spec. unfold SFeqb. split.
  - intros H. destruct (Prim2SF x) eqn:E; try reflexivity;
      rewrite SFcompare_refl in H by congruence; discriminate.
  - intros ->. reflexivity.
Qed.

Lemma is_nan_false x : is_nan x = false <-> Prim2SF x <> S754_nan.
Proof.
  rewrite <- is_nan_spec. destruct (is_nan x); split; congruence.
Qed.

(** Two numbers are comparable: if [x <= y] fails, then [y < x]. *)
Lemma leb_total x y :
  is_nan x = false -> is_nan y = false -> (x <=? y) = false -> (y <? x) = true.
Proof.
  rewrite !is_nan_false, leb_spec, ltb_spec. unfold SFleb, SFltb.
  rewrite (SFcompare_antisym (Prim2SF x) (Prim2SF y)).
  destruct (Prim2SF x) as [sx | sx | | sx mx ex], (Prim2SF y) as [sy | sy | | sy my ey];
    try congruence; intros _ _;
    match goal with |- context [SFcompare ?a ?b] => destruct (SFcompare a b) as [[]|] eqn:E end;
    simpl; try congruence.
  all: simpl in E; try discriminate;
    repeat match type of E with context [if ?s then _ else _] => destruct s end;
    discriminate.
Qed.


Lemma ltb_not_leb x y : (x <? y) = true -> (y <=? x) = false.
Proof.
  rewrite leb_spec, ltb_spec. unfold SFleb, SFltb.
  rewrite (SFcompare_antisym (Prim2SF x) (Prim2SF y)).
  now destruct (SFcompare (Prim2SF x) (Prim2SF y)) as [[]|].
Qed.

Lemma leb_nan_l x y : is_nan x = true -> (x <=? y) = false.
Proof. rewrite is_nan_spec, leb_spec. now intros ->. Qed.

Lemma leb_nan_r x y : is_nan y = true -> (x <=? y) = false.
Proof.
  rewrite is_nan_spec, leb_spec. intros ->. unfold SFleb. now destruct (Prim2SF x).
Qed.

Lemma ltb_nan_r x y : is_nan y = true -> (x <? y) = false.
Proof.
  rewrite is_nan_spec, ltb_spec. intros ->. unfold SFltb. now destruct (Prim2SF x).
Qed.

Lemma ltb_false_leb x y :
  is_nan x = false -> is_nan y = false -> (x <? y) = false -> (y <=? x) = true.
Proof.
  intros Hx Hy H. destruct (y <=? x) eqn:E; [reflexivity|].
  rewrite (leb_total y x Hy Hx E) in H. discriminate.
Qed.

Lemma leb_not_nan x y : (x <=? y) = true -> is_nan x = false /\ is_nan y = false.
Proof.
  intros H. split.
  - destruct (is_nan x) eqn:E; [|reflexivity]. now rewrite leb_nan_l in H.
  - destruct (is_nan y) eqn:E; [|reflexivity]. now rewrite leb_nan_r in H.
Qed.

Lemma is_nan_opp x : is_nan (- x) = is_nan x.
Proof.
  destruct (is_nan x) eqn:E.
  - apply is_nan_spec. apply is_nan_spec in E. now rewrite opp_spec, E.
  - apply is_nan_false. apply is_nan_false in E. rewrite opp_spec.
    now destruct (Prim2SF x).
Qed.

(** Above a nonnegative number all numbers are positive, and below its
    opposite none is. *)
Lemma above_nonnegative g r :
  (0 <=? g) = true -> (g <? r) = true -> (0 <? r) = true.
Proof.
  rewrite leb_spec, !ltb_spec. change (Prim2SF 0) with (S754_zero false).
  unfold SFleb, SFltb.
  destruct (Prim2SF g) as [sg | sg | | sg mg eg], (Prim2SF r) as [sr | sr | | sr mr er];
    simpl; intros H1 H2; try discriminate; try reflexivity;
    repeat match goal with s : bool |- _ => destruct s end;
    simpl in *; try discriminate; reflexivity.
Qed.

Lemma below_nonpositive g r :
  (0 <=? g) = true -> (r <? - g) = true -> (0 <? r) = false.
Proof.
  rewrite leb_spec, !ltb_spec, opp_spec. change (Prim2SF 0) with (S754_zero false).
  unfold SFleb, SFltb.
  destruct (Prim2SF g) as [sg | sg | | sg mg eg], (Prim2SF r) as [sr | sr | | sr mr er];
    simpl; intros H1 H2; try discriminate; try reflexivity;
    repeat match goal with s : bool |- _ => destruct s end;
    simpl in *; try discriminate; reflexivity.
Qed.


(** X20: For a loss with [gamma >= 0], [Derivative] is the residual divided by
    [gamma] and clipped: 1 above the band from [-gamma] to [gamma], -1 below
    it, and the quotient inside.  It is -1 too if the residual is not a
    number, where [Value] is not a number.  [Value] takes its quadratic
    branch for the residuals inside the band and no other. *)
Theorem Derivative_clips_the_residual this prediction output :
  (0 <=? _gamma this) = true ->
  let residual := prediction - output in
  Derivative this prediction output
  = (if is_nan residual then -1
     else if _gamma this <? residual then 1
     else if residual <? - _gamma this then -1
     else residual / _gamma this) /\
  Value this prediction output
  = (if is_nan residual || (_gamma this <? residual) || (residual <? - _gamma this)
     then abs residual - 0.5 * _gamma this
     else 0.5 / _gamma this * residual * residual) /\
  (is_nan residual = true -> is_nan (Value this prediction output) = true).
Proof.
  intros Hg. cbv zeta. unfold Derivative, Value.
  set (residual := prediction - output). set (g := _gamma this) in *.
  destruct (leb_not_nan _ _ Hg) as [_ Hgn].
  assert (Hgo : is_nan (- g) = false) by now rewrite is_nan_opp.
  destruct (is_nan residual) eqn:Hnan.
  - rewrite (leb_nan_r _ residual Hnan), (ltb_nan_r _ residual Hnan). simpl.
    repeat split. intros _. apply is_nan_spec. apply is_nan_spec in Hnan.
    now rewrite sub_spec, abs_spec, Hnan.
  - simpl. destruct (g <? residual) eqn:Ea.
    + rewrite (ltb_not_leb _ _ Ea), andb_false_r, (above_nonnegative _ _ Hg Ea).
      repeat split. discriminate.
    + rewrite (ltb_false_leb _ _ Hgn Hnan Ea), andb_true_r. simpl.
      destruct (residual <? - g) eqn:Eb.
      * rewrite (ltb_not_leb _ _ Eb), (below_nonpositive _ _ Hg Eb).
        repeat split. discriminate.
      * rewrite (ltb_false_leb _ _ Hnan Hgo Eb). repeat split. discriminate.
Qed.

Lemma Derivative_clips_the_residual_witness :
  Derivative default_HuberLoss 5 1 = 1 /\ Value default_HuberLoss 5 1 = 3.
Proof.
  destruct (Derivative_clips_the_residual default_HuberLoss 5 1 eq_refl) as (HD & HV & _).
  split; [rewrite HD | rewrite HV]; reflexivity.
Defined.

End HuberLossFacts.
